(** * Alpha-beta pruning practice: the search compiler and its playback log

    A shallow embedding of [src/lib/types.ts] and [src/lib/tree.ts]
    (the generator, the reversible action log, the search-to-actions
    compiler, reset, show-solution and answer checking), followed by the
    properties of the specification that are about them.

    Modelling choices.
    - JavaScript values that the code stores in node and edge fields are
      [JsVal]: [undefined], [null], a boolean or a number.  Numbers are the
      integers together with the two infinities (the generator only produces
      integers; [NaN] appears only as the result of converting [undefined]
      and is the [None] of [toNumber]).
    - The object graph is split into its immutable shape ([TreeNode]: id,
      kind, parent, depth, children) and a heap ([Store]) that holds every
      field the code assigns after construction, addressed by object
      identity ([Obj]) and field name ([Key]).  A field that was never
      assigned reads as [JUndefined], as in JavaScript.
    - A [TypeError] (calling a method on [undefined], iterating [undefined])
      is the [None] of an option. *)

From Stdlib Require Import ZArith List Bool Arith Lia Permutation.
From Stdlib Require Import Orders OrdersTac RelationClasses Morphisms.
Import ListNotations.

(* ================================================================== *)
(** ** Numbers and JavaScript values *)

Inductive Num : Type :=
| NegInf
| Fin (z : Z)
| PosInf.

Definition num_ltb (x y : Num) : bool :=
  match x, y with
  | NegInf, NegInf => false
  | NegInf, _ => true
  | Fin _, NegInf => false
  | Fin p, Fin q => Z.ltb p q
  | Fin _, PosInf => true
  | PosInf, _ => false
  end.

Definition num_leb (x y : Num) : bool := negb (num_ltb y x).

Definition num_eqb (x y : Num) : bool :=
  match x, y with
  | NegInf, NegInf => true
  | Fin p, Fin q => Z.eqb p q
  | PosInf, PosInf => true
  | _, _ => false
  end.

Definition num_max (x y : Num) : Num := if num_ltb x y then y else x.
Definition num_min (x y : Num) : Num := if num_ltb y x then y else x.

Inductive JsVal : Type :=
| JUndefined
| JNull
| JBool (b : bool)
| JNum (n : Num).

(** [ToNumber]; [None] is [NaN]. *)
Definition toNumber (v : JsVal) : option Num :=
  match v with
  | JUndefined => None
  | JNull => Some (Fin 0)
  | JBool true => Some (Fin 1)
  | JBool false => Some (Fin 0)
  | JNum n => Some n
  end.

(** [x < y], [x > y] and [x <= y] on arbitrary values: a comparison with
    [NaN] is false. *)
Definition js_lt (x y : JsVal) : bool :=
  match toNumber x, toNumber y with
  | Some p, Some q => num_ltb p q
  | _, _ => false
  end.

Definition js_gt (x y : JsVal) : bool := js_lt y x.

Definition js_le (x y : JsVal) : bool :=
  match toNumber x, toNumber y with
  | Some p, Some q => num_leb p q
  | _, _ => false
  end.

(** Truthiness, as tested by [if (v)], [!v], [v || w] and [v && w]. *)
Definition truthy (v : JsVal) : bool :=
  match v with
  | JUndefined | JNull => false
  | JBool b => b
  | JNum (Fin 0) => false
  | JNum _ => true
  end.

(** [x === y]. *)
Definition strict_eq (x y : JsVal) : bool :=
  match x, y with
  | JUndefined, JUndefined => true
  | JNull, JNull => true
  | JBool p, JBool q => Bool.eqb p q
  | JNum p, JNum q => num_eqb p q
  | _, _ => false
  end.

(** [x ?? y] and [x || y]. *)
Definition nullish_or (x y : JsVal) : JsVal :=
  match x with
  | JUndefined | JNull => y
  | _ => x
  end.

Definition js_or (x y : JsVal) : JsVal := if truthy x then x else y.

(* ================================================================== *)
(** ** Tree model ([types.ts]) *)

Inductive TreeNodeType : Type :=
| maxNode
| minNode
| randNode
| leafNode.

Definition TreeNodeType_eqb (x y : TreeNodeType) : bool :=
  match x, y with
  | maxNode, maxNode | minNode, minNode
  | randNode, randNode | leafNode, leafNode => true
  | _, _ => false
  end.

Definition oppositeNodeType (t : TreeNodeType) : TreeNodeType :=
  match t with
  | maxNode => minNode
  | minNode => maxNode
  | _ => t
  end.

Definition NodeId : Type := nat.

(** The immutable part of a [TreeNode].  [parentNode] is the non-owning
    back reference (the parent's id); [edgeToParent] exists exactly when
    [parentNode] does, see [edgeToParent] below.  A leaf's
    [new Array(bFac)] is never filled: all its slots read as [undefined],
    which is what looking up an empty [children] list gives. *)
#[local] Unset Elimination Schemes.
Inductive TreeNode : Type := mkTreeNode {
  id : NodeId;
  nodeType : TreeNodeType;
  parentNode : option NodeId;
  depth : nat;
  childNum : nat;
  children : list TreeNode
}.
#[local] Set Elimination Schemes.

(** Object identity: a node, or the edge object created for a node
    (the edge whose [target] is that node). *)
Inductive Obj : Type :=
| ONode (i : NodeId)
| OEdge (i : NodeId).

Definition Obj_eqb (x y : Obj) : bool :=
  match x, y with
  | ONode i, ONode j => Nat.eqb i j
  | OEdge i, OEdge j => Nat.eqb i j
  | _, _ => false
  end.

(** Field names.  The visible fields are [value], [alpha], [beta],
    [entered] and [pruned]; the shadow fields carry two underscores. *)
Inductive Key : Type :=
| value
| alpha
| beta
| entered
| pruned
| __value
| __alpha
| __beta
| __pruned.

Definition Key_eqb (x y : Key) : bool :=
  match x, y with
  | value, value | alpha, alpha | beta, beta | entered, entered
  | pruned, pruned | __value, __value | __alpha, __alpha
  | __beta, __beta | __pruned, __pruned => true
  | _, _ => false
  end.

Definition visible (k : Key) : bool :=
  match k with
  | value | alpha | beta | entered | pruned => true
  | _ => false
  end.

Definition Store : Type := Obj -> Key -> JsVal.

Definition emptyStore : Store := fun _ _ => JUndefined.

(** [o[k] = v] *)
Definition write (s : Store) (o : Obj) (k : Key) (v : JsVal) : Store :=
  fun o' k' => if Obj_eqb o o' && Key_eqb k k' then v else s o' k'.

Arguments write : simpl never.

Definition edgeToParent (n : TreeNode) : option Obj :=
  match parentNode n with
  | Some _ => Some (OEdge (id n))
  | None => None
  end.

Module Tree.
Record t : Type := mk {
  rootNode : option TreeNode;
  treeType : TreeNodeType;
  depth : nat;
  branchingFactor : nat;
  mutable : bool
}.
End Tree.

(* ================================================================== *)
(** ** Reversible action log ([Action], [ActionListQueue]) *)

Record Action : Type := mkAction {
  object : option Obj;
  key : Key;
  oldVal : JsVal;
  newVal : JsVal
}.

Definition apply (s : Store) (act : Action) : Store :=
  match object act with
  | None => s
  | Some o => write s o (key act) (newVal act)
  end.

Definition reverse (s : Store) (act : Action) : Store :=
  match object act with
  | None => s
  | Some o => write s o (key act) (oldVal act)
  end.

(** [for (const action of actionList) action.apply()] and the same loop
    with [reverse]: both run through the list front to back. *)
Definition applyAll (actionList : list Action) (s : Store) : Store :=
  fold_left apply actionList s.

Definition reverseAll (actionList : list Action) (s : Store) : Store :=
  fold_left reverse actionList s.

Module ActionListQueue.

Record t : Type := mk {
  inAction : bool;
  lastAction : Z;
  actionListQueue : list (list Action);
  length : Z
}.

Definition new : t := mk false (-1) [] 0.

Definition set_inAction (q : t) (v : bool) : t :=
  mk v (lastAction q) (actionListQueue q) (length q).

Definition set_lastAction (q : t) (v : Z) : t :=
  mk (inAction q) v (actionListQueue q) (length q).

Definition pushActionList (q : t) (actionList : list Action) : bool * t :=
  if inAction q then (false, q)
  else (true, mk (inAction q) (lastAction q)
                 (actionListQueue q ++ [actionList])
                 (length q + 1)).

Definition extendActionList (q : t) (actionLists : list (list Action))
  : bool * t :=
  if inAction q then (false, q)
  else (true, mk (inAction q) (lastAction q)
                 (actionListQueue q ++ actionLists)
                 (length q + Z.of_nat (List.length actionLists))).

(** [this.actionListQueue[i]]: [undefined] outside the array. *)
Definition stepAt (q : t) (i : Z) : option (list Action) :=
  if (i <? 0)%Z then None else nth_error (actionListQueue q) (Z.to_nat i).

(** [None] is the [TypeError] of iterating [undefined]. *)
Definition stepForward (q : t) (s : Store) : option (bool * t * Store) :=
  if negb (inAction q)
     || (lastAction q =? Z.of_nat (List.length (actionListQueue q)) - 1)%Z
  then Some (false, q, s)
  else
    let q' := set_lastAction q (lastAction q + 1) in
    match stepAt q' (lastAction q') with
    | None => None
    | Some actionList => Some (true, q', applyAll actionList s)
    end.

Definition stepBackward (q : t) (s : Store) : option (bool * t * Store) :=
  if negb (inAction q) || (lastAction q =? -1)%Z
  then Some (false, q, s)
  else
    match stepAt q (lastAction q) with
    | None => None
    | Some actionList =>
        Some (true, set_lastAction q (lastAction q - 1),
              reverseAll actionList s)
    end.

(** [while (this.stepForward()) {}], unrolled at most [fuel] times;
    [None] when a step raised or the bound was exceeded. *)
Fixpoint whileStepForward (fuel : nat) (q : t) (s : Store)
  : option (t * Store) :=
  match fuel with
  | O => None
  | S fuel' =>
      match stepForward q s with
      | None => None
      | Some (false, q', s') => Some (q', s')
      | Some (true, q', s') => whileStepForward fuel' q' s'
      end
  end.

Fixpoint whileStepBackward (fuel : nat) (q : t) (s : Store)
  : option (t * Store) :=
  match fuel with
  | O => None
  | S fuel' =>
      match stepBackward q s with
      | None => None
      | Some (false, q', s') => Some (q', s')
      | Some (true, q', s') => whileStepBackward fuel' q' s'
      end
  end.

(** The loops make at most one call per step of the log plus the final
    call that returns [false]. *)
Definition loopBound (q : t) : nat := S (List.length (actionListQueue q)).

Definition goToEnd (q : t) (s : Store) : option (t * Store) :=
  if negb (inAction q) then Some (q, s)
  else whileStepForward (loopBound q) q s.

Definition goToBeginning (q : t) (s : Store) : option (t * Store) :=
  if negb (inAction q) then Some (q, s)
  else whileStepBackward (loopBound q) q s.

End ActionListQueue.

(* ================================================================== *)
(** ** Tree generator ([createTree], [generateABTreeRootNode]) *)

Definition createTree (treeType : TreeNodeType) (depth branchingFactor : nat)
  : Tree.t :=
  Tree.mk None treeType depth branchingFactor true.

(** What generation threads through its calls: the module-level counter
    [globalNodeId], the heap, and the number of [Math.random()] calls made
    so far. *)
Record GenState : Type := mkGenState {
  globalNodeId : nat;
  heap : Store;
  randomCalls : nat
}.

(** [for (let k = 0; k < bFac; k++) children[k] = f()] *)
Fixpoint fillSlots {A St : Type} (bFac : nat) (f : St -> option (A * St))
    (st : St) : option (list A * St) :=
  match bFac with
  | O => Some ([], st)
  | S k =>
      match f st with
      | None => None
      | Some (c, st1) =>
          match fillSlots k f st1 with
          | None => None
          | Some (cs, st2) => Some (c :: cs, st2)
          end
      end
  end.

Section Generator.

(** [randomRound i r] stands for [Math.round(Math.random() * r)] at the
    [i]-th call of [Math.random]: the floating-point draw is not
    modelled, only that its rounded product is some integer (the two
    zeros of a double are the one integer 0; [===] and the comparisons of
    the search do not tell them apart).

    Numbers are integers here, and [maxVal - minVal] and the subtraction
    of [maxVal] from the rounded draw are the exact differences.  The code
    computes both in double precision, which gives the exact difference
    as long as the operands and the result are integers a double holds
    exactly ([safeInteger], magnitude below [2^53]); beyond that range the
    code rounds and the exact value computed here is not the one it
    stores.  The shape of the tree, the identifiers and the number of
    draws do not depend on the values. *)
Variable randomRound : nat -> Z -> Z.

Variable maxDepth : nat.
Variables minVal maxVal : Z.

(** The recursion stops only at [depth === maxDepth]; [fuel] bounds the
    nesting of calls and [None] means it was exceeded. *)
Fixpoint generateSubTree (fuel : nat) (parentNode : option NodeId)
    (nodeType : TreeNodeType) (depth bFac : nat) (st : GenState)
  : option (TreeNode * GenState) :=
  match fuel with
  | O => None
  | S fuel' =>
      let curId := S (globalNodeId st) in
      let h1 := write (heap st) (ONode curId) value JNull in
      let h2 := match parentNode with
                | Some _ => write h1 (OEdge curId) pruned (JBool false)
                | None => h1
                end in
      if Nat.eqb depth maxDepth then
        let v := (randomRound (randomCalls st) (maxVal - minVal) - maxVal)%Z in
        Some (mkTreeNode curId leafNode parentNode depth bFac [],
              mkGenState curId
                         (write h2 (ONode curId) value (JNum (Fin v)))
                         (S (randomCalls st)))
      else
        match fillSlots bFac
                (generateSubTree fuel' (Some curId)
                                 (oppositeNodeType nodeType) (S depth) bFac)
                (mkGenState curId h2 (randomCalls st)) with
        | None => None
        | Some (cs, st') =>
            Some (mkTreeNode curId nodeType parentNode depth bFac cs, st')
        end
  end.

Definition generateABTreeRootNode (fuel : nat) (treeType : TreeNodeType)
    (branchingFactor : nat) (st : GenState)
  : option (TreeNode * GenState) :=
  generateSubTree fuel None treeType 1 branchingFactor st.

End Generator.

(* ================================================================== *)
(** ** Search-to-actions compiler ([alphaBeta]) *)

(** [for (let k = 0; k < bFac; k++) f(children[k])] for an [f] that
    ignores [undefined]: the slots past the end of [cs] read as
    [undefined]. *)
Fixpoint forChildren {St : Type} (f : TreeNode -> St -> St) (bFac : nat)
    (cs : list TreeNode) (k : nat) (s : St) : St :=
  match cs with
  | [] => s
  | c :: cs' =>
      if Nat.ltb k bFac then forChildren f bFac cs' (S k) (f c s) else s
  end.

(** [pruneInner] with the [actions] array and the heap as accumulator. *)
Fixpoint pruneInner (bFac : nat) (n : TreeNode) (acc : list Action * Store)
  : list Action * Store :=
  let acc1 :=
    match edgeToParent n with
    | Some e =>
        (fst acc ++ [mkAction (Some e) pruned (JBool false) (JBool true)],
         write (snd acc) e __pruned (JBool true))
    | None => acc
    end in
  forChildren (pruneInner bFac) bFac (children n) 0 acc1.

Definition generatePruneActionList (node : option TreeNode) (bFac : nat)
    (s : Store) : list Action * Store :=
  match node with
  | None => ([], s)
  | Some n => pruneInner bFac n ([], s)
  end.

Record ABResult : Type := mkABResult {
  returnVal : JsVal;
  enterActions : list Action;
  childActionsList : list (list Action);
  exitActions : list Action
}.

(** The variables of [abActions] that its child loop updates. *)
Record LoopState : Type := mkLoopState {
  l_a : JsVal;
  l_b : JsVal;
  l_pruneRest : bool;
  l_lastChildExitActions : list Action;
  l_curVal : JsVal;
  l_childActionsList : list (list Action);
  l_store : Store
}.

(** The [pruneRest] branch of the loop body; [child] is [children[k]]. *)
Definition pruneChild (bFac : nat) (node : TreeNode)
    (child : option TreeNode) (st : LoopState) : LoopState :=
  let '(acts, s1) := generatePruneActionList child bFac (l_store st) in
  mkLoopState (l_a st) (l_b st) (l_pruneRest st)
    (l_lastChildExitActions st ++ acts
       ++ [mkAction (Some (ONode (id node))) pruned (JBool false) (JBool true)])
    (l_curVal st) (l_childActionsList st)
    (write s1 (ONode (id node)) __pruned (JBool true)).

(** The other branch, given the result [res] of the recursive call on the
    child and the heap [s1] it left.  The two copies of the loop in the
    source differ only in the comparison and in which bound they move. *)
Definition afterChild (node : TreeNode) (isMaxNode : bool)
    (res : ABResult) (s1 : Store) (st : LoopState) : LoopState :=
  let me := ONode (id node) in
  let r := returnVal res in
  let better := if isMaxNode then js_gt r (l_curVal st)
                else js_lt r (l_curVal st) in
  let curVal := if better then r else l_curVal st in
  let sv1 := if better then [mkAction (Some me) value (s1 me __value) r]
             else [] in
  let s2 := if better then write s1 me __value r else s1 in
  let tighter := if isMaxNode then js_gt r (l_a st) else js_lt r (l_b st) in
  let a := if isMaxNode && tighter then r else l_a st in
  let b := if negb isMaxNode && tighter then r else l_b st in
  let bound := if isMaxNode then alpha else beta in
  let __bound := if isMaxNode then __alpha else __beta in
  let setValActions :=
    if tighter then sv1 ++ [mkAction (Some me) bound (s2 me __bound) r]
    else sv1 in
  let s3 := if tighter then write s2 me __bound r else s2 in
  let hasInner := negb (Nat.eqb (List.length (childActionsList res)) 0) in
  let resExit := if hasInner then exitActions res ++ setValActions
                 else exitActions res in
  let resEnter := if hasInner then enterActions res
                  else enterActions res ++ setValActions in
  let resEnter := resEnter ++ l_lastChildExitActions st in
  mkLoopState a b (js_le b a) resExit curVal
    (l_childActionsList st ++ [resEnter] ++ childActionsList res) s3.

(** Slots [k .. bFac-1] when [children] has run out: [children[k]] is
    [undefined], so a search call on it raises. *)
Fixpoint missingChildren (bFac : nat) (node : TreeNode) (n : nat)
    (st : LoopState) : option LoopState :=
  match n with
  | O => Some st
  | S n' =>
      if l_pruneRest st
      then missingChildren bFac node n' (pruneChild bFac node None st)
      else None
  end.

Fixpoint childLoop
    (rec : TreeNode -> JsVal -> JsVal -> bool -> Store
           -> option (ABResult * Store))
    (bFac : nat) (node : TreeNode) (isMaxNode : bool)
    (cs : list TreeNode) (k : nat) (st : LoopState) : option LoopState :=
  match cs with
  | [] => missingChildren bFac node (bFac - k) st
  | child :: cs' =>
      if Nat.ltb k bFac then
        if l_pruneRest st then
          childLoop rec bFac node isMaxNode cs' (S k)
                    (pruneChild bFac node (Some child) st)
        else
          match rec child (l_a st) (l_b st) (negb isMaxNode) (l_store st) with
          | None => None
          | Some (res, s1) =>
              childLoop rec bFac node isMaxNode cs' (S k)
                        (afterChild node isMaxNode res s1 st)
          end
      else Some st
  end.

Fixpoint abActions (bFac : nat) (node : TreeNode) (a b : JsVal)
    (isMaxNode : bool) (s : Store) {struct node} : option (ABResult * Store) :=
  let me := ONode (id node) in
  let enter :=
    [mkAction (edgeToParent node) entered (JBool false) (JBool true);
     mkAction (Some me) entered (JBool false) (JBool true)] in
  if TreeNodeType_eqb (nodeType node) leafNode then
    Some (mkABResult (s me value) enter []
            [mkAction (edgeToParent node) entered (JBool true) (JBool false)],
          s)
  else
    let enter := enter ++ [mkAction (Some me) alpha (s me alpha) a;
                           mkAction (Some me) beta (s me beta) b] in
    let s0 := write (write s me __alpha a) me __beta b in
    let curVal := JNum (if isMaxNode then NegInf else PosInf) in
    match childLoop (abActions bFac) bFac node isMaxNode (children node) 0
                    (mkLoopState a b false [] curVal [] s0) with
    | None => None
    | Some st =>
        Some (mkABResult (l_curVal st) enter
                (l_childActionsList st ++ [l_lastChildExitActions st])
                [mkAction (edgeToParent node) entered (JBool true) (JBool false);
                 mkAction (Some me) entered (JBool true) (JBool false)],
              l_store st)
    end.

Definition alphaBeta (tree : Tree.t) (s : Store)
  : option (ActionListQueue.t * Store) :=
  match Tree.rootNode tree with
  | None => Some (ActionListQueue.new, s)
  | Some root =>
      match abActions (Tree.branchingFactor tree) root
                      (JNum NegInf) (JNum PosInf)
                      (TreeNodeType_eqb (Tree.treeType tree) maxNode) s with
      | None => None
      | Some (res, s') =>
          let actionLQ := ActionListQueue.new in
          let actionLQ :=
            snd (ActionListQueue.pushActionList actionLQ (enterActions res)) in
          let actionLQ :=
            snd (ActionListQueue.extendActionList actionLQ
                   (childActionsList res)) in
          let actionLQ :=
            snd (ActionListQueue.pushActionList actionLQ (exitActions res)) in
          Some (actionLQ, s')
      end
  end.

(* ================================================================== *)
(** ** Reset, show solution, check answer *)

Fixpoint resetSubTree (node : TreeNode) (s : Store) : Store :=
  let me := ONode (id node) in
  let s1 := match edgeToParent node with
            | Some e => write (write s e entered (JBool false))
                              e pruned (JBool false)
            | None => s
            end in
  let s2 := write s1 me entered (JBool false) in
  if TreeNodeType_eqb (nodeType node) leafNode then s2
  else
    let s3 := write (write (write s2 me value JNull) me alpha JNull)
                    me beta JNull in
    forChildren resetSubTree (childNum node) (children node) 0 s3.

Definition resetTree (root : option TreeNode) (s : Store) : Store :=
  match root with
  | None => s
  | Some node => resetSubTree node s
  end.

Fixpoint setSolutionForSubTree (node : TreeNode) (s : Store) : Store :=
  let me := ONode (id node) in
  let s1 := match edgeToParent node with
            | Some e => write s e pruned (js_or (s e __pruned) (JBool false))
            | None => s
            end in
  if TreeNodeType_eqb (nodeType node) leafNode then s1
  else
    let s2 := write s1 me value (nullish_or (s1 me __value) JNull) in
    let s3 := write s2 me alpha (nullish_or (s2 me __alpha) JNull) in
    let s4 := write s3 me beta (nullish_or (s3 me __beta) JNull) in
    let s5 := write s4 me pruned (js_or (s4 me __pruned) (JBool false)) in
    forChildren setSolutionForSubTree (childNum node) (children node) 0 s5.

Definition setSolution (root : option TreeNode) (s : Store) : Store :=
  match root with
  | None => s
  | Some node => setSolutionForSubTree node s
  end.

Fixpoint checkSubTree (s : Store) (node : TreeNode) : bool :=
  if TreeNodeType_eqb (nodeType node) leafNode then true
  else if negb (strict_eq (s (ONode (id node)) value)
                          (s (ONode (id node)) __value)) then false
  else if match edgeToParent node with
          | Some e => truthy (s e __pruned)
                      && negb (strict_eq (s e __pruned) (s e pruned))
          | None => false
          end then false
  else
    forChildren (fun c res => res && checkSubTree s c)
                (childNum node) (children node) 0 true.

Definition checkAnswer (root : option TreeNode) (s : Store) : bool :=
  match root with
  | None => true
  | Some node => checkSubTree s node
  end.

(** [onEdgeToggle] of the application: [edge.pruned = !edge.pruned]. *)
Definition onEdgeToggle (e : Obj) (s : Store) : Store :=
  write s e pruned (JBool (negb (truthy (s e pruned)))).

(* ================================================================== *)
(** ** Clients of the log *)

(** What a client can do to a queue: call its methods, or assign its
    public [inAction] field as the application does when playback is
    toggled. *)
Inductive Call : Type :=
| CallPushActionList (actionList : list Action)
| CallExtendActionList (actionLists : list (list Action))
| CallStepForward
| CallStepBackward
| CallGoToEnd
| CallGoToBeginning
| SetInAction (v : bool).

Definition runCall (c : Call) (q : ActionListQueue.t) (s : Store)
  : option (ActionListQueue.t * Store) :=
  match c with
  | CallPushActionList al => Some (snd (ActionListQueue.pushActionList q al), s)
  | CallExtendActionList als =>
      Some (snd (ActionListQueue.extendActionList q als), s)
  | CallStepForward =>
      match ActionListQueue.stepForward q s with
      | Some (_, q', s') => Some (q', s')
      | None => None
      end
  | CallStepBackward =>
      match ActionListQueue.stepBackward q s with
      | Some (_, q', s') => Some (q', s')
      | None => None
      end
  | CallGoToEnd => ActionListQueue.goToEnd q s
  | CallGoToBeginning => ActionListQueue.goToBeginning q s
  | SetInAction v => Some (ActionListQueue.set_inAction q v, s)
  end.

Fixpoint runCalls (cs : list Call) (q : ActionListQueue.t) (s : Store)
  : option (ActionListQueue.t * Store) :=
  match cs with
  | [] => Some (q, s)
  | c :: cs' =>
      match runCall c q s with
      | None => None
      | Some (q', s') => runCalls cs' q' s'
      end
  end.

(** The cursor is [-1] or the index of a step of the log. *)
Definition cursorInRange (q : ActionListQueue.t) : Prop :=
  (-1 <= ActionListQueue.lastAction q
   < Z.of_nat (List.length (ActionListQueue.actionListQueue q)))%Z.

(* ================================================================== *)
(** ** The application's use of the core ([App.tsx]) *)

(** [regenerateTree] followed by [ensureAction]: generate a root for the
    tree's declared kind, depth and branching factor, then compile the
    search on it.  The result is the root, the log, and the heap. *)
Definition generateAndCompile (randomRound : nat -> Z -> Z) (fuel : nat)
    (treeType : TreeNodeType) (depth branchingFactor : nat)
    (minVal maxVal : Z) (st : GenState)
  : option (TreeNode * ActionListQueue.t * Store) :=
  match generateABTreeRootNode randomRound depth minVal maxVal fuel
          treeType branchingFactor st with
  | None => None
  | Some (root, st') =>
      match alphaBeta (Tree.mk (Some root) treeType depth branchingFactor true)
                      (heap st') with
      | None => None
      | Some (q, s) => Some (root, q, s)
      end
  end.

(** The state of a process that has generated nothing yet. *)
Definition initialGenState : GenState := mkGenState 0 emptyStore 0.

(** Draws that make the leaves, left to right, [3, 5, 2, 9] for the
    application's range [-20 .. 20]. *)
Definition scenarioDraws (i : nat) (_ : Z) : Z :=
  nth i [23; 25; 22; 29]%Z 0%Z.

Definition scenario : option (TreeNode * ActionListQueue.t * Store) :=
  generateAndCompile scenarioDraws 3 maxNode 3 2 (-20) 20 initialGenState.

(** All nodes of a subtree, parents before children, left to right. *)
Fixpoint nodes (n : TreeNode) : list TreeNode :=
  n :: flat_map nodes (children n).

Definition isLeaf (n : TreeNode) : bool :=
  TreeNodeType_eqb (nodeType n) leafNode.

(** The values of the leaves, left to right. *)
Definition leafValues (s : Store) (root : TreeNode) : list JsVal :=
  map (fun n => s (ONode (id n)) value) (filter isLeaf (nodes root)).

(** The verification contract as the specification words it: every
    interior node's visible value is its shadow value, and every edge the
    shadow marks as pruned is visibly pruned. *)
Definition answersMatch (root : TreeNode) (s : Store) : Prop :=
  (forall n, In n (nodes root) -> isLeaf n = false ->
             s (ONode (id n)) value = s (ONode (id n)) __value) /\
  (forall n e, In n (nodes root) -> edgeToParent n = Some e ->
               s e __pruned = JBool true -> s e pruned = s e __pruned).

(** The scenario tree after "Show Solution" and one click on the edge into
    the last leaf (the one valued 9, node 7), which un-prunes it. *)
Definition scenarioAfterUntoggle : option (TreeNode * Store) :=
  match scenario with
  | None => None
  | Some (root, _, s) =>
      Some (root, onEdgeToggle (OEdge 7) (setSolution (Some root) s))
  end.

(* ================================================================== *)
(** ** Shape of generated trees *)

Definition objId (o : Obj) : NodeId :=
  match o with
  | ONode i => i
  | OEdge i => i
  end.

(** [GenTree maxDepth bFac parent ty d lo hi n]: [n] is what one call
    [generateSubTree(parent, ty, d, bFac)] builds when it finds the id
    counter at [lo] and leaves it at [hi]. *)
Inductive GenTree (maxDepth bFac : nat)
  : option NodeId -> TreeNodeType -> nat -> nat -> nat -> TreeNode -> Prop :=
| GenLeaf : forall parent ty lo,
    GenTree maxDepth bFac parent ty maxDepth lo (S lo)
            (mkTreeNode (S lo) leafNode parent maxDepth bFac [])
| GenInner : forall parent ty d lo hi cs,
    d < maxDepth ->
    List.length cs = bFac ->
    GenForest maxDepth bFac (Some (S lo)) (oppositeNodeType ty) (S d)
              (S lo) hi cs ->
    GenTree maxDepth bFac parent ty d lo hi
            (mkTreeNode (S lo) ty parent d bFac cs)
with GenForest (maxDepth bFac : nat)
  : option NodeId -> TreeNodeType -> nat -> nat -> nat -> list TreeNode -> Prop :=
| GenNil : forall parent ty d lo,
    GenForest maxDepth bFac parent ty d lo lo []
| GenCons : forall parent ty d lo mid hi c cs,
    GenTree maxDepth bFac parent ty d lo mid c ->
    GenForest maxDepth bFac parent ty d mid hi cs ->
    GenForest maxDepth bFac parent ty d lo hi (c :: cs).

Scheme GenTree_mind := Minimality for GenTree Sort Prop
  with GenForest_mind := Minimality for GenForest Sort Prop.

Combined Scheme GenTree_GenForest_ind from GenTree_mind, GenForest_mind.

(** The fields generation assigns: [value] on nodes, [pruned] on edges. *)
Definition isGenField (o : Obj) (k : Key) : bool :=
  match o, k with
  | ONode _, value => true
  | OEdge _, pruned => true
  | _, _ => false
  end.

(** Generation only assigns generated fields of the objects it creates,
    whose ids are the ones in [(lo, hi]]. *)
Definition genWrites (lo hi : nat) (h h' : Store) : Prop :=
  forall o k,
    objId o <= lo \/ hi < objId o \/ isGenField o k = false ->
    h' o k = h o k.

(** The generated fields of the nodes of a subtree. *)
Definition genFields (maxDepth : nat) (h : Store) (n : TreeNode) : Prop :=
  forall m, In m (nodes n) ->
    (depth m = maxDepth -> exists z, h (ONode (id m)) value = JNum (Fin z)) /\
    (depth m <> maxDepth -> h (ONode (id m)) value = JNull) /\
    (parentNode m <> None -> h (OEdge (id m)) pruned = JBool false).

(** What one terminating call of [generateSubTree] achieves. *)
Definition genPost (maxDepth bFac : nat) (parent : option NodeId)
    (ty : TreeNodeType) (d : nat)
    (st : GenState) (n : TreeNode) (st' : GenState) : Prop :=
  GenTree maxDepth bFac parent ty d (globalNodeId st) (globalNodeId st') n /\
  genWrites (globalNodeId st) (globalNodeId st') (heap st) (heap st') /\
  genFields maxDepth (heap st') n.

(** No object exists yet whose id the counter has not issued. *)
Definition freshAbove (st : GenState) : Prop :=
  forall o k, globalNodeId st < objId o -> heap st o k = JUndefined.

(** The fields the search compiler assigns. *)
Definition shadowField (o : Obj) (k : Key) : bool :=
  match o, k with
  | ONode _, (__value | __alpha | __beta | __pruned) => true
  | OEdge _, __pruned => true
  | _, _ => false
  end.

(** Every node that is not of leaf kind has [bFac] children. *)
Definition complete (bFac : nat) (n : TreeNode) : Prop :=
  forall m, In m (nodes n) ->
    isLeaf m = false -> List.length (children m) = bFac.

(** What the generator guarantees of every node [m] of the tree it
    returns, apart from heap contents: its depth is within the declared
    one, at the declared depth it is a leaf without children, above it has
    [bFac] children, each one level down, pointing back to [m], and of the
    opposite kind unless it is a leaf. *)
Definition nodeShape (maxDepth bFac : nat) (m : TreeNode) : Prop :=
  1 <= depth m <= maxDepth /\
  childNum m = bFac /\
  (depth m = maxDepth -> nodeType m = leafNode /\ children m = []) /\
  (depth m < maxDepth ->
   List.length (children m) = bFac /\
   forall c, In c (children m) ->
     depth c = S (depth m) /\
     parentNode c = Some (id m) /\
     (depth c < maxDepth -> nodeType c = oppositeNodeType (nodeType m))).

(** [framed s s']: [s'] differs from [s] at most in shadow fields. *)
Definition framed (s s' : Store) : Prop :=
  forall o k, shadowField o k = false -> s' o k = s o k.

(* ================================================================== *)
(** ** Reference evaluation and search invariants *)

(** Fold the children's values, failing when one of them has none. *)
Definition foldFrom (f : Num -> Num -> Num) (acc : option Num)
    (vs : list (option Num)) : option Num :=
  fold_left (fun acc v => match acc, v with
                          | Some p, Some q => Some (f p q)
                          | _, _ => None
                          end) vs acc.

(** Full minimax by node kind, with no pruning: a leaf is worth its value,
    a max node the largest of its children's values, a min node the
    smallest.  There is no rule for a [randNode], nor for a leaf whose
    value is not a number. *)
Fixpoint minimax (s : Store) (n : TreeNode) : option Num :=
  match nodeType n with
  | leafNode =>
      match s (ONode (id n)) value with
      | JNum x => Some x
      | _ => None
      end
  | maxNode => foldFrom num_max (Some NegInf) (map (minimax s) (children n))
  | minNode => foldFrom num_min (Some PosInf) (map (minimax s) (children n))
  | randNode => None
  end.

(** Every leaf of the subtree holds a finite number. *)
Definition leavesFinite (s : Store) (n : TreeNode) : Prop :=
  forall m, In m (nodes n) -> isLeaf m = true ->
            exists z, s (ONode (id m)) value = JNum (Fin z).

(** The [isMaxNode] flag the search passes down agrees with the kinds of
    the nodes that are not leaves. *)
#[local] Unset Elimination Schemes.
Inductive KindsAgree : bool -> TreeNode -> Prop :=
| KindsLeaf : forall (isMax : bool) (n : TreeNode),
    isLeaf n = true -> KindsAgree isMax n
| KindsInner : forall (isMax : bool) (n : TreeNode),
    nodeType n = (if isMax then maxNode else minNode) ->
    Forall (KindsAgree (negb isMax)) (children n) ->
    KindsAgree isMax n.
#[local] Set Elimination Schemes.

Definition num_lt (x y : Num) : Prop := num_ltb x y = true.
Definition num_le (x y : Num) : Prop := num_leb x y = true.

(** [bounds v m a b]: what a fail-soft search with window [(a, b)]
    promises of its result [v] about the true value [m]: below [b] the
    result is an upper bound, above [a] it is a lower bound (so strictly
    inside the window it is exact). *)
Definition bounds (v m a b : Num) : Prop :=
  (num_ltb v b = true -> num_leb m v = true) /\
  (num_ltb a v = true -> num_leb v m = true).

Definition ids (n : TreeNode) : list NodeId := map id (nodes n).

(** [modifies F s s']: [s'] differs from [s] at most in the fields [F]. *)
Definition modifies (F : Obj -> Key -> Prop) (s s' : Store) : Prop :=
  forall o k, ~ F o k -> s' o k = s o k.

(** The fields a search of the subtree [n] may assign: shadow fields of
    its nodes, and the shadow pruned flag of the edges below [n] (the edge
    into [n] itself belongs to the caller). *)
Definition searchTouches (n : TreeNode) (o : Obj) (k : Key) : Prop :=
  match o with
  | ONode i => In i (ids n) /\ shadowField o k = true
  | OEdge i => In i (flat_map ids (children n)) /\ k = __pruned
  end.

(** The fields pruning the subtree [n] may assign: the shadow pruned flag
    of the edges into its nodes. *)
Definition pruneTouches (n : TreeNode) (o : Obj) (k : Key) : Prop :=
  match o with
  | ONode _ => False
  | OEdge i => In i (ids n) /\ k = __pruned
  end.

(** What the child loop of [abActions] maintains, for a call with window
    [(a0, b0)]: [cur] is the best value so far, and the bound the node
    moves (alpha for a maximiser, beta for a minimiser) is the incoming one
    improved by [cur]; [pruneRest] says whether the window has closed. *)
Definition loopInv (isMax : bool) (a0 b0 cur : Num) (st : LoopState) : Prop :=
  l_curVal st = JNum cur /\
  l_a st = JNum (if isMax then num_max a0 cur else a0) /\
  l_b st = JNum (if isMax then b0 else num_min b0 cur) /\
  l_pruneRest st = num_leb (if isMax then b0 else num_min b0 cur)
                           (if isMax then num_max a0 cur else a0).

(** Before the first child [cur] is the initial infinity; from then on it is
    finite and is what the node's [__value] holds. *)
Definition recorded (node : TreeNode) (isMax : bool) (k : nat) (cur : Num)
    (st : LoopState) : Prop :=
  (k = 0 /\ cur = (if isMax then NegInf else PosInf)) \/
  (exists z, cur = Fin z /\ l_store st (ONode (id node)) __value = JNum cur).

(** What the loop relies on for a child [c]: its ids do not include the
    node's own, and a search of it with an open window returns a finite
    value within the bounds of its minimax value. *)
Definition childOK (bFac : nat) (s : Store) (node : TreeNode) (isMax : bool)
    (c : TreeNode) : Prop :=
  ~ In (id node) (ids c) /\
  forall a b s1,
    num_ltb a b = true -> framed s s1 ->
    exists r s2 v m,
      abActions bFac c (JNum a) (JNum b) (negb isMax) s1 = Some (r, s2) /\
      returnVal r = JNum (Fin v) /\
      minimax s c = Some m /\
      bounds (Fin v) m a b.

(** The shadow pruned flag of the edge into [m], as the code tests it. *)
Definition edgePruned (s : Store) (m : TreeNode) : bool :=
  match edgeToParent m with
  | Some e => truthy (s e __pruned)
  | None => false
  end.

(** [l] lies in a subtree of [root] whose incoming edge is shadow-pruned. *)
Definition insidePruned (s : Store) (root l : TreeNode) : Prop :=
  exists m, In m (nodes root) /\ In l (nodes m) /\ edgePruned s m = true.

(** Within the subtree of [c], no edge on the way down to [l] (the edge
    into [c] included) is shadow-pruned. *)
Definition liveIn (s : Store) (c l : TreeNode) : Prop :=
  forall m, In m (nodes c) -> In l (nodes m) -> edgePruned s m = false.

(** Two runs, from [s] to [s1] and from [t] to [t1], assigned the same
    values to the same fields. *)
Definition sameWrites (s s1 t t1 : Store) : Prop :=
  forall o k, t1 o k = s1 o k \/ (s1 o k = s o k /\ t1 o k = t o k).

(** Two loop states agree on everything the control flow depends on. *)
Definition sameControl (st tt : LoopState) : Prop :=
  l_a tt = l_a st /\ l_b tt = l_b st /\
  l_pruneRest tt = l_pruneRest st /\ l_curVal tt = l_curVal st.

(** A second search of [n] that finds the same values in the leaves the
    first one could reach returns the same value and assigns the same
    fields. *)
Definition lockstepAt (bFac : nat) (n : TreeNode) : Prop :=
  forall a b isMax s t r s1,
    NoDup (ids n) ->
    (forall c m, In c (children n) -> In m (nodes c) ->
                 edgePruned s m = false) ->
    abActions bFac n a b isMax s = Some (r, s1) ->
    (isLeaf n = true -> t (ONode (id n)) value = s (ONode (id n)) value) ->
    (forall c l, In c (children n) -> In l (nodes c) -> isLeaf l = true ->
                 liveIn s1 c l ->
                 t (ONode (id l)) value = s (ONode (id l)) value) ->
    exists r' t1,
      abActions bFac n a b isMax t = Some (r', t1) /\
      returnVal r' = returnVal r /\
      sameWrites s s1 t t1.

(* ================================================================== *)
(** ** Reading a log *)

Definition targets (o : Obj) (k : Key) (act : Action) : bool :=
  match object act with
  | Some o' => Obj_eqb o' o && Key_eqb (key act) k
  | None => false
  end.

(** The old value of the last action of a step that targets [(o, k)]:
    what reversing the step front to back leaves in the field. *)
Definition lastOld (step : list Action) (o : Obj) (k : Key) : option JsVal :=
  fold_left (fun r act => if targets o k act then Some (oldVal act) else r)
            step None.

(** The same for the first step of a list of steps that targets [(o, k)]:
    what undoing the whole list, last step first, leaves in the field. *)
Fixpoint firstOld (steps : list (list Action)) (o : Obj) (k : Key)
  : option JsVal :=
  match steps with
  | [] => None
  | step :: rest =>
      match lastOld step o k with
      | Some v => Some v
      | None => firstOld rest o k
      end
  end.

(** Apply every step in order; undo every step, last one first. *)
Definition playAll (steps : list (list Action)) (s : Store) : Store :=
  fold_left (fun s step => applyAll step s) steps s.

Definition unplayAll (steps : list (list Action)) (s : Store) : Store :=
  fold_right (fun step s => reverseAll step s) s steps.

(** [assignedInOrder val acts s s'] says that [s'] is the heap [s] after
    the assignments [object[key] = val action] of the actions of [acts]
    that have an object, made in the order of the list: a field that no
    action of [acts] names is as in [s], and a field that some action
    names holds the value given by the last action of [acts] that names
    it.  With [val := newVal] these are the assignments of [apply], with
    [val := oldVal] those of [reverse]. *)
Definition assignedInOrder (val : Action -> JsVal) (acts : list Action)
    (s s' : Store) : Prop :=
  (forall (o : Obj) (k : Key),
      (forall a, In a acts -> ~ (object a = Some o /\ key a = k)) ->
      s' o k = s o k) /\
  (forall (o : Obj) (k : Key) (before : list Action) (a : Action)
          (after : list Action),
      acts = before ++ a :: after ->
      object a = Some o -> key a = k ->
      (forall b, In b after -> ~ (object b = Some o /\ key b = k)) ->
      s' o k = val a).

(** [toggleABVisual] of the application when playback is off: the log is
    compiled if there is none yet, the tree is reset, and the queue's
    [inAction] is set. *)
Definition ensureAction (tree : Tree.t) (action : option ActionListQueue.t)
    (s : Store) : option (ActionListQueue.t * Store) :=
  match action with
  | Some aq => Some (aq, s)
  | None => alphaBeta tree s
  end.

Definition startAnimation (tree : Tree.t) (action : option ActionListQueue.t)
    (s : Store) : option (Tree.t * ActionListQueue.t * Store) :=
  match ensureAction tree action s with
  | None => None
  | Some (aq, s1) =>
      let s2 := resetTree (Tree.rootNode tree) s1 in
      Some (Tree.mk (Tree.rootNode tree) (Tree.treeType tree)
                    (Tree.depth tree) (Tree.branchingFactor tree) false,
            ActionListQueue.set_inAction aq true, s2)
  end.

(* ================================================================== *)
(** ** The action lists of one search call *)

Definition enterLeaf (n : TreeNode) : list Action :=
  [mkAction (edgeToParent n) entered (JBool false) (JBool true);
   mkAction (Some (ONode (id n))) entered (JBool false) (JBool true)].

Definition enterInner (n : TreeNode) (oldAlpha a oldBeta b : JsVal)
  : list Action :=
  enterLeaf n ++ [mkAction (Some (ONode (id n))) alpha oldAlpha a;
                  mkAction (Some (ONode (id n))) beta oldBeta b].

Definition exitLeaf (n : TreeNode) : list Action :=
  [mkAction (edgeToParent n) entered (JBool true) (JBool false)].

Definition exitInner (n : TreeNode) : list Action :=
  exitLeaf n ++ [mkAction (Some (ONode (id n))) entered (JBool true) (JBool false)].

Definition isFlag (k : Key) : bool :=
  match k with
  | entered | pruned => true
  | _ => false
  end.

(** Undoing the steps leaves [false] in every flag they target. *)
Definition flagOld (steps : list (list Action)) : Prop :=
  forall o k v, isFlag k = true -> firstOld steps o k = Some v -> v = JBool false.

(** What the caller of a search relies on to keep [flagOld]. *)
Definition resultFlags (r : ABResult) : Prop :=
  (forall a, In a (enterActions r) -> isFlag (key a) = true ->
             oldVal a = JBool false) /\
  (forall a o, In a (exitActions r) -> object a = Some o ->
               exists a', In a' (enterActions r) /\
                          object a' = Some o /\ key a' = key a) /\
  flagOld (childActionsList r).

(** An action of the search of [n] targets a visible field of an object of
    the subtree of [n]: either flag of an edge, the [entered] flag of a
    node, or any visible field of a node that is not a leaf. *)
Definition zoneOK (n : TreeNode) (a : Action) : Prop :=
  visible (key a) = true /\
  match object a with
  | None => True
  | Some o =>
      exists m, In m (nodes n) /\
        ((edgeToParent m = Some o /\ isFlag (key a) = true) \/
         (o = ONode (id m) /\ (key a = entered \/ isLeaf m = false)))
  end.

Definition resultZone (n : TreeNode) (r : ABResult) : Prop :=
  Forall (zoneOK n) (enterActions r) /\
  Forall (Forall (zoneOK n)) (childActionsList r) /\
  Forall (zoneOK n) (exitActions r).

(** The value and bound updates a node records after a child returns:
    actions on the node's own [value], [alpha] or [beta]. *)
Definition svOK (node : TreeNode) (a : Action) : Prop :=
  object a = Some (ONode (id node)) /\
  (key a = value \/ key a = alpha \/ key a = beta).

(** A pruning action for the edge into some node of the subtree of [p]. *)
Definition prunedEdgeOf (p : TreeNode) (a : Action) : Prop :=
  exists m, In m (nodes p) /\ edgeToParent m = Some (OEdge (id m)) /\
            a = mkAction (Some (OEdge (id m))) pruned (JBool false) (JBool true).

Definition nodePrunedAction (node : TreeNode) : Action :=
  mkAction (Some (ONode (id node))) pruned (JBool false) (JBool true).

(* ================================================================== *)
(** ** A playback round trip *)

(** Enter playback as [toggleABVisual] does, run [goToEnd], then
    [goToBeginning].  The result is the heap on entering playback, the heap
    at the end of the log, and the queue and heap back at the beginning. *)
Definition roundTrip (tree : Tree.t) (action : option ActionListQueue.t)
    (s : Store) : option (Store * Store * ActionListQueue.t * Store) :=
  match startAnimation tree action s with
  | None => None
  | Some (_, q, sPre) =>
      match ActionListQueue.goToEnd q sPre with
      | None => None
      | Some (q1, sEnd) =>
          match ActionListQueue.goToBeginning q1 sEnd with
          | None => None
          | Some (q2, sBack) => Some (sPre, sEnd, q2, sBack)
          end
      end
  end.

(** The fields a round trip may leave changed: the value, the bounds and
    the pruned mark of a node of the tree that is not a leaf. *)
Definition interiorData (root : TreeNode) (o : Obj) (k : Key) : Prop :=
  exists m, In m (nodes root) /\ isLeaf m = false /\ o = ONode (id m) /\
            (k = value \/ k = alpha \/ k = beta \/ k = pruned).

(** The scenario tree, played to the end and back right after it was
    generated. *)
Definition scenarioRoundTrip
  : option (Store * Store * ActionListQueue.t * Store) :=
  match generateABTreeRootNode scenarioDraws 3 (-20) 20 3 maxNode 2
          initialGenState with
  | None => None
  | Some (root, st') =>
      roundTrip (Tree.mk (Some root) maxNode 3 2 true) None (heap st')
  end.

(** A node of leaf kind has no children, and no node has more children
    than its [childNum] says. *)
Definition tidy (n : TreeNode) : Prop :=
  forall m, In m (nodes n) ->
    (isLeaf m = true -> children m = []) /\
    List.length (children m) <= childNum m.

(** A node without its children. *)
Definition childless (n : TreeNode) : TreeNode :=
  mkTreeNode (id n) (nodeType n) (parentNode n) (depth n) (childNum n) [].

(** The flags [resetTree] clears in the subtree of [n] are clear in [s]. *)
Definition flagsClear (n : TreeNode) (s : Store) : Prop :=
  forall m, In m (nodes n) ->
    s (ONode (id m)) entered = JBool false /\
    forall e, edgeToParent m = Some e ->
      s e entered = JBool false /\ s e pruned = JBool false.

(* ================================================================== *)
(** ** Targets of the actions of one step *)

(** The [pruned] mark of a node: the one field a step may target more than
    once. *)
Definition prunedMark (o : Obj) (k : Key) : bool :=
  match o, k with
  | ONode _, pruned => true
  | _, _ => false
  end.

(** How many actions of a step target [(o, k)]. *)
Definition timesTargeted (o : Obj) (k : Key) (step : list Action) : nat :=
  List.length (filter (targets o k) step).

(** The targets of a step, in order, apart from nodes' [pruned] marks;
    an action on [undefined] has no target. *)
Definition essTargets (step : list Action) : list (Obj * Key) :=
  flat_map (fun a => match object a with
                     | Some o => if prunedMark o (key a) then []
                                 else [(o, key a)]
                     | None => []
                     end) step.

(** No field other than a node's [pruned] mark is targeted twice, and the
    actions on a node's [pruned] mark all go from [false] to [true]. *)
Definition goodStep (step : list Action) : Prop :=
  NoDup (essTargets step) /\
  forall a i, In a step -> object a = Some (ONode i) -> key a = pruned ->
              oldVal a = JBool false /\ newVal a = JBool true.

(** The children of a node are all leaves or all not leaves. *)
Definition uniform (n : TreeNode) : Prop :=
  forall m, In m (nodes n) ->
    forall c1 c2, In c1 (children m) -> In c2 (children m) ->
                  isLeaf c1 = isLeaf c2.

Definition pruneAct (m : TreeNode) : Action :=
  mkAction (Some (OEdge (id m))) pruned (JBool false) (JBool true).

(** A step of the log of a tree with branching factor [bFac]: it is good,
    and it targets the [pruned] mark of a node at most [bFac - 1] times
    (the first child of a node is never pruned). *)
Definition boundedStep (bFac : nat) (step : list Action) : Prop :=
  goodStep step /\
  forall i, timesTargeted (ONode i) pruned step <= bFac - 1.

(** What a search call on [n] returns, for the disjointness of targets:
    its enter and exit actions target objects of [n] itself and no
    [pruned] mark, and its inner steps exist exactly when [n] is not a
    leaf. *)
Definition resultSteps (bFac : nat) (n : TreeNode) (r : ABResult) : Prop :=
  goodStep (enterActions r) /\ goodStep (exitActions r) /\
  (forall o k, In (o, k) (essTargets (enterActions r)) -> objId o = id n) /\
  (forall o k, In (o, k) (essTargets (exitActions r)) -> objId o = id n) /\
  Forall (boundedStep bFac) (childActionsList r) /\
  (childActionsList r = [] <-> isLeaf n = true) /\
  (forall i, timesTargeted (ONode i) pruned (enterActions r) = 0) /\
  (forall i, timesTargeted (ONode i) pruned (exitActions r) = 0).

(** The same inside the loop over the children of [n], before iteration
    [k], [cs] being the children still to come: the pending exit actions
    target the node's own data (only when its children are not leaves) or
    objects of the children already done, and hold at most [k - 1] actions
    on a [pruned] mark. *)
Definition loopSteps (bFac : nat) (n : TreeNode) (k : nat)
    (cs : list TreeNode) (st : LoopState) : Prop :=
  exists used,
    children n = used ++ cs /\ isLeaf n = false /\
    Forall (boundedStep bFac) (l_childActionsList st) /\
    goodStep (l_lastChildExitActions st) /\
    (forall o k, In (o, k) (essTargets (l_lastChildExitActions st)) ->
       (o = ONode (id n) /\ forall c, In c (children n) -> isLeaf c = false)
       \/ In (objId o) (flat_map ids used)) /\
    k <= bFac /\ (l_pruneRest st = true -> 1 <= k) /\
    forall i,
      timesTargeted (ONode i) pruned (l_lastChildExitActions st) <= k - 1.

(** A tree of depth 3 and branching factor 3 whose second subtree is cut
    after its first leaf: the leaves are 3 5 1, 0 7 8, 2 9 4. *)
Definition wideDraws (i : nat) (_ : Z) : Z :=
  nth i [23; 25; 21; 20; 27; 28; 22; 29; 24]%Z 0%Z.

Definition wideScenario : option (TreeNode * ActionListQueue.t * Store) :=
  generateAndCompile wideDraws 3 maxNode 3 3 (-20) 20 initialGenState.

(* ================================================================== *)
(** ** What reset, show-solution and check read and write *)

(** The value [resetTree] assigns to a field named [k], if it assigns
    such fields at all. *)
Definition resetConst (k : Key) : option JsVal :=
  match k with
  | entered | pruned => Some (JBool false)
  | value | alpha | beta => Some JNull
  | _ => None
  end.

(** The fields [resetTree] may assign: both flags of the edge into a node,
    a node's [entered] flag, and the [value], [alpha] and [beta] of a node
    that is not a leaf. *)
Definition resetTouches (root : TreeNode) (o : Obj) (k : Key) : Prop :=
  exists m, In m (nodes root) /\
    ((edgeToParent m = Some o /\ (k = entered \/ k = pruned)) \/
     (o = ONode (id m) /\
      (k = entered \/
       (isLeaf m = false /\ (k = value \/ k = alpha \/ k = beta))))).

(** What [resetTree] leaves at a node [m] it has visited. *)
Definition resetAt (m : TreeNode) (s : Store) : Prop :=
  s (ONode (id m)) entered = JBool false /\
  (forall e, edgeToParent m = Some e ->
     s e entered = JBool false /\ s e pruned = JBool false) /\
  (isLeaf m = false ->
     s (ONode (id m)) value = JNull /\ s (ONode (id m)) alpha = JNull /\
     s (ONode (id m)) beta = JNull).

(** The fields [setSolution] may assign: the [pruned] flag of the edge
    into a node, and the [value], [alpha], [beta] and [pruned] of a node
    that is not a leaf. *)
Definition solutionTouches (root : TreeNode) (o : Obj) (k : Key) : Prop :=
  exists m, In m (nodes root) /\
    ((edgeToParent m = Some o /\ k = pruned) \/
     (o = ONode (id m) /\ isLeaf m = false /\
      (k = value \/ k = alpha \/ k = beta \/ k = pruned))).

(** What [setSolution] leaves at a node [m] it has visited, in terms of
    the shadow fields of the heap [s0] it started from. *)
Definition solvedAt (s0 : Store) (m : TreeNode) (s : Store) : Prop :=
  (forall e, edgeToParent m = Some e ->
     s e pruned = js_or (s0 e __pruned) (JBool false)) /\
  (isLeaf m = false ->
     s (ONode (id m)) value = nullish_or (s0 (ONode (id m)) __value) JNull /\
     s (ONode (id m)) alpha = nullish_or (s0 (ONode (id m)) __alpha) JNull /\
     s (ONode (id m)) beta = nullish_or (s0 (ONode (id m)) __beta) JNull /\
     s (ONode (id m)) pruned
     = js_or (s0 (ONode (id m)) __pruned) (JBool false)).

(** What [checkAnswer] tests at a node that is not a leaf: its value is
    its shadow value, and if the edge into it is shadow-pruned, the edge's
    visible flag is the shadow flag. *)
Definition checkedAt (s : Store) (m : TreeNode) : bool :=
  strict_eq (s (ONode (id m)) value) (s (ONode (id m)) __value)
  && match edgeToParent m with
     | Some e => negb (truthy (s e __pruned)
                       && negb (strict_eq (s e __pruned) (s e pruned)))
     | None => true
     end.

(** A max node with two leaves. *)
Definition tinyTree : TreeNode :=
  mkTreeNode 1 maxNode None 1 2
    [mkTreeNode 2 leafNode (Some 1) 2 2 [];
     mkTreeNode 3 leafNode (Some 1) 2 2 []].

(** What [resetSubTree] does at one node, before it goes to the
    children. *)
Definition resetHere (n : TreeNode) (s : Store) : Store :=
  let s1 := match edgeToParent n with
            | Some e => write (write s e entered (JBool false))
                              e pruned (JBool false)
            | None => s
            end in
  let s2 := write s1 (ONode (id n)) entered (JBool false) in
  if isLeaf n then s2
  else write (write (write s2 (ONode (id n)) value JNull)
                    (ONode (id n)) alpha JNull)
             (ONode (id n)) beta JNull.

(** The same for [setSolutionForSubTree]. *)
Definition solveHere (n : TreeNode) (s : Store) : Store :=
  let me := ONode (id n) in
  let s1 := match edgeToParent n with
            | Some e => write s e pruned (js_or (s e __pruned) (JBool false))
            | None => s
            end in
  if isLeaf n then s1
  else
    let s2 := write s1 me value (nullish_or (s1 me __value) JNull) in
    let s3 := write s2 me alpha (nullish_or (s2 me __alpha) JNull) in
    let s4 := write s3 me beta (nullish_or (s3 me __beta) JNull) in
    write s4 me pruned (js_or (s4 me __pruned) (JBool false)).

(** The value [setSolution] assigns to the field [k] of [o], computed from
    the shadow fields of the heap [s0]. *)
Definition solutionVal (s0 : Store) (o : Obj) (k : Key) : option JsVal :=
  match k with
  | pruned => Some (js_or (s0 o __pruned) (JBool false))
  | value => Some (nullish_or (s0 o __value) JNull)
  | alpha => Some (nullish_or (s0 o __alpha) JNull)
  | beta => Some (nullish_or (s0 o __beta) JNull)
  | _ => None
  end.

(** [s] has the shadow fields of [s0]. *)
Definition sameShadow (s0 s : Store) : Prop :=
  forall o k, visible k = false -> s o k = s0 o k.

(* ================================================================== *)
(** ** Measures of generated trees *)

(** The nodes of a subtree that sit at depth [maxDepth], left to right. *)
Definition bottomNodes (maxDepth : nat) (n : TreeNode) : list TreeNode :=
  filter (fun m => Nat.eqb (depth m) maxDepth) (nodes n).

(** [Number.isSafeInteger]: the integers of magnitude at most
    [2^53 - 1].  Doubles hold them exactly, and add and subtract them
    exactly when the result is one of them. *)
Definition safeInteger (z : Z) : Prop :=
  (- (2 ^ 53 - 1) <= z <= 2 ^ 53 - 1)%Z.

(** The leaf value made from the [i]-th call of [Math.random]. *)
Definition drawnValue (randomRound : nat -> Z -> Z) (minVal maxVal : Z)
    (i : nat) : JsVal :=
  JNum (Fin (randomRound i (maxVal - minVal) - maxVal)%Z).

(** The number of nodes of a full tree of [h] levels with [b] children per
    node. *)
Fixpoint fullSize (b h : nat) : nat :=
  match h with
  | O => 0
  | S h' => 1 + b * fullSize b h'
  end.

(** The kind of a node above the bottom level at depth [d], when the root
    (depth 1) has kind [treeType]. *)
Definition kindAtDepth (treeType : TreeNodeType) (d : nat) : TreeNodeType :=
  if Nat.odd d then treeType else oppositeNodeType treeType.

(* ================================================================== *)
(** ** The application's handlers ([App.tsx]) *)

(** The state the handlers share: [treeRef], [actionRef], the [correct]
    flag shown beside Check Answer, and the generator's state (module
    counter, heap, draws made). *)
Record App : Type := mkApp {
  treeRef : Tree.t;
  actionRef : option ActionListQueue.t;
  correct : option bool;
  gen : GenState
}.

Definition set_heap (st : GenState) (h : Store) : GenState :=
  mkGenState (globalNodeId st) h (randomCalls st).

Section Handlers.

Variable randomRound : nat -> Z -> Z.

(** [regenerateTree]: a new root for the declared kind, depth and
    branching factor with leaves in [-20 .. 20]; the cached log is dropped.
    The nesting of the generator's calls is bounded by the declared
    depth. *)
Definition regenerateTree (app : App) : option App :=
  let t := treeRef app in
  match generateABTreeRootNode randomRound (Tree.depth t) (-20) 20
          (Tree.depth t) (Tree.treeType t) (Tree.branchingFactor t)
          (gen app) with
  | None => None
  | Some (root, st') =>
      Some (mkApp (Tree.mk (Some root) (Tree.treeType t) (Tree.depth t)
                           (Tree.branchingFactor t) (Tree.mutable t))
                  None (correct app) st')
  end.

(** [t.branchingFactor = Math.max(2, t.branchingFactor + incr)] *)
Definition incrBranchingFactor (incr : Z) (app : App) : option App :=
  let t := treeRef app in
  regenerateTree
    (mkApp (Tree.mk (Tree.rootNode t) (Tree.treeType t) (Tree.depth t)
                    (Z.to_nat (Z.max 2 (Z.of_nat (Tree.branchingFactor t)
                                        + incr)))
                    (Tree.mutable t))
           (actionRef app) (correct app) (gen app)).

(** [t.depth = Math.max(3, t.depth + incr)] *)
Definition incrDepth (incr : Z) (app : App) : option App :=
  let t := treeRef app in
  regenerateTree
    (mkApp (Tree.mk (Tree.rootNode t) (Tree.treeType t)
                    (Z.to_nat (Z.max 3 (Z.of_nat (Tree.depth t) + incr)))
                    (Tree.branchingFactor t) (Tree.mutable t))
           (actionRef app) (correct app) (gen app)).

Definition flipMax (app : App) : option App :=
  let t := treeRef app in
  regenerateTree
    (mkApp (Tree.mk (Tree.rootNode t) (oppositeNodeType (Tree.treeType t))
                    (Tree.depth t) (Tree.branchingFactor t) (Tree.mutable t))
           (actionRef app) (correct app) (gen app)).

(** [ensureAction] on the shared state: the log it returns is also what
    [actionRef] holds from then on. *)
Definition ensureActionRef (app : App)
  : option (ActionListQueue.t * App) :=
  match ensureAction (treeRef app) (actionRef app) (heap (gen app)) with
  | None => None
  | Some (aq, s) =>
      Some (aq, mkApp (treeRef app) (Some aq) (correct app)
                      (set_heap (gen app) s))
  end.

Definition set_mutable (t : Tree.t) (v : bool) : Tree.t :=
  Tree.mk (Tree.rootNode t) (Tree.treeType t) (Tree.depth t)
          (Tree.branchingFactor t) v.

(** [toggleABVisual]: the tree is reset; if playback was on, the log is
    undone to its beginning and playback is turned off, otherwise playback
    is turned on and the Check Answer result is cleared. *)
Definition toggleABVisual (app : App) : option App :=
  match ensureActionRef app with
  | None => None
  | Some (aq, app1) =>
      let t := treeRef app1 in
      let s := resetTree (Tree.rootNode t) (heap (gen app1)) in
      if ActionListQueue.inAction aq then
        match ActionListQueue.goToBeginning aq s with
        | None => None
        | Some (aq', s') =>
            Some (mkApp (set_mutable t true)
                        (Some (ActionListQueue.set_inAction aq' false))
                        (correct app1) (set_heap (gen app1) s'))
        end
      else
        Some (mkApp (set_mutable t false)
                    (Some (ActionListQueue.set_inAction aq true))
                    None (set_heap (gen app1) s))
  end.

(** The four playback buttons: nothing happens without a log. *)
Definition withLog
    (f : ActionListQueue.t -> Store -> option (ActionListQueue.t * Store))
    (app : App) : option App :=
  match actionRef app with
  | None => Some app
  | Some aq =>
      match f aq (heap (gen app)) with
      | None => None
      | Some (aq', s') =>
          Some (mkApp (treeRef app) (Some aq') (correct app)
                      (set_heap (gen app) s'))
      end
  end.

Definition appStepForward : App -> option App :=
  withLog (fun aq s => match ActionListQueue.stepForward aq s with
                       | Some (_, aq', s') => Some (aq', s')
                       | None => None
                       end).

Definition appStepBackward : App -> option App :=
  withLog (fun aq s => match ActionListQueue.stepBackward aq s with
                       | Some (_, aq', s') => Some (aq', s')
                       | None => None
                       end).

Definition appGoToEnd : App -> option App :=
  withLog ActionListQueue.goToEnd.

Definition appGoToBeginning : App -> option App :=
  withLog ActionListQueue.goToBeginning.

(** A click on an edge of the canvas: ignored unless the tree is
    mutable. *)
Definition clickEdge (e : Obj) (app : App) : option App :=
  if Tree.mutable (treeRef app)
  then Some (mkApp (treeRef app) (actionRef app) (correct app)
                   (set_heap (gen app) (onEdgeToggle e (heap (gen app)))))
  else Some app.

Definition onCheckAnswer (app : App) : option App :=
  match ensureActionRef app with
  | None => None
  | Some (_, app1) =>
      Some (mkApp (treeRef app1) (actionRef app1)
                  (Some (checkAnswer (Tree.rootNode (treeRef app1))
                                     (heap (gen app1))))
                  (gen app1))
  end.

Definition onResetTree (app : App) : option App :=
  Some (mkApp (treeRef app) (actionRef app) (correct app)
              (set_heap (gen app)
                 (resetTree (Tree.rootNode (treeRef app)) (heap (gen app))))).

Definition onShowSolution (app : App) : option App :=
  match ensureActionRef app with
  | None => None
  | Some (_, app1) =>
      Some (mkApp (treeRef app1) (actionRef app1) (correct app1)
                  (set_heap (gen app1)
                     (setSolution (Tree.rootNode (treeRef app1))
                                  (heap (gen app1)))))
  end.

(** What the user can do. *)
Inductive Event : Type :=
| Regenerate
| IncrBranchingFactor (incr : Z)
| IncrDepth (incr : Z)
| FlipMax
| ToggleABVisual
| StepForward
| StepBackward
| GoToEnd
| GoToBeginning
| ClickEdge (e : Obj)
| CheckAnswer
| ResetTree
| ShowSolution.

Definition handle (ev : Event) (app : App) : option App :=
  match ev with
  | Regenerate => regenerateTree app
  | IncrBranchingFactor incr => incrBranchingFactor incr app
  | IncrDepth incr => incrDepth incr app
  | FlipMax => flipMax app
  | ToggleABVisual => toggleABVisual app
  | StepForward => appStepForward app
  | StepBackward => appStepBackward app
  | GoToEnd => appGoToEnd app
  | GoToBeginning => appGoToBeginning app
  | ClickEdge e => clickEdge e app
  | CheckAnswer => onCheckAnswer app
  | ResetTree => onResetTree app
  | ShowSolution => onShowSolution app
  end.

Fixpoint handleAll (evs : list Event) (app : App) : option App :=
  match evs with
  | [] => Some app
  | ev :: evs' =>
      match handle ev app with
      | None => None
      | Some app' => handleAll evs' app'
      end
  end.

End Handlers.

(** The application when it is mounted: a max tree of depth 3 and
    branching factor 2 with no root yet, no log, no answer.  Its first
    effect is a call of [regenerateTree]. *)
Definition mountedApp : App :=
  mkApp (createTree maxNode 3 2) None None initialGenState.

(** What holds of the application between two events. *)
Definition appInv (app : App) : Prop :=
  let t := treeRef app in
  3 <= Tree.depth t /\ 2 <= Tree.branchingFactor t /\
  (Tree.treeType t = maxNode \/ Tree.treeType t = minNode) /\
  exists root lo hi,
    Tree.rootNode t = Some root /\
    GenTree (Tree.depth t) (Tree.branchingFactor t) None (Tree.treeType t) 1
            lo hi root /\
    match actionRef app with
    | None => True
    | Some q =>
        cursorInRange q /\
        (ActionListQueue.inAction q = true -> Tree.mutable t = false) /\
        exists s s' q0,
          alphaBeta t s = Some (q0, s') /\
          ActionListQueue.actionListQueue q
          = ActionListQueue.actionListQueue q0
    end.

(* ================================================================== *)
(** ** What a search leaves in the shadow fields *)

(** The search went into [m]: the edge into it carries no shadow pruned
    mark, and if [m] is not a leaf its shadow value is a finite number. *)
Definition searched (s : Store) (m : TreeNode) : Prop :=
  s (OEdge (id m)) __pruned = JUndefined /\
  (isLeaf m = false -> exists z, s (ONode (id m)) __value = JNum (Fin z)).

(** The search passed [m] over: the edge into it is shadow-pruned and [m]
    has no shadow value. *)
Definition passedOver (s : Store) (m : TreeNode) : Prop :=
  s (OEdge (id m)) __pruned = JBool true /\
  s (ONode (id m)) __value = JUndefined.

(** No search has been compiled on the subtree of [n] yet. *)
Definition untouched (s : Store) (n : TreeNode) : Prop :=
  forall m, In m (nodes n) ->
    s (OEdge (id m)) __pruned = JUndefined /\
    s (ONode (id m)) __value = JUndefined.

(** Every node of the subtree of [c] has a parent and at most [bFac]
    children: [pruneInner] reaches all of them and finds an edge at each. *)
Definition prunable (bFac : nat) (c : TreeNode) : Prop :=
  forall x, In x (nodes c) ->
    parentNode x <> None /\ List.length (children x) <= bFac.

(** The fields the child loop of [node] may still assign when the children
    [cs] are left: those of [node] itself and of the objects of the
    subtrees of [cs]. *)
Definition loopTouches (node : TreeNode) (cs : list TreeNode)
    (o : Obj) (k : Key) : Prop :=
  o = ONode (id node) \/ In (objId o) (flat_map ids cs).

(** The running value of the loop is the initial infinity or finite. *)
Definition curOK (isMax : bool) (cur : Num) : Prop :=
  cur = (if isMax then NegInf else PosInf) \/ exists z, cur = Fin z.

(** What the loop of [node] relies on for a child [c] to trace the
    search. *)
Definition childTraced (bFac : nat) (s0 : Store) (node : TreeNode)
    (isMax : bool) (c : TreeNode) : Prop :=
  ~ In (id node) (ids c) /\
  prunable bFac c /\
  forall a b s1,
    num_ltb a b = true -> framed s0 s1 -> untouched s1 c ->
    exists r s2 v,
      abActions bFac c (JNum a) (JNum b) (negb isMax) s1 = Some (r, s2) /\
      returnVal r = JNum (Fin v) /\
      searched s2 c /\
      forall x, In x (nodes c) -> searched s2 x \/ passedOver s2 x.

(** No shadow field exists yet on an object whose id the counter has not
    issued. *)
Definition shadowFresh (st : GenState) : Prop :=
  forall o k, visible k = false -> globalNodeId st < objId o ->
              heap st o k = JUndefined.

(** No object of the subtree of [n] has a shadow field yet. *)
Definition blank (s : Store) (n : TreeNode) : Prop :=
  forall m k, In m (nodes n) -> visible k = false ->
    s (ONode (id m)) k = JUndefined /\ s (OEdge (id m)) k = JUndefined.

(** [h'] has the shadow fields of [h] and the values of the leaves of
    [root] as in [h]: a search compiled on either is the same. *)
Definition sameProblem (root : TreeNode) (h h' : Store) : Prop :=
  sameShadow h h' /\
  forall m, In m (nodes root) -> isLeaf m = true ->
    h' (ONode (id m)) value = h (ONode (id m)) value.

(** A field none of whose writes the visible handlers make: a shadow
    field, or the value of a leaf of [root]. *)
Definition problemField (root : TreeNode) (o : Obj) (k : Key) : Prop :=
  visible k = false \/
  exists m, In m (nodes root) /\ isLeaf m = true /\
            o = ONode (id m) /\ k = value.

(** No action of [steps] targets [(o, k)]. *)
Definition untargetedBy (steps : list (list Action)) (o : Obj) (k : Key)
  : Prop :=
  forall step a, In step steps -> In a step -> targets o k a = false.

(** What holds of the heap between two events: shadow fields exist only
    on issued ids; the nodes of the tree shown have issued ids and its
    leaves hold finite numbers; and either no log is cached and the tree
    carries no trace of a search, or the log and the shadow fields are
    those of the one search that was compiled on it, and the cursor is at
    -1 whenever playback is off. *)
Definition heapInv (app : App) : Prop :=
  shadowFresh (gen app) /\
  forall root, Tree.rootNode (treeRef app) = Some root ->
    (forall m, In m (nodes root) -> id m <= globalNodeId (gen app)) /\
    leavesFinite (heap (gen app)) root /\
    match actionRef app with
    | None => blank (heap (gen app)) root
    | Some q =>
        (ActionListQueue.inAction q = false ->
         ActionListQueue.lastAction q = (-1)%Z) /\
        exists s0 q0 s1,
          blank s0 root /\ leavesFinite s0 root /\
          alphaBeta (treeRef app) s0 = Some (q0, s1) /\
          ActionListQueue.actionListQueue q
          = ActionListQueue.actionListQueue q0 /\
          sameShadow s1 (heap (gen app))
    end.

(** Draws for a second tree, of depth 4, generated after the first one of
    depth 3: its leaves are, left to right, [3, 5, 9, 0, 1, 2, 0, 0], and
    the search passes over the last node of depth 3. *)
Definition deepDraws (i : nat) (_ : Z) : Z :=
  nth i [20; 20; 20; 20; 23; 25; 29; 20; 21; 22; 20; 20]%Z 20%Z.

(* ================================================================== *)
(** ** The log as a record of the search *)

(** The new value of the last action of a list that targets [(o, k)]:
    what playing the list front to back leaves in the field. *)
Definition lastNew (acts : list Action) (o : Obj) (k : Key) : option JsVal :=
  fold_left (fun r act => if targets o k act then Some (newVal act) else r)
            acts None.

(** The shadow field the search assigns together with an action on the
    visible field [k]. *)
Definition shadowOf (k : Key) : option Key :=
  match k with
  | value => Some __value
  | alpha => Some __alpha
  | beta => Some __beta
  | pruned => Some __pruned
  | _ => None
  end.

(** What the search records in such an action: [true] for a pruned mark,
    a number for a value or a bound. *)
Definition recordable (k : Key) (v : JsVal) : Prop :=
  match k with
  | pruned => v = JBool true
  | _ => exists n, v = JNum n
  end.

(** [acts] records, field by field, where the shadow writes lead from [s]
    to [s']: for every visible field with a shadow, the last action on it,
    if there is one, carries the value its shadow holds in [s'], and if
    there is none the shadow is as in [s].  Nothing is said of the order
    of actions on different fields. *)
Definition tracks (acts : list Action) (s s' : Store) : Prop :=
  forall o k k', shadowOf k = Some k' ->
    match lastNew acts o k with
    | Some v => s' o k' = v /\ recordable k v
    | None => s' o k' = s o k'
    end.

(** The actions of the loop state in the order of the log: the steps
    made so far, then the pending exit actions. *)
Definition pendingLog (st : LoopState) : list Action :=
  concat (l_childActionsList st) ++ l_lastChildExitActions st.

(** The bounds and the running value of the loop are numbers. *)
Definition numeric (st : LoopState) : Prop :=
  (exists a, l_a st = JNum a) /\ (exists b, l_b st = JNum b) /\
  exists v, l_curVal st = JNum v.

(** While no child has been pruned, a pending exit action with a shadow
    is an update of the node's own value or bounds, and there is one only
    if the children are not leaves. *)
Definition quiet (node : TreeNode) (st : LoopState) : Prop :=
  l_pruneRest st = false ->
  Forall (fun a => shadowOf (key a) = None \/
                   (svOK node a /\
                    forall c, In c (children node) -> isLeaf c = false))
         (l_lastChildExitActions st).

(** What the loop relies on for a child [c] to keep the log a record of
    the search: a call that returns, returns a number and a log that
    records its shadow writes. *)
Definition childRecorded (bFac : nat) (s0 : Store) (c : TreeNode) : Prop :=
  forall a b isMax s r s1,
    framed s0 s ->
    abActions bFac c (JNum a) (JNum b) isMax s = Some (r, s1) ->
    (exists v, returnVal r = JNum v) /\
    tracks (enterActions r ++ concat (childActionsList r) ++ exitActions r)
           s s1.

(** The [entered] marks of a node: its own and that of the edge into
    it. *)
Definition ownMarks (n : TreeNode) (o : Obj) : Prop :=
  o = ONode (id n) \/ edgeToParent n = Some o.

(** Playing [acts] leaves no [entered] mark set, except on the objects
    [opened] and on leaves of the subtree of [root]. *)
Definition closes (root : TreeNode) (opened : Obj -> Prop)
    (acts : list Action) : Prop :=
  forall o v, lastNew acts o entered = Some v ->
    v = JBool false \/
    (v = JBool true /\
     (opened o \/
      exists m, In m (nodes root) /\ isLeaf m = true /\ o = ONode (id m))).

(** What a call on [n] returns, for the [entered] marks: its log closes
    every mark it opens, and its enter and exit actions mark only [n] and
    the edge into it. *)
Definition resultClosed (n : TreeNode) (r : ABResult) : Prop :=
  closes n (fun _ => False)
         (enterActions r ++ concat (childActionsList r) ++ exitActions r) /\
  (forall o v, lastNew (enterActions r) o entered = Some v -> ownMarks n o) /\
  (forall o v, lastNew (exitActions r) o entered = Some v -> ownMarks n o).

(** The same inside the loop over the children of [n]: the marks of [n]
    are open, and the pending exit actions mark only children already
    done. *)
Definition loopClosed (n : TreeNode) (k : nat) (cs : list TreeNode)
    (st : LoopState) : Prop :=
  exists used,
    children n = used ++ cs /\
    closes n (ownMarks n) (enterLeaf n ++ pendingLog st) /\
    forall o v, lastNew (l_lastChildExitActions st) o entered = Some v ->
                In (objId o) (map id used).

(** The log goes into [x]: one of its actions sets the [entered] mark of
    the node [x]. *)
Definition goesInto (acts : list Action) (x : TreeNode) : Prop :=
  exists a, In a acts /\ object a = Some (ONode (id x)) /\
            key a = entered /\ newVal a = JBool true.

(** The log cuts [x] off: one of its actions is on the [pruned] mark of
    the edge into [x]. *)
Definition cutOff (acts : list Action) (x : TreeNode) : Prop :=
  exists a, In a acts /\ object a = Some (OEdge (id x)) /\ key a = pruned.

(** The log deals with [x] one way or the other. *)
Definition covered (acts : list Action) (x : TreeNode) : Prop :=
  goesInto acts x \/ cutOff acts x.

(** An action that clears the [entered] mark of a node does so for a node
    of the subtree of [n] that is not a leaf. *)
Definition leavesStay (n : TreeNode) (a : Action) : Prop :=
  key a = entered -> newVal a = JBool false ->
  forall i, object a = Some (ONode i) ->
    exists x, In x (nodes n) /\ isLeaf x = false /\ i = id x.

Definition resultStays (n : TreeNode) (r : ABResult) : Prop :=
  Forall (leavesStay n) (enterActions r) /\
  Forall (Forall (leavesStay n)) (childActionsList r) /\
  Forall (leavesStay n) (exitActions r).

(* ================================================================== *)
(** * Properties *)

(* ------------------------------------------------------------------ *)
(** ** The action log *)

Ltac splits := repeat match goal with |- _ /\ _ => split end.

(** Evaluate a closed [option (A * B)] and give its components as
    witnesses. *)
Ltac exists_evaluated x :=
  let v := eval vm_compute in x in
  match v with
  | Some (?a, ?b) => exists a, b; split; [vm_compute; reflexivity|]
  end.

Section LogFacts.
Import ActionListQueue.

Lemma stepAt_in_range (q : t) (i : Z) :
  (0 <= i < Z.of_nat (List.length (actionListQueue q)))%Z ->
  exists al, stepAt q i = Some al.
Proof.
  intros Hi. unfold stepAt.
  destruct (i <? 0)%Z eqn:E; [apply Z.ltb_lt in E; lia|].
  destruct (nth_error (actionListQueue q) (Z.to_nat i)) eqn:N; eauto.
  apply nth_error_None in N. lia.
Qed.

Lemma stepForward_noop (q : t) (s : Store) :
  inAction q = false
  \/ lastAction q = (Z.of_nat (List.length (actionListQueue q)) - 1)%Z ->
  stepForward q s = Some (false, q, s).
Proof.
  unfold stepForward. intros [H | H].
  - now rewrite H.
  - rewrite H, Z.eqb_refl, orb_true_r. reflexivity.
Qed.

Lemma stepForward_advance (q : t) (s : Store) :
  inAction q = true -> cursorInRange q ->
  lastAction q <> (Z.of_nat (List.length (actionListQueue q)) - 1)%Z ->
  exists al,
    stepAt q (lastAction q + 1) = Some al /\
    stepForward q s
    = Some (true, set_lastAction q (lastAction q + 1), applyAll al s).
Proof.
  intros Hin Hr Hne. unfold cursorInRange in Hr.
  destruct (stepAt_in_range q (lastAction q + 1)%Z) as [al Hal];
    [lia|].
  exists al. split; [exact Hal|].
  unfold stepForward. rewrite Hin. cbn [negb orb].
  destruct (Z.eqb_spec (lastAction q)
              (Z.of_nat (List.length (actionListQueue q)) - 1)); [lia|].
  unfold stepAt in *. cbn. now rewrite Hal.
Qed.

Lemma stepBackward_noop (q : t) (s : Store) :
  inAction q = false \/ lastAction q = (-1)%Z ->
  stepBackward q s = Some (false, q, s).
Proof.
  unfold stepBackward. intros [H | H].
  - now rewrite H.
  - rewrite H. cbn. now rewrite orb_true_r.
Qed.

Lemma stepBackward_retreat (q : t) (s : Store) :
  inAction q = true -> cursorInRange q -> lastAction q <> (-1)%Z ->
  exists al,
    stepAt q (lastAction q) = Some al /\
    stepBackward q s
    = Some (true, set_lastAction q (lastAction q - 1), reverseAll al s).
Proof.
  intros Hin Hr Hne. unfold cursorInRange in Hr.
  destruct (stepAt_in_range q (lastAction q)) as [al Hal]; [lia|].
  exists al. split; [exact Hal|].
  unfold stepBackward. rewrite Hin. cbn [negb orb].
  destruct (Z.eqb_spec (lastAction q) (-1)); [lia|].
  now rewrite Hal.
Qed.

Lemma stepForward_inv (q : t) (s : Store) :
  cursorInRange q ->
  exists r q' s',
    stepForward q s = Some (r, q', s') /\ cursorInRange q' /\
    actionListQueue q' = actionListQueue q /\ inAction q' = inAction q /\
    (r = true -> lastAction q' = (lastAction q + 1)%Z).
Proof.
  intros Hr.
  destruct (inAction q) eqn:Hin.
  - destruct (Z.eq_dec (lastAction q)
                (Z.of_nat (List.length (actionListQueue q)) - 1)) as [E|E].
    + exists false, q, s. rewrite stepForward_noop by auto.
      splits; auto; discriminate.
    + destruct (stepForward_advance q s Hin Hr E) as (al & _ & E2).
      do 3 eexists. split; [exact E2|].
      unfold cursorInRange in *. cbn. splits; auto; lia.
  - exists false, q, s. rewrite stepForward_noop by auto.
    splits; auto; discriminate.
Qed.

Lemma stepBackward_inv (q : t) (s : Store) :
  cursorInRange q ->
  exists r q' s',
    stepBackward q s = Some (r, q', s') /\ cursorInRange q' /\
    actionListQueue q' = actionListQueue q /\ inAction q' = inAction q /\
    (r = true -> lastAction q' = (lastAction q - 1)%Z).
Proof.
  intros Hr.
  destruct (inAction q) eqn:Hin.
  - destruct (Z.eq_dec (lastAction q) (-1)) as [E|E].
    + exists false, q, s. rewrite stepBackward_noop by auto.
      splits; auto; discriminate.
    + destruct (stepBackward_retreat q s Hin Hr E) as (al & _ & E2).
      do 3 eexists. split; [exact E2|].
      unfold cursorInRange in *. cbn. splits; auto; lia.
  - exists false, q, s. rewrite stepBackward_noop by auto.
    splits; auto; discriminate.
Qed.

(** The forward loop ends within its bound: each round moves the cursor
    one step closer to the last index. *)
Lemma whileStepForward_total (fuel : nat) : forall (q : t) (s : Store),
  cursorInRange q ->
  (Z.of_nat (List.length (actionListQueue q)) - 1 - lastAction q
   < Z.of_nat fuel)%Z ->
  exists q' s',
    whileStepForward fuel q s = Some (q', s') /\ cursorInRange q' /\
    actionListQueue q' = actionListQueue q /\ inAction q' = inAction q.
Proof.
  induction fuel as [|fuel IH]; intros q s Hr Hf.
  - unfold cursorInRange in Hr. lia.
  - destruct (stepForward_inv q s Hr) as (r & q1 & s1 & E & Hr1 & Hq & Hi & Hl).
    cbn. rewrite E. destruct r.
    + destruct (IH q1 s1 Hr1) as (q' & s' & E' & ? & ? & ?).
      { rewrite Hq, (Hl eq_refl). lia. }
      exists q', s'. splits; auto; congruence.
    + exists q1, s1. auto.
Qed.

Lemma whileStepBackward_total (fuel : nat) : forall (q : t) (s : Store),
  cursorInRange q ->
  (lastAction q + 1 < Z.of_nat fuel)%Z ->
  exists q' s',
    whileStepBackward fuel q s = Some (q', s') /\ cursorInRange q' /\
    actionListQueue q' = actionListQueue q /\ inAction q' = inAction q.
Proof.
  induction fuel as [|fuel IH]; intros q s Hr Hf.
  - unfold cursorInRange in Hr. lia.
  - destruct (stepBackward_inv q s Hr) as (r & q1 & s1 & E & Hr1 & Hq & Hi & Hl).
    cbn. rewrite E. destruct r.
    + destruct (IH q1 s1 Hr1) as (q' & s' & E' & ? & ? & ?).
      { rewrite (Hl eq_refl). lia. }
      exists q', s'. splits; auto; congruence.
    + exists q1, s1. auto.
Qed.

Lemma goToEnd_total (q : t) (s : Store) :
  cursorInRange q ->
  exists q' s', goToEnd q s = Some (q', s') /\ cursorInRange q'.
Proof.
  intros Hr. unfold goToEnd. destruct (inAction q); cbn.
  - destruct (whileStepForward_total (loopBound q) q s Hr)
      as (q' & s' & E & ? & _); [|eauto].
    unfold loopBound, cursorInRange in *. lia.
  - eauto.
Qed.

Lemma goToBeginning_total (q : t) (s : Store) :
  cursorInRange q ->
  exists q' s', goToBeginning q s = Some (q', s') /\ cursorInRange q'.
Proof.
  intros Hr. unfold goToBeginning. destruct (inAction q); cbn.
  - destruct (whileStepBackward_total (loopBound q) q s Hr)
      as (q' & s' & E & ? & _); [|eauto].
    unfold loopBound, cursorInRange in *. lia.
  - eauto.
Qed.

Lemma runCall_inv (c : Call) (q : t) (s : Store) :
  cursorInRange q ->
  exists q' s', runCall c q s = Some (q', s') /\ cursorInRange q'.
Proof.
  intros Hr. destruct c; cbn.
  - do 2 eexists. split; [reflexivity|].
    unfold pushActionList, cursorInRange in *. destruct (inAction q); cbn; auto.
    rewrite length_app. cbn. lia.
  - do 2 eexists. split; [reflexivity|].
    unfold extendActionList, cursorInRange in *.
    destruct (inAction q); cbn; auto.
    rewrite length_app. lia.
  - destruct (stepForward_inv q s Hr) as (r & q1 & s1 & E & Hr1 & _).
    rewrite E. eauto.
  - destruct (stepBackward_inv q s Hr) as (r & q1 & s1 & E & Hr1 & _).
    rewrite E. eauto.
  - now apply goToEnd_total.
  - now apply goToBeginning_total.
  - do 2 eexists. split; [reflexivity|]. exact Hr.
Qed.

Lemma runCalls_inv (cs : list Call) : forall (q : t) (s : Store),
  cursorInRange q ->
  exists q' s', runCalls cs q s = Some (q', s') /\ cursorInRange q'.
Proof.
  induction cs as [|c cs IH]; intros q s Hr; cbn.
  - eauto.
  - destruct (runCall_inv c q s Hr) as (q1 & s1 & E & Hr1).
    rewrite E. now apply IH.
Qed.

End LogFacts.

(* ------------------------------------------------------------------ *)
(** ** Assignments to the heap *)

Lemma Obj_eqb_eq (x y : Obj) : Obj_eqb x y = true <-> x = y.
Proof.
  destruct x, y; cbn; rewrite ?Nat.eqb_eq; split; congruence.
Qed.

Lemma Key_eqb_eq (x y : Key) : Key_eqb x y = true <-> x = y.
Proof. destruct x, y; cbn; split; congruence. Qed.

Lemma Obj_eqb_refl (x : Obj) : Obj_eqb x x = true.
Proof. now apply Obj_eqb_eq. Qed.

Lemma Key_eqb_refl (x : Key) : Key_eqb x x = true.
Proof. now apply Key_eqb_eq. Qed.

Lemma write_same (s : Store) o k v : write s o k v o k = v.
Proof. unfold write. now rewrite Obj_eqb_refl, Key_eqb_refl. Qed.

Lemma write_other (s : Store) o k v o' k' :
  o <> o' \/ k <> k' -> write s o k v o' k' = s o' k'.
Proof.
  intros H. unfold write.
  destruct (Obj_eqb o o') eqn:Eo; [|reflexivity].
  destruct (Key_eqb k k') eqn:Ek; [|reflexivity].
  apply Obj_eqb_eq in Eo. apply Key_eqb_eq in Ek. tauto.
Qed.

Lemma write_cases (s : Store) o k v o' k' :
  (o = o' /\ k = k' /\ write s o k v o' k' = v)
  \/ ((o <> o' \/ k <> k') /\ write s o k v o' k' = s o' k').
Proof.
  unfold write.
  destruct (Obj_eqb o o') eqn:Eo; cbn.
  - destruct (Key_eqb k k') eqn:Ek.
    + left. apply Obj_eqb_eq in Eo. apply Key_eqb_eq in Ek. auto.
    + right. split; [right|reflexivity]. intros ->.
      now rewrite Key_eqb_refl in Ek.
  - right. split; [left|reflexivity]. intros ->.
    now rewrite Obj_eqb_refl in Eo.
Qed.

(** Assignments made one after the other, as the loops of [stepForward]
    and [stepBackward] make them. *)
Lemma fold_assignedInOrder (val : Action -> JsVal)
    (f : Store -> Action -> Store) :
  (forall s a, f s a = match object a with
                       | None => s
                       | Some o => write s o (key a) (val a)
                       end) ->
  forall acts s, assignedInOrder val acts s (fold_left f acts s).
Proof.
  intros Hf acts. induction acts as [|x acts IH] using rev_ind; intros s.
  - split.
    + reflexivity.
    + intros o k before a after E. now destruct before.
  - rewrite fold_left_app. cbn. rewrite Hf.
    destruct (IH s) as [IH1 IH2]. split.
    + intros o k Hn.
      assert (E : fold_left f acts s o k = s o k).
      { apply IH1. intros a Ha. apply Hn. apply in_or_app. now left. }
      destruct (object x) as [o'|] eqn:Eo; [|exact E].
      destruct (write_cases (fold_left f acts s) o' (key x) (val x) o k)
        as [(Eo' & Ek & _) | [_ Ew]].
      * exfalso. apply (Hn x); [apply in_or_app; right; now left|].
        subst o'. auto.
      * etransitivity; [exact Ew | exact E].
    + intros o k before a after E Ho Hk Hn.
      induction after as [|y after _] using rev_ind.
      * apply app_inj_tail in E as [-> ->]. rewrite Ho. subst k.
        apply write_same.
      * rewrite app_comm_cons, app_assoc in E.
        apply app_inj_tail in E as [-> ->].
        assert (E : fold_left f (before ++ a :: after) s o k = val a).
        { apply (IH2 o k before a after eq_refl Ho Hk).
          intros b Hb. apply Hn. apply in_or_app. now left. }
        destruct (object y) as [o'|] eqn:Eo; [|exact E].
        destruct (write_cases (fold_left f (before ++ a :: after) s) o'
                    (key y) (val y) o k) as [(Eo' & Ek & _) | [_ Ew]].
        -- exfalso. apply (Hn y); [apply in_or_app; right; now left|].
           subst o'. auto.
        -- etransitivity; [exact Ew | exact E].
Qed.

Lemma applyAll_assignedInOrder (acts : list Action) (s : Store) :
  assignedInOrder newVal acts s (applyAll acts s).
Proof. apply (fold_assignedInOrder newVal apply). reflexivity. Qed.

Lemma reverseAll_assignedInOrder (acts : list Action) (s : Store) :
  assignedInOrder oldVal acts s (reverseAll acts s).
Proof. apply (fold_assignedInOrder oldVal reverse). reflexivity. Qed.

(** Every field is either named by no action of a list or has a last
    action naming it, so [assignedInOrder] fixes the heap it describes. *)
Lemma last_naming (acts : list Action) (o : Obj) (k : Key) :
  (forall a, In a acts -> ~ (object a = Some o /\ key a = k)) \/
  (exists before a after,
      acts = before ++ a :: after /\ object a = Some o /\ key a = k /\
      forall b, In b after -> ~ (object b = Some o /\ key b = k)).
Proof.
  induction acts as [|x acts IH].
  - left. intros a [].
  - destruct IH as [Hn | (before & a & after & -> & Ho & Hk & Hn)].
    + destruct (targets o k x) eqn:T; unfold targets in T.
      * right. exists [], x, acts. destruct (object x) as [o'|];
          [|discriminate].
        apply andb_true_iff in T as [To Tk].
        apply Obj_eqb_eq in To. apply Key_eqb_eq in Tk. subst. auto.
      * left. intros a [<- | Ha]; [|auto]. intros [Ho Hk].
        rewrite Ho, Hk, Obj_eqb_refl, Key_eqb_refl in T. discriminate.
    + right. exists (x :: before), a, after. auto.
Qed.

Lemma assignedInOrder_unique (val : Action -> JsVal) (acts : list Action)
    (s s1 s2 : Store) :
  assignedInOrder val acts s s1 -> assignedInOrder val acts s s2 ->
  forall o k, s1 o k = s2 o k.
Proof.
  intros [U1 N1] [U2 N2] o k.
  destruct (last_naming acts o k)
    as [Hn | (before & a & after & E & Ho & Hk & Hn)].
  - now rewrite (U1 o k Hn), (U2 o k Hn).
  - now rewrite (N1 o k _ _ _ E Ho Hk Hn), (N2 o k _ _ _ E Ho Hk Hn).
Qed.

Lemma fold_left_concat {A B : Type} (f : A -> B -> A)
    (ls : list (list B)) : forall a,
  fold_left (fun a l => fold_left f l a) ls a = fold_left f (concat ls) a.
Proof.
  induction ls as [|l ls IH]; intros a; cbn; [reflexivity|].
  rewrite fold_left_app. apply IH.
Qed.

Lemma playAll_assignedInOrder (steps : list (list Action)) (s : Store) :
  assignedInOrder newVal (concat steps) s (playAll steps s).
Proof.
  unfold playAll, applyAll. rewrite (fold_left_concat apply).
  apply applyAll_assignedInOrder.
Qed.

Lemma unplayAll_concat (steps : list (list Action)) (s : Store) :
  unplayAll steps s = reverseAll (concat (rev steps)) s.
Proof.
  unfold unplayAll, reverseAll.
  induction steps as [|step steps IH]; cbn; [reflexivity|].
  rewrite concat_app, fold_left_app. cbn. rewrite app_nil_r.
  now rewrite IH.
Qed.

Lemma unplayAll_assignedInOrder (steps : list (list Action)) (s : Store) :
  assignedInOrder oldVal (concat (rev steps)) s (unplayAll steps s).
Proof.
  rewrite unplayAll_concat. apply reverseAll_assignedInOrder.
Qed.

Lemma stepAt_nth_error (q : ActionListQueue.t) (i : Z)
    (actionList : list Action) :
  ActionListQueue.stepAt q i = Some actionList ->
  nth_error (ActionListQueue.actionListQueue q) (Z.to_nat i)
  = Some actionList.
Proof.
  unfold ActionListQueue.stepAt. now destruct (i <? 0)%Z.
Qed.

(** C6 (log append rejection).  While [inAction] is true, [pushActionList]
    and [extendActionList] return false and leave the queue as it was, its
    [length] and its stored steps included; while [inAction] is false they
    append the given step or steps at the end, add their number to [length],
    and return true. *)
Theorem log_append_rejection :
  forall (cursor len : Z) (steps : list (list Action))
         (actionList : list Action) (actionLists : list (list Action)),
    let frozen := ActionListQueue.mk true cursor steps len in
    let idle := ActionListQueue.mk false cursor steps len in
    ActionListQueue.pushActionList frozen actionList = (false, frozen) /\
    ActionListQueue.extendActionList frozen actionLists = (false, frozen) /\
    ActionListQueue.pushActionList idle actionList
    = (true, ActionListQueue.mk false cursor (steps ++ [actionList]) (len + 1)) /\
    ActionListQueue.extendActionList idle actionLists
    = (true, ActionListQueue.mk false cursor (steps ++ actionLists)
               (len + Z.of_nat (List.length actionLists))).
Proof.
  intros cursor len steps actionList actionLists frozen idle.
  unfold ActionListQueue.pushActionList, ActionListQueue.extendActionList.
  subst frozen idle. cbn. auto.
Qed.

(** C7 (boundary stepping).  [stepForward] returns false and changes nothing
    when [inAction] is false or the cursor is at the last step;
    [stepBackward] returns false and changes nothing when [inAction] is
    false or the cursor is -1.  After any sequence of calls on a new queue
    (pushes, steps in either direction, [goToEnd], [goToBeginning],
    assignments to [inAction]) no call has raised, the cursor is -1 or the
    index of a step, and from there a [stepForward] that is not at the end
    finds the next step, moves the cursor onto it, applies its actions in
    recorded order and returns true, while a [stepBackward] that is not at
    -1 finds the current step, reverses its actions, moves the cursor back
    by one and returns true.  The step found is the element of the stored
    list at the index in question.  Applying the step means: every field named
    by an action of the step holds afterwards the [newVal] of the last
    action of the step naming it, and every other field of the heap is as
    before; reversing the step means the same with [oldVal] (the loop of
    [stepBackward] also runs through the step front to back). *)
Theorem boundary_stepping_safe :
  (forall (q : ActionListQueue.t) (s : Store),
      ActionListQueue.inAction q = false
      \/ ActionListQueue.lastAction q
         = (Z.of_nat (List.length (ActionListQueue.actionListQueue q)) - 1)%Z ->
      ActionListQueue.stepForward q s = Some (false, q, s)) /\
  (forall (q : ActionListQueue.t) (s : Store),
      ActionListQueue.inAction q = false
      \/ ActionListQueue.lastAction q = (-1)%Z ->
      ActionListQueue.stepBackward q s = Some (false, q, s)) /\
  (forall (calls : list Call) (s0 : Store),
      exists (q : ActionListQueue.t) (s : Store),
        runCalls calls ActionListQueue.new s0 = Some (q, s) /\
        cursorInRange q /\
        (ActionListQueue.inAction q = true ->
         ActionListQueue.lastAction q
         <> (Z.of_nat (List.length (ActionListQueue.actionListQueue q)) - 1)%Z ->
         exists actionList,
           ActionListQueue.stepAt q (ActionListQueue.lastAction q + 1)
           = Some actionList /\
           nth_error (ActionListQueue.actionListQueue q)
                     (Z.to_nat (ActionListQueue.lastAction q + 1))
           = Some actionList /\
           ActionListQueue.stepForward q s
           = Some (true,
                   ActionListQueue.set_lastAction q
                     (ActionListQueue.lastAction q + 1),
                   applyAll actionList s) /\
           assignedInOrder newVal actionList s (applyAll actionList s)) /\
        (ActionListQueue.inAction q = true ->
         ActionListQueue.lastAction q <> (-1)%Z ->
         exists actionList,
           ActionListQueue.stepAt q (ActionListQueue.lastAction q)
           = Some actionList /\
           nth_error (ActionListQueue.actionListQueue q)
                     (Z.to_nat (ActionListQueue.lastAction q))
           = Some actionList /\
           ActionListQueue.stepBackward q s
           = Some (true,
                   ActionListQueue.set_lastAction q
                     (ActionListQueue.lastAction q - 1),
                   reverseAll actionList s) /\
           assignedInOrder oldVal actionList s (reverseAll actionList s))).
Proof.
  split; [|split].
  - intros q s H. now apply stepForward_noop.
  - intros q s H. now apply stepBackward_noop.
  - intros calls s0.
    destruct (runCalls_inv calls ActionListQueue.new s0) as (q & s & E & Hr).
    { unfold cursorInRange. cbn. lia. }
    exists q, s. split; [exact E|]. split; [exact Hr|]. split.
    + intros Hin Hne.
      destruct (stepForward_advance q s Hin Hr Hne) as (actionList & Ea & Es).
      exists actionList. split; [exact Ea|].
      split; [exact (stepAt_nth_error _ _ _ Ea)|]. split; [exact Es|].
      apply applyAll_assignedInOrder.
    + intros Hin Hne.
      destruct (stepBackward_retreat q s Hin Hr Hne) as (actionList & Ea & Es).
      exists actionList. split; [exact Ea|].
      split; [exact (stepAt_nth_error _ _ _ Ea)|]. split; [exact Es|].
      apply reverseAll_assignedInOrder.
Qed.

(* ------------------------------------------------------------------ *)
(** ** The worked scenario *)


Lemma scenario_leaves :
  option_map (fun r => leafValues (snd r) (fst (fst r))) scenario
  = Some [JNum (Fin 3); JNum (Fin 5); JNum (Fin 2); JNum (Fin 9)].
Proof. vm_compute. reflexivity. Qed.

Lemma scenario_shape :
  option_map (fun r => map (fun n => (id n, nodeType n, depth n))
                           (nodes (fst (fst r)))) scenario
  = Some [(1, maxNode, 1); (2, minNode, 2); (3, leafNode, 3);
          (4, leafNode, 3); (5, minNode, 2); (6, leafNode, 3);
          (7, leafNode, 3)].
Proof. vm_compute. reflexivity. Qed.

(** C5, as the code has it.  For the depth-3, branching-factor-2,
    max-rooted tree whose four leaves hold 3, 5, 2, 9 from left to right,
    compiling the search records the root shadow value 3: the root is a
    maximiser over two minimisers, max (min 3 5) (min 2 9). *)
Theorem scenario_root_shadow_value :
  option_map (fun r => snd r (ONode (id (fst (fst r)))) __value) scenario
  = Some (JNum (Fin 3)).
Proof. vm_compute. reflexivity. Qed.

(** C5 as stated fails: the root shadow value of that tree is not 5. *)
Lemma scenario_root_shadow_value_not_5 :
  option_map (fun r => snd r (ONode (id (fst (fst r)))) __value) scenario
  <> Some (JNum (Fin 5)).
Proof. vm_compute. discriminate. Qed.

(* ------------------------------------------------------------------ *)
(** ** Answer checking *)

(** C4 at its failing input.  On the scenario tree the search prunes the
    edge into the last leaf.  After the solution is shown and that edge is
    toggled back to unpruned, [checkAnswer] still returns true, although
    the edge's shadow pruned flag is true and its visible flag is false:
    [checkSubTree] returns on a leaf before it looks at the leaf's edge. *)
Theorem checkAnswer_ignores_leaf_edges :
  exists (root : TreeNode) (s : Store),
    scenarioAfterUntoggle = Some (root, s) /\
    checkAnswer (Some root) s = true /\
    s (OEdge 7) __pruned = JBool true /\
    s (OEdge 7) pruned = JBool false /\
    ~ answersMatch root s.
Proof.
  exists_evaluated scenarioAfterUntoggle.
  split; [vm_compute; reflexivity|].
  split; [vm_compute; reflexivity|].
  split; [vm_compute; reflexivity|].
  intros [_ H].
  specialize (H (mkTreeNode 7 leafNode (Some 5) 3 2 []) (OEdge 7)).
  vm_compute in H.
  assert (X : JBool false = JBool true); [|discriminate X].
  apply H; auto 10.
Qed.

(* ------------------------------------------------------------------ *)
(** ** Trees and heaps *)

Lemma TreeNode_ind' (P : TreeNode -> Prop) :
  (forall n, Forall P (children n) -> P n) -> forall n, P n.
Proof.
  intros H. fix IH 1. intros [i ty p d cn cs]. apply H. cbn.
  induction cs as [|c cs IHcs]; constructor; [apply IH | exact IHcs].
Qed.


Lemma nodes_self (n : TreeNode) : In n (nodes n).
Proof. destruct n. cbn. auto. Qed.

Lemma nodes_child (n c m : TreeNode) :
  In c (children n) -> In m (nodes c) -> In m (nodes n).
Proof.
  intros Hc Hm. destruct n. cbn in *. right.
  apply in_flat_map. eauto.
Qed.

Lemma nodes_inv (n m : TreeNode) :
  In m (nodes n) -> m = n \/ exists c, In c (children n) /\ In m (nodes c).
Proof.
  destruct n. cbn. intros [H | H]; [auto|].
  right. now apply in_flat_map in H.
Qed.

Lemma nodes_trans (r : TreeNode) : forall n m,
  In n (nodes r) -> In m (nodes n) -> In m (nodes r).
Proof.
  induction r as [r IH] using TreeNode_ind'. intros n m Hn Hm.
  apply nodes_inv in Hn. destruct Hn as [-> | (c & Hc & Hn)]; [exact Hm|].
  apply (nodes_child r c m Hc).
  rewrite Forall_forall in IH. exact (IH c Hc n m Hn Hm).
Qed.

Lemma nodes_children (r n c : TreeNode) :
  In n (nodes r) -> In c (children n) -> In c (nodes r).
Proof.
  intros Hn Hc. apply (nodes_trans r n c Hn).
  apply (nodes_child n c c Hc). apply nodes_self.
Qed.

(* ------------------------------------------------------------------ *)
(** ** The generator *)

Lemma GenTree_bounds maxDepth bFac :
  (forall parent ty d lo hi n,
      GenTree maxDepth bFac parent ty d lo hi n ->
      lo < hi /\ id n = S lo /\
      forall m, In m (nodes n) -> lo < id m <= hi) /\
  (forall parent ty d lo hi cs,
      GenForest maxDepth bFac parent ty d lo hi cs ->
      lo <= hi /\
      forall c m, In c cs -> In m (nodes c) -> lo < id m <= hi).
Proof.
  apply GenTree_GenForest_ind.
  - intros. cbn. splits; auto. intros m [<- | []]. cbn. lia.
  - intros parent ty d lo hi cs Hd Hl _ [Hle IH].
    splits; [lia | reflexivity |].
    intros m Hm. apply nodes_inv in Hm. cbn in Hm.
    destruct Hm as [-> | (c & Hc & Hm)]; [cbn; lia|].
    specialize (IH c m Hc Hm). lia.
  - intros. split; [lia|]. intros c m [].
  - intros parent ty d lo mid hi c cs _ (H1 & H2 & H3) _ (H4 & H5).
    split; [lia|]. intros c' m [<- | Hc] Hm.
    + specialize (H3 m Hm). lia.
    + specialize (H5 c' m Hc Hm). lia.
Qed.

Lemma GenTree_ids maxDepth bFac parent ty d lo hi n m :
  GenTree maxDepth bFac parent ty d lo hi n ->
  In m (nodes n) -> lo < id m <= hi.
Proof.
  intros H Hm.
  apply (proj1 (GenTree_bounds maxDepth bFac)) in H.
  destruct H as (_ & _ & H). now apply H.
Qed.

Lemma genWrites_refl lo hi h : genWrites lo hi h h.
Proof. intros o k _. reflexivity. Qed.

Lemma genWrites_trans lo mid hi h1 h2 h3 :
  lo <= mid <= hi ->
  genWrites lo mid h1 h2 -> genWrites mid hi h2 h3 -> genWrites lo hi h1 h3.
Proof.
  intros Hb H12 H23 o k H.
  rewrite H23, H12; [reflexivity | |]; intuition lia.
Qed.

Lemma genFields_stable maxDepth bFac parent ty d lo mid hi h h' n :
  GenTree maxDepth bFac parent ty d lo mid n ->
  genWrites mid hi h h' -> genFields maxDepth h n -> genFields maxDepth h' n.
Proof.
  intros HT HW HF m Hm.
  pose proof (GenTree_ids _ _ _ _ _ _ _ _ _ HT Hm) as Hid.
  destruct (HF m Hm) as (F1 & F2 & F3).
  rewrite !HW by (cbn; lia). auto.
Qed.

Section GeneratorSpec.

Variable randomRound : nat -> Z -> Z.
Variable maxDepth : nat.
Variables minVal maxVal : Z.
Variable bFac : nat.

Lemma fillSlots_gen (f : GenState -> option (TreeNode * GenState))
    (parent : option NodeId) (ty : TreeNodeType) (d : nat) :
  (forall st, exists c st1, f st = Some (c, st1) /\ genPost maxDepth bFac parent ty d st c st1) ->
  forall k st,
  exists cs st',
    fillSlots k f st = Some (cs, st') /\
    List.length cs = k /\
    GenForest maxDepth bFac parent ty d (globalNodeId st) (globalNodeId st') cs /\
    genWrites (globalNodeId st) (globalNodeId st') (heap st) (heap st') /\
    Forall (genFields maxDepth (heap st')) cs.
Proof.
  intros Hf. induction k as [|k IH]; intros st; cbn.
  - exists [], st. splits; auto using genWrites_refl. constructor.
  - destruct (Hf st) as (c & st1 & E1 & HT & HW & HF). rewrite E1.
    destruct (IH st1) as (cs & st' & E2 & Hl & HFo & HW' & HFs). rewrite E2.
    exists (c :: cs), st'. splits; cbn; auto.
    + econstructor; eauto.
    + pose proof (proj1 (proj1 (GenTree_bounds _ _) _ _ _ _ _ _ HT)).
      pose proof (proj1 (proj2 (GenTree_bounds _ _) _ _ _ _ _ _ HFo)).
      eapply genWrites_trans; eauto. lia.
    + constructor; [|exact HFs].
      eapply genFields_stable; eauto.
Qed.

End GeneratorSpec.

Ltac obj_neq :=
  match goal with
  | |- ?o <> ?o' \/ ?k <> ?k' =>
      destruct o', k'; cbn in *;
      first [ right; discriminate
            | left; discriminate
            | left; intros [= <-]; intuition (lia || discriminate) ]
  end.

Lemma generateSubTree_spec randomRound maxDepth minVal maxVal bFac (fuel : nat) :
  forall parent ty d st,
    d <= maxDepth -> maxDepth - d < fuel ->
    exists n st',
      generateSubTree randomRound maxDepth minVal maxVal fuel parent ty d bFac st
      = Some (n, st') /\
      genPost maxDepth bFac parent ty d st n st'.
Proof.
  induction fuel as [|fuel IH]; intros parent ty d st Hd Hf; [lia|].
  cbn [generateSubTree].
  destruct (Nat.eqb_spec d maxDepth) as [-> | Hne].
  - do 2 eexists. split; [reflexivity|]. unfold genPost. cbn. splits.
    + constructor.
    + intros o k H. rewrite write_other by obj_neq.
      destruct parent; rewrite ?write_other by obj_neq; reflexivity.
    + intros m [<- | []]. cbn. splits.
      * intros _. eexists. apply write_same.
      * congruence.
      * intros Hp. rewrite write_other by (left; discriminate).
        destruct parent; [|congruence]. apply write_same.
  - set (curId := S (globalNodeId st)).
    set (h2 := match parent with
               | Some _ => write (write (heap st) (ONode curId) value JNull)
                                 (OEdge curId) pruned (JBool false)
               | None => write (heap st) (ONode curId) value JNull
               end).
    destruct (fillSlots_gen maxDepth bFac
                (generateSubTree randomRound maxDepth minVal maxVal fuel
                   (Some curId) (oppositeNodeType ty) (S d) bFac)
                (Some curId) (oppositeNodeType ty) (S d)
                ltac:(intros st0; apply IH; lia)
                bFac (mkGenState curId h2 (randomCalls st)))
      as (cs & st' & E & Hl & HFo & HW & HFs).
    rewrite E. do 2 eexists. split; [reflexivity|].
    cbn in HFo, HW.
    pose proof (proj1 (proj2 (GenTree_bounds _ _) _ _ _ _ _ _ HFo)) as Hle.
    unfold genPost. splits.
    + constructor; auto. lia.
    + intros o k H. rewrite HW by (unfold curId; intuition lia).
      subst h2 curId.
      destruct parent; rewrite ?write_other by obj_neq; reflexivity.
    + intros m Hm. apply nodes_inv in Hm. cbn in Hm.
      destruct Hm as [-> | (c & Hc & Hm)].
      * cbn. rewrite !HW by (cbn; lia). subst h2. splits.
        -- congruence.
        -- intros _. destruct parent; rewrite ?write_other by (left; discriminate);
             apply write_same.
        -- intros Hp. destruct parent; [|congruence]. apply write_same.
      * rewrite Forall_forall in HFs. exact (HFs c Hc m Hm).
Qed.

Lemma GenTree_shape maxDepth bFac :
  (forall parent ty d lo hi n,
      GenTree maxDepth bFac parent ty d lo hi n ->
      1 <= d ->
      parentNode n = parent /\ depth n = d /\
      (d < maxDepth -> nodeType n = ty) /\
      forall m, In m (nodes n) -> nodeShape maxDepth bFac m) /\
  (forall parent ty d lo hi cs,
      GenForest maxDepth bFac parent ty d lo hi cs ->
      1 <= d ->
      forall c, In c cs ->
        parentNode c = parent /\ depth c = d /\
        (d < maxDepth -> nodeType c = ty) /\
        forall m, In m (nodes c) -> nodeShape maxDepth bFac m).
Proof.
  apply GenTree_GenForest_ind.
  - intros parent ty lo Hd. cbn. splits; auto; [lia|].
    intros m [<- | []]. unfold nodeShape. cbn. splits; auto; lia.
  - intros parent ty d lo hi cs Hd Hl _ IH H1.
    cbn [parentNode depth nodeType]. splits; auto.
    intros m Hm. apply nodes_inv in Hm. cbn in Hm.
    destruct Hm as [-> | (c & Hc & Hm)].
    + unfold nodeShape. cbn. splits; auto; try lia.
      intros _. split; [exact Hl|]. intros c Hc.
      destruct (IH ltac:(lia) c Hc) as (P1 & P2 & P3 & _).
      splits; auto. intros Hlt. apply P3. lia.
    + destruct (IH ltac:(lia) c Hc) as (_ & _ & _ & P4). now apply P4.
  - intros parent ty d lo _ c [].
  - intros parent ty d lo mid hi c cs _ IHc _ IHcs Hd c' [<- | Hc'].
    + now apply IHc.
    + now apply IHcs.
Qed.

Lemma freshAbove_initial : freshAbove initialGenState.
Proof. intros o k _. reflexivity. Qed.




(* ------------------------------------------------------------------ *)
(** ** The compiler: what it writes and that it returns *)

Lemma framed_refl s : framed s s.
Proof. intros o k _. reflexivity. Qed.

Lemma framed_trans s1 s2 s3 : framed s1 s2 -> framed s2 s3 -> framed s1 s3.
Proof. intros H12 H23 o k H. now rewrite H23, H12. Qed.

Lemma framed_write s o k v : shadowField o k = true -> framed s (write s o k v).
Proof.
  intros H o' k' H'. apply write_other.
  destruct (write_cases s o k v o' k') as [(-> & -> & _) | [Hne _]];
    [congruence | exact Hne].
Qed.

Lemma framed_visible s s' :
  framed s s' -> forall o k, visible k = true -> s' o k = s o k.
Proof. intros H o k Hk. apply H. destruct o, k; cbn in *; congruence. Qed.

Lemma forChildren_rel {St : Type} (R : St -> St -> Prop)
    (f : TreeNode -> St -> St) (bFac : nat) (cs : list TreeNode) :
  (forall s, R s s) -> (forall s1 s2 s3, R s1 s2 -> R s2 s3 -> R s1 s3) ->
  Forall (fun c => forall s, R s (f c s)) cs ->
  forall k s, R s (forChildren f bFac cs k s).
Proof.
  intros Hrefl Htrans HF.
  induction HF as [|c cs Hc _ IH]; intros k s; cbn [forChildren].
  - apply Hrefl.
  - destruct (Nat.ltb k bFac); [|apply Hrefl].
    eapply Htrans; [apply Hc | apply IH].
Qed.

Lemma pruneInner_eq bFac n acc :
  pruneInner bFac n acc
  = forChildren (pruneInner bFac) bFac (children n) 0
      (match edgeToParent n with
       | Some e =>
           (fst acc ++ [mkAction (Some e) pruned (JBool false) (JBool true)],
            write (snd acc) e __pruned (JBool true))
       | None => acc
       end).
Proof. destruct n. reflexivity. Qed.

Lemma edgeToParent_cases n :
  edgeToParent n = None \/ edgeToParent n = Some (OEdge (id n)).
Proof. unfold edgeToParent. destruct (parentNode n); auto. Qed.

Lemma modifies_refl F s : modifies F s s.
Proof. intros o k _. reflexivity. Qed.

Lemma modifies_trans F s1 s2 s3 :
  modifies F s1 s2 -> modifies F s2 s3 -> modifies F s1 s3.
Proof. intros H12 H23 o k H. now rewrite H23, H12. Qed.

Lemma modifies_weaken (F G : Obj -> Key -> Prop) s s' :
  (forall o k, F o k -> G o k) -> modifies F s s' -> modifies G s s'.
Proof. intros HFG H o k Hn. apply H. intros HF. apply Hn, HFG, HF. Qed.

Lemma modifies_write (F : Obj -> Key -> Prop) s o k v :
  F o k -> modifies F s (write s o k v).
Proof.
  intros H o' k' H'. apply write_other.
  destruct (write_cases s o k v o' k') as [(-> & -> & _) | [Hne _]];
    [contradiction | exact Hne].
Qed.

Lemma ids_unfold n : ids n = id n :: flat_map ids (children n).
Proof.
  destruct n as [i ty p d cn cs]. unfold ids. cbn. f_equal.
  induction cs as [|c cs IH]; cbn; [reflexivity|].
  now rewrite map_app, IH.
Qed.

Lemma ids_self n : In (id n) (ids n).
Proof. rewrite ids_unfold. now left. Qed.

Lemma ids_child n c i : In c (children n) -> In i (ids c) -> In i (ids n).
Proof.
  intros Hc Hi. rewrite ids_unfold. right. apply in_flat_map. eauto.
Qed.

Lemma ids_below n c i :
  In c (children n) -> In i (ids c) -> In i (flat_map ids (children n)).
Proof. intros Hc Hi. apply in_flat_map. eauto. Qed.

Lemma pruneTouches_child n c o k :
  In c (children n) -> pruneTouches c o k -> pruneTouches n o k.
Proof.
  intros Hc. destruct o; cbn; [auto|].
  intros [Hi ->]. split; [|reflexivity]. now apply (ids_child n c).
Qed.

Lemma pruneTouches_search n c o k :
  In c (children n) -> pruneTouches c o k -> searchTouches n o k.
Proof.
  intros Hc. destruct o; cbn; [intros []|].
  intros [Hi ->]. split; [|reflexivity]. now apply (ids_below n c).
Qed.

Lemma searchTouches_child n c o k :
  In c (children n) -> searchTouches c o k -> searchTouches n o k.
Proof.
  intros Hc. destruct o; cbn.
  - intros [Hi Hk]. split; [|exact Hk]. now apply (ids_child n c).
  - intros [Hi ->]. split; [|reflexivity].
    apply (ids_below n c); [exact Hc|]. rewrite ids_unfold. now right.
Qed.

Lemma searchTouches_shadow n o k : searchTouches n o k -> shadowField o k = true.
Proof. destruct o; cbn; [tauto|]. now intros [_ ->]. Qed.

Lemma modifies_framed n s s' : modifies (searchTouches n) s s' -> framed s s'.
Proof.
  intros H o k Hk. apply H. intros Ht.
  apply searchTouches_shadow in Ht. congruence.
Qed.

Lemma pruneInner_touches bFac n :
  forall acc, modifies (pruneTouches n) (snd acc) (snd (pruneInner bFac n acc)).
Proof.
  induction n as [n IH] using TreeNode_ind'. intros acc.
  rewrite pruneInner_eq.
  eapply modifies_trans;
    [|apply (forChildren_rel
               (fun x y => modifies (pruneTouches n) (snd x) (snd y)));
      [intros; apply modifies_refl
      |intros ? ? ?; apply modifies_trans
      |]].
  - destruct (edgeToParent_cases n) as [-> | ->]; cbn [snd].
    + apply modifies_refl.
    + apply modifies_write. cbn. split; [apply ids_self | reflexivity].
  - rewrite Forall_forall in *. intros c Hc acc'.
    eapply modifies_weaken; [|apply (IH c Hc)].
    intros o k. now apply pruneTouches_child.
Qed.

(** The loop only assigns shadow fields of its own node and what the
    searches and prunings of the children it runs through assign: [F] is
    any set of fields that covers those. *)
Section LoopFootprint.

Variable F : Obj -> Key -> Prop.
Variable node : TreeNode.
Hypothesis F_node :
  forall k, shadowField (ONode (id node)) k = true -> F (ONode (id node)) k.

Lemma pruneChild_touches bFac child st :
  match child with
  | Some c => forall o k, pruneTouches c o k -> F o k
  | None => True
  end ->
  modifies F (l_store st) (l_store (pruneChild bFac node child st)).
Proof.
  intros Hc. unfold pruneChild, generatePruneActionList.
  destruct child as [c|].
  - pose proof (pruneInner_touches bFac c ([], l_store st)) as H.
    destruct (pruneInner bFac c ([], l_store st)) as [acts s1].
    cbn [snd l_store] in *.
    eapply modifies_trans; [|apply modifies_write; now apply F_node].
    eapply modifies_weaken; [exact Hc | exact H].
  - cbn [l_store]. apply modifies_write. now apply F_node.
Qed.

Lemma afterChild_touches isMaxNode res s1 st :
  modifies F s1 (l_store (afterChild node isMaxNode res s1 st)).
Proof.
  unfold afterChild. cbn [l_store].
  repeat match goal with
         | |- context [if ?c then _ else _] => destruct c
         end;
    repeat (first [apply modifies_refl
                  | eapply modifies_trans;
                    [|apply modifies_write; apply F_node; reflexivity]]).
Qed.

Lemma missingChildren_touches bFac n :
  forall st st',
    missingChildren bFac node n st = Some st' ->
    modifies F (l_store st) (l_store st').
Proof.
  induction n as [|n IH]; intros st st'; cbn [missingChildren].
  - intros [= <-]. apply modifies_refl.
  - destruct (l_pruneRest st); [|discriminate].
    intros H. apply IH in H.
    eapply modifies_trans;
      [apply (pruneChild_touches bFac None st I) | exact H].
Qed.

Lemma childLoop_touches rec bFac isMaxNode cs :
  Forall (fun c => forall a b m s r s1,
              rec c a b m s = Some (r, s1) ->
              modifies (searchTouches c) s s1) cs ->
  (forall c o k, In c cs -> searchTouches c o k -> F o k) ->
  (forall c o k, In c cs -> pruneTouches c o k -> F o k) ->
  forall k st st',
    childLoop rec bFac node isMaxNode cs k st = Some st' ->
    modifies F (l_store st) (l_store st').
Proof.
  intros HF.
  induction HF as [|c cs Hc _ IH]; intros HS HP k st st'; cbn [childLoop].
  - apply missingChildren_touches.
  - destruct (Nat.ltb k bFac); [|intros [= <-]; apply modifies_refl].
    assert (HS' : forall c' o k, In c' cs -> searchTouches c' o k -> F o k)
      by (intros c' o k' H'; apply HS; now right).
    assert (HP' : forall c' o k, In c' cs -> pruneTouches c' o k -> F o k)
      by (intros c' o k' H'; apply HP; now right).
    destruct (l_pruneRest st).
    + intros H. apply (IH HS' HP') in H.
      eapply modifies_trans; [|exact H].
      apply (pruneChild_touches bFac (Some c) st).
      intros o k'. apply HP. now left.
    + destruct (rec c (l_a st) (l_b st) (negb isMaxNode) (l_store st))
        as [[res s1]|] eqn:E; [|discriminate].
      intros H. apply (IH HS' HP') in H. apply Hc in E.
      eapply modifies_trans;
        [eapply modifies_weaken; [|exact E];
         intros o k'; apply HS; now left|].
      eapply modifies_trans; [apply afterChild_touches | exact H].
Qed.

End LoopFootprint.

Lemma abActions_eq bFac node a b isMaxNode s :
  abActions bFac node a b isMaxNode s
  = let me := ONode (id node) in
    let enter :=
      [mkAction (edgeToParent node) entered (JBool false) (JBool true);
       mkAction (Some me) entered (JBool false) (JBool true)] in
    if isLeaf node then
      Some (mkABResult (s me value) enter []
              [mkAction (edgeToParent node) entered (JBool true) (JBool false)],
            s)
    else
      match childLoop (abActions bFac) bFac node isMaxNode (children node) 0
              (mkLoopState a b false []
                 (JNum (if isMaxNode then NegInf else PosInf)) []
                 (write (write s me __alpha a) me __beta b)) with
      | None => None
      | Some st =>
          Some (mkABResult (l_curVal st)
                  (enter ++ [mkAction (Some me) alpha (s me alpha) a;
                             mkAction (Some me) beta (s me beta) b])
                  (l_childActionsList st ++ [l_lastChildExitActions st])
                  [mkAction (edgeToParent node) entered (JBool true) (JBool false);
                   mkAction (Some me) entered (JBool true) (JBool false)],
                l_store st)
      end.
Proof. destruct node. reflexivity. Qed.

Lemma abActions_touches bFac n :
  forall a b isMaxNode s r s1,
    abActions bFac n a b isMaxNode s = Some (r, s1) ->
    modifies (searchTouches n) s s1.
Proof.
  induction n as [n IH] using TreeNode_ind'.
  intros a b isMaxNode s r s1. rewrite abActions_eq. cbn zeta.
  destruct (isLeaf n).
  - intros [= _ <-]. apply modifies_refl.
  - destruct (childLoop _ _ _ _ _ _ _) as [st|] eqn:E; [|discriminate].
    intros [= _ <-].
    apply (childLoop_touches (searchTouches n) n) in E; cbn [l_store] in E.
    2:{ intros k Hk. cbn. split; [apply ids_self | exact Hk]. }
    2:{ exact IH. }
    2:{ intros c o k. apply searchTouches_child. }
    2:{ intros c o k. apply pruneTouches_search. }
    eapply modifies_trans; [|exact E].
    eapply modifies_trans; apply modifies_write; cbn;
      (split; [apply ids_self | reflexivity]).
Qed.

Lemma abActions_framed bFac n a b isMaxNode s r s1 :
  abActions bFac n a b isMaxNode s = Some (r, s1) -> framed s s1.
Proof. intros E. apply abActions_touches in E. now apply modifies_framed in E. Qed.

Lemma complete_child bFac n c :
  complete bFac n -> In c (children n) -> complete bFac c.
Proof.
  intros H Hc m Hm. apply H. now apply (nodes_child n c m).
Qed.

Lemma missingChildren_zero bFac node st :
  missingChildren bFac node 0 st = Some st.
Proof. reflexivity. Qed.

Lemma childLoop_total rec bFac node isMaxNode cs :
  Forall (fun c => forall a b m s, exists r s1, rec c a b m s = Some (r, s1)) cs ->
  forall k st,
    bFac <= k + List.length cs ->
    exists st', childLoop rec bFac node isMaxNode cs k st = Some st'.
Proof.
  intros HF.
  induction HF as [|c cs Hc _ IH]; intros k st Hk;
    cbn [childLoop]; cbn [List.length] in Hk.
  - replace (bFac - k) with 0 by lia. exists st. reflexivity.
  - destruct (Nat.ltb k bFac); [|eauto].
    destruct (l_pruneRest st).
    + apply IH. lia.
    + destruct (Hc (l_a st) (l_b st) (negb isMaxNode) (l_store st))
        as (r & s1 & ->).
      apply IH. lia.
Qed.

Lemma abActions_total bFac n :
  complete bFac n ->
  forall a b isMaxNode s,
  exists r s1, abActions bFac n a b isMaxNode s = Some (r, s1).
Proof.
  induction n as [n IH] using TreeNode_ind'.
  intros Hc a b isMaxNode s. rewrite abActions_eq. cbn zeta.
  destruct (isLeaf n) eqn:El; [eauto|].
  destruct (childLoop_total (abActions bFac) bFac n isMaxNode (children n))
    with (k := 0)
         (st := mkLoopState a b false []
                  (JNum (if isMaxNode then NegInf else PosInf)) []
                  (write (write s (ONode (id n)) __alpha a)
                         (ONode (id n)) __beta b))
    as [st' ->].
  - rewrite Forall_forall in *. intros c Hin. apply IH; [exact Hin|].
    now apply (complete_child bFac n c).
  - rewrite (Hc n (nodes_self n) El). lia.
  - eauto.
Qed.

Lemma nodeShape_complete maxDepth bFac root :
  (forall n, In n (nodes root) -> nodeShape maxDepth bFac n) ->
  complete bFac root.
Proof.
  intros H m Hm Hl. destruct (H m Hm) as (Hd & _ & Hleaf & Hinner).
  destruct (Nat.eq_dec (depth m) maxDepth) as [e|ne].
  - destruct (Hleaf e) as [Hty _]. unfold isLeaf in Hl. now rewrite Hty in Hl.
  - apply Hinner. lia.
Qed.

Lemma GenTree_complete maxDepth bFac parent ty d lo hi root :
  GenTree maxDepth bFac parent ty d lo hi root -> 1 <= d ->
  complete bFac root.
Proof.
  intros HT Hd. apply (nodeShape_complete maxDepth).
  now apply (proj1 (GenTree_shape maxDepth bFac) _ _ _ _ _ _ HT Hd).
Qed.

Lemma alphaBeta_framed tree s q s' :
  alphaBeta tree s = Some (q, s') -> framed s s'.
Proof.
  unfold alphaBeta. destruct (Tree.rootNode tree) as [root|].
  - destruct (abActions _ _ _ _ _ _) as [[res s1]|] eqn:E; [|discriminate].
    intros [= _ <-]. now apply abActions_framed in E.
  - intros [= _ <-]. apply framed_refl.
Qed.

(** C10 (frame of compilation).  Whatever tree and heap [alphaBeta] is run
    on, the only fields whose value can differ afterwards are the shadow
    fields ([__value], [__alpha], [__beta], [__pruned] of nodes and
    [__pruned] of edges); in particular every visible field ([value],
    [alpha], [beta], [entered], [pruned]) of every node and edge holds the
    value it held before.  And on every generated tree the call does
    return: the recorded actions are only returned in the log, none is
    applied. *)
Theorem alphaBeta_writes_only_shadow_fields :
  (forall (tree : Tree.t) (s : Store) (q : ActionListQueue.t) (s' : Store),
      alphaBeta tree s = Some (q, s') ->
      forall (o : Obj) (k : Key),
        (shadowField o k = false -> s' o k = s o k) /\
        (visible k = true -> s' o k = s o k)) /\
  (forall (randomRound : nat -> Z -> Z) (maxDepth : nat) (minVal maxVal : Z)
          (bFac : nat) (treeType : TreeNodeType) (fuel : nat) (st : GenState),
      1 <= maxDepth -> maxDepth <= fuel ->
      exists (root : TreeNode) (st' : GenState),
        generateABTreeRootNode randomRound maxDepth minVal maxVal fuel
                               treeType bFac st = Some (root, st') /\
        forall s : Store,
        exists (q : ActionListQueue.t) (s' : Store),
          alphaBeta (Tree.mk (Some root) treeType maxDepth bFac true) s
          = Some (q, s') /\
          forall (o : Obj) (k : Key), visible k = true -> s' o k = s o k).
Proof.
  split.
  - intros tree s q s' E o k. apply alphaBeta_framed in E. split.
    + apply E.
    + now apply framed_visible.
  - intros randomRound maxDepth minVal maxVal bFac treeType fuel st Hd Hfuel.
    destruct (generateSubTree_spec randomRound maxDepth minVal maxVal bFac fuel
                None treeType 1 st Hd ltac:(lia))
      as (root & st' & E & HT & _).
    exists root, st'. split; [exact E|]. intros s.
    pose proof (GenTree_complete _ _ _ _ _ _ _ _ HT (le_n 1)) as Hc.
    destruct (abActions_total bFac root Hc (JNum NegInf) (JNum PosInf)
                (TreeNodeType_eqb treeType maxNode) s) as (r & s1 & Er).
    unfold alphaBeta. cbn [Tree.rootNode Tree.branchingFactor Tree.treeType].
    rewrite Er. do 2 eexists. split; [reflexivity|].
    apply framed_visible. now apply abActions_framed in Er.
Qed.

(* ------------------------------------------------------------------ *)
(** ** The order of numbers *)

Module NumOrder <: TotalOrder.
Definition t := Num.
Definition eq := @eq Num.
Definition lt := num_lt.
Definition le := num_le.
#[global] Instance eq_equiv : Equivalence eq := eq_equivalence.
#[global] Instance lt_strorder : StrictOrder lt.
Proof.
  split.
  - intros x H. unfold lt, num_lt in H.
    destruct x; cbn in H; try discriminate. apply Z.ltb_lt in H. lia.
  - intros x y z. unfold lt, num_lt.
    destruct x, y, z; cbn; rewrite ?Z.ltb_lt; auto; try discriminate; lia.
Qed.
#[global] Instance lt_compat : Proper (eq ==> eq ==> iff) lt.
Proof. intros x x' -> y y' ->. reflexivity. Qed.

Lemma le_lteq x y : le x y <-> lt x y \/ eq x y.
Proof.
  unfold le, lt, eq, num_le, num_lt, num_leb.
  destruct x, y; cbn; rewrite ?negb_true_iff, ?Z.ltb_lt, ?Z.ltb_ge;
    split; auto; try tauto; try (intros [H | H]; discriminate).
  - intros H. destruct (Z.eq_dec z z0); [right; congruence | left; lia].
  - intros [H | [= ->]]; lia.
Qed.

Lemma lt_total x y : lt x y \/ eq x y \/ lt y x.
Proof.
  unfold lt, eq, num_lt.
  destruct x, y; cbn; rewrite ?Z.ltb_lt; auto.
  destruct (Z.lt_trichotomy z z0) as [H | [-> | H]]; auto.
Qed.
End NumOrder.

Module NumOrderTac := MakeOrderTac NumOrder NumOrder.

Lemma num_ltb_false_le x y : num_ltb x y = false <-> num_le y x.
Proof. unfold num_le, num_leb. now rewrite negb_true_iff. Qed.

Lemma num_leb_false_lt x y : num_leb x y = false <-> num_lt y x.
Proof. unfold num_lt, num_leb. now rewrite negb_false_iff. Qed.

Lemma num_max_cases x y :
  (num_lt x y /\ num_max x y = y) \/ (num_le y x /\ num_max x y = x).
Proof.
  unfold num_max, num_lt. destruct (num_ltb x y) eqn:E; [auto|].
  right. split; [now apply num_ltb_false_le|reflexivity].
Qed.

Lemma num_min_cases x y :
  (num_lt y x /\ num_min x y = y) \/ (num_le x y /\ num_min x y = x).
Proof.
  unfold num_min, num_lt. destruct (num_ltb y x) eqn:E; [auto|].
  right. split; [now apply num_ltb_false_le|reflexivity].
Qed.

(** Decide a goal about the order of numbers: name the comparisons, split
    on every [num_max] and [num_min] and on the premises of the [bounds]
    at hand, and leave the rest to [order]. *)
Ltac num_order :=
  unfold bounds in *;
  repeat match goal with
         | H : _ /\ _ |- _ => destruct H
         end;
  repeat match goal with
         | |- context [num_max ?x ?y] =>
             let H := fresh in let E := fresh in
             destruct (num_max_cases x y) as [[H E]|[H E]]; rewrite E in *; clear E
         | H0 : context [num_max ?x ?y] |- _ =>
             let H := fresh in let E := fresh in
             destruct (num_max_cases x y) as [[H E]|[H E]]; rewrite E in *; clear E
         | |- context [num_min ?x ?y] =>
             let H := fresh in let E := fresh in
             destruct (num_min_cases x y) as [[H E]|[H E]]; rewrite E in *; clear E
         | H0 : context [num_min ?x ?y] |- _ =>
             let H := fresh in let E := fresh in
             destruct (num_min_cases x y) as [[H E]|[H E]]; rewrite E in *; clear E
         end;
  rewrite ?num_ltb_false_le, ?num_leb_false_lt in *;
  change (forall x y, num_ltb x y = true) with (forall x y, num_lt x y) in *;
  repeat match goal with
         | H : context [num_ltb ?x ?y = true] |- _ =>
             change (num_ltb x y = true) with (num_lt x y) in H
         | H : context [num_leb ?x ?y = true] |- _ =>
             change (num_leb x y = true) with (num_le x y) in H
         | |- context [num_ltb ?x ?y = true] =>
             change (num_ltb x y = true) with (num_lt x y)
         | |- context [num_leb ?x ?y = true] =>
             change (num_leb x y = true) with (num_le x y)
         end;
  change num_lt with NumOrder.lt in *;
  change num_le with NumOrder.le in *;
  repeat match goal with
         | |- _ /\ _ => split
         | |- _ -> _ => intro
         end;
  repeat match goal with
         | H : NumOrder.lt ?x ?y -> _ |- _ =>
             let L := fresh in
             destruct (NumOrder.lt_total x y) as [L | [L | L]];
             [ specialize (H L)
             | clear H
             | clear H ]
         end;
  NumOrderTac.order.

Lemma step_max a0 b0 cur M v m :
  bounds cur M a0 b0 ->
  bounds v m (num_max a0 cur) b0 ->
  bounds (num_max cur v) (num_max M m) a0 b0.
Proof. intros. num_order. Qed.

Lemma step_min a0 b0 cur M v m :
  bounds cur M a0 b0 ->
  bounds v m a0 (num_min b0 cur) ->
  bounds (num_min cur v) (num_min M m) a0 b0.
Proof. intros. num_order. Qed.

Lemma skip_max a0 b0 cur M m :
  num_ltb a0 b0 = true ->
  num_leb b0 (num_max a0 cur) = true ->
  bounds cur M a0 b0 ->
  bounds cur (num_max M m) a0 b0.
Proof. intros. num_order. Qed.

Lemma skip_min a0 b0 cur M m :
  num_ltb a0 b0 = true ->
  num_leb (num_min b0 cur) a0 = true ->
  bounds cur M a0 b0 ->
  bounds cur (num_min M m) a0 b0.
Proof. intros. num_order. Qed.

Lemma bounds_refl v a b : bounds v v a b.
Proof. num_order. Qed.


(* ------------------------------------------------------------------ *)
(** ** The search returns the minimax value *)

Lemma isLeaf_true n : isLeaf n = true -> nodeType n = leafNode.
Proof. unfold isLeaf. destruct (nodeType n); cbn; congruence. Qed.

Lemma isLeaf_false n : isLeaf n = false -> nodeType n <> leafNode.
Proof. unfold isLeaf. intros H E. rewrite E in H. discriminate. Qed.

Lemma minimax_eq s n :
  minimax s n
  = match nodeType n with
    | leafNode =>
        match s (ONode (id n)) value with
        | JNum x => Some x
        | _ => None
        end
    | maxNode => foldFrom num_max (Some NegInf) (map (minimax s) (children n))
    | minNode => foldFrom num_min (Some PosInf) (map (minimax s) (children n))
    | randNode => None
    end.
Proof. destruct n. reflexivity. Qed.

Lemma minimax_framed s s' n : framed s s' -> minimax s' n = minimax s n.
Proof.
  intros Hf. induction n as [n IH] using TreeNode_ind'.
  rewrite !minimax_eq.
  assert (E : map (minimax s') (children n) = map (minimax s) (children n)).
  { apply map_ext_in. now apply Forall_forall. }
  rewrite E, (Hf (ONode (id n)) value eq_refl). reflexivity.
Qed.

Lemma leavesFinite_child s n c :
  leavesFinite s n -> In c (children n) -> leavesFinite s c.
Proof. intros H Hc m Hm. apply H. now apply (nodes_child n c m). Qed.

Lemma NoDup_ids_child n c :
  NoDup (ids n) -> In c (children n) ->
  NoDup (ids c) /\ ~ In (id n) (ids c).
Proof.
  rewrite ids_unfold. intros H Hc. inversion H as [|x l Hx Hl]; subst.
  split.
  - clear Hx H. induction (children n) as [|c' cs IH]; [destruct Hc|].
    cbn in Hl. destruct Hc as [-> | Hc].
    + now apply NoDup_app_remove_r in Hl.
    + apply IH; [exact Hc|]. now apply NoDup_app_remove_l in Hl.
  - intros Hi. apply Hx. apply in_flat_map. eauto.
Qed.

Lemma num_max_NegInf a : num_max a NegInf = a.
Proof. now destruct a. Qed.

Lemma num_min_PosInf b : num_min b PosInf = b.
Proof. now destruct b. Qed.

Lemma pruneChild_fields bFac node child st :
  let st' := pruneChild bFac node child st in
  l_a st' = l_a st /\ l_b st' = l_b st /\ l_pruneRest st' = l_pruneRest st /\
  l_curVal st' = l_curVal st /\
  forall i k, k <> __pruned -> l_store st' (ONode i) k = l_store st (ONode i) k.
Proof.
  unfold pruneChild, generatePruneActionList.
  destruct child as [c|].
  - pose proof (pruneInner_touches bFac c ([], l_store st)) as H.
    destruct (pruneInner bFac c ([], l_store st)) as [acts s1].
    cbn [snd l_store l_a l_b l_pruneRest l_curVal] in *. splits; auto.
    intros i k Hk. rewrite write_other by (right; congruence).
    apply H. cbn. tauto.
  - cbn. splits; auto. intros i k Hk. apply write_other. right. congruence.
Qed.

Lemma afterChild_loopInv node isMax a0 b0 cur st res s1 v :
  loopInv isMax a0 b0 cur st ->
  returnVal res = JNum v ->
  loopInv isMax a0 b0 (if isMax then num_max cur v else num_min cur v)
          (afterChild node isMax res s1 st).
Proof.
  intros (E1 & E2 & E3 & E4) Ev.
  unfold loopInv, afterChild.
  cbn [l_curVal l_a l_b l_pruneRest].
  rewrite E1, E2, E3, Ev. destruct isMax; cbn [negb andb js_gt js_lt js_le toNumber].
  - assert (A : (if num_ltb (num_max a0 cur) v then JNum v
                 else JNum (num_max a0 cur))
                = JNum (num_max a0 (num_max cur v))).
    { destruct (num_ltb (num_max a0 cur) v) eqn:E; f_equal; num_order. }
    rewrite A. splits; try reflexivity.
    all: unfold num_max; now destruct (num_ltb cur v).
  - assert (A : (if num_ltb v (num_min b0 cur) then JNum v
                 else JNum (num_min b0 cur))
                = JNum (num_min b0 (num_min cur v))).
    { destruct (num_ltb v (num_min b0 cur)) eqn:E; f_equal; num_order. }
    rewrite A. splits; try reflexivity.
    all: unfold num_min; now destruct (num_ltb v cur).
Qed.

Lemma pruneChild_framed bFac node child st :
  framed (l_store st) (l_store (pruneChild bFac node child st)).
Proof.
  unfold pruneChild, generatePruneActionList.
  destruct child as [c|].
  - pose proof (pruneInner_touches bFac c ([], l_store st)) as H.
    destruct (pruneInner bFac c ([], l_store st)) as [acts s1].
    cbn [snd l_store] in *.
    eapply framed_trans; [|now apply framed_write].
    intros o k Hk. apply H. destruct o; cbn; [tauto|].
    intros [_ ->]. discriminate.
  - cbn [l_store]. now apply framed_write.
Qed.

Lemma afterChild_recorded node isMax a0 b0 cur st res s1 v k :
  loopInv isMax a0 b0 cur st ->
  returnVal res = JNum (Fin v) ->
  recorded node isMax k cur st ->
  s1 (ONode (id node)) __value = l_store st (ONode (id node)) __value ->
  recorded node isMax (S k)
           (if isMax then num_max cur (Fin v) else num_min cur (Fin v))
           (afterChild node isMax res s1 st).
Proof.
  intros (E1 & E2 & E3 & E4) Ev Hrec Hs1. right.
  unfold afterChild. cbn [l_store]. rewrite E1, E2, E3, Ev.
  destruct isMax; cbn [negb andb js_gt js_lt toNumber].
  - assert (Em : num_max cur (Fin v)
                 = if num_ltb cur (Fin v) then Fin v else cur) by reflexivity.
    rewrite Em. clear Em. destruct (num_ltb cur (Fin v)) eqn:Eb.
    + exists v. split; [reflexivity|].
      destruct (num_ltb (num_max a0 cur) (Fin v));
        rewrite ?write_other by (right; discriminate); apply write_same.
    + destruct Hrec as [[_ ->] | (z & -> & Hz)]; [discriminate Eb|].
      exists z. split; [reflexivity|].
      destruct (num_ltb (num_max a0 (Fin z)) (Fin v));
        rewrite ?write_other by (right; discriminate); congruence.
  - assert (Em : num_min cur (Fin v)
                 = if num_ltb (Fin v) cur then Fin v else cur) by reflexivity.
    rewrite Em. clear Em. destruct (num_ltb (Fin v) cur) eqn:Eb.
    + exists v. split; [reflexivity|].
      destruct (num_ltb (Fin v) (num_min b0 cur));
        rewrite ?write_other by (right; discriminate); apply write_same.
    + destruct Hrec as [[_ ->] | (z & -> & Hz)]; [discriminate Eb|].
      exists z. split; [reflexivity|].
      destruct (num_ltb (Fin v) (num_min b0 (Fin z)));
        rewrite ?write_other by (right; discriminate); congruence.
Qed.

Lemma foldFrom_cons f M m vs :
  foldFrom f (Some M) (Some m :: vs) = foldFrom f (Some (f M m)) vs.
Proof. reflexivity. Qed.

Lemma childLoop_correct bFac s node isMax a0 b0 cs :
  num_ltb a0 b0 = true ->
  Forall (childOK bFac s node isMax) cs ->
  forall k st cur M,
    k + List.length cs = bFac ->
    framed s (l_store st) ->
    loopInv isMax a0 b0 cur st ->
    recorded node isMax k cur st ->
    bounds cur M a0 b0 ->
    exists st' cur' M',
      childLoop (abActions bFac) bFac node isMax cs k st = Some st' /\
      l_curVal st' = JNum cur' /\
      recorded node isMax bFac cur' st' /\
      foldFrom (if isMax then num_max else num_min) (Some M)
               (map (minimax s) cs) = Some M' /\
      bounds cur' M' a0 b0.
Proof.
  intros Hab HF.
  induction HF as [|c cs [Hid Hc] _ IH]; intros k st cur M Hk Hfr Hinv Hrec Hb;
    cbn [childLoop map]; cbn [List.length] in Hk.
  - replace (bFac - k) with 0 by lia. cbn [missingChildren].
    exists st, cur, M. destruct Hinv as (E1 & _).
    replace bFac with k by lia. auto.
  - destruct (Nat.ltb_spec k bFac) as [_|]; [|lia].
    pose proof Hinv as (E1 & E2 & E3 & E4).
    destruct (l_pruneRest st) eqn:Ep.
    + (* the window has closed: the child is pruned *)
      destruct (Hc NegInf PosInf s eq_refl (framed_refl s))
        as (_ & _ & _ & m & _ & _ & Em & _).
      pose proof (pruneChild_fields bFac node (Some c) st)
        as (F1 & F2 & F3 & F4 & F5).
      cbn zeta in *.
      assert (Hne : cur <> (if isMax then NegInf else PosInf)).
      { intros ->. symmetry in E4. destruct isMax.
        - rewrite num_max_NegInf in E4. num_order.
        - rewrite num_min_PosInf in E4. num_order. }
      destruct (IH (S k) (pruneChild bFac node (Some c) st) cur
                  ((if isMax then num_max else num_min) M m))
        as (st' & cur' & M' & R1 & R2 & R3 & R4 & R5).
      * lia.
      * eapply framed_trans; [exact Hfr|].
        apply pruneChild_framed.
      * unfold loopInv. now rewrite F1, F2, F3, F4.
      * destruct Hrec as [[_ ->] | (z & -> & Hz)]; [congruence|].
        right. exists z. split; [reflexivity|].
        rewrite F5 by discriminate. exact Hz.
      * symmetry in E4. destruct isMax.
        -- now apply skip_max.
        -- now apply skip_min.
      * exists st', cur', M'. rewrite Em, foldFrom_cons. auto.
    + (* the child is searched with the current window *)
      symmetry in E4. apply num_leb_false_lt in E4.
      destruct (Hc _ _ (l_store st) E4 Hfr) as (r & s2 & v & m & Er & Ev & Em & Hbv).
      rewrite E2, E3, Er.
      destruct (IH (S k) (afterChild node isMax r s2 st)
                  (if isMax then num_max cur (Fin v) else num_min cur (Fin v))
                  ((if isMax then num_max else num_min) M m))
        as (st' & cur' & M' & R1 & R2 & R3 & R4 & R5).
      * lia.
      * eapply framed_trans; [exact Hfr|].
        eapply framed_trans; [exact (abActions_framed _ _ _ _ _ _ _ _ Er)|].
        apply (modifies_framed node).
        apply afterChild_touches.
        intros k' Hk'. cbn. split; [apply ids_self | exact Hk'].
      * now apply afterChild_loopInv.
      * eapply afterChild_recorded; eauto.
        apply (abActions_touches _ _ _ _ _ _ _ _ Er). cbn. tauto.
      * destruct isMax.
        -- now apply step_max.
        -- now apply step_min.
      * exists st', cur', M'. rewrite Em, foldFrom_cons. auto.
Qed.

Lemma abActions_correct bFac s :
  1 <= bFac ->
  forall n isMax,
    complete bFac n -> KindsAgree isMax n -> NoDup (ids n) ->
    leavesFinite s n ->
    forall a b s1,
      num_ltb a b = true -> framed s s1 ->
      exists r s2 v m,
        abActions bFac n (JNum a) (JNum b) isMax s1 = Some (r, s2) /\
        returnVal r = JNum (Fin v) /\
        minimax s n = Some m /\
        bounds (Fin v) m a b /\
        (isLeaf n = false -> s2 (ONode (id n)) __value = JNum (Fin v)).
Proof.
  intros HbFac. induction n as [n IH] using TreeNode_ind'.
  intros isMax Hc Hk Hnd Hlf a b s1 Hab Hfr.
  rewrite abActions_eq, minimax_eq. cbn zeta.
  destruct (isLeaf n) eqn:El.
  - destruct (Hlf n (nodes_self n) El) as [z Hz].
    do 2 eexists. exists z, (Fin z). splits; try reflexivity.
    + cbn [returnVal]. rewrite (Hfr (ONode (id n)) value eq_refl). exact Hz.
    + now rewrite (isLeaf_true n El), Hz.
    + apply bounds_refl.
    + discriminate.
  - inversion Hk as [? ? El' | ? ? Hty Hch]; subst; [congruence|].
    set (st0 := mkLoopState (JNum a) (JNum b) false []
                  (JNum (if isMax then NegInf else PosInf)) []
                  (write (write s1 (ONode (id n)) __alpha (JNum a))
                         (ONode (id n)) __beta (JNum b))).
    destruct (childLoop_correct bFac s n isMax a b (children n) Hab)
      with (k := 0) (st := st0) (cur := if isMax then NegInf else PosInf)
           (M := if isMax then NegInf else PosInf)
      as (st' & cur' & M' & R1 & R2 & R3 & R4 & R5).
    + rewrite Forall_forall in *. intros c Hin.
      destruct (NoDup_ids_child n c Hnd Hin) as [Hndc Hidc].
      split; [exact Hidc|]. intros a' b' s1' Hab' Hfr'.
      destruct (IH c Hin (negb isMax) (complete_child bFac n c Hc Hin)
                  (Hch c Hin) Hndc (leavesFinite_child s n c Hlf Hin)
                  a' b' s1' Hab' Hfr')
        as (r & s2 & v & m & ? & ? & ? & ? & _).
      exists r, s2, v, m. auto.
    + cbn [plus]. apply (Hc n (nodes_self n) El).
    + subst st0. cbn [l_store]. eapply framed_trans; [exact Hfr|].
      eapply framed_trans; now apply framed_write.
    + subst st0. unfold loopInv. cbn [l_curVal l_a l_b l_pruneRest].
      destruct isMax; rewrite ?num_max_NegInf, ?num_min_PosInf; splits; auto;
        symmetry; apply num_leb_false_lt; exact Hab.
    + left. auto.
    + apply bounds_refl.
    + fold st0. rewrite R1.
      destruct R3 as [[-> _] | (z & -> & Hz)]; [lia|].
      do 2 eexists. exists z, M'. cbn [returnVal]. splits; auto.
      rewrite Hty. destruct isMax; exact R4.
Qed.

Lemma oppositeNodeType_flag ty :
  ty = maxNode \/ ty = minNode ->
  (oppositeNodeType ty = maxNode \/ oppositeNodeType ty = minNode) /\
  TreeNodeType_eqb (oppositeNodeType ty) maxNode
  = negb (TreeNodeType_eqb ty maxNode) /\
  ty = (if TreeNodeType_eqb ty maxNode then maxNode else minNode) /\
  TreeNodeType_eqb ty leafNode = false.
Proof. intros [-> | ->]; cbn; auto. Qed.

Lemma GenTree_kinds maxDepth bFac :
  (forall parent ty d lo hi n,
      GenTree maxDepth bFac parent ty d lo hi n ->
      ty = maxNode \/ ty = minNode ->
      KindsAgree (TreeNodeType_eqb ty maxNode) n /\
      forall m, In m (nodes n) -> isLeaf m = true -> depth m = maxDepth) /\
  (forall parent ty d lo hi cs,
      GenForest maxDepth bFac parent ty d lo hi cs ->
      ty = maxNode \/ ty = minNode ->
      Forall (KindsAgree (TreeNodeType_eqb ty maxNode)) cs /\
      forall c m, In c cs -> In m (nodes c) -> isLeaf m = true ->
                  depth m = maxDepth).
Proof.
  apply GenTree_GenForest_ind.
  - intros parent ty lo Hty. split.
    + now apply KindsLeaf.
    + intros m [<- | []] _. reflexivity.
  - intros parent ty d lo hi cs Hd Hl _ IH Hty.
    destruct (oppositeNodeType_flag ty Hty) as (Ho & Hf & Hk & Hnl).
    destruct (IH Ho) as [IH1 IH2]. split.
    + apply KindsInner; cbn [nodeType children]; [exact Hk|].
      now rewrite <- Hf.
    + intros m Hm. apply nodes_inv in Hm. cbn [children] in Hm.
      destruct Hm as [-> | (c & Hc & Hm)].
      * unfold isLeaf. cbn [nodeType]. congruence.
      * now apply (IH2 c m).
  - intros parent ty d lo _. split; [constructor|]. intros c m [].
  - intros parent ty d lo mid hi c cs _ IHc _ IHcs Hty.
    destruct (IHc Hty) as [C1 C2]. destruct (IHcs Hty) as [S1 S2]. split.
    + now constructor.
    + intros c' m [<- | Hc']; [apply C2 | now apply S2].
Qed.

Lemma in_ids_nodes i n : In i (ids n) -> exists m, In m (nodes n) /\ id m = i.
Proof.
  unfold ids. intros H. apply in_map_iff in H.
  destruct H as (m & E & Hm). eauto.
Qed.

Lemma GenTree_NoDup maxDepth bFac :
  (forall parent ty d lo hi n,
      GenTree maxDepth bFac parent ty d lo hi n -> NoDup (ids n)) /\
  (forall parent ty d lo hi cs,
      GenForest maxDepth bFac parent ty d lo hi cs ->
      NoDup (flat_map ids cs)).
Proof.
  apply GenTree_GenForest_ind.
  - intros. cbn. constructor; [intros []|constructor].
  - intros parent ty d lo hi cs Hd Hl HF IH.
    rewrite ids_unfold. cbn [id children]. constructor; [|exact IH].
    intros Hin. apply in_flat_map in Hin. destruct Hin as (c & Hc & Hi).
    apply in_ids_nodes in Hi. destruct Hi as (m & Hm & Hid).
    pose proof (proj2 (proj2 (GenTree_bounds _ _) _ _ _ _ _ _ HF) c m Hc Hm).
    lia.
  - intros. constructor.
  - intros parent ty d lo mid hi c cs HT IHc HF IHcs.
    cbn [flat_map]. apply NoDup_app; auto.
    intros i Hi Hi'.
    apply in_ids_nodes in Hi. destruct Hi as (m & Hm & <-).
    apply in_flat_map in Hi'. destruct Hi' as (c' & Hc' & Hi').
    apply in_ids_nodes in Hi'. destruct Hi' as (m' & Hm' & Hid).
    pose proof (GenTree_ids _ _ _ _ _ _ _ _ _ HT Hm).
    pose proof (proj2 (proj2 (GenTree_bounds _ _) _ _ _ _ _ _ HF) c' m' Hc' Hm').
    lia.
Qed.

(** What the theorems below use of a generated tree. *)
Lemma generated_tree randomRound maxDepth minVal maxVal bFac treeType fuel st :
  1 <= maxDepth -> maxDepth <= fuel ->
  exists root st',
    generateABTreeRootNode randomRound maxDepth minVal maxVal fuel
                           treeType bFac st = Some (root, st') /\
    GenTree maxDepth bFac None treeType 1
            (globalNodeId st) (globalNodeId st') root /\
    genWrites (globalNodeId st) (globalNodeId st') (heap st) (heap st') /\
    genFields maxDepth (heap st') root /\
    complete bFac root /\ NoDup (ids root).
Proof.
  intros Hd Hfuel.
  destruct (generateSubTree_spec randomRound maxDepth minVal maxVal bFac fuel
              None treeType 1 st Hd ltac:(lia))
    as (root & st' & E & HT & HW & HF).
  exists root, st'. splits; auto.
  - exact (GenTree_complete _ _ _ _ _ _ _ _ HT (le_n 1)).
  - exact (proj1 (GenTree_NoDup _ _) _ _ _ _ _ _ HT).
Qed.




(* ------------------------------------------------------------------ *)
(** ** Pruned subtrees are never read *)

Lemma sameWrites_refl s t : sameWrites s s t t.
Proof. intros o k. right. auto. Qed.

Lemma sameWrites_trans s s1 s2 t t1 t2 :
  sameWrites s s1 t t1 -> sameWrites s1 s2 t1 t2 -> sameWrites s s2 t t2.
Proof.
  intros H1 H2 o k.
  destruct (H2 o k) as [E2 | [E2 E2']]; [now left|].
  destruct (H1 o k) as [E1 | [E1 E1']].
  - left. congruence.
  - right. split; congruence.
Qed.

Lemma sameWrites_write s t o k v :
  sameWrites s (write s o k v) t (write t o k v).
Proof.
  intros o' k'.
  destruct (write_cases s o k v o' k') as [(-> & -> & E) | [Hne E]].
  - left. now rewrite E, write_same.
  - right. split; [exact E|]. now apply write_other.
Qed.

Lemma forChildren_rel2 {St : Type} (R : St -> St -> St -> St -> Prop)
    (f : TreeNode -> St -> St) (bFac : nat) (cs : list TreeNode) :
  (forall x x', R x x x' x') ->
  (forall x1 x2 x3 y1 y2 y3,
      R x1 x2 y1 y2 -> R x2 x3 y2 y3 -> R x1 x3 y1 y3) ->
  Forall (fun c => forall x x', R x (f c x) x' (f c x')) cs ->
  forall k x x', R x (forChildren f bFac cs k x) x' (forChildren f bFac cs k x').
Proof.
  intros Hrefl Htrans HF.
  induction HF as [|c cs Hc _ IH]; intros k x x'; cbn [forChildren].
  - apply Hrefl.
  - destruct (Nat.ltb k bFac); [|apply Hrefl].
    eapply Htrans; [apply Hc | apply IH].
Qed.

Lemma pruneInner_sameWrites bFac n :
  forall acc acc',
    sameWrites (snd acc) (snd (pruneInner bFac n acc))
               (snd acc') (snd (pruneInner bFac n acc')).
Proof.
  induction n as [n IH] using TreeNode_ind'. intros acc acc'.
  rewrite !pruneInner_eq.
  eapply sameWrites_trans;
    [|apply (forChildren_rel2
               (fun x y x' y' => sameWrites (snd x) (snd y) (snd x') (snd y')));
      [intros; apply sameWrites_refl
      |intros ? ? ? ? ? ?; apply sameWrites_trans
      |exact IH]].
  destruct (edgeToParent_cases n) as [-> | ->]; cbn [snd].
  - apply sameWrites_refl.
  - apply sameWrites_write.
Qed.

Lemma pruneChild_lockstep bFac node child st tt :
  sameControl st tt ->
  sameControl (pruneChild bFac node child st) (pruneChild bFac node child tt) /\
  sameWrites (l_store st) (l_store (pruneChild bFac node child st))
             (l_store tt) (l_store (pruneChild bFac node child tt)).
Proof.
  intros (C1 & C2 & C3 & C4).
  unfold pruneChild, generatePruneActionList, sameControl.
  destruct child as [c|].
  - pose proof (pruneInner_sameWrites bFac c ([], l_store st) ([], l_store tt))
      as H.
    destruct (pruneInner bFac c ([], l_store st)) as [acts s1].
    destruct (pruneInner bFac c ([], l_store tt)) as [acts' t1].
    cbn [snd l_store l_a l_b l_pruneRest l_curVal] in *. splits; auto.
    eapply sameWrites_trans; [exact H | apply sameWrites_write].
  - cbn [snd l_store l_a l_b l_pruneRest l_curVal] in *. splits; auto.
    apply sameWrites_write.
Qed.

Lemma afterChild_lockstep node isMax res res' s1 t1 st tt :
  sameControl st tt -> returnVal res' = returnVal res ->
  sameControl (afterChild node isMax res s1 st)
              (afterChild node isMax res' t1 tt) /\
  sameWrites s1 (l_store (afterChild node isMax res s1 st))
             t1 (l_store (afterChild node isMax res' t1 tt)).
Proof.
  intros (C1 & C2 & C3 & C4) Er.
  unfold afterChild, sameControl.
  cbn [l_store l_a l_b l_pruneRest l_curVal].
  rewrite C1, C2, C4, Er. splits; auto.
  repeat match goal with
         | |- context [if ?c then _ else _] => destruct c
         end;
    repeat (first [apply sameWrites_refl
                  | eapply sameWrites_trans; [|apply sameWrites_write]]).
Qed.

Lemma missingChildren_lockstep bFac node n :
  forall st st' tt,
    missingChildren bFac node n st = Some st' ->
    sameControl st tt ->
    exists tt',
      missingChildren bFac node n tt = Some tt' /\
      sameControl st' tt' /\
      sameWrites (l_store st) (l_store st') (l_store tt) (l_store tt').
Proof.
  induction n as [|n IH]; intros st st' tt; cbn [missingChildren].
  - intros [= <-] HC. exists tt. splits; auto. apply sameWrites_refl.
  - intros H HC. pose proof HC as (_ & _ & C3 & _). rewrite C3.
    destruct (l_pruneRest st); [|discriminate].
    destruct (pruneChild_lockstep bFac node None st tt HC) as [HC1 HW1].
    destruct (IH _ _ _ H HC1) as (tt' & E & HC' & HW').
    exists tt'. splits; auto. eapply sameWrites_trans; eauto.
Qed.

Lemma in_nodes_ids m n : In m (nodes n) -> In (id m) (ids n).
Proof. intros H. unfold ids. now apply in_map. Qed.

Lemma nodes_ids_sub m n i : In m (nodes n) -> In i (ids m) -> In i (ids n).
Proof.
  intros Hm Hi. apply in_ids_nodes in Hi. destruct Hi as (x & Hx & <-).
  apply in_nodes_ids. now apply (nodes_trans n m x).
Qed.

Lemma NoDup_app_disjoint {A : Type} (l1 l2 : list A) a :
  NoDup (l1 ++ l2) -> In a l1 -> ~ In a l2.
Proof.
  induction l1 as [|x l1 IH]; cbn; [tauto|].
  intros H [-> | Hin] Hin2; inversion H as [|? ? Hx Hl]; subst.
  - apply Hx. apply in_or_app. now right.
  - now apply (IH Hl Hin).
Qed.

Lemma NoDup_forest_cons c cs :
  NoDup (flat_map ids (c :: cs)) ->
  NoDup (ids c) /\ NoDup (flat_map ids cs) /\
  forall i, In i (ids c) -> ~ In i (flat_map ids cs).
Proof.
  cbn [flat_map]. intros H. splits.
  - now apply NoDup_app_remove_r in H.
  - now apply NoDup_app_remove_l in H.
  - intros i. now apply NoDup_app_disjoint.
Qed.

Lemma same_child cs : forall c c' i,
  NoDup (flat_map ids cs) ->
  In c cs -> In c' cs -> In i (ids c) -> In i (ids c') -> c = c'.
Proof.
  induction cs as [|x cs IH]; intros c c' i Hnd Hc Hc' Hi Hi'; [destruct Hc|].
  destruct (NoDup_forest_cons x cs Hnd) as (_ & Hcs & Hdisj).
  destruct Hc as [-> | Hc], Hc' as [-> | Hc']; auto.
  - exfalso. apply (Hdisj i Hi). apply in_flat_map. eauto.
  - exfalso. apply (Hdisj i Hi'). apply in_flat_map. eauto.
  - now apply (IH c c' i).
Qed.

Lemma NoDup_ids_inv n :
  NoDup (ids n) ->
  ~ In (id n) (flat_map ids (children n)) /\
  NoDup (flat_map ids (children n)).
Proof. rewrite ids_unfold. intros H. now inversion H. Qed.

Lemma self_not_below n m :
  NoDup (ids n) -> In m (nodes n) -> In n (nodes m) -> m = n.
Proof.
  intros Hnd Hm Hn. apply nodes_inv in Hm.
  destruct Hm as [-> | (c & Hc & Hm)]; [reflexivity|].
  exfalso. apply (proj1 (NoDup_ids_inv n Hnd)).
  apply (ids_below n c); [exact Hc|].
  apply in_nodes_ids. now apply (nodes_trans c m n).
Qed.

Lemma edgePruned_ext s s' m :
  s' (OEdge (id m)) __pruned = s (OEdge (id m)) __pruned ->
  edgePruned s' m = edgePruned s m.
Proof.
  intros H. unfold edgePruned.
  destruct (edgeToParent_cases m) as [-> | ->]; [reflexivity|]. now rewrite H.
Qed.

Lemma searchTouches_ids n o k : searchTouches n o k -> In (objId o) (ids n).
Proof.
  destruct o; cbn; [tauto|]. intros [H _]. rewrite ids_unfold. now right.
Qed.

Lemma pruneTouches_ids n o k : pruneTouches n o k -> In (objId o) (ids n).
Proof. destruct o; cbn; tauto. Qed.

Lemma abActions_own_edge bFac n a b isMax s r s1 k :
  NoDup (ids n) ->
  abActions bFac n a b isMax s = Some (r, s1) ->
  s1 (OEdge (id n)) k = s (OEdge (id n)) k.
Proof.
  intros Hnd E. apply (abActions_touches _ _ _ _ _ _ _ _ E).
  cbn. intros [H _]. now apply (proj1 (NoDup_ids_inv n Hnd)).
Qed.

Lemma childLoop_ids bFac node isMax cs k st st' :
  childLoop (abActions bFac) bFac node isMax cs k st = Some st' ->
  modifies (fun o _ => In (objId o) (id node :: flat_map ids cs))
           (l_store st) (l_store st').
Proof.
  apply (childLoop_touches
           (fun o _ => In (objId o) (id node :: flat_map ids cs)) node).
  - intros k' _. now left.
  - apply Forall_forall. intros c _ a b m s r s1. apply abActions_touches.
  - intros c o k' Hc H. right. apply in_flat_map. exists c.
    split; [exact Hc|]. now apply (searchTouches_ids c o k').
  - intros c o k' Hc H. right. apply in_flat_map. exists c.
    split; [exact Hc|]. now apply (pruneTouches_ids c o k').
Qed.

Lemma ids_below_list cs c i : In c cs -> In i (ids c) -> In i (flat_map ids cs).
Proof. intros Hc Hi. apply in_flat_map. eauto. Qed.

Lemma afterChild_framed node isMax res s1 st :
  framed s1 (l_store (afterChild node isMax res s1 st)).
Proof.
  apply (modifies_framed node). apply afterChild_touches.
  intros k Hk. cbn. split; [apply ids_self | exact Hk].
Qed.

Lemma afterChild_node_only node isMax res s1 st :
  modifies (fun o _ => o = ONode (id node)) s1
           (l_store (afterChild node isMax res s1 st)).
Proof. apply afterChild_touches. reflexivity. Qed.

Lemma pruneChild_ids bFac node c st :
  modifies (fun o _ => In (objId o) (id node :: ids c))
           (l_store st) (l_store (pruneChild bFac node (Some c) st)).
Proof.
  apply (pruneChild_touches
           (fun o _ => In (objId o) (id node :: ids c)) node).
  - intros k _. now left.
  - intros o k H. right. now apply (pruneTouches_ids c o k).
Qed.

Lemma childLoop_lockstep bFac node isMax cs :
  Forall (lockstepAt bFac) cs ->
  NoDup (flat_map ids cs) -> ~ In (id node) (flat_map ids cs) ->
  forall k st st' tt,
    childLoop (abActions bFac) bFac node isMax cs k st = Some st' ->
    sameControl st tt ->
    (forall c m, In c cs -> In m (nodes c) ->
                 edgePruned (l_store st) m = false) ->
    (forall c l, In c cs -> In l (nodes c) -> isLeaf l = true ->
                 liveIn (l_store st') c l ->
                 l_store tt (ONode (id l)) value
                 = l_store st (ONode (id l)) value) ->
    exists tt',
      childLoop (abActions bFac) bFac node isMax cs k tt = Some tt' /\
      sameControl st' tt' /\
      sameWrites (l_store st) (l_store st') (l_store tt) (l_store tt').
Proof.
  intros HF.
  induction HF as [|c cs Hc _ IH];
    intros Hnd Hnode k st st' tt Hrun HC Hfresh Hval; cbn [childLoop] in *.
  - now apply missingChildren_lockstep.
  - destruct (Nat.ltb k bFac).
    2:{ injection Hrun as <-. exists tt. splits; auto. apply sameWrites_refl. }
    destruct (NoDup_forest_cons c cs Hnd) as (Hndc & Hndcs & Hdisj).
    assert (Hnode_c : ~ In (id node) (ids c)).
    { intros H. apply Hnode. cbn [flat_map]. apply in_or_app. now left. }
    assert (Hnode_cs : ~ In (id node) (flat_map ids cs)).
    { intros H. apply Hnode. cbn [flat_map]. apply in_or_app. now right. }
    pose proof HC as (C1 & C2 & C3 & C4). rewrite C3.
    destruct (l_pruneRest st) eqn:Ep.
    + (* both runs prune the child *)
      destruct (pruneChild_lockstep bFac node (Some c) st tt HC) as [HC1 HW1].
      pose proof (pruneChild_ids bFac node c st) as T1.
      pose proof (pruneChild_fields bFac node (Some c) st) as (_ & _ & _ & _ & Fs).
      pose proof (pruneChild_fields bFac node (Some c) tt) as (_ & _ & _ & _ & Ft).
      cbn zeta in Fs, Ft.
      destruct (IH Hndcs Hnode_cs (S k) _ st' _ Hrun HC1)
        as (tt' & E & HC' & HW').
      * intros c' m Hc' Hm. rewrite <- (Hfresh c' m (or_intror Hc') Hm).
        apply edgePruned_ext. apply T1. cbn.
        intros [Hi | Hi].
        -- apply Hnode_cs. rewrite Hi. apply (ids_below_list cs c');
             [exact Hc' | now apply in_nodes_ids].
        -- apply (Hdisj _ Hi). apply (ids_below_list cs c');
             [exact Hc' | now apply in_nodes_ids].
      * intros c' l Hc' Hl Hleaf Hlive.
        rewrite Fs, Ft by discriminate.
        now apply (Hval c' l (or_intror Hc')).
      * exists tt'. splits; auto. eapply sameWrites_trans; eauto.
    + (* both runs search the child *)
      rewrite C1, C2.
      destruct (abActions bFac c (l_a st) (l_b st) (negb isMax) (l_store st))
        as [[res s2]|] eqn:E; [|discriminate].
      pose proof (abActions_touches _ _ _ _ _ _ _ _ E) as T1.
      pose proof (afterChild_node_only node isMax res s2 st) as T2.
      pose proof (childLoop_ids _ _ _ _ _ _ _ Hrun) as T3.
      (* what the rest of the loop leaves alone in the subtree of [c] *)
      assert (Hstable : forall m, In m (nodes c) ->
                 edgePruned (l_store st') m = edgePruned s2 m).
      { intros m Hm. apply edgePruned_ext.
        rewrite T3, T2; [reflexivity | discriminate |].
        cbn. intros [Hi | Hi].
        - apply Hnode_c. rewrite Hi. now apply in_nodes_ids.
        - apply (Hdisj (id m)); [now apply in_nodes_ids | exact Hi]. }
      assert (Hown : edgePruned (l_store st') c = false).
      { rewrite (Hstable c (nodes_self c)).
        rewrite <- (Hfresh c c (or_introl eq_refl) (nodes_self c)).
        apply edgePruned_ext. now apply (abActions_own_edge _ _ _ _ _ _ _ _ _ Hndc E). }
      destruct (Hc (l_a st) (l_b st) (negb isMax) (l_store st) (l_store tt)
                   res s2 Hndc)
        as (res' & t2 & E' & Er & HW1).
      * intros c2 m Hc2 Hm. apply (Hfresh c m (or_introl eq_refl)).
        now apply (nodes_child c c2 m).
      * exact E.
      * intros Hleaf. apply (Hval c c (or_introl eq_refl) (nodes_self c) Hleaf).
        intros m Hm Hcm.
        now rewrite (self_not_below c m Hndc Hm Hcm).
      * intros c2 l Hc2 Hl Hleaf Hlive.
        apply (Hval c l (or_introl eq_refl) (nodes_child c c2 l Hc2 Hl) Hleaf).
        intros m Hm Hlm. apply nodes_inv in Hm.
        destruct Hm as [-> | (c2' & Hc2' & Hm)]; [exact Hown|].
        assert (c2' = c2) as ->.
        { apply (same_child (children c) c2' c2 (id l)); auto.
          - apply (NoDup_ids_inv c Hndc).
          - apply in_nodes_ids. now apply (nodes_trans c2' m l).
          - now apply in_nodes_ids. }
        rewrite (Hstable m (nodes_child c c2 m Hc2 Hm)).
        now apply Hlive.
      * rewrite E'.
        destruct (afterChild_lockstep node isMax res res' s2 t2 st tt HC Er)
          as [HC1 HW2].
        destruct (IH Hndcs Hnode_cs (S k) _ st' _ Hrun HC1)
          as (tt' & E2 & HC' & HW').
        -- intros c' m Hc' Hm. rewrite <- (Hfresh c' m (or_intror Hc') Hm).
           apply edgePruned_ext. rewrite T2 by discriminate.
           apply T1. intros Ht. apply searchTouches_ids in Ht. cbn in Ht.
           apply (Hdisj _ Ht). apply (ids_below_list cs c');
             [exact Hc' | now apply in_nodes_ids].
        -- intros c' l Hc' Hl Hleaf Hlive.
           pose proof (abActions_framed _ _ _ _ _ _ _ _ E) as Fs.
           pose proof (abActions_framed _ _ _ _ _ _ _ _ E') as Ft.
           rewrite (afterChild_framed node isMax res s2 st
                      (ONode (id l)) value eq_refl).
           rewrite (afterChild_framed node isMax res' t2 tt
                      (ONode (id l)) value eq_refl).
           rewrite (Fs (ONode (id l)) value eq_refl).
           rewrite (Ft (ONode (id l)) value eq_refl).
           now apply (Hval c' l (or_intror Hc')).
        -- exists tt'. splits; auto.
           eapply sameWrites_trans; [exact HW1|].
           eapply sameWrites_trans; eauto.
Qed.

Lemma abActions_lockstep bFac n : lockstepAt bFac n.
Proof.
  induction n as [n IH] using TreeNode_ind'.
  intros a b isMax s t r s1 Hnd Hfresh Hrun Hleaf Hval.
  rewrite abActions_eq in Hrun |- *. cbn zeta in *.
  destruct (isLeaf n) eqn:El.
  - injection Hrun as <- <-. do 2 eexists. split; [reflexivity|].
    cbn [returnVal]. split; [now apply Hleaf | apply sameWrites_refl].
  - set (st0 := mkLoopState a b false []
                  (JNum (if isMax then NegInf else PosInf)) []
                  (write (write s (ONode (id n)) __alpha a)
                         (ONode (id n)) __beta b)) in *.
    set (tt0 := mkLoopState a b false []
                  (JNum (if isMax then NegInf else PosInf)) []
                  (write (write t (ONode (id n)) __alpha a)
                         (ONode (id n)) __beta b)).
    destruct (childLoop (abActions bFac) bFac n isMax (children n) 0 st0)
      as [st'|] eqn:E; [|discriminate].
    injection Hrun as <- <-.
    destruct (NoDup_ids_inv n Hnd) as [Hself Hforest].
    destruct (childLoop_lockstep bFac n isMax (children n) IH Hforest Hself
                0 st0 st' tt0 E)
      as (tt' & E' & (_ & _ & _ & C4) & HW).
    + unfold sameControl. auto.
    + intros c m Hc Hm. rewrite <- (Hfresh c m Hc Hm).
      apply edgePruned_ext. subst st0. cbn [l_store].
      rewrite !write_other by (left; discriminate). reflexivity.
    + intros c l Hc Hl Hlf Hlive. subst st0 tt0. cbn [l_store].
      rewrite !write_other by (right; discriminate).
      now apply (Hval c l).
    + rewrite E'. do 2 eexists. split; [reflexivity|].
      cbn [returnVal]. split; [exact C4|].
      eapply sameWrites_trans; [|exact HW].
      subst st0 tt0. cbn [l_store].
      eapply sameWrites_trans; apply sameWrites_write.
Qed.

Lemma NoDup_map_inj {A B : Type} (f : A -> B) (l : list A) x y :
  NoDup (map f l) -> In x l -> In y l -> f x = f y -> x = y.
Proof.
  induction l as [|a l IH]; cbn; [tauto|].
  intros H Hx Hy E. inversion H as [|? ? Ha Hl]; subst.
  destruct Hx as [-> | Hx], Hy as [-> | Hy]; auto.
  - exfalso. apply Ha. rewrite E. now apply in_map.
  - exfalso. apply Ha. rewrite <- E. now apply in_map.
Qed.

Lemma nodes_id_inj n x y :
  NoDup (ids n) -> In x (nodes n) -> In y (nodes n) -> id x = id y -> x = y.
Proof. unfold ids. apply NoDup_map_inj. Qed.

Lemma root_not_insidePruned s root c l :
  NoDup (ids root) -> parentNode root = None ->
  In c (children root) -> In l (nodes c) -> liveIn s c l ->
  ~ insidePruned s root l.
Proof.
  intros Hnd Hp Hc Hl Hlive (m & Hm & Hlm & Hpr).
  apply nodes_inv in Hm. destruct Hm as [-> | (c' & Hc' & Hm)].
  - unfold edgePruned, edgeToParent in Hpr. rewrite Hp in Hpr. discriminate.
  - assert (c' = c) as ->.
    { apply (same_child (children root) c' c (id l)); auto.
      - apply (NoDup_ids_inv root Hnd).
      - apply in_nodes_ids. now apply (nodes_trans c' m l).
      - now apply in_nodes_ids. }
    rewrite (Hlive m Hm Hlm) in Hpr. discriminate.
Qed.

(** C2 (pruning soundness).  Take any generated tree and compile the
    search on its generated heap, which leaves the heap [s1].  Let [t] be
    [s1] with the values of leaves that lie inside shadow-pruned subtrees
    (subtrees entered by an edge whose [__pruned] is set in [s1]) replaced
    by arbitrary values.  Compiling the search again on [t] returns, and
    the root's [__value] afterwards is the one in [s1]. *)
Theorem pruned_subtrees_do_not_affect_root :
  forall (randomRound : nat -> Z -> Z) (maxDepth : nat) (minVal maxVal : Z)
         (bFac : nat) (treeType : TreeNodeType) (fuel : nat) (st : GenState),
    1 <= maxDepth -> maxDepth <= fuel -> freshAbove st ->
    exists (root : TreeNode) (st' : GenState),
      generateABTreeRootNode randomRound maxDepth minVal maxVal fuel
                             treeType bFac st = Some (root, st') /\
      exists (q : ActionListQueue.t) (s1 : Store),
        alphaBeta (Tree.mk (Some root) treeType maxDepth bFac true) (heap st')
        = Some (q, s1) /\
        forall t : Store,
          (forall o k,
              t o k = s1 o k \/
              (k = value /\
               exists l, In l (nodes root) /\ isLeaf l = true /\
                         o = ONode (id l) /\ insidePruned s1 root l)) ->
          exists (q' : ActionListQueue.t) (t1 : Store),
            alphaBeta (Tree.mk (Some root) treeType maxDepth bFac true) t
            = Some (q', t1) /\
            t1 (ONode (id root)) __value = s1 (ONode (id root)) __value.
Proof.
  intros randomRound maxDepth minVal maxVal bFac treeType fuel st
         Hd Hfuel Hfresh.
  destruct (generated_tree randomRound maxDepth minVal maxVal bFac treeType
              fuel st Hd Hfuel)
    as (root & st' & E & HT & HW & HF & Hc & Hnd).
  destruct (proj1 (GenTree_shape maxDepth bFac) _ _ _ _ _ _ HT (le_n 1))
    as (Hp & _).
  exists root, st'. split; [exact E|].
  set (s := heap st').
  destruct (abActions_total bFac root Hc (JNum NegInf) (JNum PosInf)
              (TreeNodeType_eqb treeType maxNode) s) as (r & s1 & Er).
  unfold alphaBeta. cbn [Tree.rootNode Tree.branchingFactor Tree.treeType].
  fold s. rewrite Er. do 2 eexists. split; [reflexivity|].
  intros t Ht.
  pose proof (abActions_framed _ _ _ _ _ _ _ _ Er) as Hfr.
  assert (Hedges : forall m, In m (nodes root) -> edgePruned s m = false).
  { intros m Hm. unfold edgePruned.
    destruct (edgeToParent_cases m) as [-> | ->]; [reflexivity|].
    pose proof (GenTree_ids _ _ _ _ _ _ _ _ _ HT Hm) as Hid.
    unfold s. rewrite HW by (right; right; reflexivity).
    rewrite Hfresh by (cbn; lia). reflexivity. }
  destruct (abActions_lockstep bFac root (JNum NegInf) (JNum PosInf)
              (TreeNodeType_eqb treeType maxNode) s t r s1 Hnd)
    as (r' & t1 & E' & _ & HWr).
  - intros c m Hc' Hm. apply Hedges. now apply (nodes_child root c m).
  - exact Er.
  - intros Hleaf.
    destruct (Ht (ONode (id root)) value)
      as [-> | (_ & l & Hl & _ & Hid & m & Hm & Hlm & Hpr)];
      [now apply Hfr|].
    exfalso. injection Hid as Hid.
    assert (l = root) as ->
        by (apply (nodes_id_inj root); auto using nodes_self).
    rewrite (self_not_below root m Hnd Hm Hlm) in Hpr.
    unfold edgePruned, edgeToParent in Hpr. rewrite Hp in Hpr. discriminate.
  - intros c l Hc' Hl Hleaf Hlive.
    destruct (Ht (ONode (id l)) value)
      as [-> | (_ & l' & Hl' & _ & Hid & Hin)];
      [now apply Hfr|].
    exfalso. injection Hid as Hid.
    assert (l' = l) as ->.
    { apply (nodes_id_inj root); auto. now apply (nodes_child root c l). }
    now apply (root_not_insidePruned s1 root c l Hnd Hp Hc' Hl Hlive).
  - rewrite E'. do 2 eexists. split; [reflexivity|].
    destruct (HWr (ONode (id root)) __value) as [-> | [_ ->]]; [reflexivity|].
    destruct (Ht (ONode (id root)) __value) as [-> | [Hk _]];
      [reflexivity | discriminate Hk].
Qed.

(** The instance of [pruned_subtrees_do_not_affect_root] for the scenario
    tree, whose last leaf is pruned. *)
Lemma pruned_subtrees_do_not_affect_root_witness :
  exists (root : TreeNode) (st' : GenState),
    generateABTreeRootNode scenarioDraws 3 (-20) 20 3 maxNode 2 initialGenState
    = Some (root, st') /\
    exists (q : ActionListQueue.t) (s1 : Store),
      alphaBeta (Tree.mk (Some root) maxNode 3 2 true) (heap st')
      = Some (q, s1) /\
      forall t : Store,
        (forall o k,
            t o k = s1 o k \/
            (k = value /\
             exists l, In l (nodes root) /\ isLeaf l = true /\
                       o = ONode (id l) /\ insidePruned s1 root l)) ->
        exists (q' : ActionListQueue.t) (t1 : Store),
          alphaBeta (Tree.mk (Some root) maxNode 3 2 true) t = Some (q', t1) /\
          t1 (ONode (id root)) __value = s1 (ONode (id root)) __value.
Proof.
  exact (pruned_subtrees_do_not_affect_root scenarioDraws 3 (-20) 20 2 maxNode
           3 initialGenState ltac:(lia) ltac:(lia) freshAbove_initial).
Defined.

(* ------------------------------------------------------------------ *)
(** ** Playing a log forward and back *)

Lemma targets_spec o k act :
  targets o k act = true <-> object act = Some o /\ key act = k.
Proof.
  unfold targets. destruct (object act) as [o'|].
  - rewrite andb_true_iff, Obj_eqb_eq, Key_eqb_eq. split.
    + intros [-> ->]. auto.
    + intros [[= ->] ->]. auto.
  - split; [discriminate | intros [[=] _]].
Qed.

Lemma reverse_at s act o k :
  reverse s act o k = if targets o k act then oldVal act else s o k.
Proof.
  unfold reverse, targets. destruct (object act) as [o'|]; [|reflexivity].
  reflexivity.
Qed.

Lemma apply_at s act o k :
  apply s act o k = if targets o k act then newVal act else s o k.
Proof.
  unfold apply, targets. destruct (object act) as [o'|]; [|reflexivity].
  reflexivity.
Qed.

Lemma lastOld_app step1 step2 o k :
  lastOld (step1 ++ step2) o k
  = match lastOld step2 o k with
    | Some v => Some v
    | None => lastOld step1 o k
    end.
Proof.
  unfold lastOld. rewrite fold_left_app.
  generalize (fold_left
                (fun r act => if targets o k act then Some (oldVal act) else r)
                step1 None).
  induction step2 as [|a step2 IH] using rev_ind; intros r; [reflexivity|].
  rewrite !fold_left_app. cbn [fold_left].
  destruct (targets o k a); [reflexivity|]. apply IH.
Qed.

Lemma lastOld_cons a step o k :
  lastOld (a :: step) o k
  = match lastOld step o k with
    | Some v => Some v
    | None => if targets o k a then Some (oldVal a) else None
    end.
Proof. apply (lastOld_app [a] step). Qed.

Lemma lastOld_In step o k v :
  lastOld step o k = Some v ->
  exists a, In a step /\ targets o k a = true /\ oldVal a = v.
Proof.
  induction step as [|a step IH]; [discriminate|].
  rewrite lastOld_cons. destruct (lastOld step o k) as [w|].
  - intros [= ->]. destruct (IH eq_refl) as (a' & ? & ? & ?).
    exists a'. cbn. auto.
  - destruct (targets o k a) eqn:E; [|discriminate].
    intros [= <-]. exists a. cbn. auto.
Qed.

Lemma lastOld_None step o k :
  lastOld step o k = None <-> forall a, In a step -> targets o k a = false.
Proof.
  induction step as [|a step IH]; [cbn; tauto|].
  rewrite lastOld_cons. destruct (lastOld step o k) as [w|].
  - split; [discriminate|]. intros H.
    assert (E : Some w = None); [|discriminate E].
    apply IH. intros a' Ha'. apply H. now right.
  - destruct (targets o k a) eqn:E.
    + split; [discriminate|]. intros H. rewrite H in E by now left.
      discriminate.
    + split; [|reflexivity]. intros _ a' [<- | Ha']; [exact E|].
      now apply (proj1 IH).
Qed.

Lemma reverseAll_at step : forall s o k,
  reverseAll step s o k
  = match lastOld step o k with
    | Some v => v
    | None => s o k
    end.
Proof.
  unfold reverseAll.
  induction step as [|a step IH] using rev_ind; intros s o k; [reflexivity|].
  rewrite fold_left_app. cbn [fold_left]. rewrite reverse_at.
  rewrite lastOld_app. unfold lastOld at 1. cbn [fold_left].
  destruct (targets o k a); [reflexivity|]. apply IH.
Qed.

Lemma applyAll_untargeted step : forall s o k,
  lastOld step o k = None -> applyAll step s o k = s o k.
Proof.
  unfold applyAll.
  induction step as [|a step IH] using rev_ind; intros s o k H; [reflexivity|].
  rewrite lastOld_app in H. unfold lastOld at 1 in H. cbn [fold_left] in H.
  destruct (targets o k a) eqn:E; [discriminate|].
  rewrite fold_left_app. cbn [fold_left]. rewrite apply_at, E. now apply IH.
Qed.

Lemma firstOld_app steps1 steps2 o k :
  firstOld (steps1 ++ steps2) o k
  = match firstOld steps1 o k with
    | Some v => Some v
    | None => firstOld steps2 o k
    end.
Proof.
  induction steps1 as [|st steps1 IH]; [reflexivity|].
  cbn [app firstOld]. destruct (lastOld st o k); [reflexivity | exact IH].
Qed.

Lemma playAll_untargeted steps : forall s o k,
  firstOld steps o k = None -> playAll steps s o k = s o k.
Proof.
  unfold playAll.
  induction steps as [|st steps IH]; intros s o k H; [reflexivity|].
  cbn [firstOld] in H. cbn [fold_left].
  destruct (lastOld st o k) eqn:E; [discriminate|].
  rewrite IH by exact H. now apply applyAll_untargeted.
Qed.

Lemma unplayAll_at steps : forall s o k,
  unplayAll steps s o k
  = match firstOld steps o k with
    | Some v => v
    | None => s o k
    end.
Proof.
  unfold unplayAll.
  induction steps as [|st steps IH]; intros s o k; [reflexivity|].
  cbn [fold_right firstOld]. rewrite reverseAll_at.
  destruct (lastOld st o k); [reflexivity | apply IH].
Qed.

(** Forward to the end and back to the beginning: every field holds the
    old value of the first step that targets it, and its original value
    if no step does. *)
Lemma round_trip_at steps s o k :
  unplayAll steps (playAll steps s) o k
  = match firstOld steps o k with
    | Some v => v
    | None => s o k
    end.
Proof.
  rewrite unplayAll_at. destruct (firstOld steps o k) eqn:E; [reflexivity|].
  now apply playAll_untargeted.
Qed.

(* ------------------------------------------------------------------ *)
(** ** Invariants of the compiled action lists *)

Lemma abActions_lists bFac node a b isMaxNode s :
  abActions bFac node a b isMaxNode s
  = if isLeaf node then
      Some (mkABResult (s (ONode (id node)) value)
                       (enterLeaf node) [] (exitLeaf node), s)
    else
      match childLoop (abActions bFac) bFac node isMaxNode (children node) 0
              (mkLoopState a b false []
                 (JNum (if isMaxNode then NegInf else PosInf)) []
                 (write (write s (ONode (id node)) __alpha a)
                        (ONode (id node)) __beta b)) with
      | None => None
      | Some st =>
          Some (mkABResult (l_curVal st)
                  (enterInner node (s (ONode (id node)) alpha) a
                              (s (ONode (id node)) beta) b)
                  (l_childActionsList st ++ [l_lastChildExitActions st])
                  (exitInner node),
                l_store st)
      end.
Proof. apply abActions_eq. Qed.

(** One induction over the search for all properties of its action
    lists: [R] is what is claimed of a call's result, [I] what holds of the
    loop state while the children listed are still to be processed. *)
Section CompilerInvariant.

Variable bFac : nat.
Variable Pre : TreeNode -> Prop.
Variable R : TreeNode -> ABResult -> Prop.
Variable I : TreeNode -> nat -> list TreeNode -> LoopState -> Prop.

Hypothesis Pre_child : forall n c, Pre n -> In c (children n) -> Pre c.
Hypothesis R_leaf : forall n v,
  Pre n -> isLeaf n = true ->
  R n (mkABResult v (enterLeaf n) [] (exitLeaf n)).
Hypothesis I_init : forall n a b cur s,
  Pre n -> isLeaf n = false ->
  I n 0 (children n) (mkLoopState a b false [] cur [] s).
Hypothesis I_search : forall n isMax k c cs st res s1,
  Pre n -> In c (children n) -> k < bFac -> l_pruneRest st = false ->
  I n k (c :: cs) st -> R c res ->
  I n (S k) cs (afterChild n isMax res s1 st).
Hypothesis I_prune : forall n k c cs st,
  Pre n -> In c (children n) -> k < bFac -> l_pruneRest st = true ->
  I n k (c :: cs) st ->
  I n (S k) cs (pruneChild bFac n (Some c) st).
Hypothesis I_missing : forall n k st,
  Pre n -> k < bFac -> l_pruneRest st = true ->
  I n k [] st -> I n (S k) [] (pruneChild bFac n None st).
Hypothesis R_inner : forall n k cs st oldAlpha a oldBeta b,
  Pre n -> isLeaf n = false -> I n k cs st ->
  R n (mkABResult (l_curVal st) (enterInner n oldAlpha a oldBeta b)
         (l_childActionsList st ++ [l_lastChildExitActions st])
         (exitInner n)).

Lemma missingChildren_inv n j : forall k st st',
  Pre n -> j <= bFac - k -> I n k [] st ->
  missingChildren bFac n j st = Some st' -> exists k', I n k' [] st'.
Proof.
  induction j as [|j IH]; intros k st st' Hp Hj Hi; cbn [missingChildren].
  - intros [= <-]. eauto.
  - destruct (l_pruneRest st) eqn:Epr; [|discriminate].
    apply (IH (S k)); [exact Hp | lia |].
    apply I_missing; auto. lia.
Qed.

Lemma childLoop_inv n isMax cs :
  Pre n ->
  Forall (fun c => forall a b m s r s1,
              abActions bFac c a b m s = Some (r, s1) -> R c r) cs ->
  (forall c, In c cs -> In c (children n)) ->
  forall k st st',
    I n k cs st ->
    childLoop (abActions bFac) bFac n isMax cs k st = Some st' ->
    exists k' cs', I n k' cs' st'.
Proof.
  intros Hp HF.
  induction HF as [|c cs Hc _ IH]; intros Hin k st st' Hi; cbn [childLoop].
  - intros H.
    destruct (missingChildren_inv n (bFac - k) k st st' Hp (le_n _) Hi H)
      as [k' Hk'].
    eauto.
  - destruct (Nat.ltb_spec k bFac) as [Hk|_]; [|intros [= <-]; eauto].
    assert (Hcin : In c (children n)) by (apply Hin; now left).
    assert (Hin' : forall c', In c' cs -> In c' (children n))
      by (intros c' H'; apply Hin; now right).
    destruct (l_pruneRest st) eqn:Epr.
    + apply (IH Hin'). now apply (I_prune n k c).
    + destruct (abActions bFac c (l_a st) (l_b st) (negb isMax) (l_store st))
        as [[res s1]|] eqn:E; [|discriminate].
      apply (IH Hin'). apply (I_search n isMax k c); auto.
      exact (Hc _ _ _ _ _ _ E).
Qed.

Lemma abActions_inv n :
  Pre n ->
  forall a b isMax s r s1,
    abActions bFac n a b isMax s = Some (r, s1) -> R n r.
Proof.
  induction n as [n IH] using TreeNode_ind'.
  intros Hp a b isMax s r s1. rewrite abActions_lists.
  destruct (isLeaf n) eqn:El.
  - intros [= <- _]. now apply R_leaf.
  - destruct (childLoop _ _ _ _ _ _ _) as [st|] eqn:E; [|discriminate].
    intros [= <- _].
    destruct (childLoop_inv n isMax (children n) Hp) with (4 := E)
      as (k' & cs' & Hi); auto.
    + rewrite Forall_forall in *. intros c Hc a' b' m s' r' s1'.
      apply (IH c Hc). now apply (Pre_child n).
    + now apply R_inner with (k := k') (cs := cs').
Qed.

End CompilerInvariant.

Lemma afterChild_lists node isMax res s1 st :
  exists svE svX,
    l_childActionsList (afterChild node isMax res s1 st)
    = l_childActionsList st
      ++ [(enterActions res ++ svE) ++ l_lastChildExitActions st]
      ++ childActionsList res /\
    l_lastChildExitActions (afterChild node isMax res s1 st)
    = exitActions res ++ svX /\
    Forall (svOK node) svE /\ Forall (svOK node) svX /\
    NoDup (map key svE) /\ NoDup (map key svX) /\
    (childActionsList res <> [] -> svE = []) /\
    (childActionsList res = [] -> svX = []).
Proof.
  unfold afterChild. cbn [l_childActionsList l_lastChildExitActions].
  set (better := if isMax then js_gt (returnVal res) (l_curVal st)
                 else js_lt (returnVal res) (l_curVal st)).
  set (tighter := if isMax then js_gt (returnVal res) (l_a st)
                  else js_lt (returnVal res) (l_b st)).
  set (sv1 := if better
              then [mkAction (Some (ONode (id node))) value
                             (s1 (ONode (id node)) __value) (returnVal res)]
              else []).
  set (sv := if tighter then sv1 ++ _ else sv1).
  assert (Hsv : Forall (svOK node) sv /\ NoDup (map key sv)).
  { subst sv sv1. unfold svOK.
    destruct tighter, better, isMax; cbn; split;
      repeat constructor; cbn; auto; intuition discriminate. }
  destruct Hsv as [Hsv Hnd].
  destruct (childActionsList res) as [|x l] eqn:E; cbn [List.length Nat.eqb negb].
  - exists sv, []. rewrite ?app_nil_r. splits; auto; try constructor.
    intros H. now destruct H.
  - exists [], sv. rewrite ?app_nil_r. splits; auto; try constructor.
    discriminate.
Qed.

Lemma pruneInner_acts bFac p :
  forall acc, exists new,
    fst (pruneInner bFac p acc) = fst acc ++ new /\
    Forall (prunedEdgeOf p) new.
Proof.
  induction p as [p IH] using TreeNode_ind'. intros acc.
  rewrite pruneInner_eq.
  assert (Hch : forall cs, (forall c, In c cs -> In c (children p)) ->
            forall k acc', exists new,
              fst (forChildren (pruneInner bFac) bFac cs k acc')
              = fst acc' ++ new /\ Forall (prunedEdgeOf p) new).
  { induction cs as [|c cs IHcs]; intros Hin k acc'; cbn [forChildren].
    - exists []. now rewrite app_nil_r.
    - destruct (Nat.ltb k bFac); [|exists []; now rewrite app_nil_r].
      assert (Hc : In c (children p)) by (apply Hin; now left).
      rewrite Forall_forall in IH.
      destruct (IH c Hc acc') as (new1 & E1 & H1).
      destruct (IHcs (fun c' H' => Hin c' (or_intror H')) (S k)
                  (pruneInner bFac c acc')) as (new2 & E2 & H2).
      exists (new1 ++ new2). rewrite E2, E1, app_assoc. split; [reflexivity|].
      apply Forall_app. split; [|exact H2].
      eapply Forall_impl; [|exact H1].
      intros a (m & Hm & He & ->). exists m. split; [|auto].
      now apply (nodes_child p c m). }
  destruct (edgeToParent_cases p) as [E | E]; rewrite E.
  - apply Hch. auto.
  - destruct (Hch (children p) (fun c H => H) 0
                (fst acc ++ [mkAction (Some (OEdge (id p))) pruned
                                      (JBool false) (JBool true)],
                 write (snd acc) (OEdge (id p)) __pruned (JBool true)))
      as (new & En & Hn).
    cbn [fst] in En.
    exists (mkAction (Some (OEdge (id p))) pruned (JBool false) (JBool true)
              :: new).
    rewrite En, <- app_assoc. split; [reflexivity|].
    constructor; [|exact Hn]. exists p. split; [apply nodes_self | auto].
Qed.

Lemma pruneChild_lists bFac node child st :
  exists acts,
    l_childActionsList (pruneChild bFac node child st)
    = l_childActionsList st /\
    l_lastChildExitActions (pruneChild bFac node child st)
    = l_lastChildExitActions st ++ acts ++ [nodePrunedAction node] /\
    match child with
    | Some c => Forall (prunedEdgeOf c) acts
    | None => acts = []
    end.
Proof.
  unfold pruneChild, generatePruneActionList.
  destruct child as [c|].
  - destruct (pruneInner_acts bFac c ([], l_store st)) as (new & E & H).
    destruct (pruneInner bFac c ([], l_store st)) as [acts s1].
    cbn [fst app l_childActionsList l_lastChildExitActions] in *. subst acts.
    exists new. auto.
  - exists []. cbn. auto.
Qed.

Lemma lastOld_nonflag step o k :
  (forall a, In a step -> isFlag (key a) = false) ->
  isFlag k = true -> lastOld step o k = None.
Proof.
  intros H Hk. apply lastOld_None. intros a Ha.
  destruct (targets o k a) eqn:E; [|reflexivity].
  apply targets_spec in E. destruct E as [_ <-].
  rewrite (H a Ha) in Hk. discriminate.
Qed.

Lemma flagOld_merge acc lce enter svE inner exit svX :
  flagOld (acc ++ [lce]) ->
  (forall a, In a enter -> isFlag (key a) = true -> oldVal a = JBool false) ->
  (forall a o, In a exit -> object a = Some o ->
               exists a', In a' enter /\ object a' = Some o /\ key a' = key a) ->
  flagOld inner ->
  (forall a, In a svE -> isFlag (key a) = false) ->
  (forall a, In a svX -> isFlag (key a) = false) ->
  flagOld (acc ++ [(enter ++ svE) ++ lce] ++ inner ++ [exit ++ svX]).
Proof.
  intros Hloop Hen Hex Hin HsvE HsvX o k v Hk H.
  specialize (Hloop o k). rewrite firstOld_app in Hloop, H.
  destruct (firstOld acc o k) as [w|]; [now apply Hloop|].
  cbn [app firstOld] in H, Hloop.
  rewrite lastOld_app in H.
  destruct (lastOld lce o k) as [w|]; [now apply Hloop|].
  rewrite lastOld_app, (lastOld_nonflag svE o k HsvE Hk) in H.
  destruct (lastOld enter o k) as [w|] eqn:Ee.
  - injection H as <-. apply lastOld_In in Ee.
    destruct Ee as (a & Ha & Ht & <-). apply Hen; [exact Ha|].
    apply targets_spec in Ht. destruct Ht as [_ ->]. exact Hk.
  - rewrite firstOld_app in H.
    destruct (firstOld inner o k) as [w|] eqn:Ei; [injection H as <-; eauto|].
    cbn [firstOld] in H.
    rewrite lastOld_app, (lastOld_nonflag svX o k HsvX Hk) in H.
    destruct (lastOld exit o k) as [w|] eqn:Ex; [|discriminate].
    exfalso. apply lastOld_In in Ex. destruct Ex as (a & Ha & Ht & _).
    apply targets_spec in Ht. destruct Ht as [Ho Hkey].
    destruct (Hex a o Ha Ho) as (a' & Ha' & Ho' & Hk').
    assert (Et : targets o k a' = true)
      by (apply targets_spec; split; congruence).
    rewrite (proj1 (lastOld_None enter o k) Ee a' Ha') in Et. discriminate.
Qed.

Lemma flagOld_extend acc lce extra :
  flagOld (acc ++ [lce]) ->
  (forall a, In a extra -> oldVal a = JBool false) ->
  flagOld (acc ++ [lce ++ extra]).
Proof.
  intros Hloop Hex o k v Hk H.
  specialize (Hloop o k). rewrite firstOld_app in Hloop, H.
  destruct (firstOld acc o k) as [w|]; [now apply Hloop|].
  cbn [firstOld] in H, Hloop. rewrite lastOld_app in H.
  destruct (lastOld extra o k) as [w|] eqn:Ee.
  - injection H as <-. apply lastOld_In in Ee.
    destruct Ee as (a & Ha & _ & <-). now apply Hex.
  - now apply Hloop.
Qed.

Lemma svOK_nonflag node l :
  Forall (svOK node) l -> forall a, In a l -> isFlag (key a) = false.
Proof.
  intros H a Ha. rewrite Forall_forall in H.
  destruct (H a Ha) as [_ [-> | [-> | ->]]]; reflexivity.
Qed.

Lemma pruneChild_extra_old bFac node child st :
  exists extra,
    l_childActionsList (pruneChild bFac node child st)
    = l_childActionsList st /\
    l_lastChildExitActions (pruneChild bFac node child st)
    = l_lastChildExitActions st ++ extra /\
    forall a, In a extra -> oldVal a = JBool false.
Proof.
  destruct (pruneChild_lists bFac node child st) as (acts & E1 & E2 & H).
  exists (acts ++ [nodePrunedAction node]). splits; auto.
  intros a Ha. apply in_app_or in Ha. destruct Ha as [Ha | [<- | []]];
    [|reflexivity].
  destruct child as [c|]; [|subst acts; destruct Ha].
  rewrite Forall_forall in H. destruct (H a Ha) as (m & _ & _ & ->).
  reflexivity.
Qed.

Lemma abActions_flags bFac n a b isMax s r s1 :
  abActions bFac n a b isMax s = Some (r, s1) -> resultFlags r.
Proof.
  apply (abActions_inv bFac (fun _ => True) (fun _ r => resultFlags r)
           (fun _ _ _ st => flagOld (l_childActionsList st
                                     ++ [l_lastChildExitActions st])));
    auto.
  - (* a leaf *)
    intros n0 v _ _. unfold resultFlags. cbn. splits.
    + intros a0 [<- | [<- | []]] _; reflexivity.
    + intros a0 o [<- | []] Ho. eexists. split; [left; reflexivity|].
      cbn in *. auto.
    + intros o k v0 _ [=].
  - (* before the first child *)
    intros n0 a0 b0 cur s0 _ _ o k v _ [=].
  - (* after a searched child *)
    intros n0 isMax0 k0 c cs st res s2 _ _ _ _ Hi (Hc & Hd & Hf).
    destruct (afterChild_lists n0 isMax0 res s2 st)
      as (svE & svX & -> & -> & HsvE & HsvX & _).
    rewrite <- app_assoc.
    exact (flagOld_merge _ _ _ _ _ _ _ Hi Hc Hd Hf
             (svOK_nonflag n0 svE HsvE) (svOK_nonflag n0 svX HsvX)).
  - (* after a pruned child *)
    intros n0 k0 c cs st _ _ _ _ Hi.
    destruct (pruneChild_extra_old bFac n0 (Some c) st) as (ex & -> & -> & H).
    now apply flagOld_extend.
  - intros n0 k0 st _ _ _ Hi.
    destruct (pruneChild_extra_old bFac n0 None st) as (ex & -> & -> & H).
    now apply flagOld_extend.
  - (* an interior node *)
    intros n0 k0 cs st oa a0 ob b0 _ _ Hi. unfold resultFlags. cbn. splits.
    + intros a1 [<- | [<- | [<- | [<- | []]]]]; cbn; auto; discriminate.
    + intros a1 o [<- | [<- | []]] Ho; cbn in *.
      * eexists. split; [left; reflexivity|]. cbn. auto.
      * eexists. split; [right; left; reflexivity|]. cbn. auto.
    + exact Hi.
Qed.

(* ------------------------------------------------------------------ *)
(** ** Where the actions of a log point *)

Lemma zoneOK_child n c a : In c (children n) -> zoneOK c a -> zoneOK n a.
Proof.
  intros Hc [Hv Ho]. split; [exact Hv|].
  destruct (object a) as [o|]; [|exact I].
  destruct Ho as (m & Hm & H). exists m. split; [|exact H].
  now apply (nodes_child n c m).
Qed.

Lemma zoneOK_sv n a : isLeaf n = false -> svOK n a -> zoneOK n a.
Proof.
  intros Hl [Ho Hk]. unfold zoneOK. rewrite Ho. split.
  - destruct Hk as [-> | [-> | ->]]; reflexivity.
  - exists n. split; [apply nodes_self|]. right. auto.
Qed.

Lemma zoneOK_prunedEdge n a : prunedEdgeOf n a -> zoneOK n a.
Proof.
  intros (m & Hm & He & ->). split; [reflexivity|]. cbn.
  exists m. split; [exact Hm|]. left. auto.
Qed.

Lemma zoneOK_nodePruned n : isLeaf n = false -> zoneOK n (nodePrunedAction n).
Proof.
  intros Hl. split; [reflexivity|]. cbn.
  exists n. split; [apply nodes_self|]. right. auto.
Qed.

Lemma zoneOK_edgeEntered n old new :
  zoneOK n (mkAction (edgeToParent n) entered old new).
Proof.
  split; [reflexivity|]. cbn. destruct (edgeToParent n) as [o|] eqn:E; [|exact I].
  exists n. split; [apply nodes_self|]. left. auto.
Qed.

Lemma zoneOK_nodeEntered n old new :
  zoneOK n (mkAction (Some (ONode (id n))) entered old new).
Proof.
  split; [reflexivity|]. cbn.
  exists n. split; [apply nodes_self|]. right. auto.
Qed.

Lemma zoneOK_nodeData n k old new :
  isLeaf n = false -> visible k = true ->
  zoneOK n (mkAction (Some (ONode (id n))) k old new).
Proof.
  intros Hl Hv. split; [exact Hv|]. cbn.
  exists n. split; [apply nodes_self|]. right. auto.
Qed.

Lemma abActions_zone bFac n a b isMax s r s1 :
  abActions bFac n a b isMax s = Some (r, s1) -> resultZone n r.
Proof.
  apply (abActions_inv bFac (fun _ => True) resultZone
           (fun n _ _ st =>
              isLeaf n = false /\
              Forall (Forall (zoneOK n)) (l_childActionsList st) /\
              Forall (zoneOK n) (l_lastChildExitActions st)));
    auto.
  - (* a leaf *)
    intros n0 v _ _. unfold resultZone, enterLeaf, exitLeaf. cbn. splits;
      repeat (apply Forall_cons || apply Forall_nil);
      auto using zoneOK_edgeEntered, zoneOK_nodeEntered.
  - (* after a searched child *)
    intros n0 isMax0 k0 c cs st res s2 _ Hc _ _
           (Hl & Hacc & Hlce) (He & Hi & Hx).
    destruct (afterChild_lists n0 isMax0 res s2 st)
      as (svE & svX & -> & -> & HsvE & HsvX & _).
    assert (Hup : forall l, Forall (zoneOK c) l -> Forall (zoneOK n0) l).
    { intros l. apply Forall_impl. intros a0. now apply zoneOK_child. }
    assert (Hsv : forall l, Forall (svOK n0) l -> Forall (zoneOK n0) l).
    { intros l. apply Forall_impl. intros a0. now apply zoneOK_sv. }
    splits; auto.
    + apply Forall_app. split; [exact Hacc|].
      apply Forall_app. split.
      * constructor; [|constructor].
        apply Forall_app. split; [|exact Hlce].
        apply Forall_app. auto.
      * eapply Forall_impl; [|exact Hi]. exact Hup.
    + apply Forall_app. auto.
  - (* after a pruned child *)
    intros n0 k0 c cs st _ Hc _ _ (Hl & Hacc & Hlce).
    destruct (pruneChild_lists bFac n0 (Some c) st) as (acts & -> & -> & H).
    splits; auto.
    apply Forall_app. split; [exact Hlce|].
    apply Forall_app. split.
    + eapply Forall_impl; [|exact H]. intros a0 Ha0.
      apply (zoneOK_child n0 c a0 Hc). now apply zoneOK_prunedEdge.
    + constructor; [|constructor]. now apply zoneOK_nodePruned.
  - intros n0 k0 st _ _ _ (Hl & Hacc & Hlce).
    destruct (pruneChild_lists bFac n0 None st) as (acts & -> & -> & ->).
    splits; auto.
    apply Forall_app. split; [exact Hlce|].
    constructor; [|constructor]. now apply zoneOK_nodePruned.
  - (* an interior node *)
    intros n0 k0 cs st oa a0 ob b0 _ Hl (_ & Hacc & Hlce).
    unfold resultZone, enterInner, enterLeaf, exitInner, exitLeaf. cbn.
    splits; [| apply Forall_app; split; [exact Hacc | constructor; auto] |];
      repeat (apply Forall_cons || apply Forall_nil);
      auto using zoneOK_edgeEntered, zoneOK_nodeEntered, zoneOK_nodeData.
Qed.

(* ------------------------------------------------------------------ *)
(** ** Playing the whole log *)

Section PlaybackFacts.
Import ActionListQueue.

Lemma nth_error_middle {A : Type} (l1 : list A) (x : A) (l2 : list A) :
  nth_error (l1 ++ x :: l2) (List.length l1) = Some x.
Proof.
  induction l1 as [|y l1 IH]; [reflexivity | exact IH].
Qed.

Lemma whileStepForward_play (rest : list (list Action)) :
  forall done q s fuel,
    inAction q = true ->
    actionListQueue q = done ++ rest ->
    lastAction q = (Z.of_nat (List.length done) - 1)%Z ->
    List.length rest < fuel ->
    whileStepForward fuel q s
    = Some (set_lastAction q
              (Z.of_nat (List.length (actionListQueue q)) - 1)%Z,
            playAll rest s).
Proof.
  induction rest as [|step rest IH]; intros done q s fuel Hin Hq Hl Hf;
    (destruct fuel as [|fuel]; [cbn in Hf; lia|]); cbn [whileStepForward].
  - rewrite stepForward_noop.
    + destruct q as [ia la qu len]. cbn in *. subst.
      rewrite app_nil_r. reflexivity.
    + right. rewrite Hq, Hl, app_nil_r. reflexivity.
  - unfold stepForward. rewrite Hin. cbn [negb orb].
    destruct (Z.eqb_spec (lastAction q)
                (Z.of_nat (List.length (actionListQueue q)) - 1)) as [e|_].
    { rewrite Hq, length_app in e. cbn in e. lia. }
    unfold stepAt. cbn [set_lastAction lastAction actionListQueue].
    destruct (Z.ltb_spec (lastAction q + 1) 0) as [e|_]; [lia|].
    replace (Z.to_nat (lastAction q + 1)) with (List.length done) by lia.
    rewrite Hq, nth_error_middle.
    rewrite (IH (done ++ [step])
               (set_lastAction q (lastAction q + 1)) (applyAll step s) fuel).
    + destruct q as [ia la qu len]. cbn in *. subst qu. reflexivity.
    + exact Hin.
    + cbn. rewrite Hq, <- app_assoc. reflexivity.
    + cbn. rewrite length_app. cbn. lia.
    + cbn in Hf. lia.
Qed.

Lemma whileStepBackward_unplay (done : list (list Action)) :
  forall rest q s fuel,
    inAction q = true ->
    actionListQueue q = done ++ rest ->
    lastAction q = (Z.of_nat (List.length done) - 1)%Z ->
    List.length done < fuel ->
    whileStepBackward fuel q s
    = Some (set_lastAction q (-1)%Z, unplayAll done s).
Proof.
  induction done as [|step done IH] using rev_ind;
    intros rest q s fuel Hin Hq Hl Hf;
    (destruct fuel as [|fuel]; [cbn in Hf; lia|]); cbn [whileStepBackward].
  - rewrite stepBackward_noop by (right; exact Hl).
    destruct q as [ia la qu len]. cbn in *. subst. reflexivity.
  - rewrite length_app in Hl, Hf. cbn in Hl, Hf.
    unfold stepBackward. rewrite Hin. cbn [negb orb].
    destruct (Z.eqb_spec (lastAction q) (-1)) as [e|_]; [lia|].
    unfold stepAt.
    destruct (Z.ltb_spec (lastAction q) 0) as [e|_]; [lia|].
    replace (Z.to_nat (lastAction q)) with (List.length done) by lia.
    rewrite Hq, <- app_assoc. cbn [app]. rewrite nth_error_middle.
    rewrite (IH (step :: rest)
               (set_lastAction q (lastAction q - 1)) (reverseAll step s) fuel).
    + unfold unplayAll. rewrite fold_right_app. cbn [fold_right].
      destruct q as [ia la qu len]. cbn in *. reflexivity.
    + exact Hin.
    + cbn. rewrite Hq, <- app_assoc. reflexivity.
    + cbn. lia.
    + lia.
Qed.

Lemma goToEnd_play (q : t) (s : Store) :
  inAction q = true -> lastAction q = (-1)%Z ->
  goToEnd q s
  = Some (set_lastAction q (Z.of_nat (List.length (actionListQueue q)) - 1)%Z,
          playAll (actionListQueue q) s).
Proof.
  intros Hin Hl. unfold goToEnd. rewrite Hin. cbn [negb].
  apply (whileStepForward_play (actionListQueue q) []); auto.
Qed.

Lemma goToBeginning_unplay (q : t) (s : Store) :
  inAction q = true ->
  lastAction q = (Z.of_nat (List.length (actionListQueue q)) - 1)%Z ->
  goToBeginning q s
  = Some (set_lastAction q (-1)%Z, unplayAll (actionListQueue q) s).
Proof.
  intros Hin Hl. unfold goToBeginning. rewrite Hin. cbn [negb].
  apply (whileStepBackward_unplay (actionListQueue q) []); auto.
  now rewrite app_nil_r.
Qed.

Lemma alphaBeta_queue (tree : Tree.t) (root : TreeNode) (s : Store)
    (q : t) (s' : Store) :
  Tree.rootNode tree = Some root ->
  alphaBeta tree s = Some (q, s') ->
  exists r,
    abActions (Tree.branchingFactor tree) root (JNum NegInf) (JNum PosInf)
              (TreeNodeType_eqb (Tree.treeType tree) maxNode) s
    = Some (r, s') /\
    actionListQueue q
    = [enterActions r] ++ childActionsList r ++ [exitActions r] /\
    inAction q = false /\ lastAction q = (-1)%Z.
Proof.
  intros Hr. unfold alphaBeta. rewrite Hr.
  destruct (abActions _ _ _ _ _ _) as [[r s1]|]; [|discriminate].
  intros [= <- <-]. exists r. cbn. auto.
Qed.

Lemma roundTrip_played (tree : Tree.t) (q : t) (s : Store) :
  inAction q = false -> lastAction q = (-1)%Z ->
  exists q2,
    roundTrip tree (Some q) s
    = Some (resetTree (Tree.rootNode tree) s,
            playAll (actionListQueue q) (resetTree (Tree.rootNode tree) s),
            q2,
            unplayAll (actionListQueue q)
              (playAll (actionListQueue q)
                 (resetTree (Tree.rootNode tree) s))) /\
    lastAction q2 = (-1)%Z /\ inAction q2 = true /\
    actionListQueue q2 = actionListQueue q.
Proof.
  intros Hin Hl. unfold roundTrip, startAnimation, ensureAction.
  rewrite goToEnd_play by (cbn; auto).
  rewrite goToBeginning_unplay by (cbn; auto).
  eexists. split; [reflexivity|]. cbn. auto.
Qed.

End PlaybackFacts.

(* ------------------------------------------------------------------ *)
(** ** What the reset clears *)

Lemma resetSubTree_eq n s :
  resetSubTree n s
  = let me := ONode (id n) in
    let s1 := match edgeToParent n with
              | Some e => write (write s e entered (JBool false))
                                e pruned (JBool false)
              | None => s
              end in
    let s2 := write s1 me entered (JBool false) in
    if isLeaf n then s2
    else forChildren resetSubTree (childNum n) (children n) 0
           (write (write (write s2 me value JNull) me alpha JNull)
                  me beta JNull).
Proof. destruct n. reflexivity. Qed.

Lemma write_keeps_false s o' k' v o k :
  isFlag k = true -> (isFlag k' = true -> v = JBool false) ->
  s o k = JBool false -> write s o' k' v o k = JBool false.
Proof.
  intros Hk Hv Hs.
  destruct (write_cases s o' k' v o k) as [(-> & -> & ->) | [_ ->]]; auto.
Qed.

Lemma resetSubTree_keeps n : forall s o k,
  isFlag k = true -> s o k = JBool false ->
  resetSubTree n s o k = JBool false.
Proof.
  induction n as [n IH] using TreeNode_ind'. intros s o k Hk Hs.
  rewrite resetSubTree_eq. cbn zeta.
  assert (H1 : match edgeToParent n with
               | Some e => write (write s e entered (JBool false))
                                 e pruned (JBool false)
               | None => s
               end o k = JBool false).
  { destruct (edgeToParent n); [|exact Hs].
    repeat apply write_keeps_false; auto. }
  destruct (isLeaf n).
  - apply write_keeps_false; auto.
  - apply (forChildren_rel
             (fun s s' => s o k = JBool false -> s' o k = JBool false));
      auto.
    + eapply Forall_impl; [|exact IH]. intros c Hc s0. now apply Hc.
    + repeat apply write_keeps_false; auto; discriminate.
Qed.

Lemma flagsClear_keeps n c s :
  flagsClear n s -> flagsClear n (resetSubTree c s).
Proof.
  intros H m Hm. destruct (H m Hm) as [H1 H2]. split.
  - now apply resetSubTree_keeps.
  - intros e He. destruct (H2 e He). split; now apply resetSubTree_keeps.
Qed.

Lemma forChildren_visits (P : Store -> Prop) (f : TreeNode -> Store -> Store)
    (bFac : nat) (c : TreeNode) :
  (forall s, P (f c s)) -> (forall c' s, P s -> P (f c' s)) ->
  forall cs k s,
    k + List.length cs <= bFac -> In c cs ->
    P (forChildren f bFac cs k s).
Proof.
  intros Hc Hkeep. induction cs as [|c' cs IH]; intros k s Hk [].
  - subst c'. cbn [forChildren]. cbn in Hk.
    destruct (Nat.ltb_spec k bFac); [|lia].
    apply (forChildren_rel (fun s s' => P s -> P s')); auto.
    rewrite Forall_forall. auto.
  - cbn [forChildren]. cbn in Hk.
    destruct (Nat.ltb_spec k bFac); [|lia].
    apply IH; [lia | assumption].
Qed.

Lemma tidy_child n c : tidy n -> In c (children n) -> tidy c.
Proof. intros H Hc m Hm. apply H. now apply (nodes_child n c m). Qed.

Lemma flagsClear_self n s :
  flagsClear (childless n)
    (write match edgeToParent n with
           | Some e => write (write s e entered (JBool false))
                             e pruned (JBool false)
           | None => s
           end (ONode (id n)) entered (JBool false)).
Proof.
  intros x [<- | []]. cbn [id childless]. split; [apply write_same|].
  unfold edgeToParent. cbn [parentNode id childless].
  destruct (parentNode n); [|discriminate].
  intros e [= <-]. split.
  - rewrite write_other by (left; discriminate).
    rewrite write_other by (right; discriminate). apply write_same.
  - rewrite write_other by (left; discriminate). apply write_same.
Qed.

Lemma resetSubTree_leaf_clears n s :
  isLeaf n = true -> flagsClear (childless n) (resetSubTree n s).
Proof.
  intros El. rewrite resetSubTree_eq. cbn zeta. rewrite El.
  apply flagsClear_self.
Qed.

Lemma resetSubTree_clears n :
  tidy n -> forall s, flagsClear n (resetSubTree n s).
Proof.
  induction n as [n IH] using TreeNode_ind'. intros Ht s m Hm.
  pose proof (flagsClear_self n s) as Hself.
  assert (Hn : forall s', flagsClear (childless n) s' ->
                 s' (ONode (id n)) entered = JBool false /\
                 forall e, edgeToParent n = Some e ->
                   s' e entered = JBool false /\ s' e pruned = JBool false).
  { intros s' H. exact (H (childless n) (or_introl eq_refl)). }
  rewrite resetSubTree_eq. cbn zeta.
  destruct (Ht n (nodes_self n)) as [Hleaf Hlen].
  apply nodes_inv in Hm. destruct (isLeaf n) eqn:El.
  - destruct Hm as [-> | (c & Hc & _)]; [now apply Hn|].
    rewrite (Hleaf eq_refl) in Hc. destruct Hc.
  - destruct Hm as [-> | (c & Hc & Hm)].
    + apply Hn.
      apply (forChildren_rel
               (fun s s' => flagsClear (childless n) s
                            -> flagsClear (childless n) s')); auto.
      * rewrite Forall_forall. intros c _ s0. apply flagsClear_keeps.
      * intros x Hx. destruct (Hself x Hx) as [H1 H2]. split.
        -- do 3 (apply write_keeps_false; [reflexivity | discriminate |]).
           exact H1.
        -- intros e He. destruct (H2 e He).
           split;
             do 3 (apply write_keeps_false; [reflexivity | discriminate |]);
             assumption.
    + apply (forChildren_visits (fun s' => flagsClear c s') resetSubTree
               (childNum n) c); auto.
      * rewrite Forall_forall in IH. apply (IH c Hc).
        now apply (tidy_child n c).
      * intros c' s0. apply flagsClear_keeps.
Qed.

(* ------------------------------------------------------------------ *)
(** ** The round trip *)

Lemma firstOld_In steps o k v :
  firstOld steps o k = Some v ->
  exists step a, In step steps /\ In a step /\ targets o k a = true.
Proof.
  induction steps as [|step steps IH]; [discriminate|]. cbn [firstOld].
  destruct (lastOld step o k) as [w|] eqn:E.
  - intros _. apply lastOld_In in E. destruct E as (a & Ha & Ht & _).
    exists step, a. cbn. auto.
  - intros H. destruct (IH H) as (st & a & Hs & Ha & Ht).
    exists st, a. cbn. auto.
Qed.

(** Undoing a played log whose flag actions all record [false] puts back
    every field outside [interiorData], if the flags were clear on
    entering playback. *)
Lemma round_trip_frame z steps sPre :
  flagOld steps -> Forall (Forall (zoneOK z)) steps -> flagsClear z sPre ->
  forall o k, ~ interiorData z o k ->
    unplayAll steps (playAll steps sPre) o k = sPre o k.
Proof.
  intros Hfl Hz Hclear o k Hout. rewrite round_trip_at.
  destruct (firstOld steps o k) as [v|] eqn:E; [|reflexivity].
  destruct (firstOld_In steps o k v E) as (step & a & Hs & Ha & Ht).
  rewrite Forall_forall in Hz. specialize (Hz step Hs).
  rewrite Forall_forall in Hz. destruct (Hz a Ha) as [Hv Ho].
  apply targets_spec in Ht. destruct Ht as [Hobj Hkey].
  rewrite Hobj in Ho. rewrite Hkey in *.
  destruct Ho as (m & Hm & [[He Hf] | [-> Hk]]).
  - rewrite (Hfl o k v Hf E).
    destruct (proj2 (Hclear m Hm) o He) as [H1 H2].
    destruct k; try discriminate; auto.
  - assert (Hent : k = entered -> v = sPre (ONode (id m)) k).
    { intros ->. rewrite (Hfl (ONode (id m)) entered v eq_refl E).
      symmetry. exact (proj1 (Hclear m Hm)). }
    destruct Hk as [-> | Hl]; [auto|].
    destruct k; try discriminate; auto;
      exfalso; apply Hout; exists m; auto 10.
Qed.

Lemma oppositeNodeType_not_leaf ty :
  ty <> leafNode -> oppositeNodeType ty <> leafNode.
Proof. destruct ty; cbn; congruence. Qed.

Lemma shape_tidy maxDepth bFac n :
  (forall m, In m (nodes n) -> nodeShape maxDepth bFac m) ->
  isLeaf n = false -> tidy n.
Proof.
  induction n as [n IH] using TreeNode_ind'. intros Hsh Hl m Hm.
  assert (Hlen : forall x, nodeShape maxDepth bFac x ->
                   List.length (children x) <= childNum x).
  { intros x (Hd & -> & Hleaf & Hinner).
    destruct (Nat.eq_dec (depth x) maxDepth) as [e|ne].
    - destruct (Hleaf e) as [_ ->]. cbn. lia.
    - destruct Hinner as [-> _]; lia. }
  apply nodes_inv in Hm. destruct Hm as [-> | (c & Hc & Hm)].
  - split; [congruence | apply Hlen, Hsh, nodes_self].
  - destruct (Hsh n (nodes_self n)) as (Hd & _ & Hleaf & Hinner).
    destruct (Nat.eq_dec (depth n) maxDepth) as [e|ne].
    { destruct (Hleaf e) as [_ E]. rewrite E in Hc. destruct Hc. }
    destruct Hinner as [_ Hch]; [lia|].
    destruct (Hch c Hc) as (Hdc & _ & Hty).
    assert (Hshc : forall x, In x (nodes c) -> nodeShape maxDepth bFac x).
    { intros x Hx. apply Hsh. now apply (nodes_child n c x). }
    destruct (isLeaf c) eqn:Elc.
    + (* a leaf child is at the declared depth and has no children *)
      destruct (Hshc c (nodes_self c)) as (Hdc' & _ & Hleafc & _).
      destruct (Nat.eq_dec (depth c) maxDepth) as [e|ne'].
      * destruct (Hleafc e) as [_ E].
        apply nodes_inv in Hm. rewrite E in Hm.
        destruct Hm as [-> | (x & [] & _)].
        split; [auto | rewrite E; cbn; lia].
      * exfalso. apply isLeaf_true in Elc.
        rewrite Hty in Elc by lia.
        now apply (oppositeNodeType_not_leaf (nodeType n) (isLeaf_false n Hl)).
    + rewrite Forall_forall in IH. exact (IH c Hc Hshc Elc m Hm).
Qed.

Lemma flagOld_result r :
  resultFlags r ->
  flagOld ([enterActions r] ++ childActionsList r ++ [exitActions r]).
Proof.
  intros (Hc & Hd & Hf).
  assert (H0 : flagOld ([] ++ [[]])) by (intros o k v _ [=]).
  pose proof (flagOld_merge [] [] (enterActions r) [] (childActionsList r)
                (exitActions r) [] H0 Hc Hd Hf
                (fun a (H : In a []) => match H with end)
                (fun a (H : In a []) => match H with end)) as H.
  rewrite !app_nil_r in H. exact H.
Qed.

Lemma zone_result z r :
  resultZone z r ->
  Forall (Forall (zoneOK z))
         ([enterActions r] ++ childActionsList r ++ [exitActions r]).
Proof.
  intros (He & Hi & Hx). constructor; [exact He|].
  apply Forall_app. split; [exact Hi|]. constructor; [exact Hx | constructor].
Qed.

Lemma abActions_childless bFac n a b isMax s :
  isLeaf n = true ->
  abActions bFac (childless n) a b isMax s = abActions bFac n a b isMax s.
Proof.
  intros El. rewrite !abActions_lists.
  replace (isLeaf (childless n)) with (isLeaf n) by reflexivity.
  rewrite El. reflexivity.
Qed.

(** C3, as the code has it.  For every generated tree, the log compiled on
    it in any heap, and any heap in which playback is then entered (the
    tree is reset and the queue put in playback): running [stepForward]
    until it returns false and then [stepBackward] until it returns false
    succeeds and leaves the cursor at -1, and every field then holds the
    old value recorded in the first step of the log that targets it, or
    its value on entering playback if no step targets it.  This restores
    exactly every field of every object except the [value], [alpha], [beta]
    and [pruned] fields of the nodes that are not leaves: those come back
    as the values recorded at compile time, not as what the reset left. *)
Theorem round_trip_restores_flags_and_leaves :
  forall (randomRound : nat -> Z -> Z) (maxDepth : nat) (minVal maxVal : Z)
         (bFac : nat) (treeType : TreeNodeType) (fuel : nat) (st : GenState),
    1 <= maxDepth -> maxDepth <= fuel ->
    exists (root : TreeNode) (st' : GenState),
      generateABTreeRootNode randomRound maxDepth minVal maxVal fuel
                             treeType bFac st = Some (root, st') /\
      forall s0 : Store,
      exists (q : ActionListQueue.t) (s0' : Store),
        alphaBeta (Tree.mk (Some root) treeType maxDepth bFac true) s0
        = Some (q, s0') /\
        roundTrip (Tree.mk (Some root) treeType maxDepth bFac true) None s0
        = roundTrip (Tree.mk (Some root) treeType maxDepth bFac true)
                    (Some q) s0' /\
        forall s : Store,
        exists (sEnd : Store) (q2 : ActionListQueue.t) (sBack : Store),
          roundTrip (Tree.mk (Some root) treeType maxDepth bFac true)
                    (Some q) s
          = Some (resetTree (Some root) s, sEnd, q2, sBack) /\
          ActionListQueue.lastAction q2 = (-1)%Z /\
          (forall o k,
              sBack o k
              = match firstOld (ActionListQueue.actionListQueue q) o k with
                | Some v => v
                | None => resetTree (Some root) s o k
                end) /\
          (forall o k, ~ interiorData root o k ->
                       sBack o k = resetTree (Some root) s o k).
Proof.
  intros randomRound maxDepth minVal maxVal bFac treeType fuel st Hd Hfuel.
  destruct (generated_tree randomRound maxDepth minVal maxVal bFac treeType
              fuel st Hd Hfuel)
    as (root & st' & E & HT & HW & HF & Hc & Hnd).
  destruct (proj1 (GenTree_shape maxDepth bFac) _ _ _ _ _ _ HT (le_n 1))
    as (_ & _ & _ & Hsh).
  exists root, st'. split; [exact E|]. intros s0.
  set (tree := Tree.mk (Some root) treeType maxDepth bFac true).
  destruct (abActions_total bFac root Hc (JNum NegInf) (JNum PosInf)
              (TreeNodeType_eqb treeType maxNode) s0) as (r & s1 & Er).
  destruct (alphaBeta tree s0) as [[q s0']|] eqn:Eab;
    [|unfold alphaBeta in Eab; cbn in Eab; rewrite Er in Eab; discriminate].
  destruct (alphaBeta_queue tree root s0 q s0' eq_refl Eab)
    as (r' & Er' & Hq & Hin & Hl).
  cbn [Tree.branchingFactor Tree.treeType tree] in Er'.
  rewrite Er in Er'. injection Er' as <- <-.
  exists q, s1. split; [reflexivity|]. split.
  { unfold roundTrip, startAnimation, ensureAction. now rewrite Eab. }
  intros s.
  destruct (roundTrip_played tree q s Hin Hl) as (q2 & Ert & Hl2 & _).
  cbn [Tree.rootNode tree] in Ert.
  do 3 eexists. split; [exact Ert|]. split; [exact Hl2|]. split.
  { intros o k. apply round_trip_at. }
  intros o k Hout. rewrite Hq.
  pose proof (flagOld_result r (abActions_flags _ _ _ _ _ _ _ _ Er)) as Hfl.
  destruct (isLeaf root) eqn:El.
  - apply (round_trip_frame (childless root)); auto.
    + apply zone_result.
      rewrite <- (abActions_childless bFac root _ _ _ s0 El) in Er.
      exact (abActions_zone _ _ _ _ _ _ _ _ Er).
    + now apply resetSubTree_leaf_clears.
    + intros (m & [<- | []] & Hm & _). unfold isLeaf in *. cbn in Hm.
      congruence.
  - apply (round_trip_frame root); auto.
    + apply zone_result. exact (abActions_zone _ _ _ _ _ _ _ _ Er).
    + apply resetSubTree_clears. now apply (shape_tidy maxDepth bFac).
Qed.

(** The instance of [round_trip_restores_flags_and_leaves] for the
    scenario, played right after the tree was generated. *)
Lemma round_trip_restores_flags_and_leaves_witness :
  exists (root : TreeNode) (st' : GenState),
    generateABTreeRootNode scenarioDraws 3 (-20) 20 3 maxNode 2 initialGenState
    = Some (root, st') /\
    exists (q : ActionListQueue.t) (s0' sEnd : Store)
           (q2 : ActionListQueue.t) (sBack : Store),
      alphaBeta (Tree.mk (Some root) maxNode 3 2 true) (heap st')
      = Some (q, s0') /\
      roundTrip (Tree.mk (Some root) maxNode 3 2 true) None (heap st')
      = Some (resetTree (Some root) s0', sEnd, q2, sBack) /\
      forall o k, ~ interiorData root o k ->
                  sBack o k = resetTree (Some root) s0' o k.
Proof.
  destruct (round_trip_restores_flags_and_leaves scenarioDraws 3 (-20) 20 2
              maxNode 3 initialGenState ltac:(lia) ltac:(lia))
    as (root & st' & E & H).
  destruct (H (heap st')) as (q & s0' & Eab & Efirst & Hrt).
  destruct (Hrt s0') as (sEnd & q2 & sBack & Ert & _ & _ & Hback).
  exists root, st'. split; [exact E|].
  exists q, s0', sEnd, q2, sBack. split; [exact Eab|].
  split; [|exact Hback]. rewrite Efirst. exact Ert.
Defined.

(** C3 as stated fails on the scenario tree: on entering playback the
    root's visible [value] and [alpha] are [null] (the reset put them
    there), and after playing the log to its end and back they are
    [undefined], the old values the compiler recorded. *)
Lemma round_trip_loses_interior_values :
  option_map (fun r => match r with
                       | (sPre, _, _, sBack) =>
                           (sPre (ONode 1) value, sBack (ONode 1) value,
                            sPre (ONode 1) alpha, sBack (ONode 1) alpha)
                       end) scenarioRoundTrip
  = Some (JNull, JUndefined, JNull, JUndefined).
Proof. vm_compute. reflexivity. Qed.

(* ------------------------------------------------------------------ *)
(** ** Each step targets a field once *)

Lemma essTargets_app l1 l2 :
  essTargets (l1 ++ l2) = essTargets l1 ++ essTargets l2.
Proof. apply flat_map_app. Qed.

Lemma essTargets_cons a l :
  essTargets (a :: l) = essTargets [a] ++ essTargets l.
Proof. apply (essTargets_app [a] l). Qed.

Lemma in_essTargets step o k :
  In (o, k) (essTargets step) <->
  prunedMark o k = false /\ exists a, In a step /\ targets o k a = true.
Proof.
  unfold essTargets. rewrite in_flat_map. split.
  - intros (a & Ha & Hin). destruct (object a) as [o'|] eqn:Eo; [|destruct Hin].
    destruct (prunedMark o' (key a)) eqn:Ep; [destruct Hin|].
    destruct Hin as [[= <- <-] | []]. split; [exact Ep|].
    exists a. split; [exact Ha|]. apply targets_spec. auto.
  - intros (Hp & a & Ha & Ht). apply targets_spec in Ht.
    destruct Ht as [Ho Hk]. exists a. split; [exact Ha|].
    rewrite Ho, Hk, Hp. now left.
Qed.

Lemma goodStep_nil : goodStep [].
Proof. split; [constructor | intros a i []]. Qed.

Lemma goodStep_app l1 l2 :
  goodStep l1 -> goodStep l2 ->
  (forall o k, In (o, k) (essTargets l1) -> ~ In (o, k) (essTargets l2)) ->
  goodStep (l1 ++ l2).
Proof.
  intros [N1 P1] [N2 P2] Hd. split.
  - rewrite essTargets_app. apply NoDup_app; auto.
    intros [o k]. apply Hd.
  - intros a i Ha. apply in_app_or in Ha. destruct Ha; eauto.
Qed.

Lemma timesTargeted_cons o k a step :
  timesTargeted o k (a :: step)
  = (if targets o k a then 1 else 0) + timesTargeted o k step.
Proof. unfold timesTargeted. cbn. now destruct (targets o k a). Qed.

Lemma timesTargeted_zero o k step :
  (forall a, In a step -> targets o k a = false) ->
  timesTargeted o k step = 0.
Proof.
  induction step as [|a step IH]; intros H; [reflexivity|].
  rewrite timesTargeted_cons, (H a (or_introl eq_refl)), IH; [reflexivity|].
  intros a' Ha'. apply H. now right.
Qed.

Lemma goodStep_once step o k :
  goodStep step -> prunedMark o k = false -> timesTargeted o k step <= 1.
Proof.
  intros [Hnd _] Hp. induction step as [|a step IH]; [cbn; lia|].
  rewrite essTargets_cons in Hnd. rewrite timesTargeted_cons.
  destruct (targets o k a) eqn:Et.
  - rewrite timesTargeted_zero; [lia|]. intros b Hb.
    destruct (targets o k b) eqn:Eb; [|reflexivity]. exfalso.
    apply (NoDup_app_disjoint _ _ (o, k) Hnd).
    + apply in_essTargets. split; [exact Hp|]. exists a. cbn. auto.
    + apply in_essTargets. split; [exact Hp|]. eauto.
  - apply NoDup_app_remove_l in Hnd. specialize (IH Hnd). lia.
Qed.

(** In a good step the actions on one field record one old value. *)
Lemma goodStep_sameOld step o k :
  goodStep step ->
  forall a b, In a step -> In b step ->
    targets o k a = true -> targets o k b = true -> oldVal a = oldVal b.
Proof.
  intros [Hnd Hp] a b Ha Hb Hta Htb.
  destruct (prunedMark o k) eqn:Ep.
  - destruct o as [i|i]; [|discriminate]. destruct k; try discriminate.
    apply targets_spec in Hta, Htb.
    destruct (Hp a i Ha (proj1 Hta) (proj2 Hta)) as [-> _].
    destruct (Hp b i Hb (proj1 Htb) (proj2 Htb)) as [-> _]. reflexivity.
  - clear Hp. induction step as [|x step IH]; [destruct Ha|].
    rewrite essTargets_cons in Hnd.
    assert (Hx : forall y, In y step -> targets o k x = true ->
                           targets o k y = true -> False).
    { intros y Hy Hx Hty.
      apply (NoDup_app_disjoint _ _ (o, k) Hnd).
      - apply in_essTargets. split; [exact Ep|]. exists x. cbn. auto.
      - apply in_essTargets. split; [exact Ep|]. eauto. }
    destruct Ha as [-> | Ha], Hb as [-> | Hb]; auto.
    + exfalso. eauto.
    + exfalso. eauto.
    + apply NoDup_app_remove_l in Hnd. auto.
Qed.

Lemma lastOld_permutation step step' o k :
  goodStep step -> Permutation step step' ->
  lastOld step' o k = lastOld step o k.
Proof.
  intros Hg Hperm.
  destruct (lastOld step o k) as [v|] eqn:E.
  - apply lastOld_In in E. destruct E as (a & Ha & Hta & <-).
    destruct (lastOld step' o k) as [v'|] eqn:E'.
    + apply lastOld_In in E'. destruct E' as (b & Hb & Htb & <-).
      f_equal. apply (goodStep_sameOld step o k Hg); auto.
      apply (Permutation_in b (Permutation_sym Hperm) Hb).
    + exfalso.
      rewrite (proj1 (lastOld_None step' o k) E' a
                 (Permutation_in a Hperm Ha)) in Hta.
      discriminate.
  - destruct (lastOld step' o k) as [v'|] eqn:E'; [|reflexivity].
    exfalso. apply lastOld_In in E'. destruct E' as (b & Hb & Htb & _).
    rewrite (proj1 (lastOld_None step o k) E b
               (Permutation_in b (Permutation_sym Hperm) Hb)) in Htb.
    discriminate.
Qed.

Lemma reverseAll_permutation step step' s o k :
  goodStep step -> Permutation step step' ->
  reverseAll step' s o k = reverseAll step s o k.
Proof.
  intros Hg Hperm.
  now rewrite !reverseAll_at, (lastOld_permutation step step' o k Hg Hperm).
Qed.

Ltac small_nodup :=
  repeat (apply NoDup_cons; [cbn; intuition discriminate|]); apply NoDup_nil.

Ltac no_pruned_mark :=
  let a := fresh "a" in let i := fresh "i" in
  let Hin := fresh "Hin" in let Ho := fresh "Ho" in let Hk := fresh "Hk" in
  intros a i Hin Ho Hk; cbn in Hin;
  repeat (destruct Hin as [<- | Hin]); cbn in *;
  try discriminate; try contradiction.

Lemma essTargets_own n step o k :
  (forall a o', In a step -> object a = Some o' -> objId o' = id n) ->
  In (o, k) (essTargets step) -> objId o = id n.
Proof.
  intros H Hin. apply in_essTargets in Hin.
  destruct Hin as (_ & a & Ha & Ht). apply targets_spec in Ht.
  exact (H a o Ha (proj1 Ht)).
Qed.

Lemma enterInner_own n oa a ob b x o :
  In x (enterInner n oa a ob b) -> object x = Some o -> objId o = id n.
Proof.
  unfold enterInner, enterLeaf. cbn.
  destruct (edgeToParent_cases n) as [E | E]; rewrite E;
    intros [<- | [<- | [<- | [<- | []]]]]; cbn; intros [= <-]; reflexivity.
Qed.

Lemma enterLeaf_own n x o :
  In x (enterLeaf n) -> object x = Some o -> objId o = id n.
Proof.
  unfold enterLeaf. cbn.
  destruct (edgeToParent_cases n) as [E | E]; rewrite E;
    intros [<- | [<- | []]]; cbn; intros [= <-]; reflexivity.
Qed.

Lemma exitInner_own n x o :
  In x (exitInner n) -> object x = Some o -> objId o = id n.
Proof.
  unfold exitInner, exitLeaf. cbn.
  destruct (edgeToParent_cases n) as [E | E]; rewrite E;
    intros [<- | [<- | []]]; cbn; intros [= <-]; reflexivity.
Qed.

Lemma exitLeaf_own n x o :
  In x (exitLeaf n) -> object x = Some o -> objId o = id n.
Proof.
  unfold exitLeaf. cbn.
  destruct (edgeToParent_cases n) as [E | E]; rewrite E;
    intros [<- | []]; cbn; intros [= <-]; reflexivity.
Qed.

Lemma goodStep_enterLeaf n : goodStep (enterLeaf n).
Proof.
  unfold goodStep, essTargets, enterLeaf.
  destruct (edgeToParent_cases n) as [E | E]; rewrite E; cbn;
    (split; [small_nodup | no_pruned_mark]).
Qed.

Lemma goodStep_enterInner n oa a ob b : goodStep (enterInner n oa a ob b).
Proof.
  unfold goodStep, essTargets, enterInner, enterLeaf.
  destruct (edgeToParent_cases n) as [E | E]; rewrite E; cbn;
    (split; [small_nodup | no_pruned_mark]).
Qed.

Lemma goodStep_exitLeaf n : goodStep (exitLeaf n).
Proof.
  unfold goodStep, essTargets, exitLeaf.
  destruct (edgeToParent_cases n) as [E | E]; rewrite E; cbn;
    (split; [small_nodup | no_pruned_mark]).
Qed.

Lemma goodStep_exitInner n : goodStep (exitInner n).
Proof.
  unfold goodStep, essTargets, exitInner, exitLeaf.
  destruct (edgeToParent_cases n) as [E | E]; rewrite E; cbn;
    (split; [small_nodup | no_pruned_mark]).
Qed.

Lemma essTargets_sv n sv :
  Forall (svOK n) sv ->
  essTargets sv = map (fun a => (ONode (id n), key a)) sv.
Proof.
  induction 1 as [|a sv [Ho Hk] _ IH]; [reflexivity|].
  rewrite essTargets_cons, IH. cbn. rewrite Ho.
  destruct Hk as [-> | [-> | ->]]; reflexivity.
Qed.

Lemma goodStep_sv n sv :
  Forall (svOK n) sv -> NoDup (map key sv) ->
  goodStep sv /\
  forall o k, In (o, k) (essTargets sv) -> o = ONode (id n).
Proof.
  intros Hsv Hnd. rewrite (essTargets_sv n sv Hsv). splits.
  - unfold goodStep. rewrite (essTargets_sv n sv Hsv). split.
    + clear Hsv. induction sv as [|a sv IH]; cbn; [constructor|].
      inversion Hnd as [|x l Hx Hl]; subst. constructor; [|auto].
      intros Hin. apply in_map_iff in Hin.
      destruct Hin as (b & [= E] & Hb). apply Hx. rewrite <- E.
      now apply in_map.
    + intros a i Ha Ho Hk. rewrite Forall_forall in Hsv.
      destruct (Hsv a Ha) as [_ [E | [E | E]]]; congruence.
  - intros o k Hin. apply in_map_iff in Hin.
    now destruct Hin as (a & [= <- _] & _).
Qed.

Lemma goodStep_pruneActs ms :
  NoDup (map id ms) ->
  goodStep (map pruneAct ms) /\
  forall o k, In (o, k) (essTargets (map pruneAct ms)) ->
              exists m, In m ms /\ o = OEdge (id m).
Proof.
  intros Hnd.
  assert (E : essTargets (map pruneAct ms)
              = map (fun m => (OEdge (id m), pruned)) ms).
  { clear Hnd. induction ms as [|m ms IH]; [reflexivity|].
    cbn [map]. rewrite essTargets_cons, IH. reflexivity. }
  unfold goodStep. rewrite E. clear E. splits.
  - induction ms as [|m ms IH]; cbn; [constructor|].
    inversion Hnd as [|x l Hx Hl]; subst. constructor; [|auto].
    intros Hin. apply in_map_iff in Hin.
    destruct Hin as (b & [= Eb] & Hb). apply Hx. rewrite <- Eb.
    now apply in_map.
  - intros a i Ha Ho. apply in_map_iff in Ha.
    destruct Ha as (m & <- & _). discriminate.
  - intros o k Hin. apply in_map_iff in Hin.
    destruct Hin as (m & [= <- _] & Hm). eauto.
Qed.

Lemma goodStep_nodePruned n : goodStep [nodePrunedAction n].
Proof.
  split; [constructor|]. intros a i [<- | []] _ _. auto.
Qed.

Lemma pruneInner_nodup bFac p :
  NoDup (ids p) ->
  forall acc, exists ms,
    fst (pruneInner bFac p acc) = fst acc ++ map pruneAct ms /\
    NoDup (map id ms) /\ forall m, In m ms -> In m (nodes p).
Proof.
  induction p as [p IH] using TreeNode_ind'. intros Hnd acc.
  rewrite pruneInner_eq.
  destruct (NoDup_ids_inv p Hnd) as [Hself Hbelow].
  assert (Hch : forall cs, (forall c, In c cs -> In c (children p)) ->
            NoDup (flat_map ids cs) ->
            forall k acc', exists ms,
              fst (forChildren (pruneInner bFac) bFac cs k acc')
              = fst acc' ++ map pruneAct ms /\
              NoDup (map id ms) /\
              forall m, In m ms -> exists c, In c cs /\ In m (nodes c)).
  { induction cs as [|c cs IHcs]; intros Hin Hndcs k acc'; cbn [forChildren].
    - exists []. rewrite app_nil_r. splits; [reflexivity | constructor|].
      intros m [].
    - destruct (Nat.ltb k bFac).
      2:{ exists []. rewrite app_nil_r. splits; [reflexivity | constructor|].
          intros m []. }
      assert (Hc : In c (children p)) by (apply Hin; now left).
      destruct (NoDup_forest_cons c cs Hndcs) as (Hndc & Hndcs' & Hdisj).
      rewrite Forall_forall in IH.
      destruct (IH c Hc Hndc acc') as (ms1 & E1 & N1 & H1).
      destruct (IHcs (fun c' H' => Hin c' (or_intror H')) Hndcs' (S k)
                  (pruneInner bFac c acc')) as (ms2 & E2 & N2 & H2).
      exists (ms1 ++ ms2). rewrite E2, E1, map_app, app_assoc. splits.
      + reflexivity.
      + rewrite map_app. apply NoDup_app; auto.
        intros i Hi1 Hi2. apply in_map_iff in Hi1, Hi2.
        destruct Hi1 as (m1 & <- & Hm1), Hi2 as (m2 & E & Hm2).
        destruct (H2 m2 Hm2) as (c' & Hc' & Hm2').
        apply (Hdisj (id m1)).
        * apply in_nodes_ids. auto.
        * rewrite <- E. apply (ids_below_list cs c'); [exact Hc'|].
          now apply in_nodes_ids.
      + intros m Hm. apply in_app_or in Hm. destruct Hm as [Hm | Hm].
        * exists c. split; [now left | auto].
        * destruct (H2 m Hm) as (c' & Hc' & Hm'). exists c'.
          split; [now right | exact Hm']. }
  destruct (edgeToParent_cases p) as [E | E]; rewrite E.
  - destruct (Hch (children p) (fun c H => H) Hbelow 0 acc)
      as (ms & Ems & N & H).
    exists ms. splits; auto.
    intros m Hm. destruct (H m Hm) as (c & Hc & Hm').
    now apply (nodes_child p c m).
  - destruct (Hch (children p) (fun c H => H) Hbelow 0
                (fst acc ++ [mkAction (Some (OEdge (id p))) pruned
                                      (JBool false) (JBool true)],
                 write (snd acc) (OEdge (id p)) __pruned (JBool true)))
      as (ms & Ems & N & H).
    cbn [fst] in Ems. exists (p :: ms). rewrite Ems, <- app_assoc. splits.
    + reflexivity.
    + cbn [map]. constructor; [|exact N].
      intros Hin. apply in_map_iff in Hin. destruct Hin as (m & Em & Hm).
      destruct (H m Hm) as (c & Hc & Hm').
      apply Hself. rewrite <- Em. apply (ids_below p c); [exact Hc|].
      now apply in_nodes_ids.
    + intros m [<- | Hm]; [apply nodes_self|].
      destruct (H m Hm) as (c & Hc & Hm').
      now apply (nodes_child p c m).
Qed.

Lemma pruneChild_steps bFac node c st :
  NoDup (ids c) ->
  exists ms,
    l_childActionsList (pruneChild bFac node (Some c) st)
    = l_childActionsList st /\
    l_lastChildExitActions (pruneChild bFac node (Some c) st)
    = l_lastChildExitActions st ++ map pruneAct ms ++ [nodePrunedAction node] /\
    NoDup (map id ms) /\ forall m, In m ms -> In m (nodes c).
Proof.
  intros Hnd. unfold pruneChild, generatePruneActionList.
  destruct (pruneInner_nodup bFac c Hnd ([], l_store st)) as (ms & E & H).
  destruct (pruneInner bFac c ([], l_store st)) as [acts s1].
  cbn [fst app l_childActionsList l_lastChildExitActions] in *. subst acts.
  exists ms. auto.
Qed.

Lemma used_disjoint n used c cs i :
  NoDup (ids n) -> children n = used ++ c :: cs ->
  In i (ids c) -> ~ In i (flat_map ids used).
Proof.
  intros Hnd Hch Hi Hu.
  destruct (NoDup_ids_inv n Hnd) as [_ Hbelow].
  rewrite Hch, flat_map_app in Hbelow.
  apply (NoDup_app_disjoint _ _ i Hbelow Hu).
  cbn [flat_map]. apply in_or_app. now left.
Qed.

Lemma self_not_used n used cs :
  NoDup (ids n) -> children n = used ++ cs ->
  ~ In (id n) (flat_map ids used).
Proof.
  intros Hnd Hch Hu. apply (proj1 (NoDup_ids_inv n Hnd)).
  rewrite Hch, flat_map_app. apply in_or_app. now left.
Qed.


Lemma uniform_child n c : uniform n -> In c (children n) -> uniform c.
Proof. intros H Hc m Hm. apply H. now apply (nodes_child n c m). Qed.

Lemma timesTargeted_app o k l1 l2 :
  timesTargeted o k (l1 ++ l2) = timesTargeted o k l1 + timesTargeted o k l2.
Proof. unfold timesTargeted. now rewrite filter_app, length_app. Qed.

Lemma noMark_keys step i :
  (forall a, In a step -> key a <> pruned) ->
  timesTargeted (ONode i) pruned step = 0.
Proof.
  intros H. apply timesTargeted_zero. intros a Ha.
  destruct (targets (ONode i) pruned a) eqn:E; [|reflexivity].
  apply targets_spec in E. destruct (H a Ha (proj2 E)).
Qed.

Lemma noMark_enterLeaf n i : timesTargeted (ONode i) pruned (enterLeaf n) = 0.
Proof.
  apply noMark_keys. intros a [<- | [<- | []]]; discriminate.
Qed.

Lemma noMark_enterInner n oa a ob b i :
  timesTargeted (ONode i) pruned (enterInner n oa a ob b) = 0.
Proof.
  apply noMark_keys.
  intros x [<- | [<- | [<- | [<- | []]]]]; discriminate.
Qed.

Lemma noMark_exitLeaf n i : timesTargeted (ONode i) pruned (exitLeaf n) = 0.
Proof. apply noMark_keys. intros a [<- | []]; discriminate. Qed.

Lemma noMark_exitInner n i : timesTargeted (ONode i) pruned (exitInner n) = 0.
Proof.
  apply noMark_keys. intros a [<- | [<- | []]]; discriminate.
Qed.

Lemma noMark_sv n sv i :
  Forall (svOK n) sv -> timesTargeted (ONode i) pruned sv = 0.
Proof.
  intros H. apply noMark_keys. intros a Ha. rewrite Forall_forall in H.
  destruct (H a Ha) as [_ [E | [E | E]]]; rewrite E; discriminate.
Qed.

Lemma noMark_pruneActs ms i :
  timesTargeted (ONode i) pruned (map pruneAct ms) = 0.
Proof.
  apply timesTargeted_zero. intros a Ha. apply in_map_iff in Ha.
  destruct Ha as (m & <- & _). reflexivity.
Qed.

Lemma oneMark_nodePruned n i :
  timesTargeted (ONode i) pruned [nodePrunedAction n] <= 1.
Proof.
  unfold timesTargeted. cbn [filter].
  destruct (targets (ONode i) pruned (nodePrunedAction n)); cbn; lia.
Qed.

Lemma abActions_steps bFac n a b isMax s r s1 :
  NoDup (ids n) -> uniform n ->
  abActions bFac n a b isMax s = Some (r, s1) -> resultSteps bFac n r.
Proof.
  intros Hnd Hun.
  apply (abActions_inv bFac (fun n => NoDup (ids n) /\ uniform n)
           (resultSteps bFac) (loopSteps bFac)); auto.
  - (* the children of a good node are good *)
    intros n0 c [Hn Hu] Hc. split.
    + exact (proj1 (NoDup_ids_child n0 c Hn Hc)).
    + now apply (uniform_child n0 c).
  - (* a leaf *)
    intros n0 v _ El. unfold resultSteps.
    cbn [enterActions exitActions childActionsList]. splits.
    + apply goodStep_enterLeaf.
    + apply goodStep_exitLeaf.
    + intros o k. apply essTargets_own. apply enterLeaf_own.
    + intros o k. apply essTargets_own. apply exitLeaf_own.
    + constructor.
    + split; now intros _.
    + apply noMark_enterLeaf.
    + apply noMark_exitLeaf.
  - (* before the first child *)
    intros n0 a0 b0 cur s0 _ El. exists [].
    cbn [app l_childActionsList l_lastChildExitActions l_pruneRest].
    splits; auto using goodStep_nil; try lia; try discriminate.
  - (* after a searched child *)
    intros n0 isMax0 k0 c cs st res s2 [Hn Hu] Hc Hk _
           (used & Hch & El & Hacc & Hlce & Hzone & _ & _ & Hcnt)
           (Hge & Hgx & Hze & Hzx & Hgi & Hleafc & Hme & Hmx).
    unfold loopSteps.
    destruct (afterChild_lists n0 isMax0 res s2 st)
      as (svE & svX & -> & -> & HsvE & HsvX & HnE & HnX & HE & HX).
    destruct (goodStep_sv n0 svE HsvE HnE) as [HgE HzE].
    destruct (goodStep_sv n0 svX HsvX HnX) as [HgX HzX].
    assert (Hcn : id c <> id n0).
    { intros E. apply (proj2 (NoDup_ids_child n0 c Hn Hc)).
      rewrite <- E. apply ids_self. }
    assert (Hcu : ~ In (id c) (flat_map ids used))
      by (apply (used_disjoint n0 used c cs (id c) Hn Hch); apply ids_self).
    assert (Hnu : ~ In (id n0) (flat_map ids used))
      by (apply (self_not_used n0 used (c :: cs) Hn Hch)).
    exists (used ++ [c]). splits.
    + now rewrite Hch, <- app_assoc.
    + exact El.
    + apply Forall_app. split; [exact Hacc|]. cbn [app].
      constructor; [|exact Hgi]. split.
      * apply goodStep_app; [apply goodStep_app; auto | exact Hlce |].
        -- intros o k H1 H2. apply Hze in H1. apply HzE in H2. subst o.
           cbn in H1. congruence.
        -- intros o k H1 H2. rewrite essTargets_app in H1.
           apply in_app_or in H1. destruct H1 as [H1 | H1].
           ++ apply Hze in H1.
              destruct (Hzone o k H2) as [[-> _] | Hu2];
                [cbn in H1; congruence | rewrite H1 in Hu2; contradiction].
           ++ pose proof (HzE o k H1) as ->.
              destruct (childActionsList res) as [|x l] eqn:Ec.
              ** destruct (Hzone _ k H2) as [[_ Hall] | Hu2];
                   [|cbn in Hu2; contradiction].
                 rewrite (Hall c Hc) in Hleafc.
                 discriminate (proj1 Hleafc eq_refl).
              ** rewrite HE in H1 by discriminate. destruct H1.
      * intros i. rewrite !timesTargeted_app, Hme, (noMark_sv n0 svE i HsvE).
        specialize (Hcnt i). lia.
    + apply goodStep_app; auto.
      intros o k H1 H2. apply Hzx in H1. apply HzX in H2. subst o.
      cbn in H1. congruence.
    + intros o k H. rewrite essTargets_app in H. apply in_app_or in H.
      destruct H as [H | H].
      * right. rewrite (Hzx o k H), flat_map_app. apply in_or_app. right.
        cbn. rewrite app_nil_r. apply ids_self.
      * left. split; [exact (HzX o k H)|].
        intros c' Hc'. rewrite (Hu n0 (nodes_self n0) c' c Hc' Hc).
        destruct (isLeaf c) eqn:Elc; [|reflexivity].
        rewrite HX in H by (now apply Hleafc). destruct H.
    + lia.
    + lia.
    + intros i. rewrite timesTargeted_app, Hmx, (noMark_sv n0 svX i HsvX).
      lia.
  - (* after a pruned child *)
    intros n0 k0 c cs st [Hn Hu] Hc Hk Hpt
           (used & Hch & El & Hacc & Hlce & Hzone & _ & Hpr & Hcnt).
    unfold loopSteps.
    destruct (pruneChild_steps bFac n0 c st
                (proj1 (NoDup_ids_child n0 c Hn Hc)))
      as (ms & -> & -> & Hms & Hsub).
    destruct (goodStep_pruneActs ms Hms) as [Hgp Hzp].
    exists (used ++ [c]). splits.
    + now rewrite Hch, <- app_assoc.
    + exact El.
    + exact Hacc.
    + apply goodStep_app; [exact Hlce | |].
      * apply goodStep_app; [exact Hgp | apply goodStep_nodePruned |].
        intros o k _ [].
      * intros o k H1 H2. rewrite essTargets_app in H2.
        apply in_app_or in H2. destruct H2 as [H2 | []].
        destruct (Hzp o k H2) as (m & Hm & ->).
        destruct (Hzone _ k H1) as [[[=] _] | Hu1].
        apply (used_disjoint n0 used c cs (id m) Hn Hch); [|exact Hu1].
        apply in_nodes_ids. auto.
    + intros o k H. rewrite !essTargets_app in H.
      apply in_app_or in H. destruct H as [H | H].
      * destruct (Hzone o k H) as [Hl | Hr]; [now left|].
        right. rewrite flat_map_app. apply in_or_app. now left.
      * apply in_app_or in H. destruct H as [H | []].
        destruct (Hzp o k H) as (m & Hm & ->).
        right. rewrite flat_map_app. apply in_or_app. right.
        cbn. rewrite app_nil_r. apply in_nodes_ids. auto.
    + lia.
    + lia.
    + intros i. rewrite !timesTargeted_app, noMark_pruneActs.
      pose proof (oneMark_nodePruned n0 i). specialize (Hcnt i).
      specialize (Hpr Hpt). lia.
  - (* a missing child *)
    intros n0 k0 st [Hn Hu] Hk Hpt
           (used & Hch & El & Hacc & Hlce & Hzone & _ & Hpr & Hcnt).
    unfold loopSteps.
    destruct (pruneChild_lists bFac n0 None st) as (acts & -> & -> & ->).
    exists used. splits; auto; try lia.
    + apply goodStep_app; [exact Hlce | apply goodStep_nodePruned |].
      intros o k _ [].
    + intros o k H. rewrite essTargets_app in H.
      apply in_app_or in H. destruct H as [H | []]. exact (Hzone o k H).
    + intros i. rewrite timesTargeted_app. cbn [app].
      pose proof (oneMark_nodePruned n0 i). specialize (Hcnt i).
      specialize (Hpr Hpt). lia.
  - (* an interior node *)
    intros n0 k0 cs st oa a0 ob b0 _ El
           (used & Hch & _ & Hacc & Hlce & Hzone & Hkb & _ & Hcnt).
    unfold resultSteps.
    cbn [enterActions exitActions childActionsList]. splits.
    + apply goodStep_enterInner.
    + apply goodStep_exitInner.
    + intros o k. apply essTargets_own. apply enterInner_own.
    + intros o k. apply essTargets_own. apply exitInner_own.
    + apply Forall_app. split; [exact Hacc|]. constructor; [|constructor].
      split; [exact Hlce|]. intros i. specialize (Hcnt i). lia.
    + rewrite El. split; [|discriminate].
      intros E. apply app_eq_nil in E. destruct E as [_ [=]].
    + apply noMark_enterInner.
    + apply noMark_exitInner.
Qed.

Lemma shape_uniform maxDepth bFac root :
  (forall m, In m (nodes root) -> nodeShape maxDepth bFac m) ->
  uniform root.
Proof.
  intros Hsh m Hm.
  assert (H : forall c, In c (children m) ->
            isLeaf c = if Nat.eqb (S (depth m)) maxDepth then true
                       else TreeNodeType_eqb (oppositeNodeType (nodeType m))
                                             leafNode).
  { intros c Hc.
    destruct (Hsh m Hm) as (Hd & _ & Hleaf & Hinner).
    destruct (Nat.eq_dec (depth m) maxDepth) as [e|ne].
    { destruct (Hleaf e) as [_ E]. rewrite E in Hc. destruct Hc. }
    destruct Hinner as [_ Hch]; [lia|].
    destruct (Hch c Hc) as (Hdc & _ & Hty).
    destruct (Hsh c (nodes_children root m c Hm Hc)) as (_ & _ & Hleafc & _).
    rewrite <- Hdc. unfold isLeaf.
    destruct (Nat.eqb_spec (depth c) maxDepth) as [e|ne'].
    - now rewrite (proj1 (Hleafc e)).
    - rewrite Hty by lia. reflexivity. }
  intros c1 c2 H1 H2. now rewrite (H c1 H1), (H c2 H2).
Qed.

(** C8, as the code has it.  In every step of the log compiled on a
    generated tree, every field other than the [pruned] mark of a node is
    the target of at most one action; the [pruned] mark of a node is the
    target of at most [bFac - 1] actions (one for each pruned child of the
    node, all in one step), each of which records the old value [false]
    and the new value [true]; so with a branching factor of at most 2
    every field is the target of at most one action; and for every
    branching factor, reversing the actions of the step in any order gives
    the same state as the order the code uses. *)
Theorem steps_target_fields_once_except_node_pruned :
  forall (randomRound : nat -> Z -> Z) (maxDepth : nat) (minVal maxVal : Z)
         (bFac : nat) (treeType : TreeNodeType) (fuel : nat) (st : GenState),
    1 <= maxDepth -> maxDepth <= fuel ->
    exists (root : TreeNode) (st' : GenState),
      generateABTreeRootNode randomRound maxDepth minVal maxVal fuel
                             treeType bFac st = Some (root, st') /\
      forall s0 : Store,
      exists (q : ActionListQueue.t) (s0' : Store),
        alphaBeta (Tree.mk (Some root) treeType maxDepth bFac true) s0
        = Some (q, s0') /\
        forall step, In step (ActionListQueue.actionListQueue q) ->
          (forall o k, prunedMark o k = false ->
                       timesTargeted o k step <= 1) /\
          (forall i, timesTargeted (ONode i) pruned step <= bFac - 1) /\
          (bFac <= 2 -> forall o k, timesTargeted o k step <= 1) /\
          (forall a i, In a step -> object a = Some (ONode i) ->
                       key a = pruned ->
                       oldVal a = JBool false /\ newVal a = JBool true) /\
          (forall step', Permutation step step' ->
             forall s o k, reverseAll step' s o k = reverseAll step s o k).
Proof.
  intros randomRound maxDepth minVal maxVal bFac treeType fuel st Hd Hfuel.
  destruct (generated_tree randomRound maxDepth minVal maxVal bFac treeType
              fuel st Hd Hfuel)
    as (root & st' & E & HT & HW & HF & Hc & Hnd).
  destruct (proj1 (GenTree_shape maxDepth bFac) _ _ _ _ _ _ HT (le_n 1))
    as (_ & _ & _ & Hsh).
  exists root, st'. split; [exact E|]. intros s0.
  set (tree := Tree.mk (Some root) treeType maxDepth bFac true).
  destruct (abActions_total bFac root Hc (JNum NegInf) (JNum PosInf)
              (TreeNodeType_eqb treeType maxNode) s0) as (r & s1 & Er).
  destruct (alphaBeta tree s0) as [[q s0']|] eqn:Eab;
    [|unfold alphaBeta in Eab; cbn in Eab; rewrite Er in Eab; discriminate].
  destruct (alphaBeta_queue tree root s0 q s0' eq_refl Eab)
    as (r' & Er' & Hq & _).
  cbn [Tree.branchingFactor Tree.treeType tree] in Er'.
  rewrite Er in Er'. injection Er' as <- <-.
  exists q, s1. split; [reflexivity|].
  destruct (abActions_steps bFac root _ _ _ _ _ _ Hnd
              (shape_uniform maxDepth bFac root Hsh) Er)
    as (Hge & Hgx & _ & _ & Hgi & _ & Hme & Hmx).
  assert (Hall : Forall (boundedStep bFac)
                        (ActionListQueue.actionListQueue q)).
  { rewrite Hq. constructor.
    - split; [exact Hge|]. intros i. rewrite Hme. lia.
    - apply Forall_app. split; [exact Hgi|]. constructor; [|constructor].
      split; [exact Hgx|]. intros i. rewrite Hmx. lia. }
  intros step Hstep. rewrite Forall_forall in Hall.
  destruct (Hall step Hstep) as [Hg Hb]. splits.
  - intros o k. now apply goodStep_once.
  - exact Hb.
  - intros H2 o k. destruct (prunedMark o k) eqn:Ep.
    + destruct o as [i|i]; [|discriminate]. destruct k; try discriminate.
      specialize (Hb i). lia.
    + now apply goodStep_once.
  - exact (proj2 Hg).
  - intros step' Hperm s o k. now apply reverseAll_permutation.
Qed.

(** The instance of [steps_target_fields_once_except_node_pruned] for the
    tree of depth 3 and branching factor 3. *)
Lemma steps_target_fields_once_except_node_pruned_witness :
  exists (root : TreeNode) (st' : GenState),
    generateABTreeRootNode wideDraws 3 (-20) 20 3 maxNode 3 initialGenState
    = Some (root, st') /\
    exists (q : ActionListQueue.t) (s0' : Store),
      alphaBeta (Tree.mk (Some root) maxNode 3 3 true) (heap st')
      = Some (q, s0') /\
      forall step, In step (ActionListQueue.actionListQueue q) ->
        forall o k, prunedMark o k = false -> timesTargeted o k step <= 1.
Proof.
  destruct (steps_target_fields_once_except_node_pruned wideDraws 3 (-20) 20 3
              maxNode 3 initialGenState ltac:(lia) ltac:(lia))
    as (root & st' & E & H).
  destruct (H (heap st')) as (q & s0' & Eab & Hsteps).
  exists root, st'. split; [exact E|].
  exists q, s0'. split; [exact Eab|].
  intros step Hstep. exact (proj1 (Hsteps step Hstep)).
Defined.

(** C8 as stated fails on a tree of branching factor 3: the second child
    of the root (node 6) is cut after its first leaf, both remaining
    leaves are pruned in one step (the ninth of the log), and that step
    holds two actions on node 6's [pruned] mark. *)
Lemma pruned_siblings_share_a_target :
  option_map
    (fun r => option_map (timesTargeted (ONode 6) pruned)
                (nth_error (ActionListQueue.actionListQueue (snd (fst r))) 8))
    wideScenario
  = Some (Some 2).
Proof. vm_compute. reflexivity. Qed.

(* ================================================================== *)
(** * Further properties of the code *)

(* ------------------------------------------------------------------ *)
(** ** The queue's bookkeeping *)

Section QueueBookkeeping.
Import ActionListQueue.

Lemma stepForward_keeps (q : t) (s : Store) r q' s' :
  stepForward q s = Some (r, q', s') ->
  length q' = length q /\ actionListQueue q' = actionListQueue q /\
  inAction q' = inAction q.
Proof.
  unfold stepForward.
  destruct (negb (inAction q) || _); [intros [= _ <- _]; auto|].
  destruct (stepAt _ _); [|discriminate]. intros [= _ <- _]. auto.
Qed.

Lemma stepBackward_keeps (q : t) (s : Store) r q' s' :
  stepBackward q s = Some (r, q', s') ->
  length q' = length q /\ actionListQueue q' = actionListQueue q /\
  inAction q' = inAction q.
Proof.
  unfold stepBackward.
  destruct (negb (inAction q) || _); [intros [= _ <- _]; auto|].
  destruct (stepAt _ _); [|discriminate]. intros [= _ <- _]. auto.
Qed.

Lemma whileStepForward_keeps fuel : forall (q : t) (s : Store) q' s',
  whileStepForward fuel q s = Some (q', s') ->
  length q' = length q /\ actionListQueue q' = actionListQueue q /\
  inAction q' = inAction q.
Proof.
  induction fuel as [|fuel IH]; intros q s q' s'; [discriminate|].
  cbn [whileStepForward].
  destruct (stepForward q s) as [[[r q1] s1]|] eqn:E; [|discriminate].
  destruct (stepForward_keeps q s r q1 s1 E) as (H1 & H2 & H3).
  destruct r.
  - intros H. destruct (IH _ _ _ _ H) as (? & ? & ?). splits; congruence.
  - intros [= <- _]. auto.
Qed.

Lemma whileStepBackward_keeps fuel : forall (q : t) (s : Store) q' s',
  whileStepBackward fuel q s = Some (q', s') ->
  length q' = length q /\ actionListQueue q' = actionListQueue q /\
  inAction q' = inAction q.
Proof.
  induction fuel as [|fuel IH]; intros q s q' s'; [discriminate|].
  cbn [whileStepBackward].
  destruct (stepBackward q s) as [[[r q1] s1]|] eqn:E; [|discriminate].
  destruct (stepBackward_keeps q s r q1 s1 E) as (H1 & H2 & H3).
  destruct r.
  - intros H. destruct (IH _ _ _ _ H) as (? & ? & ?). splits; congruence.
  - intros [= <- _]. auto.
Qed.

Lemma runCall_length (c : Call) (q : t) (s : Store) q' s' :
  runCall c q s = Some (q', s') ->
  length q = Z.of_nat (List.length (actionListQueue q)) ->
  length q' = Z.of_nat (List.length (actionListQueue q')).
Proof.
  destruct c; cbn [runCall].
  - intros [= <- _] H. unfold pushActionList. destruct (inAction q); cbn;
      [exact H|]. rewrite length_app. cbn. lia.
  - intros [= <- _] H. unfold extendActionList. destruct (inAction q); cbn;
      [exact H|]. rewrite length_app. lia.
  - destruct (stepForward q s) as [[[r q1] s1]|] eqn:E; [|discriminate].
    intros [= <- _] H.
    destruct (stepForward_keeps q s r q1 s1 E) as (-> & -> & _). exact H.
  - destruct (stepBackward q s) as [[[r q1] s1]|] eqn:E; [|discriminate].
    intros [= <- _] H.
    destruct (stepBackward_keeps q s r q1 s1 E) as (-> & -> & _). exact H.
  - unfold goToEnd. destruct (negb (inAction q)); [now intros [= <- _]|].
    intros E H.
    destruct (whileStepForward_keeps _ q s q' s' E) as (-> & -> & _). exact H.
  - unfold goToBeginning. destruct (negb (inAction q)); [now intros [= <- _]|].
    intros E H.
    destruct (whileStepBackward_keeps _ q s q' s' E) as (-> & -> & _).
    exact H.
  - intros [= <- _] H. exact H.
Qed.

Lemma runCalls_length (cs : list Call) : forall (q : t) (s : Store) q' s',
  runCalls cs q s = Some (q', s') ->
  length q = Z.of_nat (List.length (actionListQueue q)) ->
  length q' = Z.of_nat (List.length (actionListQueue q')).
Proof.
  induction cs as [|c cs IH]; intros q s q' s'; cbn [runCalls].
  - now intros [= <- _].
  - destruct (runCall c q s) as [[q1 s1]|] eqn:E; [|discriminate].
    intros H Hq. apply (IH _ _ _ _ H). exact (runCall_length c q s q1 s1 E Hq).
Qed.

End QueueBookkeeping.

(** X1.  Whatever sequence of method calls and [inAction] assignments a
    client makes on a new queue, the calls all return, the [length] field
    equals the number of stored steps, and the cursor satisfies
    [0 <= lastAction + 1 <= length]: the ratio the application shows as
    playback progress lies between 0 and 1. *)
Theorem length_counts_the_steps :
  forall (calls : list Call) (s0 : Store),
  exists (q : ActionListQueue.t) (s : Store),
    runCalls calls ActionListQueue.new s0 = Some (q, s) /\
    ActionListQueue.length q
    = Z.of_nat (List.length (ActionListQueue.actionListQueue q)) /\
    (0 <= ActionListQueue.lastAction q + 1 <= ActionListQueue.length q)%Z.
Proof.
  intros calls s0.
  destruct (runCalls_inv calls ActionListQueue.new s0) as (q & s & E & Hr).
  { unfold cursorInRange. cbn. lia. }
  exists q, s. split; [exact E|].
  pose proof (runCalls_length calls _ _ _ _ E eq_refl) as Hl.
  split; [exact Hl|]. unfold cursorInRange in Hr. lia.
Qed.

(** X2.  During playback, with the cursor on the last of the steps [done]
    and the steps [rest] still ahead, [goToEnd] applies exactly the steps
    of [rest], first to last, and leaves the cursor on the last step of the
    log; [goToBeginning] reverses exactly the steps of [done], last to
    first, and leaves the cursor at -1.  Neither changes the log.
    Applying the steps of [rest] means: the heap afterwards is the heap
    before with the assignments [object[key] = newVal] of all their
    actions made in the order of the log, so a field holds the [newVal] of
    the last action of [rest] naming it and is as before if none does.
    Reversing the steps of [done] means the same with the assignments
    [object[key] = oldVal], made from the last step of [done] to the
    first and, within a step, front to back. *)
Theorem jumps_play_the_steps_between :
  forall (done rest : list (list Action)) (q : ActionListQueue.t) (s : Store),
    ActionListQueue.inAction q = true ->
    ActionListQueue.actionListQueue q = done ++ rest ->
    ActionListQueue.lastAction q = (Z.of_nat (List.length done) - 1)%Z ->
    (ActionListQueue.goToEnd q s
     = Some (ActionListQueue.set_lastAction q
               (Z.of_nat (List.length (done ++ rest)) - 1)%Z,
             playAll rest s) /\
     assignedInOrder newVal (concat rest) s (playAll rest s)) /\
    (ActionListQueue.goToBeginning q s
     = Some (ActionListQueue.set_lastAction q (-1)%Z, unplayAll done s) /\
     assignedInOrder oldVal (concat (rev done)) s (unplayAll done s)).
Proof.
  intros done rest q s Hin Hq Hl.
  split; (split; [|apply playAll_assignedInOrder
                    || apply unplayAll_assignedInOrder]).
  - unfold ActionListQueue.goToEnd. rewrite Hin. cbn [negb].
    rewrite (whileStepForward_play rest done q s _ Hin Hq Hl), Hq;
      [reflexivity|].
    unfold ActionListQueue.loopBound. rewrite Hq, length_app. lia.
  - unfold ActionListQueue.goToBeginning. rewrite Hin. cbn [negb].
    apply (whileStepBackward_unplay done rest q s _ Hin Hq Hl).
    unfold ActionListQueue.loopBound. rewrite Hq, length_app. lia.
Qed.

(** An instance of [jumps_play_the_steps_between]: a log of two steps with
    the cursor on the first. *)
Lemma jumps_play_the_steps_between_witness :
  ActionListQueue.goToEnd
    (ActionListQueue.mk true 0
       [[mkAction (Some (ONode 1)) entered (JBool false) (JBool true)];
        [mkAction (Some (ONode 1)) entered (JBool true) (JBool false)]] 2)
    emptyStore
  = Some (ActionListQueue.mk true 1
            [[mkAction (Some (ONode 1)) entered (JBool false) (JBool true)];
             [mkAction (Some (ONode 1)) entered (JBool true) (JBool false)]] 2,
          playAll
            [[mkAction (Some (ONode 1)) entered (JBool true) (JBool false)]]
            emptyStore) /\
  assignedInOrder newVal
    (concat [[mkAction (Some (ONode 1)) entered (JBool true) (JBool false)]])
    emptyStore
    (playAll
       [[mkAction (Some (ONode 1)) entered (JBool true) (JBool false)]]
       emptyStore).
Proof.
  exact (proj1 (jumps_play_the_steps_between
                  [[mkAction (Some (ONode 1)) entered (JBool false)
                             (JBool true)]]
                  [[mkAction (Some (ONode 1)) entered (JBool true)
                             (JBool false)]]
                  (ActionListQueue.mk true 0
                     [[mkAction (Some (ONode 1)) entered (JBool false)
                                (JBool true)];
                      [mkAction (Some (ONode 1)) entered (JBool true)
                                (JBool false)]] 2)
                  emptyStore eq_refl eq_refl eq_refl)).
Defined.

(* ------------------------------------------------------------------ *)
(** ** Visiting every node *)

(** A traversal [f] that does [pre] at a node and then, unless the node is
    a leaf, visits the children in slots [0 .. childNum - 1], establishes
    at every node of a tidy tree what [pre] establishes, if later visits
    keep it. *)
Lemma visit_all (f pre : TreeNode -> Store -> Store)
    (Inv : Store -> Prop) (P : TreeNode -> Store -> Prop) :
  (forall n s, f n s = if isLeaf n then pre n s
                       else forChildren f (childNum n) (children n) 0
                                        (pre n s)) ->
  (forall n s, Inv s -> Inv (pre n s) /\ P n (pre n s)) ->
  (forall m c s, Inv s -> P m s -> P m (f c s)) ->
  (forall c s, Inv s -> Inv (f c s)) ->
  forall n, tidy n ->
  forall s m, Inv s -> In m (nodes n) -> P m (f n s).
Proof.
  intros Hf Hpre Hkeep Hinv.
  induction n as [n IH] using TreeNode_ind'. intros Ht s m Hs Hm.
  rewrite Hf. destruct (Hpre n s Hs) as [Hi Hp].
  destruct (Ht n (nodes_self n)) as [Hleaf Hlen].
  apply nodes_inv in Hm. destruct (isLeaf n) eqn:El.
  - destruct Hm as [-> | (c & Hc & _)]; [exact Hp|].
    rewrite (Hleaf eq_refl) in Hc. destruct Hc.
  - assert (Hloop : forall (Q : Store -> Prop),
              (forall c s', Inv s' -> Q s' -> Q (f c s')) ->
              forall cs k s', Inv s' -> Q s' ->
                Q (forChildren f (childNum n) cs k s')).
    { intros Q HQ. induction cs as [|c cs IHcs]; intros k s' Hi' Hq';
        cbn [forChildren]; [exact Hq'|].
      destruct (Nat.ltb k (childNum n)); [|exact Hq'].
      apply IHcs; auto. }
    destruct Hm as [-> | (c & Hc & Hm)].
    + apply Hloop; auto.
    + assert (Hvisit : forall cs k s',
                (forall c', In c' cs -> In c' (children n)) ->
                k + List.length cs <= childNum n -> In c cs -> Inv s' ->
                P m (forChildren f (childNum n) cs k s')).
      { induction cs as [|c' cs IHcs]; intros k s' Hsub Hk [] Hi'.
        - subst c'. cbn [forChildren]. cbn in Hk.
          destruct (Nat.ltb_spec k (childNum n)); [|lia].
          apply Hloop; auto.
          rewrite Forall_forall in IH.
          apply (IH c Hc (tidy_child n c Ht Hc)); auto.
        - cbn [forChildren]. cbn in Hk.
          destruct (Nat.ltb_spec k (childNum n)); [|lia].
          apply IHcs; auto; [intros x Hx; apply Hsub; now right | lia]. }
      apply Hvisit; auto.
Qed.

Lemma tinyTree_tidy : tidy tinyTree.
Proof.
  intros m [<- | [<- | [<- | []]]]; cbn; split; auto; discriminate.
Qed.

(* ------------------------------------------------------------------ *)
(** ** Reset *)

Lemma write_kept s o' k' v' o k v :
  resetConst k = Some v -> resetConst k' = Some v' ->
  s o k = v -> write s o' k' v' o k = v.
Proof.
  intros Hk Hk' Hs.
  destruct (write_cases s o' k' v' o k) as [(-> & -> & ->) | [_ ->]];
    congruence.
Qed.

Lemma resetSubTree_kept n : forall s o k v,
  resetConst k = Some v -> s o k = v -> resetSubTree n s o k = v.
Proof.
  induction n as [n IH] using TreeNode_ind'. intros s o k v Hk Hs.
  rewrite resetSubTree_eq. cbn zeta.
  assert (H1 : match edgeToParent n with
               | Some e => write (write s e entered (JBool false))
                                 e pruned (JBool false)
               | None => s
               end o k = v).
  { destruct (edgeToParent n); [|exact Hs].
    do 2 (apply write_kept; [exact Hk | reflexivity |]). exact Hs. }
  destruct (isLeaf n).
  - apply write_kept; auto.
  - apply (forChildren_rel (fun s s' => s o k = v -> s' o k = v)); auto.
    + eapply Forall_impl; [|exact IH]. intros c Hc s0. now apply Hc.
    + do 4 (apply write_kept; [exact Hk | reflexivity |]). exact H1.
Qed.

Lemma resetAt_kept m c s : resetAt m s -> resetAt m (resetSubTree c s).
Proof.
  intros (H1 & H2 & H3). unfold resetAt. splits.
  - now apply resetSubTree_kept.
  - intros e He. destruct (H2 e He). split; now apply resetSubTree_kept.
  - intros Hl. destruct (H3 Hl) as (? & ? & ?).
    splits; now apply resetSubTree_kept.
Qed.

Lemma resetSubTree_visit n s :
  resetSubTree n s
  = if isLeaf n then resetHere n s
    else forChildren resetSubTree (childNum n) (children n) 0 (resetHere n s).
Proof.
  rewrite resetSubTree_eq. unfold resetHere. cbn zeta.
  now destruct (isLeaf n).
Qed.

Lemma resetHere_resets n s : resetAt n (resetHere n s).
Proof.
  destruct (flagsClear_self n s (childless n) (or_introl eq_refl))
    as [H1 H2].
  unfold resetAt, resetHere. cbn zeta. destruct (isLeaf n) eqn:El; splits.
  - exact H1.
  - exact H2.
  - discriminate.
  - do 3 (apply write_kept; [reflexivity | reflexivity |]). exact H1.
  - intros e He. destruct (H2 e He).
    split; do 3 (apply write_kept; [reflexivity | reflexivity |]);
      assumption.
  - intros _. splits.
    + rewrite write_other by (right; discriminate).
      rewrite write_other by (right; discriminate). apply write_same.
    + rewrite write_other by (right; discriminate). apply write_same.
    + apply write_same.
Qed.

Lemma resetSubTree_resets n :
  tidy n -> forall s m, In m (nodes n) -> resetAt m (resetSubTree n s).
Proof.
  intros Ht s m Hm.
  apply (visit_all resetSubTree resetHere (fun _ => True) resetAt
           resetSubTree_visit) with (n := n); auto.
  - intros x s0 _. split; [exact I | apply resetHere_resets].
  - intros m0 c s0 _. apply resetAt_kept.
Qed.

Lemma resetSubTree_modifies n :
  forall s, modifies (resetTouches n) s (resetSubTree n s).
Proof.
  induction n as [n IH] using TreeNode_ind'. intros s.
  rewrite resetSubTree_eq. cbn zeta.
  assert (Hself : forall k, (k = entered \/
                    (isLeaf n = false /\ (k = value \/ k = alpha \/ k = beta)))
                  -> resetTouches n (ONode (id n)) k).
  { intros k Hk. exists n. split; [apply nodes_self|]. right. auto. }
  assert (H1 : modifies (resetTouches n) s
                 match edgeToParent n with
                 | Some e => write (write s e entered (JBool false))
                                   e pruned (JBool false)
                 | None => s
                 end).
  { destruct (edgeToParent n) as [e|] eqn:Ee; [|apply modifies_refl].
    eapply modifies_trans; apply modifies_write;
      exists n; (split; [apply nodes_self|]); left; auto. }
  assert (H2 : modifies (resetTouches n) s
                 (write match edgeToParent n with
                        | Some e => write (write s e entered (JBool false))
                                          e pruned (JBool false)
                        | None => s
                        end (ONode (id n)) entered (JBool false))).
  { eapply modifies_trans; [exact H1|]. apply modifies_write. auto. }
  destruct (isLeaf n) eqn:El; [exact H2|].
  match type of H2 with modifies _ _ ?x => set (s2 := x) in * end.
  apply (modifies_trans _ _
           (write (write (write s2 (ONode (id n)) value JNull)
                         (ONode (id n)) alpha JNull)
                  (ONode (id n)) beta JNull)).
  { apply (modifies_trans _ _ s2); [exact H2|].
    apply (modifies_trans _ _ (write s2 (ONode (id n)) value JNull));
      [apply modifies_write; apply Hself; auto 6|].
    apply (modifies_trans _ _
             (write (write s2 (ONode (id n)) value JNull)
                    (ONode (id n)) alpha JNull));
      apply modifies_write; apply Hself; auto 6. }
  apply (forChildren_rel (modifies (resetTouches n))).
  - apply modifies_refl.
  - apply modifies_trans.
  - rewrite Forall_forall in *. intros c Hc s0.
    apply (modifies_weaken (resetTouches c)); [|apply (IH c Hc)].
    intros o k (m & Hm & H). exists m. split; [|exact H].
    now apply (nodes_child n c m).
Qed.

Lemma resetSubTree_sameWrites n :
  forall s t, sameWrites s (resetSubTree n s) t (resetSubTree n t).
Proof.
  induction n as [n IH] using TreeNode_ind'. intros s t.
  rewrite !resetSubTree_eq. cbn zeta.
  assert (H1 : sameWrites s
                 match edgeToParent n with
                 | Some e => write (write s e entered (JBool false))
                                   e pruned (JBool false)
                 | None => s
                 end t
                 match edgeToParent n with
                 | Some e => write (write t e entered (JBool false))
                                   e pruned (JBool false)
                 | None => t
                 end).
  { destruct (edgeToParent n); [|apply sameWrites_refl].
    eapply sameWrites_trans; apply sameWrites_write. }
  pose proof (sameWrites_trans _ _ _ _ _ _ H1
                (sameWrites_write _ _ (ONode (id n)) entered (JBool false)))
    as H2.
  destruct (isLeaf n); [exact H2|].
  eapply sameWrites_trans;
    [eapply sameWrites_trans; [exact H2|];
     eapply sameWrites_trans; [eapply sameWrites_trans|];
     apply sameWrites_write|].
  apply (forChildren_rel2 sameWrites).
  - intros x x'. apply sameWrites_refl.
  - intros x1 x2 x3 y1 y2 y3. apply sameWrites_trans.
  - exact IH.
Qed.

(** X3.  On a tree whose leaf-kind nodes have no children and whose
    [childNum] covers its children, [resetTree] leaves every node not
    entered, every edge neither entered nor pruned, and the value, alpha
    and beta of every node that is not a leaf [null]. *)
Theorem resetTree_resets_every_node :
  forall (root : TreeNode) (s : Store),
    tidy root ->
    forall m, In m (nodes root) ->
      resetTree (Some root) s (ONode (id m)) entered = JBool false /\
      (forall e, edgeToParent m = Some e ->
         resetTree (Some root) s e entered = JBool false /\
         resetTree (Some root) s e pruned = JBool false) /\
      (isLeaf m = false ->
         resetTree (Some root) s (ONode (id m)) value = JNull /\
         resetTree (Some root) s (ONode (id m)) alpha = JNull /\
         resetTree (Some root) s (ONode (id m)) beta = JNull).
Proof.
  intros root s Ht m Hm. exact (resetSubTree_resets root Ht s m Hm).
Qed.

(** An instance of [resetTree_resets_every_node]: the root of the tree of
    one max node and two leaves. *)
Lemma resetTree_resets_every_node_witness :
  resetTree (Some tinyTree) emptyStore (ONode 1) entered = JBool false /\
  resetTree (Some tinyTree) emptyStore (ONode 1) value = JNull.
Proof.
  destruct (resetTree_resets_every_node tinyTree emptyStore tinyTree_tidy
              tinyTree (or_introl eq_refl)) as (H1 & _ & H3).
  split; [exact H1|]. exact (proj1 (H3 eq_refl)).
Defined.

(** X4.  [resetTree] assigns nothing but the two flags of edges, the
    [entered] flag of nodes and the value, alpha and beta of nodes that are
    not leaves.  In particular it never assigns a shadow field, never
    clears the [pruned] mark of a node, and, when ids are distinct, never
    assigns the value of a leaf. *)
Theorem resetTree_assigns_only_reset_fields :
  forall (root : TreeNode) (s : Store),
    (forall o k, ~ resetTouches root o k ->
                 resetTree (Some root) s o k = s o k) /\
    (forall o k, visible k = false -> resetTree (Some root) s o k = s o k) /\
    (forall i, resetTree (Some root) s (ONode i) pruned
               = s (ONode i) pruned) /\
    (NoDup (ids root) ->
     forall m, In m (nodes root) -> isLeaf m = true ->
       resetTree (Some root) s (ONode (id m)) value
       = s (ONode (id m)) value).
Proof.
  intros root s. pose proof (resetSubTree_modifies root s) as H.
  cbn [resetTree]. splits.
  - exact H.
  - intros o k Hk. apply H.
    intros (m & _ & [[_ [-> | ->]] | [_ [-> | [_ [-> | [-> | ->]]]]]]);
      discriminate.
  - intros i. apply H.
    intros (m & _ & [[He _] | [_ [[=] | [_ [[=] | [[=] | [=]]]]]]]).
    destruct (edgeToParent_cases m) as [E | E]; rewrite E in He;
      discriminate.
  - intros Hnd m Hm Hl. apply H.
    intros (m' & Hm' & [[He _] | [[= E] [[=] | [Hl' _]]]]).
    + destruct (edgeToParent_cases m') as [E | E]; rewrite E in He;
        discriminate.
    + rewrite (nodes_id_inj root m m' Hnd Hm Hm' E) in Hl. congruence.
Qed.

(** X5.  Resetting twice is resetting once: a second [resetTree] on the
    same tree changes no field. *)
Theorem resetTree_idempotent :
  forall (root : option TreeNode) (s : Store) (o : Obj) (k : Key),
    resetTree root (resetTree root s) o k = resetTree root s o k.
Proof.
  intros [root|] s o k; [|reflexivity]. cbn [resetTree].
  destruct (resetSubTree_sameWrites root s (resetSubTree root s) o k)
    as [E | [E1 E2]]; congruence.
Qed.

(* ------------------------------------------------------------------ *)
(** ** Show solution *)

Lemma setSolutionForSubTree_visit n s :
  setSolutionForSubTree n s
  = if isLeaf n then solveHere n s
    else forChildren setSolutionForSubTree (childNum n) (children n) 0
                     (solveHere n s).
Proof. destruct n. unfold solveHere, isLeaf. cbn. now destruct nodeType0. Qed.

Lemma write_solution s0 s o' k' o k v :
  sameShadow s0 s -> visible k' = true ->
  solutionVal s0 o k = Some v -> s o k = v ->
  forall v', solutionVal s0 o' k' = Some v' ->
  write s o' k' v' o k = v.
Proof.
  intros Hs Hk' Hv E v' Hv'.
  destruct (write_cases s o' k' v' o k) as [(-> & -> & ->) | [_ ->]];
    congruence.
Qed.

Lemma sameShadow_write s0 s o k v :
  sameShadow s0 s -> visible k = true -> sameShadow s0 (write s o k v).
Proof.
  intros Hs Hk o' k' Hk'. rewrite write_other; [apply Hs, Hk'|].
  right. intros ->. congruence.
Qed.

(** One node's assignments keep what earlier ones established, and the
    shadow fields. *)
Lemma solveHere_kept s0 n s :
  sameShadow s0 s ->
  sameShadow s0 (solveHere n s) /\
  forall o k v, solutionVal s0 o k = Some v -> s o k = v ->
                solveHere n s o k = v.
Proof.
  intros Hs. unfold solveHere. cbn zeta.
  set (s1 := match edgeToParent n with
             | Some e => write s e pruned (js_or (s e __pruned) (JBool false))
             | None => s
             end).
  assert (H1 : sameShadow s0 s1 /\
               forall o k v, solutionVal s0 o k = Some v -> s o k = v ->
                             s1 o k = v).
  { subst s1. destruct (edgeToParent n) as [e|]; [|auto]. split.
    - now apply sameShadow_write.
    - intros o k v Hv E.
      apply (write_solution s0 s e pruned o k v Hs eq_refl Hv E).
      cbn. now rewrite (Hs e __pruned eq_refl). }
  destruct H1 as [Hs1 Hk1]. destruct (isLeaf n); [auto|].
  set (me := ONode (id n)).
  set (s2 := write s1 me value (nullish_or (s1 me __value) JNull)).
  set (s3 := write s2 me alpha (nullish_or (s2 me __alpha) JNull)).
  set (s4 := write s3 me beta (nullish_or (s3 me __beta) JNull)).
  assert (Hs2 : sameShadow s0 s2) by now apply sameShadow_write.
  assert (Hs3 : sameShadow s0 s3) by now apply sameShadow_write.
  assert (Hs4 : sameShadow s0 s4) by now apply sameShadow_write.
  split; [now apply sameShadow_write|].
  intros o k v Hv E.
  apply (write_solution s0 s4 me pruned o k v Hs4 eq_refl Hv);
    [|cbn; now rewrite (Hs4 me __pruned eq_refl)].
  apply (write_solution s0 s3 me beta o k v Hs3 eq_refl Hv);
    [|cbn; now rewrite (Hs3 me __beta eq_refl)].
  apply (write_solution s0 s2 me alpha o k v Hs2 eq_refl Hv);
    [|cbn; now rewrite (Hs2 me __alpha eq_refl)].
  apply (write_solution s0 s1 me value o k v Hs1 eq_refl Hv);
    [|cbn; now rewrite (Hs1 me __value eq_refl)].
  now apply Hk1.
Qed.

Lemma setSolutionForSubTree_kept s0 n : forall s,
  sameShadow s0 s ->
  sameShadow s0 (setSolutionForSubTree n s) /\
  forall o k v, solutionVal s0 o k = Some v -> s o k = v ->
                setSolutionForSubTree n s o k = v.
Proof.
  induction n as [n IH] using TreeNode_ind'. intros s Hs.
  rewrite setSolutionForSubTree_visit.
  destruct (solveHere_kept s0 n s Hs) as [Hs1 Hk1].
  destruct (isLeaf n); [auto|].
  destruct (forChildren_rel
              (fun s s' => sameShadow s0 s ->
                 sameShadow s0 s' /\
                 forall o k v, solutionVal s0 o k = Some v ->
                               s o k = v -> s' o k = v)
              setSolutionForSubTree (childNum n) (children n))
    with (k := 0) (s := solveHere n s) as [Hs2 Hk2]; auto.
  intros x1 x2 x3 H12 H23 H1.
  destruct (H12 H1) as [H2 K2]. destruct (H23 H2) as [H3 K3]. auto.
Qed.

Lemma solveHere_solves s0 n s :
  sameShadow s0 s -> solvedAt s0 n (solveHere n s).
Proof.
  intros Hs. unfold solvedAt, solveHere. cbn zeta.
  set (s1 := match edgeToParent n with
             | Some e => write s e pruned (js_or (s e __pruned) (JBool false))
             | None => s
             end).
  assert (Hs1 : sameShadow s0 s1).
  { subst s1. destruct (edgeToParent n); [|exact Hs].
    now apply sameShadow_write. }
  assert (He : forall e, edgeToParent n = Some e ->
                 s1 e pruned = js_or (s0 e __pruned) (JBool false)).
  { intros e E. subst s1. rewrite E, write_same.
    now rewrite (Hs e __pruned eq_refl). }
  destruct (isLeaf n); split; auto; try discriminate.
  - set (me := ONode (id n)).
    set (s2 := write s1 me value (nullish_or (s1 me __value) JNull)).
    set (s3 := write s2 me alpha (nullish_or (s2 me __alpha) JNull)).
    set (s4 := write s3 me beta (nullish_or (s3 me __beta) JNull)).
    assert (Hs2 : sameShadow s0 s2) by now apply sameShadow_write.
    assert (Hs3 : sameShadow s0 s3) by now apply sameShadow_write.
    assert (Hs4 : sameShadow s0 s4) by now apply sameShadow_write.
    intros e E.
    apply (write_solution s0 s4 me pruned e pruned _ Hs4 eq_refl eq_refl);
      [|cbn; now rewrite (Hs4 me __pruned eq_refl)].
    apply (write_solution s0 s3 me beta e pruned _ Hs3 eq_refl eq_refl);
      [|cbn; now rewrite (Hs3 me __beta eq_refl)].
    apply (write_solution s0 s2 me alpha e pruned _ Hs2 eq_refl eq_refl);
      [|cbn; now rewrite (Hs2 me __alpha eq_refl)].
    apply (write_solution s0 s1 me value e pruned _ Hs1 eq_refl eq_refl);
      [|cbn; now rewrite (Hs1 me __value eq_refl)].
    now apply He.
  - intros _.
    set (me := ONode (id n)).
    set (s2 := write s1 me value (nullish_or (s1 me __value) JNull)).
    set (s3 := write s2 me alpha (nullish_or (s2 me __alpha) JNull)).
    set (s4 := write s3 me beta (nullish_or (s3 me __beta) JNull)).
    assert (Hs2 : sameShadow s0 s2) by now apply sameShadow_write.
    assert (Hs3 : sameShadow s0 s3) by now apply sameShadow_write.
    assert (Hs4 : sameShadow s0 s4) by now apply sameShadow_write.
    subst s4 s3 s2. splits.
    + rewrite !write_other by (right; discriminate).
      now rewrite write_same, (Hs1 me __value eq_refl).
    + rewrite !write_other by (right; discriminate).
      now rewrite write_same, (Hs2 me __alpha eq_refl).
    + rewrite write_other by (right; discriminate).
      now rewrite write_same, (Hs3 me __beta eq_refl).
    + now rewrite write_same, (Hs4 me __pruned eq_refl).
Qed.

Lemma solvedAt_kept s0 m c s :
  sameShadow s0 s -> solvedAt s0 m s ->
  solvedAt s0 m (setSolutionForSubTree c s).
Proof.
  intros Hs [H1 H2].
  destruct (setSolutionForSubTree_kept s0 c s Hs) as [_ Hk]. split.
  - intros e E. apply Hk; [reflexivity | now apply H1].
  - intros Hl. destruct (H2 Hl) as (? & ? & ? & ?).
    splits; apply Hk; auto.
Qed.

Lemma sameShadow_refl s : sameShadow s s.
Proof. intros o k _. reflexivity. Qed.

Lemma setSolutionForSubTree_solves n :
  tidy n -> forall s m, In m (nodes n) ->
  solvedAt s m (setSolutionForSubTree n s).
Proof.
  intros Ht s m Hm.
  apply (visit_all setSolutionForSubTree solveHere (sameShadow s)
           (solvedAt s) setSolutionForSubTree_visit) with (n := n); auto.
  - intros x s1 H1. split.
    + exact (proj1 (solveHere_kept s x s1 H1)).
    + now apply solveHere_solves.
  - intros m0 c s1. apply solvedAt_kept.
  - intros c s1 H1. exact (proj1 (setSolutionForSubTree_kept s c s1 H1)).
  - apply sameShadow_refl.
Qed.

Lemma setSolutionForSubTree_modifies n :
  forall s, modifies (solutionTouches n) s (setSolutionForSubTree n s).
Proof.
  induction n as [n IH] using TreeNode_ind'. intros s.
  rewrite setSolutionForSubTree_visit.
  assert (Hhere : modifies (solutionTouches n) s (solveHere n s)).
  { unfold solveHere. cbn zeta.
    set (s1 := match edgeToParent n with
               | Some e => write s e pruned (js_or (s e __pruned) (JBool false))
               | None => s
               end).
    assert (H1 : modifies (solutionTouches n) s s1).
    { subst s1. destruct (edgeToParent n) as [e|] eqn:Ee;
        [|apply modifies_refl].
      apply modifies_write. exists n. split; [apply nodes_self|]. auto. }
    destruct (isLeaf n) eqn:El; [exact H1|].
    assert (Hself : forall k, k = value \/ k = alpha \/ k = beta \/ k = pruned
                              -> solutionTouches n (ONode (id n)) k).
    { intros k Hk. exists n. split; [apply nodes_self|]. right. auto. }
    repeat (eapply modifies_trans; [|apply modifies_write; apply Hself;
                                     auto 6]).
    exact H1. }
  destruct (isLeaf n); [exact Hhere|].
  eapply modifies_trans; [exact Hhere|].
  apply (forChildren_rel (modifies (solutionTouches n))).
  - apply modifies_refl.
  - apply modifies_trans.
  - rewrite Forall_forall in *. intros c Hc s0.
    apply (modifies_weaken (solutionTouches c)); [|apply (IH c Hc)].
    intros o k (m & Hm & H). exists m. split; [|exact H].
    now apply (nodes_child n c m).
Qed.

(** X6.  On a tree whose leaf-kind nodes have no children and whose
    [childNum] covers its children, [setSolution] leaves in every edge's
    [pruned] flag the edge's shadow flag or [false] ([__pruned || false]),
    and in the value, alpha and beta of every node that is not a leaf the
    node's shadow value and bounds or [null] ([__value ?? null], ...), and
    in its [pruned] mark [__pruned || false]. *)
Theorem setSolution_shows_the_shadow_fields :
  forall (root : TreeNode) (s : Store),
    tidy root ->
    forall m, In m (nodes root) ->
      (forall e, edgeToParent m = Some e ->
         setSolution (Some root) s e pruned
         = js_or (s e __pruned) (JBool false)) /\
      (isLeaf m = false ->
         setSolution (Some root) s (ONode (id m)) value
         = nullish_or (s (ONode (id m)) __value) JNull /\
         setSolution (Some root) s (ONode (id m)) alpha
         = nullish_or (s (ONode (id m)) __alpha) JNull /\
         setSolution (Some root) s (ONode (id m)) beta
         = nullish_or (s (ONode (id m)) __beta) JNull /\
         setSolution (Some root) s (ONode (id m)) pruned
         = js_or (s (ONode (id m)) __pruned) (JBool false)).
Proof.
  intros root s Ht m Hm. exact (setSolutionForSubTree_solves root Ht s m Hm).
Qed.

(** An instance of [setSolution_shows_the_shadow_fields]: the root of the
    tree of one max node and two leaves, with shadow value 7. *)
Lemma setSolution_shows_the_shadow_fields_witness :
  setSolution (Some tinyTree)
              (write emptyStore (ONode 1) __value (JNum (Fin 7)))
              (ONode 1) value
  = JNum (Fin 7).
Proof.
  destruct (setSolution_shows_the_shadow_fields tinyTree
              (write emptyStore (ONode 1) __value (JNum (Fin 7)))
              tinyTree_tidy tinyTree (or_introl eq_refl)) as (_ & H).
  exact (proj1 (H eq_refl)).
Defined.

(** X7.  [setSolution] assigns nothing but the [pruned] flag of edges and
    the value, alpha, beta and [pruned] mark of nodes that are not leaves:
    it never assigns a shadow field or an [entered] flag, and (ids being
    distinct) no field of a leaf. *)
Theorem setSolution_assigns_only_solution_fields :
  forall (root : TreeNode) (s : Store),
    (forall o k, ~ solutionTouches root o k ->
                 setSolution (Some root) s o k = s o k) /\
    (forall o k, visible k = false -> setSolution (Some root) s o k = s o k) /\
    (forall o, setSolution (Some root) s o entered = s o entered) /\
    (NoDup (ids root) ->
     forall m k, In m (nodes root) -> isLeaf m = true ->
       setSolution (Some root) s (ONode (id m)) k = s (ONode (id m)) k).
Proof.
  intros root s. pose proof (setSolutionForSubTree_modifies root s) as H.
  cbn [setSolution]. splits.
  - exact H.
  - intros o k Hk. apply H.
    intros (m & _ & [[_ ->] | (_ & _ & [-> | [-> | [-> | ->]]])]);
      discriminate.
  - intros o. apply H.
    intros (m & _ & [[_ [=]] | (_ & _ & [[=] | [[=] | [[=] | [=]]]])]).
  - intros Hnd m k Hm Hl. apply H.
    intros (m' & Hm' & [[He _] | ([= E] & Hl' & _)]).
    + destruct (edgeToParent_cases m') as [E | E]; rewrite E in He;
        discriminate.
    + rewrite (nodes_id_inj root m m' Hnd Hm Hm' E) in Hl. congruence.
Qed.

(* ------------------------------------------------------------------ *)
(** ** Check answer *)

Lemma forChildren_andb (g : TreeNode -> bool) (bFac : nat) cs :
  forall k acc,
    forChildren (fun c res => res && g c) bFac cs k acc
    = acc && forallb g (firstn (bFac - k) cs).
Proof.
  induction cs as [|c cs IH]; intros k acc; cbn [forChildren].
  - rewrite firstn_nil. cbn. now rewrite andb_true_r.
  - destruct (Nat.ltb_spec k bFac) as [Hk|Hk].
    + rewrite IH. replace (bFac - k) with (S (bFac - S k)) by lia.
      cbn [firstn forallb]. now rewrite andb_assoc.
    + replace (bFac - k) with 0 by lia. cbn. now rewrite andb_true_r.
Qed.

Lemma checkSubTree_eq s n :
  checkSubTree s n
  = if isLeaf n then true
    else checkedAt s n
         && forallb (checkSubTree s) (firstn (childNum n) (children n)).
Proof.
  destruct n as [i ty p d cn cs]. unfold checkedAt, isLeaf.
  cbn [checkSubTree nodeType id childNum children].
  rewrite forChildren_andb, Nat.sub_0_r. cbn [andb].
  destruct (TreeNodeType_eqb ty leafNode); [reflexivity|].
  destruct (strict_eq _ _); [|reflexivity]. cbn [negb andb].
  destruct (edgeToParent _); [|reflexivity].
  now destruct (truthy _ && negb _).
Qed.

Lemma forallb_agree {A : Type} (f g : A -> bool) l :
  (forall x, In x l -> f x = g x) -> forallb f l = forallb g l.
Proof.
  induction l as [|x l IH]; intros H; [reflexivity|]. cbn.
  rewrite (H x (or_introl eq_refl)), IH; [reflexivity|].
  intros y Hy. apply H. now right.
Qed.

Lemma in_firstn {A : Type} (x : A) : forall n l, In x (firstn n l) -> In x l.
Proof.
  induction n as [|n IH]; intros [|y l]; cbn; try tauto.
  intros [-> | H]; auto.
Qed.

(** What the check reads: two heaps that agree where it looks give the
    same answer. *)
Lemma checkSubTree_reads s t n :
  (forall m, In m (nodes n) -> isLeaf m = false ->
             checkedAt s m = checkedAt t m) ->
  checkSubTree s n = checkSubTree t n.
Proof.
  induction n as [n IH] using TreeNode_ind'. intros H.
  rewrite !checkSubTree_eq. destruct (isLeaf n) eqn:El; [reflexivity|].
  rewrite (H n (nodes_self n) El). f_equal.
  apply forallb_agree. intros c Hc.
  assert (Hc' : In c (children n)) by (eapply in_firstn; exact Hc).
  rewrite Forall_forall in IH. apply (IH c Hc').
  intros m Hm. apply H. now apply (nodes_child n c m).
Qed.

Lemma checkSubTree_iff s n :
  tidy n ->
  checkSubTree s n = true <->
  forall m, In m (nodes n) -> isLeaf m = false -> checkedAt s m = true.
Proof.
  induction n as [n IH] using TreeNode_ind'. intros Ht.
  destruct (Ht n (nodes_self n)) as [Hleaf Hlen].
  rewrite checkSubTree_eq. destruct (isLeaf n) eqn:El.
  - split; [|reflexivity]. intros _ m Hm Hl. apply nodes_inv in Hm.
    destruct Hm as [-> | (c & Hc & _)]; [congruence|].
    rewrite (Hleaf eq_refl) in Hc. destruct Hc.
  - rewrite firstn_all2 by exact Hlen.
    rewrite andb_true_iff, forallb_forall. rewrite Forall_forall in IH. split.
    + intros [Hn Hcs] m Hm Hl. apply nodes_inv in Hm.
      destruct Hm as [-> | (c & Hc & Hm)]; [exact Hn|].
      exact (proj1 (IH c Hc (tidy_child n c Ht Hc)) (Hcs c Hc) m Hm Hl).
    + intros H. split; [exact (H n (nodes_self n) El)|].
      intros c Hc. apply (IH c Hc (tidy_child n c Ht Hc)).
      intros m Hm. apply H. now apply (nodes_child n c m).
Qed.

Lemma strict_eq_refl v : strict_eq v v = true.
Proof.
  destruct v as [| |b|[|z|]]; cbn; auto using Bool.eqb_reflx, Z.eqb_refl.
Qed.

Lemma checkedAt_true s m :
  checkedAt s m = true <->
  strict_eq (s (ONode (id m)) value) (s (ONode (id m)) __value) = true /\
  forall e, edgeToParent m = Some e -> truthy (s e __pruned) = true ->
            strict_eq (s e __pruned) (s e pruned) = true.
Proof.
  unfold checkedAt. rewrite andb_true_iff.
  destruct (edgeToParent m) as [e|].
  - rewrite negb_true_iff, andb_false_iff, negb_false_iff. split.
    + intros [H1 H2]. split; [exact H1|]. intros e' [= <-] Ht.
      destruct H2 as [H2 | H2]; congruence.
    + intros [H1 H2]. split; [exact H1|].
      destruct (truthy (s e __pruned)) eqn:Et; auto.
  - split; intros [H1 _]; split; auto. intros e [=].
Qed.

(** X8.  [checkAnswer] reads only the value and shadow value of the nodes
    that are not leaves, and the [pruned] and [__pruned] flags of the edges
    into them: two heaps that agree on these get the same answer, whatever
    they hold in alpha, beta, the [entered] flags, the leaves, and the
    edges into leaves. *)
Theorem checkAnswer_reads_only_interior_values_and_edges :
  forall (root : TreeNode) (s t : Store),
    (forall m, In m (nodes root) -> isLeaf m = false ->
       s (ONode (id m)) value = t (ONode (id m)) value /\
       s (ONode (id m)) __value = t (ONode (id m)) __value /\
       forall e, edgeToParent m = Some e ->
         s e pruned = t e pruned /\ s e __pruned = t e __pruned) ->
    checkAnswer (Some root) s = checkAnswer (Some root) t.
Proof.
  intros root s t H. cbn [checkAnswer]. apply checkSubTree_reads.
  intros m Hm Hl. destruct (H m Hm Hl) as (E1 & E2 & E3).
  unfold checkedAt. rewrite E1, E2.
  destruct (edgeToParent m) as [e|]; [|reflexivity].
  destruct (E3 e eq_refl) as [-> ->]. reflexivity.
Qed.

(** An instance of [checkAnswer_reads_only_interior_values_and_edges]:
    changing a leaf's value, the [pruned] flags of the edge into it and
    the root's alpha does not change the answer. *)
Lemma checkAnswer_reads_only_interior_values_and_edges_witness :
  checkAnswer (Some tinyTree) emptyStore
  = checkAnswer (Some tinyTree)
      (write (write (write (write emptyStore (ONode 2) value (JNum (Fin 9)))
                           (OEdge 2) pruned (JBool true))
                    (OEdge 2) __pruned (JBool false))
             (ONode 1) alpha (JNum (Fin 1))).
Proof.
  apply checkAnswer_reads_only_interior_values_and_edges.
  intros m [<- | [<- | [<- | []]]] Hl; try discriminate Hl.
  splits; try reflexivity. intros e [=].
Defined.

(** X9.  On a tree whose leaf-kind nodes have no children and whose
    [childNum] covers its children, [checkAnswer] returns true exactly
    when every node that is not a leaf has its value strictly equal to its
    shadow value and, if the edge into it has a truthy shadow flag, that
    edge's [pruned] flag strictly equal to the shadow flag.  Edges into
    leaves are not part of the condition. *)
Theorem checkAnswer_true_iff :
  forall (root : TreeNode) (s : Store),
    tidy root ->
    (checkAnswer (Some root) s = true <->
     forall m, In m (nodes root) -> isLeaf m = false ->
       strict_eq (s (ONode (id m)) value) (s (ONode (id m)) __value) = true /\
       forall e, edgeToParent m = Some e -> truthy (s e __pruned) = true ->
                 strict_eq (s e __pruned) (s e pruned) = true).
Proof.
  intros root s Ht. cbn [checkAnswer]. rewrite (checkSubTree_iff s root Ht).
  split; intros H m Hm Hl; apply checkedAt_true; auto.
Qed.

(** An instance of [checkAnswer_true_iff]: the tree of one max node and
    two leaves whose root holds value and shadow value 7. *)
Lemma checkAnswer_true_iff_witness :
  checkAnswer (Some tinyTree)
    (write (write emptyStore (ONode 1) value (JNum (Fin 7)))
           (ONode 1) __value (JNum (Fin 7)))
  = true.
Proof.
  apply (proj2 (checkAnswer_true_iff tinyTree _ tinyTree_tidy)).
  intros m [<- | [<- | [<- | []]]] Hl; try discriminate Hl.
  split; [reflexivity | intros e [=]].
Defined.

Lemma solved_checkedAt root s m :
  tidy root -> In m (nodes root) -> isLeaf m = false ->
  checkedAt (setSolutionForSubTree root s) m = true <->
  s (ONode (id m)) __value <> JUndefined.
Proof.
  intros Ht Hm Hl.
  destruct (setSolutionForSubTree_solves root Ht s m Hm) as [He Hn].
  destruct (Hn Hl) as (Ev & _).
  pose proof (setSolutionForSubTree_modifies root s) as Hfr.
  assert (Hsh : forall o k, visible k = false ->
                  setSolutionForSubTree root s o k = s o k).
  { intros o k Hk. apply Hfr.
    intros (m' & _ & [[_ ->] | (_ & _ & [-> | [-> | [-> | ->]]])]);
      discriminate. }
  rewrite checkedAt_true, Ev, (Hsh _ __value eq_refl).
  split.
  - intros [H _] E. rewrite E in H. discriminate.
  - intros Hv. split.
    + destruct (s (ONode (id m)) __value); try congruence;
        apply strict_eq_refl.
    + intros e Ee Htr. rewrite (He e Ee), (Hsh e __pruned eq_refl) in *.
      unfold js_or. rewrite Htr. apply strict_eq_refl.
Qed.

(** X10.  Show Solution followed by Check Answer: on a tree whose
    leaf-kind nodes have no children, [checkAnswer] after [setSolution]
    returns true exactly when no node that is not a leaf has an undefined
    shadow value.  A node the search never reached (one inside a pruned
    subtree) has none, gets the value [null] from [setSolution], and fails
    the strict comparison of [null] with [undefined]. *)
Theorem checkAnswer_after_setSolution :
  forall (root : TreeNode) (s : Store),
    tidy root ->
    (checkAnswer (Some root) (setSolution (Some root) s) = true <->
     forall m, In m (nodes root) -> isLeaf m = false ->
               s (ONode (id m)) __value <> JUndefined).
Proof.
  intros root s Ht. cbn [checkAnswer setSolution].
  rewrite (checkSubTree_iff _ root Ht).
  split; intros H m Hm Hl; apply (solved_checkedAt root s m Ht Hm Hl); auto.
Qed.

(** An instance of [checkAnswer_after_setSolution]: with no shadow value
    at the root, showing the solution does not pass the check. *)
Lemma checkAnswer_after_setSolution_witness :
  checkAnswer (Some tinyTree) (setSolution (Some tinyTree) emptyStore)
  <> true.
Proof.
  intros H.
  exact (proj1 (checkAnswer_after_setSolution tinyTree emptyStore
                  tinyTree_tidy) H tinyTree (or_introl eq_refl) eq_refl
               eq_refl).
Defined.

(** X11.  Check Answer on a reset tree: for a generated tree of depth at
    least 2 with a max or min root and at least one child per node, once
    the search has been compiled, [checkAnswer] after [resetTree] returns
    false: the reset leaves [null] in the root's value, and the root's
    shadow value is a number. *)
Theorem checkAnswer_rejects_a_reset_tree :
  forall (randomRound : nat -> Z -> Z) (maxDepth : nat) (minVal maxVal : Z)
         (bFac : nat) (treeType : TreeNodeType) (fuel : nat) (st : GenState),
    2 <= maxDepth -> maxDepth <= fuel -> 1 <= bFac ->
    treeType = maxNode \/ treeType = minNode ->
    exists (root : TreeNode) (st' : GenState),
      generateABTreeRootNode randomRound maxDepth minVal maxVal fuel
                             treeType bFac st = Some (root, st') /\
      exists (q : ActionListQueue.t) (s' : Store),
        alphaBeta (Tree.mk (Some root) treeType maxDepth bFac true) (heap st')
        = Some (q, s') /\
        checkAnswer (Some root) (resetTree (Some root) s') = false.
Proof.
  intros randomRound maxDepth minVal maxVal bFac treeType fuel st
         Hd Hfuel HbFac Hty.
  destruct (generated_tree randomRound maxDepth minVal maxVal bFac treeType
              fuel st ltac:(lia) Hfuel)
    as (root & st' & E & HT & HW & HF & Hc & Hnd).
  destruct (proj1 (GenTree_kinds maxDepth bFac) _ _ _ _ _ _ HT Hty)
    as [Hk Hleafdepth].
  destruct (proj1 (GenTree_shape maxDepth bFac) _ _ _ _ _ _ HT (le_n 1))
    as (_ & Hd1 & Hrt & Hsh).
  assert (El : isLeaf root = false).
  { unfold isLeaf. rewrite (Hrt ltac:(lia)).
    now destruct (oppositeNodeType_flag treeType Hty) as (_ & _ & _ & ->). }
  assert (Hlf : leavesFinite (heap st') root).
  { intros m Hm Hl. apply (HF m Hm). now apply Hleafdepth. }
  exists root, st'. split; [exact E|].
  destruct (abActions_correct bFac (heap st') HbFac root
              (TreeNodeType_eqb treeType maxNode) Hc Hk Hnd Hlf
              NegInf PosInf (heap st') eq_refl (framed_refl _))
    as (r & s2 & v & m & Er & Ev & Em & Hb & Hval).
  unfold alphaBeta. cbn [Tree.rootNode Tree.branchingFactor Tree.treeType].
  rewrite Er. do 2 eexists. split; [reflexivity|].
  cbn [checkAnswer resetTree]. rewrite checkSubTree_eq, El.
  apply andb_false_iff. left. unfold checkedAt. apply andb_false_iff. left.
  destruct (resetSubTree_resets root (shape_tidy maxDepth bFac root Hsh El)
              s2 root (nodes_self root)) as (_ & _ & Hn).
  rewrite (proj1 (Hn El)).
  rewrite (resetSubTree_modifies root s2 (ONode (id root)) __value),
          (Hval El); [reflexivity|].
  intros (m' & _ & [[_ [[=] | [=]]] | [_ [[=] | [_ [[=] | [[=] | [=]]]]]]]).
Qed.

(** The instance of [checkAnswer_rejects_a_reset_tree] for the scenario. *)
Lemma checkAnswer_rejects_a_reset_tree_witness :
  exists (root : TreeNode) (st' : GenState),
    generateABTreeRootNode scenarioDraws 3 (-20) 20 3 maxNode 2 initialGenState
    = Some (root, st') /\
    exists (q : ActionListQueue.t) (s' : Store),
      alphaBeta (Tree.mk (Some root) maxNode 3 2 true) (heap st')
      = Some (q, s') /\
      checkAnswer (Some root) (resetTree (Some root) s') = false.
Proof.
  exact (checkAnswer_rejects_a_reset_tree scenarioDraws 3 (-20) 20 2 maxNode 3
           initialGenState ltac:(lia) ltac:(lia) ltac:(lia)
           (or_introl eq_refl)).
Defined.

(* ------------------------------------------------------------------ *)
(** ** Measures of generated trees *)

Lemma filter_flat_map {A B : Type} (p : B -> bool) (f : A -> list B) l :
  filter p (flat_map f l) = flat_map (fun x => filter p (f x)) l.
Proof.
  induction l as [|x l IH]; [reflexivity|].
  cbn. now rewrite filter_app, IH.
Qed.

Lemma bottomNodes_unfold maxDepth n :
  bottomNodes maxDepth n
  = (if Nat.eqb (depth n) maxDepth then [n] else [])
    ++ flat_map (bottomNodes maxDepth) (children n).
Proof.
  destruct n as [i ty p d cn cs]. unfold bottomNodes.
  cbn [nodes filter depth children]. rewrite filter_flat_map.
  now destruct (Nat.eqb d maxDepth).
Qed.

Lemma bottomNodes_nodes maxDepth n m :
  In m (bottomNodes maxDepth n) <-> In m (nodes n) /\ depth m = maxDepth.
Proof.
  unfold bottomNodes. rewrite filter_In, Nat.eqb_eq. tauto.
Qed.

Section Draws.

Variable randomRound : nat -> Z -> Z.
Variable maxDepth : nat.
Variables minVal maxVal : Z.
Variable bFac : nat.

(** The values at the bottom of [cs] in [h] are the draws numbered from
    [rc] on, and [rc'] is the number of the next draw. *)
Definition drawsPost (rc : nat) (cs : list TreeNode) (h : Store) (rc' : nat)
  : Prop :=
  rc' = rc + List.length (flat_map (bottomNodes maxDepth) cs) /\
  map (fun m => h (ONode (id m)) value) (flat_map (bottomNodes maxDepth) cs)
  = map (drawnValue randomRound minVal maxVal)
        (seq rc (List.length (flat_map (bottomNodes maxDepth) cs))).

Lemma drawsPost_one rc n h rc' :
  drawsPost rc [n] h rc' <->
  rc' = rc + List.length (bottomNodes maxDepth n) /\
  map (fun m => h (ONode (id m)) value) (bottomNodes maxDepth n)
  = map (drawnValue randomRound minVal maxVal)
        (seq rc (List.length (bottomNodes maxDepth n))).
Proof. unfold drawsPost. cbn [flat_map]. now rewrite app_nil_r. Qed.

Lemma drawsPost_cons rc c mid cs h h' rc' parent ty d lo midId hi :
  GenTree maxDepth bFac parent ty d lo midId c ->
  genWrites midId hi h h' ->
  drawsPost rc [c] h mid -> drawsPost mid cs h' rc' ->
  drawsPost rc (c :: cs) h' rc'.
Proof.
  intros HT HW Hc [E1 E2]. apply drawsPost_one in Hc. destruct Hc as [C1 C2].
  unfold drawsPost. cbn [flat_map].
  rewrite length_app, map_app, seq_app, map_app. split; [lia|].
  rewrite <- C1, <- E2, <- C2. f_equal.
  apply map_ext_in. intros m Hm. apply bottomNodes_nodes in Hm.
  apply HW. left.
  exact (proj2 (GenTree_ids _ _ _ _ _ _ _ _ _ HT (proj1 Hm))).
Qed.

Lemma fillSlots_draws (f : GenState -> option (TreeNode * GenState))
    (parent : option NodeId) (ty : TreeNodeType) (d : nat) :
  (forall st, exists c st1,
      f st = Some (c, st1) /\ genPost maxDepth bFac parent ty d st c st1 /\
      drawsPost (randomCalls st) [c] (heap st1) (randomCalls st1)) ->
  forall k st,
  exists cs st',
    fillSlots k f st = Some (cs, st') /\
    GenForest maxDepth bFac parent ty d (globalNodeId st) (globalNodeId st') cs /\
    genWrites (globalNodeId st) (globalNodeId st') (heap st) (heap st') /\
    drawsPost (randomCalls st) cs (heap st') (randomCalls st').
Proof.
  intros Hf. induction k as [|k IH]; intros st; cbn [fillSlots].
  - exists [], st. splits; auto using genWrites_refl; [constructor|].
    unfold drawsPost. cbn. split; [lia | reflexivity].
  - destruct (Hf st) as (c & st1 & E1 & (HT & HW & HF) & HD). rewrite E1.
    destruct (IH st1) as (cs & st' & E2 & HFo & HW' & HD'). rewrite E2.
    exists (c :: cs), st'.
    pose proof (proj1 (proj1 (GenTree_bounds _ _) _ _ _ _ _ _ HT)).
    pose proof (proj1 (proj2 (GenTree_bounds _ _) _ _ _ _ _ _ HFo)).
    splits; auto.
    + econstructor; eauto.
    + eapply genWrites_trans; eauto. lia.
    + eapply drawsPost_cons; eauto.
Qed.

Lemma generateSubTree_draws (fuel : nat) :
  forall parent ty d st,
    d <= maxDepth -> maxDepth - d < fuel ->
    exists n st',
      generateSubTree randomRound maxDepth minVal maxVal fuel parent ty d bFac st
      = Some (n, st') /\
      genPost maxDepth bFac parent ty d st n st' /\
      drawsPost (randomCalls st) [n] (heap st') (randomCalls st').
Proof.
  induction fuel as [|fuel IH]; intros parent ty d st Hd Hf; [lia|].
  destruct (generateSubTree_spec randomRound maxDepth minVal maxVal bFac
              (S fuel) parent ty d st Hd Hf) as (n & st' & E & HP).
  exists n, st'. split; [exact E|]. split; [exact HP|].
  apply drawsPost_one. revert E. cbn [generateSubTree].
  destruct (Nat.eqb_spec d maxDepth) as [-> | Hne].
  - intros [= <- <-]. rewrite bottomNodes_unfold.
    cbn [depth children flat_map randomCalls heap List.length app].
    rewrite Nat.eqb_refl. cbn [List.length app map seq id].
    split; [lia|]. now rewrite write_same.
  - destruct (fillSlots_draws
                (generateSubTree randomRound maxDepth minVal maxVal fuel
                   (Some (S (globalNodeId st))) (oppositeNodeType ty) (S d)
                   bFac)
                (Some (S (globalNodeId st))) (oppositeNodeType ty) (S d)
                ltac:(intros st0; apply IH; lia) bFac
                (mkGenState (S (globalNodeId st))
                   match parent with
                   | Some _ =>
                       write (write (heap st) (ONode (S (globalNodeId st)))
                                    value JNull)
                             (OEdge (S (globalNodeId st))) pruned (JBool false)
                   | None => write (heap st) (ONode (S (globalNodeId st)))
                                   value JNull
                   end (randomCalls st)))
      as (cs & st2 & E2 & _ & _ & HD).
    rewrite E2. intros [= <- <-]. rewrite bottomNodes_unfold.
    cbn [depth children]. destruct (Nat.eqb_spec d maxDepth); [contradiction|].
    exact HD.
Qed.

End Draws.

Lemma map_seq_pointwise {A B : Type} (f : A -> B) (g : nat -> B) l :
  forall a, map f l = map g (seq a (List.length l)) ->
  forall x, In x l -> exists i, a <= i < a + List.length l /\ f x = g i.
Proof.
  induction l as [|y l IH]; intros a E x []; cbn in E; injection E as E1 E2.
  - subst y. exists a. cbn. split; [lia | exact E1].
  - destruct (IH (S a) E2 x H) as (i & Hi & Ei). exists i. cbn.
    split; [lia | exact Ei].
Qed.

(** X12.  The generator gives the nodes at the bottom of the tree, from
    left to right, the values of consecutive calls of [Math.random]: the
    [j]-th node at depth [maxDepth] holds
    [Math.round(r_j * (maxVal - minVal)) - maxVal] where [r_j] is the
    [j]-th draw made by this generation, and the generation makes exactly
    one draw for each such node.  The value is stated for bounds, rounded
    draws and results that are safe integers, where the subtractions of
    the code, made in double precision, are exact. *)
Theorem leaves_hold_consecutive_draws :
  forall (randomRound : nat -> Z -> Z) (maxDepth : nat) (minVal maxVal : Z)
         (bFac : nat) (treeType : TreeNodeType) (fuel : nat) (st : GenState),
    1 <= maxDepth -> maxDepth <= fuel ->
    safeInteger minVal -> safeInteger maxVal ->
    safeInteger (maxVal - minVal) ->
    (forall i, safeInteger (randomRound i (maxVal - minVal)%Z) /\
               safeInteger (randomRound i (maxVal - minVal) - maxVal)%Z) ->
    exists (root : TreeNode) (st' : GenState),
      generateABTreeRootNode randomRound maxDepth minVal maxVal fuel
                             treeType bFac st = Some (root, st') /\
      randomCalls st'
      = randomCalls st + List.length (bottomNodes maxDepth root) /\
      map (fun m => heap st' (ONode (id m)) value) (bottomNodes maxDepth root)
      = map (drawnValue randomRound minVal maxVal)
            (seq (randomCalls st) (List.length (bottomNodes maxDepth root))).
Proof.
  intros randomRound maxDepth minVal maxVal bFac treeType fuel st Hd Hfuel
         _ _ _ _.
  destruct (generateSubTree_draws randomRound maxDepth minVal maxVal bFac fuel
              None treeType 1 st Hd ltac:(lia)) as (root & st' & E & _ & HD).
  exists root, st'. split; [exact E|].
  exact (proj1 (drawsPost_one randomRound maxDepth minVal maxVal _ _ _ _) HD).
Qed.

(** The instance of [leaves_hold_consecutive_draws] for the scenario. *)
Lemma leaves_hold_consecutive_draws_witness :
  exists (root : TreeNode) (st' : GenState),
    generateABTreeRootNode scenarioDraws 3 (-20) 20 3 maxNode 2 initialGenState
    = Some (root, st') /\
    randomCalls st' = 0 + List.length (bottomNodes 3 root) /\
    map (fun m => heap st' (ONode (id m)) value) (bottomNodes 3 root)
    = map (drawnValue scenarioDraws (-20) 20)
          (seq 0 (List.length (bottomNodes 3 root))).
Proof.
  apply (leaves_hold_consecutive_draws scenarioDraws 3 (-20) 20 2 maxNode 3
           initialGenState); unfold safeInteger; try lia.
  intros i. unfold scenarioDraws.
  do 5 (destruct i as [|i]; [cbn; lia|]). cbn. lia.
Defined.

(** X13.  If every rounded draw [Math.round(Math.random() * (maxVal -
    minVal))] lies between 0 and [maxVal - minVal], every generated leaf
    value lies between [-maxVal] and [-minVal]: the code subtracts
    [maxVal] where adding [minVal] would give the range
    [minVal .. maxVal], and the two agree only when [minVal = -maxVal]. *)
Theorem leaf_values_lie_between_minus_maxVal_and_minus_minVal :
  forall (randomRound : nat -> Z -> Z) (maxDepth : nat) (minVal maxVal : Z)
         (bFac : nat) (treeType : TreeNodeType) (fuel : nat) (st : GenState),
    1 <= maxDepth -> maxDepth <= fuel ->
    (forall i, (0 <= randomRound i (maxVal - minVal) <= maxVal - minVal)%Z) ->
    exists (root : TreeNode) (st' : GenState),
      generateABTreeRootNode randomRound maxDepth minVal maxVal fuel
                             treeType bFac st = Some (root, st') /\
      forall m, In m (nodes root) -> depth m = maxDepth ->
        exists z, heap st' (ONode (id m)) value = JNum (Fin z) /\
                  (- maxVal <= z <= - minVal)%Z.
Proof.
  intros randomRound maxDepth minVal maxVal bFac treeType fuel st
         Hd Hfuel Hrange.
  destruct (generateSubTree_draws randomRound maxDepth minVal maxVal bFac fuel
              None treeType 1 st Hd ltac:(lia)) as (root & st' & E & _ & HD).
  apply drawsPost_one in HD. destruct HD as [_ HD].
  exists root, st'. split; [exact E|]. intros m Hm Hdm.
  destruct (map_seq_pointwise _ _ _ _ HD m) as (i & _ & Ei).
  { apply bottomNodes_nodes. auto. }
  eexists. split; [exact Ei|]. specialize (Hrange i). lia.
Qed.

Lemma scenarioDraws_range i : (0 <= scenarioDraws i (20 - -20) <= 20 - -20)%Z.
Proof.
  unfold scenarioDraws. do 5 (destruct i as [|i]; [cbn; lia|]).
  cbn. destruct i; lia.
Qed.

(** The instance of
    [leaf_values_lie_between_minus_maxVal_and_minus_minVal] for the
    scenario. *)
Lemma leaf_values_lie_between_minus_maxVal_and_minus_minVal_witness :
  exists (root : TreeNode) (st' : GenState),
    generateABTreeRootNode scenarioDraws 3 (-20) 20 3 maxNode 2 initialGenState
    = Some (root, st') /\
    forall m, In m (nodes root) -> depth m = 3 ->
      exists z, heap st' (ONode (id m)) value = JNum (Fin z) /\
                (- 20 <= z <= - -20)%Z.
Proof.
  exact (leaf_values_lie_between_minus_maxVal_and_minus_minVal scenarioDraws
           3 (-20) 20 2 maxNode 3 initialGenState ltac:(lia) ltac:(lia)
           scenarioDraws_range).
Defined.

Lemma GenTree_preorder maxDepth bFac :
  (forall parent ty d lo hi n,
      GenTree maxDepth bFac parent ty d lo hi n ->
      lo < hi /\ ids n = seq (S lo) (hi - lo)) /\
  (forall parent ty d lo hi cs,
      GenForest maxDepth bFac parent ty d lo hi cs ->
      lo <= hi /\ flat_map ids cs = seq (S lo) (hi - lo)).
Proof.
  apply GenTree_GenForest_ind.
  - intros parent ty lo. split; [lia|].
    rewrite ids_unfold. cbn [id children flat_map].
    replace (S lo - lo) with 1 by lia. reflexivity.
  - intros parent ty d lo hi cs Hd Hl _ [Hle IH]. split; [lia|].
    rewrite ids_unfold. cbn [id children]. rewrite IH.
    replace (hi - lo) with (S (hi - S lo)) by lia. reflexivity.
  - intros parent ty d lo. split; [lia|].
    rewrite Nat.sub_diag. reflexivity.
  - intros parent ty d lo mid hi c cs _ [Hlt IHc] _ [Hle IHcs].
    split; [lia|]. cbn [flat_map]. rewrite IHc, IHcs.
    replace (hi - lo) with ((mid - lo) + (hi - mid)) by lia.
    rewrite seq_app. do 2 f_equal. lia.
Qed.

Lemma GenTree_sizes maxDepth bFac :
  (forall parent ty d lo hi n,
      GenTree maxDepth bFac parent ty d lo hi n ->
      List.length (nodes n) = fullSize bFac (S (maxDepth - d)) /\
      List.length (bottomNodes maxDepth n) = bFac ^ (maxDepth - d)) /\
  (forall parent ty d lo hi cs,
      GenForest maxDepth bFac parent ty d lo hi cs ->
      List.length (flat_map nodes cs)
      = List.length cs * fullSize bFac (S (maxDepth - d)) /\
      List.length (flat_map (bottomNodes maxDepth) cs)
      = List.length cs * bFac ^ (maxDepth - d)).
Proof.
  apply GenTree_GenForest_ind.
  - intros parent ty lo. rewrite bottomNodes_unfold, Nat.sub_diag.
    cbn [depth children flat_map nodes List.length app fullSize].
    rewrite Nat.eqb_refl. cbn. lia.
  - intros parent ty d lo hi cs Hd Hl _ [IH1 IH2].
    rewrite bottomNodes_unfold. cbn [nodes depth children List.length].
    destruct (Nat.eqb_spec d maxDepth); [lia|]. cbn [app].
    rewrite IH1, IH2, Hl.
    replace (maxDepth - d) with (S (maxDepth - S d)) by lia.
    cbn [fullSize Nat.pow]. lia.
  - intros parent ty d lo. cbn. lia.
  - intros parent ty d lo mid hi c cs _ [IHc1 IHc2] _ [IH1 IH2].
    cbn [flat_map List.length]. rewrite !length_app, IHc1, IHc2, IH1, IH2.
    lia.
Qed.

(** X14.  The ids of a generated tree are the consecutive numbers that
    follow the counter [globalNodeId], in the order parents before
    children and left to right, and the counter ends at the last of
    them. *)
Theorem ids_are_consecutive_in_preorder :
  forall (randomRound : nat -> Z -> Z) (maxDepth : nat) (minVal maxVal : Z)
         (bFac : nat) (treeType : TreeNodeType) (fuel : nat) (st : GenState),
    1 <= maxDepth -> maxDepth <= fuel ->
    exists (root : TreeNode) (st' : GenState),
      generateABTreeRootNode randomRound maxDepth minVal maxVal fuel
                             treeType bFac st = Some (root, st') /\
      map id (nodes root)
      = seq (S (globalNodeId st)) (List.length (nodes root)) /\
      globalNodeId st' = globalNodeId st + List.length (nodes root).
Proof.
  intros randomRound maxDepth minVal maxVal bFac treeType fuel st Hd Hfuel.
  destruct (generated_tree randomRound maxDepth minVal maxVal bFac treeType
              fuel st Hd Hfuel) as (root & st' & E & HT & _).
  destruct (proj1 (GenTree_preorder maxDepth bFac) _ _ _ _ _ _ HT)
    as [Hlt Hids].
  exists root, st'. split; [exact E|].
  assert (Hlen : List.length (nodes root) = globalNodeId st' - globalNodeId st).
  { rewrite <- (length_map id). fold (ids root).
    now rewrite Hids, length_seq. }
  rewrite Hlen. split; [exact Hids | lia].
Qed.

(** The instance of [ids_are_consecutive_in_preorder] for the scenario. *)
Lemma ids_are_consecutive_in_preorder_witness :
  exists (root : TreeNode) (st' : GenState),
    generateABTreeRootNode scenarioDraws 3 (-20) 20 3 maxNode 2 initialGenState
    = Some (root, st') /\
    map id (nodes root) = seq 1 (List.length (nodes root)) /\
    globalNodeId st' = 0 + List.length (nodes root).
Proof.
  exact (ids_are_consecutive_in_preorder scenarioDraws 3 (-20) 20 2 maxNode 3
           initialGenState ltac:(lia) ltac:(lia)).
Defined.

(** X15.  A generated tree is full: it has
    [1 + bFac + ... + bFac ^ (maxDepth - 1)] nodes, [bFac ^ (maxDepth - 1)]
    of them at depth [maxDepth], and generating it advances the id counter
    by the first number and the count of random draws by the second. *)
Theorem generated_tree_is_full :
  forall (randomRound : nat -> Z -> Z) (maxDepth : nat) (minVal maxVal : Z)
         (bFac : nat) (treeType : TreeNodeType) (fuel : nat) (st : GenState),
    1 <= maxDepth -> maxDepth <= fuel ->
    exists (root : TreeNode) (st' : GenState),
      generateABTreeRootNode randomRound maxDepth minVal maxVal fuel
                             treeType bFac st = Some (root, st') /\
      List.length (nodes root) = fullSize bFac maxDepth /\
      List.length (bottomNodes maxDepth root) = bFac ^ (maxDepth - 1) /\
      globalNodeId st' = globalNodeId st + fullSize bFac maxDepth /\
      randomCalls st' = randomCalls st + bFac ^ (maxDepth - 1).
Proof.
  intros randomRound maxDepth minVal maxVal bFac treeType fuel st Hd Hfuel.
  destruct (generateSubTree_draws randomRound maxDepth minVal maxVal bFac fuel
              None treeType 1 st Hd ltac:(lia))
    as (root & st' & E & (HT & _) & HD).
  apply drawsPost_one in HD. destruct HD as [Hrc _].
  destruct (proj1 (GenTree_sizes maxDepth bFac) _ _ _ _ _ _ HT) as [H1 H2].
  destruct (proj1 (GenTree_preorder maxDepth bFac) _ _ _ _ _ _ HT)
    as [Hlt Hids].
  replace (S (maxDepth - 1)) with maxDepth in H1 by lia.
  exists root, st'. split; [exact E|]. splits; auto.
  - rewrite <- H1, <- (length_map id). fold (ids root).
    rewrite Hids, length_seq. lia.
  - now rewrite <- H2.
Qed.

(** The instance of [generated_tree_is_full] for the scenario: seven
    nodes, four of them leaves. *)
Lemma generated_tree_is_full_witness :
  exists (root : TreeNode) (st' : GenState),
    generateABTreeRootNode scenarioDraws 3 (-20) 20 3 maxNode 2 initialGenState
    = Some (root, st') /\
    List.length (nodes root) = 7 /\
    List.length (bottomNodes 3 root) = 4.
Proof.
  destruct (generated_tree_is_full scenarioDraws 3 (-20) 20 2 maxNode 3
              initialGenState ltac:(lia) ltac:(lia))
    as (root & st' & E & H1 & H2 & _).
  exists root, st'. auto.
Defined.

(** X16.  The id counter is never reset: a tree generated after another
    one (with any parameters) has ids above all the ids of the first, and
    generating it changes no field of any object that existed before. *)
Theorem regeneration_is_fresh :
  forall (randomRound1 randomRound2 : nat -> Z -> Z) (maxDepth1 maxDepth2 : nat)
         (minVal1 maxVal1 minVal2 maxVal2 : Z) (bFac1 bFac2 : nat)
         (treeType1 treeType2 : TreeNodeType) (fuel1 fuel2 : nat)
         (st : GenState),
    1 <= maxDepth1 -> maxDepth1 <= fuel1 ->
    1 <= maxDepth2 -> maxDepth2 <= fuel2 ->
    exists (root1 : TreeNode) (st1 : GenState)
           (root2 : TreeNode) (st2 : GenState),
      generateABTreeRootNode randomRound1 maxDepth1 minVal1 maxVal1 fuel1
                             treeType1 bFac1 st = Some (root1, st1) /\
      generateABTreeRootNode randomRound2 maxDepth2 minVal2 maxVal2 fuel2
                             treeType2 bFac2 st1 = Some (root2, st2) /\
      (forall m1 m2, In m1 (nodes root1) -> In m2 (nodes root2) ->
                     id m1 < id m2) /\
      (forall o k, objId o <= globalNodeId st1 ->
                   heap st2 o k = heap st1 o k).
Proof.
  intros rr1 rr2 d1 d2 mn1 mx1 mn2 mx2 b1 b2 t1 t2 f1 f2 st H1 H1' H2 H2'.
  destruct (generated_tree rr1 d1 mn1 mx1 b1 t1 f1 st H1 H1')
    as (root1 & st1 & E1 & HT1 & _).
  destruct (generated_tree rr2 d2 mn2 mx2 b2 t2 f2 st1 H2 H2')
    as (root2 & st2 & E2 & HT2 & HW2 & _).
  exists root1, st1, root2, st2. splits; [exact E1 | exact E2 | |].
  - intros m1 m2 Hm1 Hm2.
    pose proof (GenTree_ids _ _ _ _ _ _ _ _ _ HT1 Hm1).
    pose proof (GenTree_ids _ _ _ _ _ _ _ _ _ HT2 Hm2). lia.
  - intros o k Ho. apply HW2. now left.
Qed.

(** The instance of [regeneration_is_fresh] for the scenario generated
    twice. *)
Lemma regeneration_is_fresh_witness :
  exists (root1 : TreeNode) (st1 : GenState)
         (root2 : TreeNode) (st2 : GenState),
    generateABTreeRootNode scenarioDraws 3 (-20) 20 3 maxNode 2 initialGenState
    = Some (root1, st1) /\
    generateABTreeRootNode scenarioDraws 3 (-20) 20 3 maxNode 2 st1
    = Some (root2, st2) /\
    (forall m1 m2, In m1 (nodes root1) -> In m2 (nodes root2) ->
                   id m1 < id m2).
Proof.
  destruct (regeneration_is_fresh scenarioDraws scenarioDraws 3 3
              (-20) 20 (-20) 20 2 2 maxNode maxNode 3 3 initialGenState
              ltac:(lia) ltac:(lia) ltac:(lia) ltac:(lia))
    as (r1 & st1 & r2 & st2 & E1 & E2 & H & _).
  exists r1, st1, r2, st2. auto.
Defined.

Lemma oppositeNodeType_involutive ty :
  oppositeNodeType (oppositeNodeType ty) = ty.
Proof. now destruct ty. Qed.

Lemma GenTree_kindAt maxDepth bFac :
  (forall parent ty d lo hi n,
      GenTree maxDepth bFac parent ty d lo hi n ->
      forall m, In m (nodes n) ->
        d <= depth m /\
        (depth m < maxDepth ->
         nodeType m = if Nat.even (depth m - d) then ty
                      else oppositeNodeType ty)) /\
  (forall parent ty d lo hi cs,
      GenForest maxDepth bFac parent ty d lo hi cs ->
      forall c m, In c cs -> In m (nodes c) ->
        d <= depth m /\
        (depth m < maxDepth ->
         nodeType m = if Nat.even (depth m - d) then ty
                      else oppositeNodeType ty)).
Proof.
  apply GenTree_GenForest_ind.
  - intros parent ty lo m [<- | []]. cbn. split; [lia|]. lia.
  - intros parent ty d lo hi cs Hd Hl _ IH m Hm.
    apply nodes_inv in Hm. cbn [children] in Hm.
    destruct Hm as [-> | (c & Hc & Hm)].
    + cbn [depth nodeType]. rewrite Nat.sub_diag. auto.
    + destruct (IH c m Hc Hm) as [Hle Hk]. split; [lia|].
      intros Hlt. rewrite (Hk Hlt).
      replace (depth m - d) with (S (depth m - S d)) by lia.
      rewrite Nat.even_succ, <- Nat.negb_even.
      destruct (Nat.even (depth m - S d)); cbn;
        [reflexivity | apply oppositeNodeType_involutive].
  - intros parent ty d lo c m [].
  - intros parent ty d lo mid hi c cs _ IHc _ IHcs c' m [<- | Hc'] Hm; eauto.
Qed.

(** X17.  In a generated tree the kind of a node depends only on its
    depth: at depth [maxDepth] it is a leaf, and above, the root's kind at
    odd depths and [oppositeNodeType] of it at even depths (max and min
    alternate; [randNode] and [leafNode] roots repeat themselves). *)
Theorem node_kind_is_fixed_by_depth :
  forall (randomRound : nat -> Z -> Z) (maxDepth : nat) (minVal maxVal : Z)
         (bFac : nat) (treeType : TreeNodeType) (fuel : nat) (st : GenState),
    1 <= maxDepth -> maxDepth <= fuel ->
    exists (root : TreeNode) (st' : GenState),
      generateABTreeRootNode randomRound maxDepth minVal maxVal fuel
                             treeType bFac st = Some (root, st') /\
      forall m, In m (nodes root) ->
        1 <= depth m <= maxDepth /\
        (depth m = maxDepth -> nodeType m = leafNode) /\
        (depth m < maxDepth -> nodeType m = kindAtDepth treeType (depth m)).
Proof.
  intros randomRound maxDepth minVal maxVal bFac treeType fuel st Hd Hfuel.
  destruct (generated_tree randomRound maxDepth minVal maxVal bFac treeType
              fuel st Hd Hfuel) as (root & st' & E & HT & _).
  destruct (proj1 (GenTree_shape maxDepth bFac) _ _ _ _ _ _ HT (le_n 1))
    as (_ & _ & _ & Hsh).
  exists root, st'. split; [exact E|]. intros m Hm.
  destruct (Hsh m Hm) as (Hdm & _ & Hleaf & _).
  destruct (proj1 (GenTree_kindAt maxDepth bFac) _ _ _ _ _ _ HT m Hm)
    as [_ Hk].
  splits; try lia.
  - intros e. exact (proj1 (Hleaf e)).
  - intros Hlt. rewrite (Hk Hlt). unfold kindAtDepth.
    replace (depth m) with (S (depth m - 1)) at 2 by lia.
    rewrite Nat.odd_succ. reflexivity.
Qed.

(** The instance of [node_kind_is_fixed_by_depth] for the scenario. *)
Lemma node_kind_is_fixed_by_depth_witness :
  exists (root : TreeNode) (st' : GenState),
    generateABTreeRootNode scenarioDraws 3 (-20) 20 3 maxNode 2 initialGenState
    = Some (root, st') /\
    forall m, In m (nodes root) ->
      1 <= depth m <= 3 /\
      (depth m = 3 -> nodeType m = leafNode) /\
      (depth m < 3 -> nodeType m = kindAtDepth maxNode (depth m)).
Proof.
  exact (node_kind_is_fixed_by_depth scenarioDraws 3 (-20) 20 2 maxNode 3
           initialGenState ltac:(lia) ltac:(lia)).
Defined.

(* ------------------------------------------------------------------ *)
(** *** The application's handlers *)

Section AppFacts.

Variable randomRound : nat -> Z -> Z.

Lemma regenerateTree_inv (app : App) :
  3 <= Tree.depth (treeRef app) ->
  2 <= Tree.branchingFactor (treeRef app) ->
  (Tree.treeType (treeRef app) = maxNode \/
   Tree.treeType (treeRef app) = minNode) ->
  exists app', regenerateTree randomRound app = Some app' /\ appInv app'.
Proof.
  intros Hd Hb Hk. unfold regenerateTree.
  destruct (generated_tree randomRound (Tree.depth (treeRef app)) (-20) 20
              (Tree.branchingFactor (treeRef app))
              (Tree.treeType (treeRef app)) (Tree.depth (treeRef app))
              (gen app)) as (root & st' & E & HT & _); [lia|lia|].
  rewrite E. eexists; split; [reflexivity|].
  unfold appInv; cbn. splits; auto.
  exists root, (globalNodeId (gen app)), (globalNodeId st'). splits; auto.
Qed.

Lemma ensureActionRef_inv (app : App) :
  appInv app ->
  exists aq app1,
    ensureActionRef app = Some (aq, app1) /\ appInv app1 /\
    actionRef app1 = Some aq /\ treeRef app1 = treeRef app /\
    correct app1 = correct app.
Proof.
  intros (Hd & Hb & Hk & root & lo & hi & Hr & HT & Hq).
  unfold ensureActionRef, ensureAction.
  destruct (actionRef app) as [q|] eqn:Ea.
  - eexists _, _. split; [reflexivity|]. split; [|cbn; auto].
    unfold appInv; cbn. splits; auto. exists root, lo, hi.
    split; [exact Hr|split; [exact HT|exact Hq]].
  - destruct (alphaBeta (treeRef app) (heap (gen app))) as [[q0 s1]|] eqn:E.
    + eexists _, _. split; [reflexivity|]. split; [|cbn; auto].
      unfold appInv; cbn. splits; auto. exists root, lo, hi.
      destruct (alphaBeta_queue _ _ _ _ _ Hr E) as (r & _ & Hq0 & Hin & Hla).
      splits; auto.
      * unfold cursorInRange. rewrite Hla. lia.
      * rewrite Hin. discriminate.
      * eauto.
    + exfalso. unfold alphaBeta in E. rewrite Hr in E.
      destruct (abActions_total (Tree.branchingFactor (treeRef app)) root
                  (GenTree_complete _ _ _ _ _ _ _ _ HT (le_n 1))
                  (JNum NegInf) (JNum PosInf)
                  (TreeNodeType_eqb (Tree.treeType (treeRef app)) maxNode)
                  (heap (gen app))) as (r & s1 & E1).
      rewrite E1 in E. discriminate.
Qed.

Lemma withLog_inv
    (f : ActionListQueue.t -> Store -> option (ActionListQueue.t * Store))
    (app : App) :
  (forall q s, cursorInRange q ->
     exists q' s', f q s = Some (q', s') /\ cursorInRange q' /\
       ActionListQueue.actionListQueue q' = ActionListQueue.actionListQueue q /\
       ActionListQueue.inAction q' = ActionListQueue.inAction q) ->
  appInv app ->
  exists app', withLog f app = Some app' /\ appInv app'.
Proof.
  intros Hf (Hd & Hb & Hk & root & lo & hi & Hr & HT & Hq).
  unfold withLog. destruct (actionRef app) as [q|] eqn:Ea.
  - destruct Hq as (Hc & Hm & s0 & s1 & q0 & Hab & Hl).
    destruct (Hf q (heap (gen app)) Hc) as (q' & s' & E & Hc' & Hl' & Hi').
    rewrite E. eexists; split; [reflexivity|].
    unfold appInv; cbn. splits; auto. exists root, lo, hi.
    split; [exact Hr|split; [exact HT|]].
    split; [exact Hc'|split; [now rewrite Hi'|]].
    exists s0, s1, q0. split; [exact Hab|congruence].
  - eexists; split; [reflexivity|].
    unfold appInv. rewrite Ea. splits; auto. exists root, lo, hi.
    split; [exact Hr|split; [exact HT|exact I]].
Qed.

Lemma goToEnd_inv (q : ActionListQueue.t) (s : Store) :
  cursorInRange q ->
  exists q' s', ActionListQueue.goToEnd q s = Some (q', s') /\
    cursorInRange q' /\
    ActionListQueue.actionListQueue q' = ActionListQueue.actionListQueue q /\
    ActionListQueue.inAction q' = ActionListQueue.inAction q.
Proof.
  intros Hc. destruct (goToEnd_total q s Hc) as (q' & s' & E & Hc').
  exists q', s'. splits; auto.
  - unfold ActionListQueue.goToEnd in E.
    destruct (ActionListQueue.inAction q).
    + now destruct (whileStepForward_keeps _ _ _ _ _ E) as (_ & ? & _).
    + now injection E as <- _.
  - unfold ActionListQueue.goToEnd in E.
    destruct (ActionListQueue.inAction q) eqn:Ei.
    + destruct (whileStepForward_keeps _ _ _ _ _ E) as (_ & _ & ?). congruence.
    + injection E as <- _. now rewrite Ei.
Qed.

Lemma goToBeginning_inv (q : ActionListQueue.t) (s : Store) :
  cursorInRange q ->
  exists q' s', ActionListQueue.goToBeginning q s = Some (q', s') /\
    cursorInRange q' /\
    ActionListQueue.actionListQueue q' = ActionListQueue.actionListQueue q /\
    ActionListQueue.inAction q' = ActionListQueue.inAction q.
Proof.
  intros Hc. destruct (goToBeginning_total q s Hc) as (q' & s' & E & Hc').
  exists q', s'. splits; auto.
  - unfold ActionListQueue.goToBeginning in E.
    destruct (ActionListQueue.inAction q).
    + now destruct (whileStepBackward_keeps _ _ _ _ _ E) as (_ & ? & _).
    + now injection E as <- _.
  - unfold ActionListQueue.goToBeginning in E.
    destruct (ActionListQueue.inAction q) eqn:Ei.
    + destruct (whileStepBackward_keeps _ _ _ _ _ E) as (_ & _ & ?). congruence.
    + injection E as <- _. now rewrite Ei.
Qed.

Lemma toggleABVisual_inv (app : App) :
  appInv app ->
  exists app', toggleABVisual app = Some app' /\ appInv app'.
Proof.
  intros Hinv. unfold toggleABVisual.
  destruct (ensureActionRef_inv app Hinv)
    as (aq & app1 & -> & Hinv1 & Ea & Ht & _).
  destruct Hinv1 as (Hd & Hb & Hk & root & lo & hi & Hr & HT & Hq).
  rewrite Ea in Hq. destruct Hq as (Hc & Hm & s0 & s1 & q0 & Hab & Hl).
  destruct (ActionListQueue.inAction aq) eqn:Ei.
  - destruct (goToBeginning_inv aq
                (resetTree (Tree.rootNode (treeRef app1)) (heap (gen app1)))
                Hc) as (q' & s' & E & Hc' & Hl' & Hi').
    rewrite E. eexists; split; [reflexivity|].
    unfold appInv; cbn. splits; auto. exists root, lo, hi.
    split; [exact Hr|split; [exact HT|]].
    split; [exact Hc'|split; [discriminate|]].
    exists s0, s1, q0. split; [exact Hab|congruence].
  - eexists; split; [reflexivity|].
    unfold appInv; cbn. splits; auto. exists root, lo, hi.
    split; [exact Hr|split; [exact HT|]].
    split; [exact Hc|split; [reflexivity|]].
    exists s0, s1, q0. split; [exact Hab|congruence].
Qed.

Lemma handle_inv (ev : Event) (app : App) :
  appInv app ->
  exists app', handle randomRound ev app = Some app' /\ appInv app'.
Proof.
  intros Hinv. destruct ev; cbn [handle].
  - destruct Hinv as (Hd & Hb & Hk & _). now apply regenerateTree_inv.
  - destruct Hinv as (Hd & Hb & Hk & _).
    apply regenerateTree_inv; cbn; auto. lia.
  - destruct Hinv as (Hd & Hb & Hk & _).
    apply regenerateTree_inv; cbn; auto. lia.
  - destruct Hinv as (Hd & Hb & Hk & _).
    apply regenerateTree_inv; cbn; auto.
    destruct Hk as [-> | ->]; cbn; auto.
  - now apply toggleABVisual_inv.
  - apply withLog_inv; [|exact Hinv]. intros q s Hc.
    destruct (stepForward_inv q s Hc) as (r & q' & s' & -> & ? & ? & ? & _).
    eauto 6.
  - apply withLog_inv; [|exact Hinv]. intros q s Hc.
    destruct (stepBackward_inv q s Hc) as (r & q' & s' & -> & ? & ? & ? & _).
    eauto 6.
  - apply withLog_inv; [|exact Hinv]. exact goToEnd_inv.
  - apply withLog_inv; [|exact Hinv]. exact goToBeginning_inv.
  - unfold clickEdge. destruct (Tree.mutable (treeRef app));
      (eexists; split; [reflexivity|]); [|exact Hinv].
    exact Hinv.
  - unfold onCheckAnswer.
    destruct (ensureActionRef_inv app Hinv) as (aq & app1 & -> & Hinv1 & _).
    eexists; split; [reflexivity|]. exact Hinv1.
  - eexists; split; [reflexivity|]. exact Hinv.
  - unfold onShowSolution.
    destruct (ensureActionRef_inv app Hinv) as (aq & app1 & -> & Hinv1 & _).
    eexists; split; [reflexivity|]. exact Hinv1.
Qed.

Lemma handleAll_inv (evs : list Event) : forall app : App,
  appInv app ->
  exists app', handleAll randomRound evs app = Some app' /\ appInv app'.
Proof.
  induction evs as [|ev evs IH]; intros app Hinv; cbn [handleAll].
  - eauto.
  - destruct (handle_inv ev app Hinv) as (app1 & -> & Hinv1). now apply IH.
Qed.

Lemma session_inv (evs : list Event) :
  exists app',
    handleAll randomRound (Regenerate :: evs) mountedApp = Some app' /\
    appInv app'.
Proof.
  cbn [handleAll handle].
  destruct (regenerateTree_inv mountedApp) as (app1 & -> & Hinv1);
    cbn; auto.
  now apply handleAll_inv.
Qed.

End AppFacts.

Lemma goToBeginning_unplay_at (q : ActionListQueue.t) (s : Store) :
  cursorInRange q -> ActionListQueue.inAction q = true ->
  ActionListQueue.goToBeginning q s
  = Some (ActionListQueue.set_lastAction q (-1)%Z,
          unplayAll (firstn (Z.to_nat (ActionListQueue.lastAction q + 1))
                            (ActionListQueue.actionListQueue q)) s).
Proof.
  intros Hc Hin. unfold ActionListQueue.goToBeginning. rewrite Hin.
  cbn [negb]. unfold cursorInRange in Hc.
  apply (whileStepBackward_unplay
           (firstn (Z.to_nat (ActionListQueue.lastAction q + 1))
                   (ActionListQueue.actionListQueue q))
           (skipn (Z.to_nat (ActionListQueue.lastAction q + 1))
                  (ActionListQueue.actionListQueue q))); auto.
  - now rewrite firstn_skipn.
  - rewrite length_firstn. lia.
  - rewrite length_firstn. unfold ActionListQueue.loopBound. lia.
Qed.

Lemma flagOld_firstn (n : nat) (steps : list (list Action)) :
  flagOld steps -> flagOld (firstn n steps).
Proof.
  intros H o k v Hk E. apply (H o k v Hk).
  rewrite <- (firstn_skipn n steps), firstOld_app. now rewrite E.
Qed.

(** Undoing steps whose flag actions all record [false], from a heap in
    which the flags are clear, changes no field outside [interiorData]. *)
Lemma unplay_frame z steps s :
  flagOld steps -> Forall (Forall (zoneOK z)) steps -> flagsClear z s ->
  forall o k, ~ interiorData z o k -> unplayAll steps s o k = s o k.
Proof.
  intros Hfl Hz Hclear o k Hout. rewrite unplayAll_at.
  destruct (firstOld steps o k) as [v|] eqn:E; [|reflexivity].
  destruct (firstOld_In steps o k v E) as (step & a & Hs & Ha & Ht).
  rewrite Forall_forall in Hz. specialize (Hz step Hs).
  rewrite Forall_forall in Hz. destruct (Hz a Ha) as [Hv Ho].
  apply targets_spec in Ht. destruct Ht as [Hobj Hkey].
  rewrite Hobj in Ho. rewrite Hkey in *.
  destruct Ho as (m & Hm & [[He Hf] | [-> Hk]]).
  - rewrite (Hfl o k v Hf E).
    destruct (proj2 (Hclear m Hm) o He) as [H1 H2].
    destruct k; try discriminate; auto.
  - assert (Hent : k = entered -> v = s (ONode (id m)) k).
    { intros ->. rewrite (Hfl (ONode (id m)) entered v eq_refl E).
      symmetry. exact (proj1 (Hclear m Hm)). }
    destruct Hk as [-> | Hl]; [auto|].
    destruct k; try discriminate; auto;
      exfalso; apply Hout; exists m; auto 10.
Qed.

Lemma flagsClear_outside (root : TreeNode) (s s' : Store) :
  flagsClear root s ->
  (forall o k, ~ interiorData root o k -> s' o k = s o k) ->
  flagsClear root s'.
Proof.
  intros Hc Hout m Hm. destruct (Hc m Hm) as [H1 H2]. split.
  - rewrite Hout; [exact H1|].
    intros (x & _ & _ & _ & [|[|[|]]]); discriminate.
  - intros e He. destruct (H2 e He) as [H3 H4].
    unfold edgeToParent in He.
    destruct (parentNode m); [|discriminate]. injection He as <-.
    split; (rewrite Hout; [assumption|]);
      intros (x & _ & _ & [=] & _).
Qed.

Lemma toggleABVisual_stop (app : App) (q : ActionListQueue.t) :
  appInv app -> actionRef app = Some q ->
  ActionListQueue.inAction q = true ->
  exists (app' : App) (q' : ActionListQueue.t) (root : TreeNode),
    toggleABVisual app = Some app' /\
    Tree.rootNode (treeRef app') = Some root /\
    Tree.rootNode (treeRef app) = Some root /\
    Tree.mutable (treeRef app') = true /\
    actionRef app' = Some q' /\
    ActionListQueue.inAction q' = false /\
    ActionListQueue.lastAction q' = (-1)%Z /\
    ActionListQueue.actionListQueue q' = ActionListQueue.actionListQueue q /\
    flagsClear root (heap (gen app')) /\
    forall o k, ~ interiorData root o k ->
      heap (gen app') o k = resetTree (Some root) (heap (gen app)) o k.
Proof.
  intros (Hd & Hb & Hk & root & lo & hi & Hr & HT & Hq) Ea Hin.
  rewrite Ea in Hq. destruct Hq as (Hc & Hm & s0 & s1 & q0 & Hab & Hl).
  unfold toggleABVisual, ensureActionRef, ensureAction. rewrite Ea.
  cbn [treeRef gen heap set_heap]. rewrite Hin.
  rewrite (goToBeginning_unplay_at q _ Hc Hin).
  destruct (proj1 (GenTree_shape _ _) _ _ _ _ _ _ HT (le_n 1))
    as (_ & _ & Hty & Hsh).
  assert (Hnl : isLeaf root = false).
  { unfold isLeaf. rewrite Hty by lia. now destruct Hk as [-> | ->]. }
  destruct (alphaBeta_queue _ root s0 q0 s1 Hr Hab) as (r & Er & Hq0 & _).
  pose proof (flagOld_result r (abActions_flags _ _ _ _ _ _ _ _ Er)) as Hfl.
  pose proof (zone_result root r (abActions_zone _ _ _ _ _ _ _ _ Er)) as Hz.
  rewrite <- Hq0, <- Hl in Hfl, Hz.
  assert (Hcl : flagsClear root (resetSubTree root (heap (gen app)))).
  { apply resetSubTree_clears. now apply (shape_tidy _ _ _ Hsh). }
  assert (Hout : forall o k, ~ interiorData root o k ->
            unplayAll (firstn (Z.to_nat (ActionListQueue.lastAction q + 1))
                              (ActionListQueue.actionListQueue q))
                      (resetSubTree root (heap (gen app))) o k
            = resetSubTree root (heap (gen app)) o k).
  { apply (unplay_frame root); auto.
    - now apply flagOld_firstn.
    - rewrite Forall_forall in *. intros x Hx. apply Hz.
      revert Hx. apply in_firstn. }
  eexists _, _, root. split; [reflexivity|]. cbn. rewrite Hr. cbn.
  splits; auto.
  now apply (flagsClear_outside root (resetSubTree root (heap (gen app)))).
Qed.

(** X18.  Whatever the user does after the application is mounted
    (regenerate, change the depth or the branching factor by any amount,
    swap min and max, start or stop the animation, step or jump, click
    edges, check, reset, show the solution, in any order), no handler
    raises, the declared depth stays at least 3 and the branching factor
    at least 2, and the tree shown is one generated for the declared
    parameters: its root has no parent, is at depth 1 and of the declared
    kind, which is max or min; every node has the declared shape, leaves
    exactly at the declared depth; and no two nodes share an id. *)
Theorem handlers_keep_the_tree_as_declared :
  forall (randomRound : nat -> Z -> Z) (evs : list Event),
  exists app : App,
    handleAll randomRound (Regenerate :: evs) mountedApp = Some app /\
    3 <= Tree.depth (treeRef app) /\
    2 <= Tree.branchingFactor (treeRef app) /\
    exists root : TreeNode,
      Tree.rootNode (treeRef app) = Some root /\
      parentNode root = None /\ depth root = 1 /\
      nodeType root = Tree.treeType (treeRef app) /\
      (nodeType root = maxNode \/ nodeType root = minNode) /\
      (forall m, In m (nodes root) ->
         nodeShape (Tree.depth (treeRef app))
                   (Tree.branchingFactor (treeRef app)) m) /\
      NoDup (ids root).
Proof.
  intros randomRound evs.
  destruct (session_inv randomRound evs)
    as (app & E & Hd & Hb & Hk & root & lo & hi & Hr & HT & _).
  exists app. splits; auto. exists root.
  destruct (proj1 (GenTree_shape _ _) _ _ _ _ _ _ HT (le_n 1))
    as (Hp & Hd1 & Hty & Hsh).
  rewrite Hty by lia. splits; auto.
  exact (proj1 (GenTree_NoDup _ _) _ _ _ _ _ _ HT).
Qed.

(** X19.  Whatever the user does after the application is mounted, a log
    held in [actionRef] is one that [alphaBeta] compiled on the tree now
    shown (in some heap), its cursor is between -1 and the last step, and
    while it is in playback the tree is not mutable. *)
Theorem cached_log_belongs_to_the_tree_shown :
  forall (randomRound : nat -> Z -> Z) (evs : list Event) (app : App)
         (q : ActionListQueue.t),
    handleAll randomRound (Regenerate :: evs) mountedApp = Some app ->
    actionRef app = Some q ->
    cursorInRange q /\
    (ActionListQueue.inAction q = true ->
     Tree.mutable (treeRef app) = false) /\
    exists (s s' : Store) (q0 : ActionListQueue.t),
      alphaBeta (treeRef app) s = Some (q0, s') /\
      ActionListQueue.actionListQueue q
      = ActionListQueue.actionListQueue q0.
Proof.
  intros randomRound evs app q E Ea.
  destruct (session_inv randomRound evs)
    as (app' & E' & _ & _ & _ & root & lo & hi & _ & _ & Hq).
  rewrite E in E'. injection E' as <-. rewrite Ea in Hq. exact Hq.
Qed.

(** The instance of [cached_log_belongs_to_the_tree_shown] for the
    scenario's draws: the animation is started, two steps are made, the
    solution is shown. *)
Lemma cached_log_belongs_to_the_tree_shown_witness :
  exists (app : App) (q : ActionListQueue.t),
    handleAll scenarioDraws
      [Regenerate; ToggleABVisual; StepForward; StepForward; ShowSolution]
      mountedApp = Some app /\
    actionRef app = Some q /\
    ActionListQueue.lastAction q = 1%Z /\
    cursorInRange q /\ Tree.mutable (treeRef app) = false.
Proof.
  destruct (handleAll scenarioDraws
              [Regenerate; ToggleABVisual; StepForward; StepForward;
               ShowSolution] mountedApp) as [app|] eqn:E;
    [|vm_compute in E; discriminate].
  destruct (actionRef app) as [q|] eqn:Ea;
    [|vm_compute in E; injection E as <-; discriminate].
  exists app, q.
  destruct (cached_log_belongs_to_the_tree_shown scenarioDraws
              [ToggleABVisual; StepForward; StepForward; ShowSolution]
              app q E Ea) as (Hc & Hm & _).
  assert (Hq : ActionListQueue.lastAction q = 1%Z /\
               ActionListQueue.inAction q = true).
  { vm_compute in E. injection E as <-. injection Ea as <-. now split. }
  destruct Hq as [Hl Hin]. splits; auto.
Defined.

(** X20.  Stop Animation, pressed at any point of playback in any state
    the application can reach, does not raise: it turns playback off, puts
    the cursor back to -1, makes the tree mutable again and keeps the log.
    Afterwards no node or edge of the tree is marked entered and no edge
    pruned, and every field other than the value, bounds and pruned mark
    of the nodes that are not leaves holds what a reset of the tree
    leaves in it. *)
Theorem stop_animation_clears_the_marks :
  forall (randomRound : nat -> Z -> Z) (evs : list Event) (app : App)
         (q : ActionListQueue.t),
    handleAll randomRound (Regenerate :: evs) mountedApp = Some app ->
    actionRef app = Some q ->
    ActionListQueue.inAction q = true ->
    exists (app' : App) (q' : ActionListQueue.t) (root : TreeNode),
      toggleABVisual app = Some app' /\
      Tree.rootNode (treeRef app') = Some root /\
      Tree.rootNode (treeRef app) = Some root /\
      Tree.mutable (treeRef app') = true /\
      actionRef app' = Some q' /\
      ActionListQueue.inAction q' = false /\
      ActionListQueue.lastAction q' = (-1)%Z /\
      ActionListQueue.actionListQueue q'
      = ActionListQueue.actionListQueue q /\
      flagsClear root (heap (gen app')) /\
      forall o k, ~ interiorData root o k ->
        heap (gen app') o k = resetTree (Some root) (heap (gen app)) o k.
Proof.
  intros randomRound evs app q E Ea Hin.
  destruct (session_inv randomRound evs) as (app' & E' & Hinv).
  rewrite E in E'. injection E' as <-.
  now apply toggleABVisual_stop.
Qed.

(** The instance of [stop_animation_clears_the_marks] for the scenario's
    draws, stopped after two steps of the animation. *)
Lemma stop_animation_clears_the_marks_witness :
  exists (app app' : App) (q : ActionListQueue.t) (root : TreeNode),
    handleAll scenarioDraws
      [Regenerate; ToggleABVisual; StepForward; StepForward] mountedApp
    = Some app /\
    actionRef app = Some q /\
    ActionListQueue.inAction q = true /\
    ActionListQueue.lastAction q = 1%Z /\
    toggleABVisual app = Some app' /\
    Tree.rootNode (treeRef app') = Some root /\
    flagsClear root (heap (gen app')).
Proof.
  destruct (handleAll scenarioDraws
              [Regenerate; ToggleABVisual; StepForward; StepForward]
              mountedApp) as [app|] eqn:E;
    [|vm_compute in E; discriminate].
  destruct (actionRef app) as [q|] eqn:Ea;
    [|vm_compute in E; injection E as <-; discriminate].
  assert (Hq : ActionListQueue.lastAction q = 1%Z /\
               ActionListQueue.inAction q = true).
  { pose proof E as E0. vm_compute in E0. injection E0 as <-.
    injection Ea as <-. now split. }
  destruct Hq as [Hl Hin].
  destruct (stop_animation_clears_the_marks scenarioDraws
              [ToggleABVisual; StepForward; StepForward] app q E Ea Hin)
    as (app' & q' & root & Et & Hr & _ & _ & _ & _ & _ & _ & Hcl & _).
  exists app, app', q, root. splits; auto.
Defined.

(* ------------------------------------------------------------------ *)
(** *** What a search leaves in the shadow fields *)

Lemma forChildren_reaches {St : Type} (P : St -> Prop)
    (f : TreeNode -> St -> St) (bFac : nat) (c : TreeNode) :
  (forall s, P (f c s)) -> (forall c' s, P s -> P (f c' s)) ->
  forall cs k s,
    k + List.length cs <= bFac -> In c cs ->
    P (forChildren f bFac cs k s).
Proof.
  intros Hc Hkeep. induction cs as [|c' cs IH]; intros k s Hk [].
  - subst c'. cbn [forChildren]. cbn in Hk.
    destruct (Nat.ltb_spec k bFac); [|lia].
    apply (forChildren_rel (fun s s' => P s -> P s')); auto.
    rewrite Forall_forall. auto.
  - cbn [forChildren]. cbn in Hk.
    destruct (Nat.ltb_spec k bFac); [|lia].
    apply IH; [lia | assumption].
Qed.

Lemma pruneInner_keeps bFac (e : Obj) n :
  forall acc,
    snd acc e __pruned = JBool true ->
    snd (pruneInner bFac n acc) e __pruned = JBool true.
Proof.
  induction n as [n IH] using TreeNode_ind'. intros acc H.
  rewrite pruneInner_eq.
  apply (forChildren_rel
           (fun x y => snd x e __pruned = JBool true ->
                       snd y e __pruned = JBool true)); auto.
  destruct (edgeToParent n) as [e'|]; [|exact H]. cbn [snd].
  destruct (write_cases (snd acc) e' __pruned (JBool true) e __pruned)
    as [(_ & _ & E) | [_ E]]; [exact E|].
  etransitivity; [exact E | exact H].
Qed.

Lemma pruneInner_marks bFac n :
  prunable bFac n ->
  forall acc x, In x (nodes n) ->
    snd (pruneInner bFac n acc) (OEdge (id x)) __pruned = JBool true.
Proof.
  induction n as [n IH] using TreeNode_ind'. intros Hp acc x Hx.
  rewrite pruneInner_eq. apply nodes_inv in Hx.
  destruct Hx as [-> | (c & Hc & Hx)].
  - apply (forChildren_rel
             (fun a b => snd a (OEdge (id n)) __pruned = JBool true ->
                         snd b (OEdge (id n)) __pruned = JBool true)); auto.
    + rewrite Forall_forall. intros c _ s. apply pruneInner_keeps.
    + destruct (Hp n (nodes_self n)) as [Hpar _].
      unfold edgeToParent. destruct (parentNode n); [|congruence].
      cbn [snd]. apply write_same.
  - apply (forChildren_reaches
             (fun a => snd a (OEdge (id x)) __pruned = JBool true)
             (pruneInner bFac) bFac c).
    + intros s. rewrite Forall_forall in IH. apply (IH c Hc); [|exact Hx].
      intros y Hy. apply Hp. now apply (nodes_child n c y).
    + intros c' s. apply pruneInner_keeps.
    + cbn. apply (Hp n (nodes_self n)).
    + exact Hc.
Qed.

Lemma prunable_child bFac n c :
  prunable bFac n -> In c (children n) -> prunable bFac c.
Proof. intros H Hc x Hx. apply H. now apply (nodes_child n c x). Qed.

Lemma untouched_child s n c :
  untouched s n -> In c (children n) -> untouched s c.
Proof. intros H Hc x Hx. apply H. now apply (nodes_child n c x). Qed.

(** The two fields [searched] and [passedOver] read at [x] are the same in
    [s'] as in [s]. *)
Lemma trace_agree (s s' : Store) (x : TreeNode) :
  s' (OEdge (id x)) __pruned = s (OEdge (id x)) __pruned ->
  s' (ONode (id x)) __value = s (ONode (id x)) __value ->
  (searched s x -> searched s' x) /\
  (passedOver s x -> passedOver s' x) /\
  ((s (OEdge (id x)) __pruned = JUndefined /\
    s (ONode (id x)) __value = JUndefined) ->
   (s' (OEdge (id x)) __pruned = JUndefined /\
    s' (ONode (id x)) __value = JUndefined)).
Proof.
  intros E1 E2. unfold searched, passedOver. rewrite E1, E2. tauto.
Qed.

Lemma loopTouches_outside node cs (s s' : Store) (x : TreeNode) :
  modifies (loopTouches node cs) s s' ->
  id x <> id node -> ~ In (id x) (flat_map ids cs) ->
  s' (OEdge (id x)) __pruned = s (OEdge (id x)) __pruned /\
  s' (ONode (id x)) __value = s (ONode (id x)) __value.
Proof.
  intros Hm Hn Hx. split; apply Hm; intros [E | Hin]; cbn in *;
    try discriminate; try (injection E as E); auto.
Qed.

Lemma pruneChild_passes bFac node c st :
  prunable bFac c -> untouched (l_store st) c ->
  forall x, In x (nodes c) ->
    passedOver (l_store (pruneChild bFac node (Some c) st)) x.
Proof.
  intros Hp Hu x Hx. unfold pruneChild, generatePruneActionList.
  pose proof (pruneInner_marks bFac c Hp ([], l_store st) x Hx) as Hm.
  pose proof (pruneInner_touches bFac c ([], l_store st)) as Ht.
  destruct (pruneInner bFac c ([], l_store st)) as [acts s1].
  cbn [snd l_store] in *. split.
  - rewrite write_other by (left; discriminate). exact Hm.
  - rewrite write_other by (right; discriminate).
    rewrite Ht by (cbn; tauto). apply (Hu x Hx).
Qed.

Lemma open_window isMax cur st :
  loopInv isMax NegInf PosInf cur st -> curOK isMax cur ->
  l_pruneRest st = false.
Proof.
  intros (_ & _ & _ & ->) [-> | [z ->]]; now destruct isMax.
Qed.

Lemma curOK_step isMax cur v :
  curOK isMax cur ->
  curOK isMax (if isMax then num_max cur (Fin v) else num_min cur (Fin v)).
Proof.
  intros [-> | [z ->]]; right; destruct isMax; cbn.
  - eauto.
  - eauto.
  - unfold num_max. destruct (num_ltb (Fin z) (Fin v)); eauto.
  - unfold num_min. destruct (num_ltb (Fin v) (Fin z)); eauto.
Qed.

Section SearchTrace.

Variable bFac : nat.
Variable s0 : Store.

Lemma loopTouches_search node c cs o k :
  In c cs -> searchTouches c o k -> loopTouches node cs o k.
Proof.
  intros Hc. destruct o; cbn.
  - intros [Hi _]. right. cbn. now apply (ids_below_list cs c).
  - intros [Hi _]. right. cbn. apply (ids_below_list cs c); [exact Hc|].
    rewrite ids_unfold. now right.
Qed.

Lemma loopTouches_prune node c cs o k :
  In c cs -> pruneTouches c o k -> loopTouches node cs o k.
Proof.
  intros Hc. destruct o; cbn; [intros []|].
  intros [Hi _]. right. cbn. now apply (ids_below_list cs c).
Qed.

Lemma childLoop_loopTouches node isMax cs k st st' :
  childLoop (abActions bFac) bFac node isMax cs k st = Some st' ->
  modifies (loopTouches node cs) (l_store st) (l_store st').
Proof.
  apply (childLoop_touches (loopTouches node cs) node).
  - intros k' _. now left.
  - rewrite Forall_forall. intros c _ a b m s r s1.
    apply abActions_touches.
  - intros c o k'. apply loopTouches_search.
  - intros c o k'. apply loopTouches_prune.
Qed.

Lemma childLoop_traced node isMax a0 b0 cs :
  num_ltb a0 b0 = true ->
  Forall (childTraced bFac s0 node isMax) cs ->
  NoDup (flat_map ids cs) ->
  forall k st cur,
    k + List.length cs = bFac ->
    framed s0 (l_store st) ->
    loopInv isMax a0 b0 cur st ->
    curOK isMax cur ->
    (forall c, In c cs -> untouched (l_store st) c) ->
    exists st',
      childLoop (abActions bFac) bFac node isMax cs k st = Some st' /\
      (forall c x, In c cs -> In x (nodes c) ->
         searched (l_store st') x \/ passedOver (l_store st') x) /\
      (a0 = NegInf -> b0 = PosInf ->
       forall c, In c cs -> searched (l_store st') c).
Proof.
  intros Hab HF.
  induction HF as [|c cs (Hid & Hpr & Hc) HF IH];
    intros Hnd k st cur Hk Hfr Hinv Hcur Hun;
    cbn [childLoop]; cbn [List.length] in Hk.
  - replace (bFac - k) with 0 by lia. cbn [missingChildren].
    exists st. splits; [reflexivity | intros c x [] | intros _ _ c []].
  - destruct (Nat.ltb_spec k bFac) as [_|]; [|lia].
    destruct (NoDup_forest_cons c cs Hnd) as (_ & Hnd' & Hdisj).
    pose proof Hinv as (E1 & E2 & E3 & E4).
    (* what is needed of the state after [c] has been dealt with *)
    assert (Hnext : forall st1 cur1,
      modifies (loopTouches node [c]) (l_store st) (l_store st1) ->
      framed s0 (l_store st1) ->
      loopInv isMax a0 b0 cur1 st1 -> curOK isMax cur1 ->
      (forall x, In x (nodes c) ->
         searched (l_store st1) x \/ passedOver (l_store st1) x) ->
      (a0 = NegInf -> b0 = PosInf -> searched (l_store st1) c) ->
      exists st',
        childLoop (abActions bFac) bFac node isMax cs (S k) st1 = Some st' /\
        (forall c' x, In c' (c :: cs) -> In x (nodes c') ->
           searched (l_store st') x \/ passedOver (l_store st') x) /\
        (a0 = NegInf -> b0 = PosInf ->
         forall c', In c' (c :: cs) -> searched (l_store st') c')).
    { intros st1 cur1 Hm1 Hfr1 Hinv1 Hcur1 Hc1 Hroot1.
      destruct (IH Hnd' (S k) st1 cur1) as (st' & E & Hall & Hroot); auto.
      - lia.
      - intros c' Hc' x Hx.
        rewrite Forall_forall in HF. destruct (HF c' Hc') as (Hid' & _).
        destruct (loopTouches_outside node [c] (l_store st) (l_store st1) x
                    Hm1) as [A B].
        + intros Ex. apply Hid'. rewrite <- Ex. now apply in_nodes_ids.
        + cbn [flat_map]. rewrite app_nil_r. intros Hi.
          apply (Hdisj (id x) Hi). apply (ids_below_list cs c' _ Hc').
          now apply in_nodes_ids.
        + rewrite A, B. exact (Hun c' (or_intror Hc') x Hx).
      - exists st'. split; [exact E|].
        pose proof (childLoop_loopTouches _ _ _ _ _ _ E) as Hm.
        assert (Hkeep : forall x, In x (nodes c) ->
                  l_store st' (OEdge (id x)) __pruned
                  = l_store st1 (OEdge (id x)) __pruned /\
                  l_store st' (ONode (id x)) __value
                  = l_store st1 (ONode (id x)) __value).
        { intros x Hx. apply (loopTouches_outside node cs); auto.
          - intros Ex. apply Hid. rewrite <- Ex. now apply in_nodes_ids.
          - apply Hdisj. now apply in_nodes_ids. }
        split.
        + intros c' x [<- | Hc'] Hx; [|now apply (Hall c')].
          destruct (Hkeep x Hx) as [A B].
          destruct (trace_agree _ _ x A B) as (T1 & T2 & _).
          destruct (Hc1 x Hx); auto.
        + intros Ha Hb c' [<- | Hc']; [|now apply Hroot].
          destruct (Hkeep c (nodes_self c)) as [A B].
          apply (trace_agree _ _ c A B). auto. }
    destruct (l_pruneRest st) eqn:Ep.
    + (* the window has closed: the child is pruned *)
      pose proof (pruneChild_fields bFac node (Some c) st)
        as (F1 & F2 & F3 & F4 & F5).
      cbn zeta in *.
      apply (Hnext (pruneChild bFac node (Some c) st) cur); auto.
      * apply (pruneChild_touches (loopTouches node [c]) node).
        -- intros k' _. now left.
        -- intros o k'. apply loopTouches_prune. now left.
      * eapply framed_trans; [exact Hfr | apply pruneChild_framed].
      * unfold loopInv. now rewrite F1, F2, F3, F4.
      * intros x Hx. right.
        apply pruneChild_passes; auto. apply Hun. now left.
      * intros -> ->. rewrite (open_window isMax cur st Hinv Hcur) in Ep.
        discriminate.
    + (* the child is searched with the current window *)
      symmetry in E4. apply num_leb_false_lt in E4.
      destruct (Hc _ _ (l_store st) E4 Hfr (Hun c (or_introl eq_refl)))
        as (r & s2 & v & Er & Ev & Hsc & Hall).
      rewrite E2, E3, Er.
      pose proof (abActions_touches _ _ _ _ _ _ _ _ Er) as Ht.
      pose proof (afterChild_touches (loopTouches node [c]) node
                    (fun k' _ => or_introl eq_refl) isMax r s2 st) as Ha.
      assert (Hkeep : forall x, In x (nodes c) ->
                l_store (afterChild node isMax r s2 st) (OEdge (id x)) __pruned
                = s2 (OEdge (id x)) __pruned /\
                l_store (afterChild node isMax r s2 st) (ONode (id x)) __value
                = s2 (ONode (id x)) __value).
      { intros x Hx.
        pose proof (afterChild_touches
                      (fun o _ => o = ONode (id node)) node
                      (fun k' _ => eq_refl) isMax r s2 st) as Hn.
        split; apply Hn.
        - discriminate.
        - intros [= Ex]. apply Hid. rewrite <- Ex. now apply in_nodes_ids. }
      apply (Hnext (afterChild node isMax r s2 st)
               (if isMax then num_max cur (Fin v) else num_min cur (Fin v)));
        auto.
      * eapply modifies_trans; [|exact Ha].
        eapply modifies_weaken; [|exact Ht].
        intros o k'. apply loopTouches_search. now left.
      * eapply framed_trans; [exact Hfr|].
        eapply framed_trans; [exact (abActions_framed _ _ _ _ _ _ _ _ Er)|].
        apply afterChild_framed.
      * now apply afterChild_loopInv.
      * now apply curOK_step.
      * intros x Hx. destruct (Hkeep x Hx) as [A B].
        destruct (trace_agree _ _ x A B) as (T1 & T2 & _).
        destruct (Hall x Hx); auto.
      * intros _ _. destruct (Hkeep c (nodes_self c)) as [A B].
        apply (trace_agree _ _ c A B). exact Hsc.
Qed.

Hypothesis HbFac : 1 <= bFac.

Lemma abActions_traced :
  forall n isMax,
    complete bFac n -> KindsAgree isMax n -> NoDup (ids n) ->
    leavesFinite s0 n -> tidy n ->
    (forall c, In c (children n) -> prunable bFac c) ->
    forall a b s1,
      num_ltb a b = true -> framed s0 s1 -> untouched s1 n ->
      exists r s2 v,
        abActions bFac n (JNum a) (JNum b) isMax s1 = Some (r, s2) /\
        returnVal r = JNum (Fin v) /\
        searched s2 n /\
        (forall x, In x (nodes n) -> searched s2 x \/ passedOver s2 x) /\
        (a = NegInf -> b = PosInf ->
         forall c, In c (children n) -> searched s2 c).
Proof.
  induction n as [n IH] using TreeNode_ind'.
  intros isMax Hc Hk Hnd Hlf Ht Hpr a b s1 Hab Hfr Hun.
  destruct (abActions_correct bFac s0 HbFac n isMax Hc Hk Hnd Hlf a b s1
              Hab Hfr) as (r & s2 & v & m & Er & Ev & _ & _ & Hval).
  exists r, s2, v. split; [exact Er|]. split; [exact Ev|].
  pose proof (abActions_touches _ _ _ _ _ _ _ _ Er) as Htouch.
  assert (Hself : searched s2 n).
  { split.
    - rewrite Htouch; [apply (Hun n (nodes_self n))|].
      cbn. intros [Hi _]. exact (proj1 (NoDup_ids_inv n Hnd) Hi).
    - intros El. exists v. now apply Hval. }
  split; [exact Hself|].
  rewrite abActions_eq in Er. cbn zeta in Er.
  destruct (isLeaf n) eqn:El.
  - injection Er as _ <-.
    rewrite (proj1 (Ht n (nodes_self n)) El). split.
    + intros x Hx. apply nodes_inv in Hx.
      destruct Hx as [-> | (c & Hcin & _)]; [now left|].
      rewrite (proj1 (Ht n (nodes_self n)) El) in Hcin. destruct Hcin.
    + intros _ _ c [].
  - inversion Hk as [? ? El' | ? ? Hty Hch]; subst; [congruence|].
    set (st0 := mkLoopState (JNum a) (JNum b) false []
                  (JNum (if isMax then NegInf else PosInf)) []
                  (write (write s1 (ONode (id n)) __alpha (JNum a))
                         (ONode (id n)) __beta (JNum b))) in *.
    destruct (childLoop_traced n isMax a b (children n) Hab)
      with (k := 0) (st := st0) (cur := if isMax then NegInf else PosInf)
      as (st' & R1 & R2 & R3).
    + rewrite Forall_forall in *. intros c Hin.
      destruct (NoDup_ids_child n c Hnd Hin) as [Hndc Hidc].
      split; [exact Hidc|]. split; [now apply Hpr|].
      intros a' b' s1' Hab' Hfr' Hun'.
      destruct (IH c Hin (negb isMax) (complete_child bFac n c Hc Hin)
                  (Hch c Hin) Hndc (leavesFinite_child s0 n c Hlf Hin)
                  (tidy_child n c Ht Hin)
                  (fun c' Hc' => prunable_child bFac c c' (Hpr c Hin) Hc')
                  a' b' s1' Hab' Hfr' Hun')
        as (r' & s2' & v' & ? & ? & ? & ? & _).
      exists r', s2', v'. auto.
    + exact (proj2 (NoDup_ids_inv n Hnd)).
    + cbn [plus]. apply (Hc n (nodes_self n) El).
    + subst st0. cbn [l_store]. eapply framed_trans; [exact Hfr|].
      eapply framed_trans; now apply framed_write.
    + subst st0. unfold loopInv. cbn [l_curVal l_a l_b l_pruneRest].
      destruct isMax; rewrite ?num_max_NegInf, ?num_min_PosInf; splits; auto;
        symmetry; apply num_leb_false_lt; exact Hab.
    + now left.
    + intros c Hin x Hx. subst st0. cbn [l_store].
      rewrite !write_other by (right; discriminate).
      apply Hun. now apply (nodes_child n c x).
    + rewrite R1 in Er. injection Er as _ <-. split.
      * intros x Hx. apply nodes_inv in Hx.
        destruct Hx as [-> | (c & Hcin & Hx)]; [now left|].
        now apply (R2 c).
      * exact R3.
Qed.

End SearchTrace.

Lemma nodes_parent (n x : TreeNode) :
  In x (nodes n) ->
  x = n \/ exists y, In y (nodes n) /\ In x (children y).
Proof.
  induction n as [n IH] using TreeNode_ind'. intros Hx.
  apply nodes_inv in Hx. destruct Hx as [-> | (c & Hc & Hx)]; [now left|].
  right. rewrite Forall_forall in IH.
  destruct (IH c Hc Hx) as [-> | (y & Hy & Hxy)].
  - exists n. split; [apply nodes_self | exact Hc].
  - exists y. split; [now apply (nodes_child n c y) | exact Hxy].
Qed.

Lemma shape_children maxDepth bFac m c :
  nodeShape maxDepth bFac m -> In c (children m) ->
  depth m < maxDepth /\ depth c = S (depth m) /\
  parentNode c = Some (id m).
Proof.
  intros (Hd & _ & Hleaf & Hinner) Hc.
  destruct (Nat.eq_dec (depth m) maxDepth) as [e|ne].
  - destruct (Hleaf e) as [_ E]. rewrite E in Hc. destruct Hc.
  - destruct Hinner as [_ H]; [lia|].
    destruct (H c Hc) as (? & ? & _). splits; auto. lia.
Qed.

Lemma shape_prunable maxDepth bFac root :
  (forall m, In m (nodes root) -> nodeShape maxDepth bFac m) ->
  forall c, In c (children root) -> prunable bFac c.
Proof.
  intros Hsh c Hc x Hx.
  assert (Hxr : In x (nodes root)) by now apply (nodes_child root c x).
  split.
  - destruct (nodes_parent c x Hx) as [-> | (y & Hy & Hxy)].
    + destruct (shape_children _ _ _ _ (Hsh root (nodes_self root)) Hc)
        as (_ & _ & ->). discriminate.
    + destruct (shape_children maxDepth bFac y x) as (_ & _ & ->);
        [|exact Hxy|discriminate].
      apply Hsh. now apply (nodes_child root c y).
  - destruct (Hsh x Hxr) as (Hd & _ & Hleaf & Hinner).
    destruct (Nat.eq_dec (depth x) maxDepth) as [e|ne].
    + destruct (Hleaf e) as [_ ->]. cbn. lia.
    + destruct Hinner as [-> _]; lia.
Qed.

(** The search compiled on a generated tree whose nodes carry no trace of
    an earlier one: every node is searched or passed over, the root and
    its children are searched. *)
Lemma alphaBeta_traced (tree : Tree.t) (root : TreeNode) (lo hi : nat)
    (s : Store) (q : ActionListQueue.t) (s1 : Store) :
  Tree.rootNode tree = Some root ->
  GenTree (Tree.depth tree) (Tree.branchingFactor tree) None
          (Tree.treeType tree) 1 lo hi root ->
  2 <= Tree.depth tree -> 1 <= Tree.branchingFactor tree ->
  (Tree.treeType tree = maxNode \/ Tree.treeType tree = minNode) ->
  leavesFinite s root -> untouched s root ->
  alphaBeta tree s = Some (q, s1) ->
  tidy root /\
  (forall x, In x (nodes root) -> searched s1 x \/ passedOver s1 x) /\
  searched s1 root /\
  forall c, In c (children root) -> searched s1 c.
Proof.
  intros Hr HT Hd Hb Hk Hlf Hun Hab.
  destruct (proj1 (GenTree_kinds _ _) _ _ _ _ _ _ HT Hk) as [Hka _].
  destruct (proj1 (GenTree_shape _ _) _ _ _ _ _ _ HT (le_n 1))
    as (_ & _ & Hty & Hsh).
  assert (Hnl : isLeaf root = false).
  { unfold isLeaf. rewrite Hty by lia. now destruct Hk as [-> | ->]. }
  pose proof (shape_tidy _ _ _ Hsh Hnl) as Htidy.
  destruct (alphaBeta_queue tree root s q s1 Hr Hab) as (r & Er & _).
  destruct (abActions_traced (Tree.branchingFactor tree) s Hb root
              (TreeNodeType_eqb (Tree.treeType tree) maxNode)
              (GenTree_complete _ _ _ _ _ _ _ _ HT (le_n 1)) Hka
              (proj1 (GenTree_NoDup _ _) _ _ _ _ _ _ HT) Hlf Htidy
              (shape_prunable _ _ _ Hsh)
              NegInf PosInf s eq_refl (framed_refl s) Hun)
    as (r' & s2 & v & Er' & _ & Hself & Hall & Hch).
  rewrite Er in Er'. injection Er' as <- <-. auto.
Qed.

(** After such a search, in any heap with the same shadow fields, Show
    Solution passes the check exactly when no edge into a node that is not
    a leaf is shadow-pruned. *)
Lemma traced_check (root : TreeNode) (s1 s' : Store) :
  tidy root ->
  (forall x, In x (nodes root) -> searched s1 x \/ passedOver s1 x) ->
  sameShadow s1 s' ->
  checkAnswer (Some root) (setSolution (Some root) s') = true <->
  forall m, In m (nodes root) -> isLeaf m = false ->
            s' (OEdge (id m)) __pruned <> JBool true.
Proof.
  intros Ht Hall Hsh. cbn [checkAnswer setSolution].
  rewrite (checkSubTree_iff _ root Ht).
  split; intros H m Hm Hl.
  - apply (solved_checkedAt root s' m Ht Hm Hl) in H; auto.
    rewrite (Hsh _ __value eq_refl) in H. rewrite (Hsh _ __pruned eq_refl).
    destruct (Hall m Hm) as [[-> _] | [_ E]]; [discriminate | contradiction].
  - apply (solved_checkedAt root s' m Ht Hm Hl).
    specialize (H m Hm Hl).
    rewrite (Hsh _ __pruned eq_refl) in H. rewrite (Hsh _ __value eq_refl).
    destruct (Hall m Hm) as [[_ Hv] | [E _]]; [|contradiction].
    destruct (Hv Hl) as [z ->]. discriminate.
Qed.

(* ------------------------------------------------------------------ *)
(** *** The heap between two events *)

Lemma sameProblem_refl root h : sameProblem root h h.
Proof. split; [intros o k _ | intros m _ _]; reflexivity. Qed.

Lemma sameProblem_trans root h1 h2 h3 :
  sameProblem root h1 h2 -> sameProblem root h2 h3 -> sameProblem root h1 h3.
Proof.
  intros [A1 B1] [A2 B2]. split.
  - intros o k Hk. now rewrite (A2 o k Hk), (A1 o k Hk).
  - intros m Hm Hl. now rewrite (B2 m Hm Hl), (B1 m Hm Hl).
Qed.

Lemma outside_sameProblem root (h h' : Store) :
  (forall o k, problemField root o k -> h' o k = h o k) ->
  sameProblem root h h'.
Proof.
  intros H. split.
  - intros o k Hk. apply H. now left.
  - intros m Hm Hl. apply H. right. exists m. auto.
Qed.

Lemma modifies_sameProblem (F : Obj -> Key -> Prop) root h h' :
  modifies F h h' ->
  (forall o k, F o k -> ~ problemField root o k) ->
  sameProblem root h h'.
Proof.
  intros Hm Hsub. apply outside_sameProblem. intros o k Hp.
  apply Hm. intros HF. exact (Hsub o k HF Hp).
Qed.

Lemma resetTouches_not_problem root o k :
  NoDup (ids root) -> resetTouches root o k -> ~ problemField root o k.
Proof.
  intros Hnd (m & Hm & H) [Hv | (m' & Hm' & Hl & -> & ->)].
  - destruct H as [[_ [-> | ->]] | [_ [-> | (_ & [-> | [-> | ->]])]]];
      discriminate.
  - destruct H as [[He _] | [E [E' | (Hl' & _)]]].
    + destruct (edgeToParent_cases m) as [E | E]; rewrite E in He;
        discriminate.
    + discriminate.
    + injection E as E.
      rewrite (nodes_id_inj root m' m Hnd Hm' Hm E) in Hl. congruence.
Qed.

Lemma solutionTouches_not_problem root o k :
  NoDup (ids root) -> solutionTouches root o k -> ~ problemField root o k.
Proof.
  intros Hnd (m & Hm & H) [Hv | (m' & Hm' & Hl & -> & ->)].
  - destruct H as [[_ ->] | (_ & _ & [-> | [-> | [-> | ->]]])];
      discriminate.
  - destruct H as [[He _] | (E & Hl' & _)].
    + destruct (edgeToParent_cases m) as [E | E]; rewrite E in He;
        discriminate.
    + injection E as E.
      rewrite (nodes_id_inj root m' m Hnd Hm' Hm E) in Hl. congruence.
Qed.

Lemma zone_untargeted root steps o k :
  NoDup (ids root) -> Forall (Forall (zoneOK root)) steps ->
  problemField root o k -> untargetedBy steps o k.
Proof.
  intros Hnd Hz Hp step a Hs Ha.
  destruct (targets o k a) eqn:Et; [exfalso|reflexivity].
  rewrite Forall_forall in Hz. specialize (Hz step Hs).
  rewrite Forall_forall in Hz. destruct (Hz a Ha) as [Hv Ho].
  apply targets_spec in Et. destruct Et as [Hobj Hkey].
  rewrite Hobj in Ho. rewrite Hkey in Hv.
  destruct Hp as [Hk | (m' & Hm' & Hl & -> & ->)]; [congruence|].
  destruct Ho as (m & Hm & [[He _] | [E Hk]]).
  - destruct (edgeToParent_cases m) as [E | E]; rewrite E in He;
      discriminate.
  - injection E as E. rewrite Hkey in Hk.
    destruct Hk as [Hk | Hl']; [discriminate|].
    rewrite (nodes_id_inj root m' m Hnd Hm' Hm E) in Hl. congruence.
Qed.

Section QueueFrame.

Import ActionListQueue.

Variables (o : Obj) (k : Key).

Lemma stepAt_In (q : t) (i : Z) step :
  stepAt q i = Some step -> In step (actionListQueue q).
Proof.
  unfold stepAt. destruct (i <? 0)%Z; [discriminate|].
  apply nth_error_In.
Qed.

Lemma stepForward_untargeted (q : t) (s : Store) r q' s' :
  stepForward q s = Some (r, q', s') ->
  untargetedBy (actionListQueue q) o k -> s' o k = s o k.
Proof.
  unfold stepForward. intros E Hu.
  destruct (negb (inAction q) || _); [now injection E as _ _ <-|].
  cbn zeta in E.
  destruct (stepAt _ _) as [step|] eqn:Es; [|discriminate].
  injection E as _ _ <-. apply stepAt_In in Es.
  apply applyAll_untargeted, lastOld_None. intros a Ha.
  now apply (Hu step a).
Qed.

Lemma stepBackward_untargeted (q : t) (s : Store) r q' s' :
  stepBackward q s = Some (r, q', s') ->
  untargetedBy (actionListQueue q) o k -> s' o k = s o k.
Proof.
  unfold stepBackward. intros E Hu.
  destruct (negb (inAction q) || _); [now injection E as _ _ <-|].
  destruct (stepAt _ _) as [step|] eqn:Es; [|discriminate].
  injection E as _ _ <-. apply stepAt_In in Es.
  rewrite reverseAll_at.
  replace (lastOld step o k) with (@None JsVal); [reflexivity|].
  symmetry. apply lastOld_None. intros a Ha. now apply (Hu step a).
Qed.

Lemma whileStepForward_untargeted fuel : forall (q : t) (s : Store) q' s',
  whileStepForward fuel q s = Some (q', s') ->
  untargetedBy (actionListQueue q) o k -> s' o k = s o k.
Proof.
  induction fuel as [|fuel IH]; intros q s q' s'; [discriminate|].
  cbn [whileStepForward].
  destruct (stepForward q s) as [[[r q1] s1]|] eqn:E; [|discriminate].
  intros H Hu.
  pose proof (stepForward_untargeted q s r q1 s1 E Hu) as H1.
  destruct (stepForward_keeps q s r q1 s1 E) as (_ & Hq & _).
  destruct r.
  - rewrite <- H1. apply (IH _ _ _ _ H). now rewrite Hq.
  - now injection H as _ <-.
Qed.

Lemma whileStepBackward_untargeted fuel : forall (q : t) (s : Store) q' s',
  whileStepBackward fuel q s = Some (q', s') ->
  untargetedBy (actionListQueue q) o k -> s' o k = s o k.
Proof.
  induction fuel as [|fuel IH]; intros q s q' s'; [discriminate|].
  cbn [whileStepBackward].
  destruct (stepBackward q s) as [[[r q1] s1]|] eqn:E; [|discriminate].
  intros H Hu.
  pose proof (stepBackward_untargeted q s r q1 s1 E Hu) as H1.
  destruct (stepBackward_keeps q s r q1 s1 E) as (_ & Hq & _).
  destruct r.
  - rewrite <- H1. apply (IH _ _ _ _ H). now rewrite Hq.
  - now injection H as _ <-.
Qed.

Lemma goToEnd_untargeted (q : t) (s : Store) q' s' :
  goToEnd q s = Some (q', s') ->
  untargetedBy (actionListQueue q) o k -> s' o k = s o k.
Proof.
  unfold goToEnd. destruct (negb (inAction q)).
  - now intros [= _ <-].
  - apply whileStepForward_untargeted.
Qed.

Lemma goToBeginning_untargeted (q : t) (s : Store) q' s' :
  goToBeginning q s = Some (q', s') ->
  untargetedBy (actionListQueue q) o k -> s' o k = s o k.
Proof.
  unfold goToBeginning. destruct (negb (inAction q)).
  - now intros [= _ <-].
  - apply whileStepBackward_untargeted.
Qed.

End QueueFrame.

Lemma appInv_zone (app : App) (q : ActionListQueue.t) (root : TreeNode) :
  appInv app -> actionRef app = Some q ->
  Tree.rootNode (treeRef app) = Some root ->
  NoDup (ids root) /\
  Forall (Forall (zoneOK root)) (ActionListQueue.actionListQueue q).
Proof.
  intros (_ & _ & _ & root' & lo & hi & Hr & HT & Hq) Ea Hr'.
  rewrite Hr' in Hr. injection Hr as <-.
  rewrite Ea in Hq. destruct Hq as (_ & _ & s0 & s1 & q0 & Hab & Hl).
  split; [exact (proj1 (GenTree_NoDup _ _) _ _ _ _ _ _ HT)|].
  destruct (alphaBeta_queue _ root s0 q0 s1 Hr' Hab) as (r & Er & Hq0 & _).
  rewrite Hl, Hq0. apply zone_result.
  exact (abActions_zone _ _ _ _ _ _ _ _ Er).
Qed.

Lemma appInv_root (app : App) :
  appInv app ->
  exists root lo hi,
    Tree.rootNode (treeRef app) = Some root /\
    GenTree (Tree.depth (treeRef app)) (Tree.branchingFactor (treeRef app))
            None (Tree.treeType (treeRef app)) 1 lo hi root /\
    NoDup (ids root).
Proof.
  intros (_ & _ & _ & root & lo & hi & Hr & HT & _).
  exists root, lo, hi. splits; auto.
  exact (proj1 (GenTree_NoDup _ _) _ _ _ _ _ _ HT).
Qed.

Lemma blank_untouched s n : blank s n -> untouched s n.
Proof.
  intros H m Hm. split.
  - apply (H m __pruned Hm eq_refl).
  - apply (H m __value Hm eq_refl).
Qed.

Lemma heapInv_transfer (app app' : App) (root : TreeNode) :
  heapInv app ->
  Tree.rootNode (treeRef app) = Some root ->
  Tree.rootNode (treeRef app') = Some root ->
  (forall s, alphaBeta (treeRef app') s = alphaBeta (treeRef app) s) ->
  globalNodeId (gen app') = globalNodeId (gen app) ->
  match actionRef app, actionRef app' with
  | None, None => True
  | Some q, Some q' =>
      ActionListQueue.actionListQueue q' = ActionListQueue.actionListQueue q /\
      (ActionListQueue.inAction q' = false ->
       ActionListQueue.lastAction q' = (-1)%Z)
  | _, _ => False
  end ->
  sameProblem root (heap (gen app)) (heap (gen app')) ->
  heapInv app'.
Proof.
  intros [Hf H] Hr Hr' Hab Hg Ha [Hsh Hlv].
  destruct (H root Hr) as (Hid & Hlf & Hcase). split.
  - intros o k Hk Hgt. rewrite (Hsh o k Hk). apply Hf; [exact Hk|].
    now rewrite <- Hg.
  - intros root' Hr2. rewrite Hr' in Hr2. injection Hr2 as <-.
    split; [|split].
    + intros m Hm. rewrite Hg. now apply Hid.
    + intros m Hm Hl. rewrite (Hlv m Hm Hl). now apply Hlf.
    + destruct (actionRef app) as [q|], (actionRef app') as [q'|];
        try contradiction.
      * destruct Ha as [Hq Hcur].
        destruct Hcase as (_ & s0 & q0 & s1 & Hu & Hl0 & E & Hq0 & Hs1).
        split; [exact Hcur|].
        exists s0, q0, s1. splits; auto.
        -- now rewrite Hab.
        -- congruence.
        -- intros o k Hk. now rewrite (Hsh o k Hk), (Hs1 o k Hk).
      * intros m k Hm Hk. rewrite !(Hsh _ k Hk). now apply Hcase.
Qed.

Lemma heapInv_same_log (app : App) (root : TreeNode) :
  heapInv app -> Tree.rootNode (treeRef app) = Some root ->
  match actionRef app, actionRef app with
  | None, None => True
  | Some q, Some q' =>
      ActionListQueue.actionListQueue q' = ActionListQueue.actionListQueue q /\
      (ActionListQueue.inAction q' = false ->
       ActionListQueue.lastAction q' = (-1)%Z)
  | _, _ => False
  end.
Proof.
  intros [_ H] Hr. destruct (H root Hr) as (_ & _ & Hcase).
  destruct (actionRef app); [|exact I]. split; [reflexivity | apply Hcase].
Qed.

Section AppHeap.

Variable randomRound : nat -> Z -> Z.

Lemma regenerateTree_heapInv (app app' : App) :
  3 <= Tree.depth (treeRef app) ->
  (Tree.treeType (treeRef app) = maxNode \/
   Tree.treeType (treeRef app) = minNode) ->
  shadowFresh (gen app) ->
  regenerateTree randomRound app = Some app' -> heapInv app'.
Proof.
  intros Hd Hk Hf. unfold regenerateTree.
  destruct (generated_tree randomRound (Tree.depth (treeRef app)) (-20) 20
              (Tree.branchingFactor (treeRef app))
              (Tree.treeType (treeRef app)) (Tree.depth (treeRef app))
              (gen app)) as (root & st' & E & HT & HW & HF & _);
    [lia|lia|].
  rewrite E. intros [= <-]. unfold heapInv. cbn.
  assert (Hids : forall m, In m (nodes root) ->
                   globalNodeId (gen app) < id m <= globalNodeId st').
  { intros m Hm. exact (GenTree_ids _ _ _ _ _ _ _ _ _ HT Hm). }
  assert (Hnew : forall o k, visible k = false ->
                   globalNodeId (gen app) < objId o ->
                   heap st' o k = JUndefined).
  { intros o k Hv Hgt. rewrite HW; [now apply Hf|].
    right. right. destruct o, k; cbn in *; congruence. }
  split.
  - intros o k Hv Hgt. apply Hnew; [exact Hv|].
    pose proof (Hids root (nodes_self root)).
    assert (globalNodeId (gen app) <= globalNodeId st') by lia. lia.
  - intros root' [= <-]. split; [|split].
    + intros m Hm. apply (Hids m Hm).
    + intros m Hm Hl. apply (HF m Hm).
      exact (proj2 (proj1 (GenTree_kinds _ _) _ _ _ _ _ _ HT Hk) m Hm Hl).
    + intros m k Hm Hv. split; apply Hnew; auto;
        cbn; apply (Hids m Hm).
Qed.

Lemma ensureActionRef_heapInv (app : App) aq app1 :
  appInv app -> heapInv app ->
  ensureActionRef app = Some (aq, app1) ->
  heapInv app1.
Proof.
  intros Hinv [Hf H]. unfold ensureActionRef, ensureAction.
  destruct (appInv_root app Hinv) as (root & lo & hi & Hr & HT & Hnd).
  destruct (H root Hr) as (Hid & Hlf & Hcase).
  destruct (actionRef app) as [q|] eqn:Ea.
  - intros [= <- <-]. split; [exact Hf|]. cbn.
    intros root' Hr'. rewrite Hr in Hr'. injection Hr' as <-.
    split; [exact Hid|split; [exact Hlf|exact Hcase]].
  - destruct (alphaBeta (treeRef app) (heap (gen app)))
      as [[q0 s1]|] eqn:E; [|discriminate].
    intros [= <- <-].
    destruct (alphaBeta_queue _ root _ _ _ Hr E) as (r & Er & _).
    pose proof (abActions_touches _ _ _ _ _ _ _ _ Er) as Ht.
    split; unfold shadowFresh; cbn.
    + intros o k Hk Hgt. rewrite Ht; [now apply Hf|].
      intros Hs.
      assert (Hin : In (objId o) (ids root)).
      { destruct o; cbn in Hs; destruct Hs as [Hi _]; cbn; [exact Hi|].
        rewrite ids_unfold. now right. }
      apply in_ids_nodes in Hin. destruct Hin as (m & Hm & Em).
      specialize (Hid m Hm). lia.
    + intros root' Hr'. rewrite Hr in Hr'. injection Hr' as <-.
      split; [|split].
      * exact Hid.
      * intros m Hm Hl. rewrite (abActions_framed _ _ _ _ _ _ _ _ Er)
          by reflexivity. now apply Hlf.
      * destruct (alphaBeta_queue _ root _ _ _ Hr E) as (_ & _ & _ & _ & Hla).
        split; [intros _; exact Hla|].
        exists (heap (gen app)), q0, s1. splits; auto.
        intros o k _. reflexivity.
Qed.

Lemma withLog_heapInv
    (f : ActionListQueue.t -> Store -> option (ActionListQueue.t * Store))
    (app app' : App) :
  (forall q s q' s',
      f q s = Some (q', s') ->
      ActionListQueue.actionListQueue q' = ActionListQueue.actionListQueue q /\
      ActionListQueue.inAction q' = ActionListQueue.inAction q /\
      (ActionListQueue.inAction q = false -> q' = q) /\
      forall o k,
        untargetedBy (ActionListQueue.actionListQueue q) o k ->
        s' o k = s o k) ->
  appInv app -> heapInv app ->
  withLog f app = Some app' -> heapInv app'.
Proof.
  intros Hf Hinv Hh. unfold withLog.
  destruct (appInv_root app Hinv) as (root & lo & hi & Hr & HT & Hnd).
  destruct (actionRef app) as [q|] eqn:Ea; [|now intros [= <-]].
  destruct (f q (heap (gen app))) as [[q' s']|] eqn:E; [|discriminate].
  intros [= <-].
  destruct (appInv_zone app q root Hinv Ea Hr) as [_ Hz].
  destruct (Hf q _ q' s' E) as (Hq & Hi & Hsame & Hun).
  apply (heapInv_transfer app _ root Hh Hr); cbn; auto.
  - rewrite Ea. split; [exact Hq|]. intros Hoff. rewrite Hi in Hoff.
    rewrite (Hsame Hoff).
    destruct Hh as [_ Hh]. destruct (Hh root Hr) as (_ & _ & Hcase).
    rewrite Ea in Hcase. now apply Hcase.
  - apply outside_sameProblem. intros o k Hp.
    apply Hun. now apply (zone_untargeted root).
Qed.

Lemma resetTree_sameProblem root h :
  NoDup (ids root) -> sameProblem root h (resetTree (Some root) h).
Proof.
  intros Hnd. cbn [resetTree].
  apply (modifies_sameProblem (resetTouches root));
    [apply resetSubTree_modifies|].
  intros o k. now apply resetTouches_not_problem.
Qed.

Lemma setSolution_sameProblem root h :
  NoDup (ids root) -> sameProblem root h (setSolution (Some root) h).
Proof.
  intros Hnd. cbn [setSolution].
  apply (modifies_sameProblem (solutionTouches root));
    [apply setSolutionForSubTree_modifies|].
  intros o k. now apply solutionTouches_not_problem.
Qed.

Lemma toggleABVisual_heapInv (app app' : App) :
  appInv app -> heapInv app ->
  toggleABVisual app = Some app' -> heapInv app'.
Proof.
  intros Hinv Hh. unfold toggleABVisual.
  destruct (ensureActionRef_inv app Hinv)
    as (aq & app1 & E1 & Hinv1 & Ea & Ht & _).
  rewrite E1.
  pose proof (ensureActionRef_heapInv app aq app1 Hinv Hh E1) as Hh1.
  destruct (appInv_root app1 Hinv1) as (root & lo & hi & Hr & HT & Hnd).
  destruct (appInv_zone app1 aq root Hinv1 Ea Hr) as [_ Hz].
  rewrite Hr.
  destruct (ActionListQueue.inAction aq) eqn:Ei.
  - destruct (ActionListQueue.goToBeginning aq _) as [[q' s']|] eqn:E;
      [|discriminate].
    intros [= <-].
    assert (Hc : cursorInRange aq).
    { destruct Hinv1 as (_ & _ & _ & r' & _ & _ & _ & _ & Hq).
      rewrite Ea in Hq. apply Hq. }
    pose proof E as E'. rewrite (goToBeginning_unplay_at aq _ Hc Ei) in E'.
    injection E' as <- _.
    apply (heapInv_transfer app1 _ root Hh1 Hr); cbn; auto.
    + rewrite Ea. cbn. auto.
    + eapply sameProblem_trans; [apply (resetTree_sameProblem root _ Hnd)|].
      apply outside_sameProblem. intros o k Hp.
      apply (goToBeginning_untargeted o k aq _ _ s' E).
      now apply (zone_untargeted root).
  - intros [= <-].
    apply (heapInv_transfer app1 _ root Hh1 Hr); cbn; auto.
    + rewrite Ea. cbn. split; [reflexivity | discriminate].
    + apply (resetTree_sameProblem root _ Hnd).
Qed.

Lemma handle_heapInv (ev : Event) (app app' : App) :
  appInv app -> heapInv app ->
  handle randomRound ev app = Some app' -> heapInv app'.
Proof.
  intros Hinv Hh.
  pose proof Hinv as (Hd & Hb & Hk & _).
  destruct (appInv_root app Hinv) as (root & lo & hi & Hr & HT & Hnd).
  destruct ev; cbn [handle].
  - apply regenerateTree_heapInv; auto. apply Hh.
  - apply regenerateTree_heapInv; cbn; auto. apply Hh.
  - apply regenerateTree_heapInv; cbn; auto; [lia | apply Hh].
  - apply regenerateTree_heapInv; cbn; auto; [|apply Hh].
    destruct Hk as [-> | ->]; cbn; auto.
  - now apply toggleABVisual_heapInv.
  - apply withLog_heapInv; auto. intros q s q' s' E.
    destruct (ActionListQueue.stepForward q s) as [[[r q1] s1]|] eqn:E1;
      [|discriminate].
    injection E as <- <-.
    destruct (stepForward_keeps q s r q1 s1 E1) as (_ & Hq & Hi).
    splits; auto.
    + intros Hoff. rewrite stepForward_noop in E1 by (left; exact Hoff).
      now injection E1 as _ <- _.
    + intros o k. exact (stepForward_untargeted o k q s r q1 s1 E1).
  - apply withLog_heapInv; auto. intros q s q' s' E.
    destruct (ActionListQueue.stepBackward q s) as [[[r q1] s1]|] eqn:E1;
      [|discriminate].
    injection E as <- <-.
    destruct (stepBackward_keeps q s r q1 s1 E1) as (_ & Hq & Hi).
    splits; auto.
    + intros Hoff. rewrite stepBackward_noop in E1 by (left; exact Hoff).
      now injection E1 as _ <- _.
    + intros o k. exact (stepBackward_untargeted o k q s r q1 s1 E1).
  - apply withLog_heapInv; auto. intros q s q' s' E.
    assert (Hkeep : ActionListQueue.actionListQueue q'
                 = ActionListQueue.actionListQueue q /\
                 ActionListQueue.inAction q' = ActionListQueue.inAction q).
    { unfold ActionListQueue.goToEnd in E.
      destruct (ActionListQueue.inAction q) eqn:Ei; cbn [negb] in E.
      - destruct (whileStepForward_keeps _ _ _ _ _ E) as (_ & ? & ?).
        split; congruence.
      - injection E as <- _. auto. }
    destruct Hkeep as [Hq Hi]. splits; auto.
    + intros Hoff. unfold ActionListQueue.goToEnd in E.
      rewrite Hoff in E. now injection E as <- _.
    + intros o k. exact (goToEnd_untargeted o k q s q' s' E).
  - apply withLog_heapInv; auto. intros q s q' s' E.
    assert (Hkeep : ActionListQueue.actionListQueue q'
                 = ActionListQueue.actionListQueue q /\
                 ActionListQueue.inAction q' = ActionListQueue.inAction q).
    { unfold ActionListQueue.goToBeginning in E.
      destruct (ActionListQueue.inAction q) eqn:Ei; cbn [negb] in E.
      - destruct (whileStepBackward_keeps _ _ _ _ _ E) as (_ & ? & ?).
        split; congruence.
      - injection E as <- _. auto. }
    destruct Hkeep as [Hq Hi]. splits; auto.
    + intros Hoff. unfold ActionListQueue.goToBeginning in E.
      rewrite Hoff in E. now injection E as <- _.
    + intros o k. exact (goToBeginning_untargeted o k q s q' s' E).
  - unfold clickEdge. destruct (Tree.mutable (treeRef app));
      intros [= <-]; [|exact Hh].
    apply (heapInv_transfer app _ root Hh Hr); cbn; auto;
      [apply (heapInv_same_log app root Hh Hr)|].
    unfold onEdgeToggle. apply outside_sameProblem.
    intros o k [Hv | (_ & _ & _ & _ & ->)]; apply write_other; right;
      [intros <-|]; discriminate.
  - unfold onCheckAnswer.
    destruct (ensureActionRef app) as [[aq app1]|] eqn:E1; [|discriminate].
    intros [= <-].
    pose proof (ensureActionRef_heapInv app aq app1 Hinv Hh E1) as Hh1.
    exact Hh1.
  - unfold onResetTree. intros [= <-].
    apply (heapInv_transfer app _ root Hh Hr); cbn; auto;
      [apply (heapInv_same_log app root Hh Hr)|].
    rewrite Hr. now apply resetTree_sameProblem.
  - unfold onShowSolution.
    destruct (ensureActionRef_inv app Hinv)
      as (aq & app1 & E1 & Hinv1 & Ea & Ht & _).
    rewrite E1. intros [= <-].
    pose proof (ensureActionRef_heapInv app aq app1 Hinv Hh E1) as Hh1.
    rewrite Ht in *.
    apply (heapInv_transfer app1 _ root Hh1); cbn; auto;
      try (now rewrite Ht);
      [apply (heapInv_same_log app1 root Hh1); now rewrite Ht|].
    rewrite Hr. now apply setSolution_sameProblem.
Qed.

Lemma handleAll_heapInv (evs : list Event) : forall app app' : App,
  appInv app -> heapInv app ->
  handleAll randomRound evs app = Some app' ->
  appInv app' /\ heapInv app'.
Proof.
  induction evs as [|ev evs IH]; intros app app' Hinv Hh; cbn [handleAll].
  - intros [= <-]. auto.
  - destruct (handle_inv randomRound ev app Hinv) as (app1 & E & Hinv1).
    rewrite E. apply IH; [exact Hinv1|].
    exact (handle_heapInv ev app app1 Hinv Hh E).
Qed.

Lemma session_heapInv (evs : list Event) (app : App) :
  handleAll randomRound (Regenerate :: evs) mountedApp = Some app ->
  appInv app /\ heapInv app.
Proof.
  cbn [handleAll handle].
  destruct (regenerateTree_inv randomRound mountedApp
              (le_n 3) (le_n 2) (or_introl eq_refl)) as (app1 & E & Hinv1).
  rewrite E. apply handleAll_heapInv; [exact Hinv1|].
  apply (regenerateTree_heapInv mountedApp app1 (le_n 3) (or_introl eq_refl));
    [|exact E].
  intros o k _ _. reflexivity.
Qed.

End AppHeap.

(** In a state the handlers can reach, Show Solution followed by Check
    Answer, with what the search left behind. *)
Lemma show_then_check (app : App) :
  appInv app -> heapInv app ->
  exists (app1 app2 : App) (root : TreeNode) (s1 : Store),
    onShowSolution app = Some app1 /\
    onCheckAnswer app1 = Some app2 /\
    treeRef app2 = treeRef app /\
    Tree.rootNode (treeRef app2) = Some root /\
    (forall m, In m (nodes root) ->
       nodeShape (Tree.depth (treeRef app))
                 (Tree.branchingFactor (treeRef app)) m) /\
    sameShadow s1 (heap (gen app2)) /\
    (forall x, In x (nodes root) -> searched s1 x \/ passedOver s1 x) /\
    searched s1 root /\
    (forall c, In c (children root) -> searched s1 c) /\
    (correct app2 = Some true <->
     forall m, In m (nodes root) -> isLeaf m = false ->
               heap (gen app2) (OEdge (id m)) __pruned <> JBool true).
Proof.
  intros Hinv Hh.
  destruct (ensureActionRef_inv app Hinv)
    as (aq & app1 & E1 & Hinv1 & Ea & Ht & _).
  pose proof (ensureActionRef_heapInv app aq app1 Hinv Hh E1) as [_ Hh1].
  pose proof Hinv1 as (Hd & Hb & Hk & root & lo & hi & Hr & HT & _).
  destruct (Hh1 root Hr) as (_ & _ & Hcase). rewrite Ea in Hcase.
  destruct Hcase as (_ & s0 & q0 & s1 & Hun & Hlf & Eab & _ & Hsh).
  destruct (alphaBeta_traced (treeRef app1) root lo hi s0 q0 s1 Hr HT
              ltac:(lia) ltac:(lia) Hk Hlf (blank_untouched _ _ Hun) Eab)
    as (Htidy & Hall & Hself & Hch).
  pose proof (proj1 (GenTree_NoDup _ _) _ _ _ _ _ _ HT) as Hnd.
  destruct (setSolution_sameProblem root (heap (gen app1)) Hnd) as [Hsol _].
  unfold onShowSolution. rewrite E1.
  eexists _, _, root, s1. split; [reflexivity|].
  unfold onCheckAnswer, ensureActionRef, ensureAction.
  cbn [actionRef treeRef gen heap set_heap correct]. rewrite Ea.
  split; [reflexivity|]. cbn [actionRef treeRef gen heap set_heap correct].
  rewrite Hr.
  assert (Hsh' : sameShadow s1 (setSolution (Some root) (heap (gen app1)))).
  { intros o k Hv. now rewrite (Hsol o k Hv), (Hsh o k Hv). }
  splits; auto.
  - rewrite <- Ht.
    exact (proj2 (proj2 (proj2
             (proj1 (GenTree_shape _ _) _ _ _ _ _ _ HT (le_n 1))))).
  - split.
    + intros H m Hm Hl. injection H as H.
      rewrite (Hsol _ __pruned eq_refl).
      exact (proj1 (traced_check root s1 (heap (gen app1)) Htidy Hall Hsh)
               H m Hm Hl).
    + intros H. f_equal.
      apply (proj2 (traced_check root s1 (heap (gen app1)) Htidy Hall Hsh)).
      intros m Hm Hl. rewrite <- (Hsol _ __pruned eq_refl). now apply H.
Qed.



(** X22.  Show Solution followed by Check Answer, in any state the
    handlers can reach: neither raises, and the answer is Correct exactly
    when no edge into a node that is not a leaf is shadow-pruned, that
    is, when the search passed over no node that is not a leaf.  Such a
    node has no shadow value; Show Solution gives it the value [null],
    which Check Answer compares with [undefined]. *)
Theorem show_solution_is_correct_iff_no_inner_node_was_pruned :
  forall (randomRound : nat -> Z -> Z) (evs : list Event) (app : App),
    handleAll randomRound (Regenerate :: evs) mountedApp = Some app ->
    exists (app1 app2 : App) (root : TreeNode),
      onShowSolution app = Some app1 /\
      onCheckAnswer app1 = Some app2 /\
      Tree.rootNode (treeRef app2) = Some root /\
      (correct app2 = Some true \/ correct app2 = Some false) /\
      (correct app2 = Some true <->
       forall m, In m (nodes root) -> isLeaf m = false ->
                 heap (gen app2) (OEdge (id m)) __pruned <> JBool true).
Proof.
  intros randomRound evs app E.
  destruct (session_heapInv randomRound evs app E) as [Hinv Hh].
  destruct (show_then_check app Hinv Hh)
    as (app1 & app2 & root & s1 & E1 & E2 & _ & Hr & _ & _ & _ & _ & _ & Hiff).
  exists app1, app2, root. splits; auto.
  unfold onCheckAnswer in E2.
  destruct (ensureActionRef app1) as [[aq app1']|]; [|discriminate].
  injection E2 as <-. cbn [correct].
  destruct (checkAnswer _ _); auto.
Qed.

(** The instance of [show_solution_is_correct_iff_no_inner_node_was_pruned]
    for a tree of depth 4 in which the search passes over a node of depth
    3: after Show Solution, Check Answer says Incorrect. *)
Lemma show_solution_is_correct_iff_no_inner_node_was_pruned_witness :
  exists (app app1 app2 : App) (root : TreeNode),
    handleAll deepDraws [Regenerate; IncrDepth 1] mountedApp = Some app /\
    onShowSolution app = Some app1 /\
    onCheckAnswer app1 = Some app2 /\
    Tree.rootNode (treeRef app2) = Some root /\
    correct app2 = Some false /\
    ~ (forall m, In m (nodes root) -> isLeaf m = false ->
                 heap (gen app2) (OEdge (id m)) __pruned <> JBool true).
Proof.
  destruct (handleAll deepDraws [Regenerate; IncrDepth 1] mountedApp)
    as [app|] eqn:E; [|vm_compute in E; discriminate].
  destruct (show_solution_is_correct_iff_no_inner_node_was_pruned
              deepDraws [IncrDepth 1] app E)
    as (app1 & app2 & root & E1 & E2 & Hr & _ & Hiff).
  assert (Hc : correct app2 = Some false).
  { vm_compute in E. injection E as <-.
    vm_compute in E1. injection E1 as <-.
    vm_compute in E2. injection E2 as <-. reflexivity. }
  exists app, app1, app2, root. splits; auto.
  intros H. apply Hiff in H. rewrite Hc in H. discriminate.
Defined.

(** X23.  With the declared depth at 3, as it is when the application
    starts, Show Solution followed by Check Answer always says Correct,
    whatever was done before: the only nodes that are not leaves are the
    root and its children, and the search passes over none of them. *)
Theorem show_solution_is_correct_at_depth_3 :
  forall (randomRound : nat -> Z -> Z) (evs : list Event) (app : App),
    handleAll randomRound (Regenerate :: evs) mountedApp = Some app ->
    Tree.depth (treeRef app) = 3 ->
    exists app1 app2 : App,
      onShowSolution app = Some app1 /\
      onCheckAnswer app1 = Some app2 /\
      correct app2 = Some true.
Proof.
  intros randomRound evs app E Hd3.
  destruct (session_heapInv randomRound evs app E) as [Hinv Hh].
  destruct (show_then_check app Hinv Hh)
    as (app1 & app2 & root & s1 & E1 & E2 & _ & Hr & Hsh & Hss & _ & Hself
        & Hch & Hiff).
  exists app1, app2. splits; auto. apply Hiff. intros m Hm Hl.
  rewrite (Hss _ __pruned eq_refl).
  assert (Hs : searched s1 m); [|destruct Hs as [-> _]; discriminate].
  apply nodes_inv in Hm. destruct Hm as [-> | (c & Hc & Hm)]; [exact Hself|].
  apply nodes_inv in Hm. destruct Hm as [-> | (c' & Hc' & Hm)]; [auto|].
  exfalso.
  destruct (shape_children _ _ root c (Hsh root (nodes_self root)) Hc)
    as (_ & Hdc & _).
  assert (Hcn : In c (nodes root))
    by (apply (nodes_child root c c Hc), nodes_self).
  destruct (shape_children _ _ c c' (Hsh c Hcn) Hc') as (Hlt & Hdc' & _).
  assert (Hc'n : In c' (nodes root))
    by (apply (nodes_child root c c' Hc), (nodes_child c c' c' Hc'),
          nodes_self).
  destruct (Hsh c' Hc'n) as (Hd' & _ & Hleaf & _).
  assert (Hroot1 : 1 <= depth root) by apply (Hsh root (nodes_self root)).
  destruct Hleaf as [Hty Hnil]; [lia|].
  apply nodes_inv in Hm. rewrite Hnil in Hm.
  destruct Hm as [-> | (x & [] & _)].
  unfold isLeaf in Hl. rewrite Hty in Hl. discriminate.
Qed.

(** The instance of [show_solution_is_correct_at_depth_3] for the
    scenario, after the animation was played to the end and stopped. *)
Lemma show_solution_is_correct_at_depth_3_witness :
  exists app app1 app2 : App,
    handleAll scenarioDraws
      [Regenerate; ToggleABVisual; GoToEnd; ToggleABVisual] mountedApp
    = Some app /\
    Tree.depth (treeRef app) = 3 /\
    onShowSolution app = Some app1 /\
    onCheckAnswer app1 = Some app2 /\
    correct app2 = Some true.
Proof.
  destruct (handleAll scenarioDraws
              [Regenerate; ToggleABVisual; GoToEnd; ToggleABVisual]
              mountedApp) as [app|] eqn:E; [|vm_compute in E; discriminate].
  assert (Hd : Tree.depth (treeRef app) = 3).
  { vm_compute in E. injection E as <-. reflexivity. }
  destruct (show_solution_is_correct_at_depth_3 scenarioDraws
              [ToggleABVisual; GoToEnd; ToggleABVisual] app E Hd)
    as (app1 & app2 & E1 & E2 & Hc).
  exists app, app1, app2. auto.
Defined.

(* ------------------------------------------------------------------ *)
(** *** The log as a record of the search *)

Lemma lastNew_app acts1 acts2 o k :
  lastNew (acts1 ++ acts2) o k
  = match lastNew acts2 o k with
    | Some v => Some v
    | None => lastNew acts1 o k
    end.
Proof.
  unfold lastNew. rewrite fold_left_app.
  generalize (fold_left
                (fun r act => if targets o k act then Some (newVal act) else r)
                acts1 None).
  induction acts2 as [|a acts2 IH] using rev_ind; intros r0; [reflexivity|].
  rewrite !fold_left_app. cbn [fold_left].
  destruct (targets o k a); [reflexivity | apply IH].
Qed.

Lemma lastNew_one a o k :
  lastNew [a] o k = if targets o k a then Some (newVal a) else None.
Proof. reflexivity. Qed.

Lemma lastNew_In acts o k v :
  lastNew acts o k = Some v ->
  exists a, In a acts /\ targets o k a = true /\ newVal a = v.
Proof.
  induction acts as [|a acts IH] using rev_ind; [discriminate|].
  rewrite lastNew_app, lastNew_one.
  destruct (targets o k a) eqn:E.
  - intros [= <-]. exists a. split; [apply in_or_app; right; now left | auto].
  - intros H. destruct (IH H) as (a' & Ha' & ? & ?).
    exists a'. split; [apply in_or_app; now left | auto].
Qed.

Lemma lastNew_silent acts o k :
  (forall a, In a acts -> object a = Some o -> key a <> k) ->
  lastNew acts o k = None.
Proof.
  intros H. destruct (lastNew acts o k) as [v|] eqn:E; [|reflexivity].
  destruct (lastNew_In acts o k v E) as (a & Ha & Ht & _).
  apply targets_spec in Ht. destruct Ht as [Ho Hk].
  now destruct (H a Ha Ho).
Qed.

Lemma applyAll_at acts : forall s o k,
  applyAll acts s o k
  = match lastNew acts o k with
    | Some v => v
    | None => s o k
    end.
Proof.
  unfold applyAll.
  induction acts as [|a acts IH] using rev_ind; intros s o k; [reflexivity|].
  rewrite fold_left_app, lastNew_app, lastNew_one. cbn [fold_left].
  rewrite apply_at. destruct (targets o k a); [reflexivity | apply IH].
Qed.

Lemma playAll_at steps : forall s o k,
  playAll steps s o k
  = match lastNew (concat steps) o k with
    | Some v => v
    | None => s o k
    end.
Proof.
  unfold playAll.
  induction steps as [|st steps IH]; intros s o k; [reflexivity|].
  cbn [fold_left concat]. rewrite IH, lastNew_app, applyAll_at.
  now destruct (lastNew (concat steps) o k).
Qed.

Lemma shadowOf_inj k1 k2 k' :
  shadowOf k1 = Some k' -> shadowOf k2 = Some k' -> k1 = k2.
Proof. destruct k1, k2; cbn; congruence. Qed.

Lemma shadowOf_shadow k k' : shadowOf k = Some k' -> visible k' = false.
Proof. destruct k; cbn; intros [= <-]; reflexivity. Qed.

Lemma tracks_nil s : tracks [] s s.
Proof. intros o k k' _. reflexivity. Qed.

Lemma tracks_app acts1 acts2 s s1 s2 :
  tracks acts1 s s1 -> tracks acts2 s1 s2 -> tracks (acts1 ++ acts2) s s2.
Proof.
  intros H1 H2 o k k' Hk. rewrite lastNew_app.
  specialize (H1 o k k' Hk). specialize (H2 o k k' Hk).
  destruct (lastNew acts2 o k); [exact H2|].
  destruct (lastNew acts1 o k); [|congruence].
  destruct H1 as [E R]. split; [congruence | exact R].
Qed.

Lemma tracks_ext acts acts' s s' :
  (forall o k k', shadowOf k = Some k' ->
                  lastNew acts' o k = lastNew acts o k) ->
  tracks acts s s' -> tracks acts' s s'.
Proof. intros He H o k k' Hk. rewrite (He o k k' Hk). now apply H. Qed.

Lemma tracks_silent acts s :
  (forall a, In a acts -> shadowOf (key a) = None) -> tracks acts s s.
Proof.
  intros H o k k' Hk. rewrite lastNew_silent; [reflexivity|].
  intros a Ha _ E. pose proof (H a Ha) as Hn. rewrite E in Hn. congruence.
Qed.

Lemma tracks_write s o k k' old v :
  shadowOf k = Some k' -> recordable k v ->
  tracks [mkAction (Some o) k old v] s (write s o k' v).
Proof.
  intros Hk Hr o2 k2 k2' Hk2. rewrite lastNew_one.
  destruct (targets o2 k2 _) eqn:Et.
  - apply targets_spec in Et. cbn in Et. destruct Et as [[= <-] <-].
    assert (k2' = k') as -> by congruence.
    split; [apply write_same | exact Hr].
  - apply write_other.
    destruct (write_cases s o k' v o2 k2') as [(-> & -> & _) | [Hne _]];
      [|exact Hne].
    rewrite (shadowOf_inj _ _ _ Hk Hk2) in Et.
    assert (E : targets o2 k2 (mkAction (Some o2) k2 old v) = true)
      by (apply targets_spec; auto).
    congruence.
Qed.

Lemma concat_middle {A : Type} (l : list (list A)) x l' :
  concat (l ++ [x] ++ l') = concat l ++ x ++ concat l'.
Proof. now rewrite concat_app. Qed.

Lemma silent_enterLeaf n a : In a (enterLeaf n) -> shadowOf (key a) = None.
Proof. intros [<- | [<- | []]]; reflexivity. Qed.

Lemma silent_exitLeaf n a : In a (exitLeaf n) -> shadowOf (key a) = None.
Proof. intros [<- | []]; reflexivity. Qed.

Lemma silent_exitInner n a : In a (exitInner n) -> shadowOf (key a) = None.
Proof. intros [<- | [<- | []]]; reflexivity. Qed.

Lemma tracks_enterInner n oa a ob b s :
  tracks (enterInner n oa (JNum a) ob (JNum b)) s
         (write (write s (ONode (id n)) __alpha (JNum a))
                (ONode (id n)) __beta (JNum b)).
Proof.
  unfold enterInner.
  apply (tracks_app _ _ s s); [apply tracks_silent, silent_enterLeaf|].
  apply (tracks_app [_] [_] s (write s (ONode (id n)) __alpha (JNum a)));
    apply tracks_write; cbn; eauto.
Qed.

Lemma pruneInner_tracks bFac (s : Store) n :
  forall acc,
    tracks (fst acc) s (snd acc) ->
    tracks (fst (pruneInner bFac n acc)) s (snd (pruneInner bFac n acc)).
Proof.
  induction n as [n IH] using TreeNode_ind'. intros acc H.
  rewrite pruneInner_eq.
  apply (forChildren_rel
           (fun x y => tracks (fst x) s (snd x) -> tracks (fst y) s (snd y)));
    auto.
  destruct (edgeToParent n) as [e|]; [|exact H]. cbn [fst snd].
  apply (tracks_app _ _ s (snd acc)); [exact H|].
  now apply tracks_write.
Qed.

Lemma pruneChild_tracks bFac node child st :
  exists acts,
    pendingLog (pruneChild bFac node child st) = pendingLog st ++ acts /\
    tracks acts (l_store st) (l_store (pruneChild bFac node child st)).
Proof.
  unfold pruneChild, generatePruneActionList, pendingLog.
  destruct child as [c|].
  - pose proof (pruneInner_tracks bFac (l_store st) c ([], l_store st)
                  (tracks_nil _)) as H.
    destruct (pruneInner bFac c ([], l_store st)) as [acts s1].
    cbn [fst snd l_store l_childActionsList l_lastChildExitActions] in *.
    eexists. rewrite <- !app_assoc. split; [reflexivity|].
    apply (tracks_app _ _ _ s1); [exact H|]. now apply tracks_write.
  - cbn [l_store l_childActionsList l_lastChildExitActions app].
    eexists. rewrite <- !app_assoc. split; [reflexivity|].
    now apply tracks_write.
Qed.

Lemma afterChild_tracks node isMax res s1 st rv :
  returnVal res = JNum rv -> numeric st ->
  exists sv,
    l_childActionsList (afterChild node isMax res s1 st)
    = l_childActionsList st
      ++ [(enterActions res
           ++ (if Nat.eqb (List.length (childActionsList res)) 0
               then sv else []))
          ++ l_lastChildExitActions st]
      ++ childActionsList res /\
    l_lastChildExitActions (afterChild node isMax res s1 st)
    = exitActions res
      ++ (if Nat.eqb (List.length (childActionsList res)) 0 then [] else sv) /\
    Forall (svOK node) sv /\
    tracks sv s1 (l_store (afterChild node isMax res s1 st)) /\
    numeric (afterChild node isMax res s1 st).
Proof.
  intros Hr ([a Ha] & [b Hb] & [v Hv]).
  unfold afterChild, numeric.
  cbn [l_childActionsList l_lastChildExitActions l_store l_a l_b l_curVal].
  rewrite Hr, Ha, Hb, Hv.
  set (better := if isMax then js_gt (JNum rv) (JNum v)
                 else js_lt (JNum rv) (JNum v)).
  set (tighter := if isMax then js_gt (JNum rv) (JNum a)
                  else js_lt (JNum rv) (JNum b)).
  set (s2 := if better then write s1 (ONode (id node)) __value (JNum rv)
             else s1).
  set (sv1 := if better
              then [mkAction (Some (ONode (id node))) value
                             (s1 (ONode (id node)) __value) (JNum rv)]
              else []).
  assert (H1 : tracks sv1 s1 s2 /\ Forall (svOK node) sv1).
  { subst sv1 s2. destruct better.
    - split; [apply tracks_write; cbn; eauto|].
      repeat constructor; cbn; auto.
    - split; [apply tracks_nil | constructor]. }
  destruct H1 as [T1 O1].
  set (bound := if isMax then alpha else beta).
  set (sbound := if isMax then __alpha else __beta).
  set (sv := if tighter
             then sv1 ++ [mkAction (Some (ONode (id node))) bound
                                   (s2 (ONode (id node)) sbound) (JNum rv)]
             else sv1).
  set (s3 := if tighter then write s2 (ONode (id node)) sbound (JNum rv)
             else s2).
  assert (H2 : tracks sv s1 s3 /\ Forall (svOK node) sv).
  { subst sv s3. destruct tighter; [|now split]. split.
    - apply (tracks_app _ _ s1 s2); [exact T1|].
      apply tracks_write; [subst bound sbound; now destruct isMax|].
      subst bound. destruct isMax; cbn; eauto.
    - apply Forall_app. split; [exact O1|].
      constructor; [|constructor]. split; [reflexivity|]. cbn.
      subst bound. destruct isMax; auto. }
  destruct H2 as [T2 O2].
  exists sv.
  destruct (childActionsList res) as [|x l] eqn:E;
    cbn [List.length Nat.eqb negb]; rewrite ?app_nil_r;
    (split; [reflexivity|]); (split; [reflexivity|]);
    (split; [exact O2|]); (split; [exact T2|]);
    destruct isMax, tighter, better; cbn; splits; eauto.
Qed.

Section LogRecord.

Variable bFac : nat.
Variable s0 : Store.

Lemma missingChildren_tracks node n : forall st st' P s,
  tracks (P ++ pendingLog st) s (l_store st) ->
  missingChildren bFac node n st = Some st' ->
  tracks (P ++ pendingLog st') s (l_store st') /\
  l_curVal st' = l_curVal st.
Proof.
  induction n as [|n IH]; intros st st' P s H; cbn [missingChildren].
  - intros [= <-]. auto.
  - destruct (l_pruneRest st); [|discriminate]. intros E.
    destruct (pruneChild_tracks bFac node None st) as (acts & El & Ht).
    destruct (IH (pruneChild bFac node None st) st' P s) as [H1 H2];
      [|exact E|].
    + rewrite El, app_assoc. now apply (tracks_app _ _ s (l_store st)).
    + split; [exact H1|]. rewrite H2.
      apply (pruneChild_fields bFac node None st).
Qed.

Lemma childLoop_tracks node isMax cs :
  Forall (childRecorded bFac s0) cs ->
  (forall c, In c cs -> In c (children node)) ->
  uniform node -> NoDup (ids node) ->
  forall k st st' P s,
    numeric st -> quiet node st ->
    framed s0 (l_store st) ->
    tracks (P ++ pendingLog st) s (l_store st) ->
    childLoop (abActions bFac) bFac node isMax cs k st = Some st' ->
    tracks (P ++ pendingLog st') s (l_store st') /\
    exists v, l_curVal st' = JNum v.
Proof.
  intros HF. induction HF as [|c cs Hc _ IH];
    intros Hin Hu Hnd k st st' P s Hnum Hq Hfr Ht; cbn [childLoop].
  - intros E.
    destruct (missingChildren_tracks node _ st st' P s Ht E) as [H1 H2].
    split; [exact H1|]. rewrite H2. apply Hnum.
  - destruct (Nat.ltb k bFac);
      [|intros [= <-]; split; [exact Ht | apply Hnum]].
    assert (Hcin : In c (children node)) by (apply Hin; now left).
    assert (Hin' : forall c', In c' cs -> In c' (children node))
      by (intros c' H'; apply Hin; now right).
    destruct (l_pruneRest st) eqn:Ep.
    + (* the child is pruned *)
      destruct (pruneChild_tracks bFac node (Some c) st) as (acts & El & Hta).
      pose proof (pruneChild_fields bFac node (Some c) st)
        as (F1 & F2 & F3 & F4 & _).
      cbn zeta in *.
      apply (IH Hin' Hu Hnd).
      * unfold numeric. rewrite F1, F2, F4. exact Hnum.
      * intros Hp. rewrite F3 in Hp. congruence.
      * eapply framed_trans; [exact Hfr | apply pruneChild_framed].
      * rewrite El, app_assoc. now apply (tracks_app _ _ s (l_store st)).
    + (* the child is searched *)
      destruct Hnum as ([a Ha] & [b Hb] & [v Hv]).
      rewrite Ha, Hb.
      destruct (abActions bFac c (JNum a) (JNum b) (negb isMax) (l_store st))
        as [[res s1]|] eqn:E; [|discriminate].
      destruct (Hc a b (negb isMax) (l_store st) res s1 Hfr E)
        as ([rv Hrv] & Htc).
      destruct (afterChild_tracks node isMax res s1 st rv Hrv)
        as (sv & El & Ex & Hsv & Hts & Hnum');
        [unfold numeric; splits; eauto|].
      (* the shape of the child's result *)
      assert (Hres :
        (isLeaf c = true /\ enterActions res = enterLeaf c /\
         childActionsList res = [] /\ exitActions res = exitLeaf c) \/
        (isLeaf c = false /\
         (exists oa ob, enterActions res
                        = enterInner c oa (JNum a) ob (JNum b)) /\
         childActionsList res <> [] /\ exitActions res = exitInner c)).
      { rewrite abActions_lists in E. destruct (isLeaf c).
        - left. injection E as <- _. auto.
        - right. destruct (childLoop _ _ _ _ _ _ _) as [stc|];
            [|discriminate].
          injection E as <- _. cbn. splits; eauto.
          now destruct (l_childActionsList stc). }
      apply (IH Hin' Hu Hnd); auto.
      * (* the pending exit actions stay quiet *)
        intros _. rewrite Ex. apply Forall_app. split.
        -- rewrite Forall_forall. intros x Hx. left.
           destruct Hres as [(_ & _ & _ & Ee) | (_ & _ & _ & Ee)];
             rewrite Ee in Hx;
             [now apply (silent_exitLeaf c) | now apply (silent_exitInner c)].
        -- destruct Hres as [(_ & _ & Ec & _) | (Elc & _ & Ec & _)].
           ++ rewrite Ec. constructor.
           ++ destruct (childActionsList res); [congruence|].
              cbn [List.length Nat.eqb].
              eapply Forall_impl; [|exact Hsv]. intros x Hx. right.
              split; [exact Hx|]. intros c' Hc'.
              rewrite (Hu node (nodes_self node) c' c Hc' Hcin). exact Elc.
      * eapply framed_trans; [exact Hfr|].
        eapply framed_trans; [exact (abActions_framed _ _ _ _ _ _ _ _ E)|].
        apply afterChild_framed.
      * (* field by field, the last action is the same when the child's
           actions are put after the pending ones *)
        assert (Hchrono :
          tracks ((P ++ pendingLog st)
                  ++ (enterActions res ++ concat (childActionsList res)
                      ++ exitActions res) ++ sv)
                 s (l_store (afterChild node isMax res s1 st))).
        { apply (tracks_app _ _ s (l_store st)); [exact Ht|].
          now apply (tracks_app _ _ _ s1). }
        eapply tracks_ext; [|exact Hchrono].
        intros o k' k'' Hk'. unfold pendingLog. rewrite El, Ex.
        rewrite concat_middle.
        specialize (Hq Ep). rewrite Forall_forall in Hq.
        assert (Hexit : lastNew (exitActions res) o k' = None).
        { apply lastNew_silent. intros x Hx _ Ek.
          assert (shadowOf (key x) = None); [|congruence].
          destruct Hres as [(_ & _ & _ & Ee) | (_ & _ & _ & Ee)];
            rewrite Ee in Hx;
            [now apply (silent_exitLeaf c) | now apply (silent_exitInner c)]. }
        destruct Hres as [(Elc & Ee & Ec & _) | (Elc & (oa & ob & Ee) & Ec & _)].
        -- (* a leaf: the update goes before the pending exit actions,
              which have no shadow *)
           rewrite Ec in *. cbn [List.length Nat.eqb concat app].
           assert (Hpend : lastNew (l_lastChildExitActions st) o k' = None).
           { apply lastNew_silent. intros x Hx Ho Ek.
             destruct (Hq x Hx) as [Hn | [_ Hkids]]; [congruence|].
             rewrite (Hkids c Hcin) in Elc. discriminate. }
           assert (Henter : lastNew (enterActions res) o k' = None).
           { apply lastNew_silent. intros x Hx _ Ek. rewrite Ee in Hx.
             pose proof (silent_enterLeaf c x Hx). congruence. }
           rewrite !lastNew_app, ?app_nil_r, Hexit, Hpend, Henter.
           cbn [lastNew fold_left].
           now destruct (lastNew sv o k').
        -- (* not a leaf: its enter actions target the child, the
              pending ones the node *)
           destruct (childActionsList res) as [|x l] eqn:Ecl; [congruence|].
           cbn [List.length Nat.eqb]. rewrite ?app_nil_r.
           rewrite !lastNew_app, Hexit.
           destruct (lastNew sv o k'); [reflexivity|].
           destruct (lastNew (concat (x :: l)) o k'); [reflexivity|].
           destruct (lastNew (l_lastChildExitActions st) o k') as [v1|] eqn:E1,
                    (lastNew (enterActions res) o k') as [v2|] eqn:E2;
             try reflexivity.
           exfalso.
           destruct (lastNew_In _ _ _ _ E1) as (x1 & Hx1 & Ht1 & _).
           destruct (lastNew_In _ _ _ _ E2) as (x2 & Hx2 & Ht2 & _).
           apply targets_spec in Ht1, Ht2.
           destruct Ht1 as [Ho1 Hk1], Ht2 as [Ho2 Hk2].
           destruct (Hq x1 Hx1) as [Hn | [[Hob _] _]]; [congruence|].
           rewrite Ee in Hx2. unfold enterInner in Hx2.
           apply in_app_or in Hx2. destruct Hx2 as [Hx2 | Hx2].
           ++ pose proof (silent_enterLeaf c x2 Hx2). congruence.
           ++ assert (Ho2' : object x2 = Some (ONode (id c)))
                by (destruct Hx2 as [<- | [<- | []]]; reflexivity).
              rewrite Ho1 in Hob. rewrite Ho2 in Ho2'.
              injection Hob as ->. injection Ho2' as Eid.
              destruct (NoDup_ids_child node c Hnd Hcin) as [_ Hni].
              apply Hni. rewrite Eid. apply ids_self.
Qed.

Lemma abActions_tracks :
  forall n,
    uniform n -> NoDup (ids n) -> leavesFinite s0 n ->
    forall a b isMax s r s1,
      framed s0 s ->
      abActions bFac n (JNum a) (JNum b) isMax s = Some (r, s1) ->
      (exists v, returnVal r = JNum v) /\
      tracks (enterActions r ++ concat (childActionsList r) ++ exitActions r)
             s s1.
Proof.
  induction n as [n IH] using TreeNode_ind'.
  intros Hu Hnd Hlf a b isMax s r s1 Hfr. rewrite abActions_lists.
  destruct (isLeaf n) eqn:El.
  - intros [= <- <-]. cbn [returnVal enterActions childActionsList
                             exitActions concat app]. split.
    + destruct (Hlf n (nodes_self n) El) as [z Hz]. exists (Fin z).
      now rewrite (Hfr (ONode (id n)) value eq_refl).
    + apply tracks_silent. intros x Hx. apply in_app_or in Hx.
      destruct Hx; [now apply (silent_enterLeaf n)
                   | now apply (silent_exitLeaf n)].
  - destruct (childLoop _ _ _ _ _ _ _) as [st|] eqn:E; [|discriminate].
    intros [= <- <-].
    cbn [returnVal enterActions childActionsList exitActions].
    destruct (childLoop_tracks n isMax (children n)) with (9 := E)
               (P := enterInner n (s (ONode (id n)) alpha) (JNum a)
                                (s (ONode (id n)) beta) (JNum b))
               (s := s)
      as [Ht Hv]; auto.
    + rewrite Forall_forall in *. intros c Hc a' b' m s' r' s1' Hfr'.
      apply (IH c Hc).
      * intros x Hx. apply Hu. now apply (nodes_child n c x).
      * apply (NoDup_ids_child n c Hnd Hc).
      * now apply (leavesFinite_child s0 n c).
      * exact Hfr'.
    + unfold numeric. cbn. splits; eauto.
    + intros _. constructor.
    + cbn [l_store]. eapply framed_trans; [exact Hfr|].
      eapply framed_trans; now apply framed_write.
    + unfold pendingLog. cbn [l_childActionsList l_lastChildExitActions
                                l_store concat app].
      rewrite app_nil_r. apply tracks_enterInner.
    + split; [exact Hv|].
      rewrite concat_app. cbn [concat]. rewrite app_nil_r.
      unfold pendingLog in Ht. rewrite !app_assoc in *.
      apply (tracks_app _ _ s (l_store st)); [exact Ht|].
      apply tracks_silent, silent_exitInner.
Qed.

End LogRecord.

(* ------------------------------------------------------------------ *)
(** *** The [entered] marks at the end of the log *)

Lemma lastNew_other_key acts o k :
  (forall a, In a acts -> key a <> k) -> lastNew acts o k = None.
Proof. intros H. apply lastNew_silent. intros a Ha _. now apply H. Qed.

Lemma lastNew_enterLeaf n o v :
  lastNew (enterLeaf n) o entered = Some v -> v = JBool true /\ ownMarks n o.
Proof.
  intros H. destruct (lastNew_In _ _ _ _ H) as (a & Ha & Ht & <-).
  apply targets_spec in Ht. destruct Ht as [Ho _]. unfold ownMarks.
  destruct Ha as [<- | [<- | []]]; cbn in *; split; auto.
  injection Ho as <-. auto.
Qed.

Lemma lastNew_exitLeaf n o v :
  lastNew (exitLeaf n) o entered = Some v -> v = JBool false /\ ownMarks n o.
Proof.
  intros H. destruct (lastNew_In _ _ _ _ H) as (a & Ha & Ht & <-).
  apply targets_spec in Ht. destruct Ht as [Ho _]. unfold ownMarks.
  destruct Ha as [<- | []]; cbn in *; split; auto.
Qed.

Lemma lastNew_exitInner n o :
  lastNew (exitInner n) o entered
  = if targets o entered
         (mkAction (Some (ONode (id n))) entered (JBool true) (JBool false))
       || targets o entered
            (mkAction (edgeToParent n) entered (JBool true) (JBool false))
    then Some (JBool false) else None.
Proof.
  unfold exitInner, exitLeaf, lastNew. cbn [app fold_left newVal].
  now destruct (targets o entered (mkAction (Some (ONode (id n))) _ _ _)),
               (targets o entered (mkAction (edgeToParent n) _ _ _)).
Qed.

Lemma exitInner_closes n o :
  ownMarks n o -> lastNew (exitInner n) o entered = Some (JBool false).
Proof.
  intros H. rewrite lastNew_exitInner.
  replace (_ || _) with true; [reflexivity|]. symmetry.
  apply orb_true_iff. destruct H as [-> | H].
  - left. now apply targets_spec.
  - right. now apply targets_spec.
Qed.

Lemma exitInner_marks n o v :
  lastNew (exitInner n) o entered = Some v -> v = JBool false /\ ownMarks n o.
Proof.
  intros H. destruct (lastNew_In _ _ _ _ H) as (a & Ha & Ht & <-).
  apply targets_spec in Ht. destruct Ht as [Ho _]. unfold ownMarks.
  destruct Ha as [<- | [<- | []]]; cbn in *; split; auto.
  injection Ho as <-. auto.
Qed.

Lemma lastNew_enterInner n oa a ob b o :
  lastNew (enterInner n oa a ob b) o entered
  = lastNew (enterLeaf n) o entered.
Proof.
  unfold enterInner. rewrite lastNew_app, lastNew_other_key; [reflexivity|].
  intros x [<- | [<- | []]]; discriminate.
Qed.

Lemma svOK_not_entered node l o :
  Forall (svOK node) l -> lastNew l o entered = None.
Proof.
  intros H. apply lastNew_other_key. rewrite Forall_forall in H.
  intros a Ha E. destruct (H a Ha) as [_ [E' | [E' | E']]]; congruence.
Qed.

Lemma used_fresh n used c cs :
  NoDup (ids n) -> children n = used ++ c :: cs ->
  ~ In (id c) (map id used).
Proof.
  intros Hnd Hch Hin. apply NoDup_ids_inv in Hnd. destruct Hnd as [_ Hnd].
  rewrite Hch, flat_map_app in Hnd. cbn [flat_map] in Hnd.
  apply in_map_iff in Hin. destruct Hin as (u & Eu & Hu).
  apply (NoDup_app_disjoint _ _ (id c) Hnd).
  - apply in_flat_map. exists u. split; [exact Hu|]. rewrite <- Eu.
    apply ids_self.
  - apply in_or_app. left. apply ids_self.
Qed.

Lemma closes_weaken root root' (opened : Obj -> Prop) acts :
  (forall m, In m (nodes root') -> In m (nodes root)) ->
  closes root' (fun _ => False) acts -> closes root opened acts.
Proof.
  intros Hsub H o v E. destruct (H o v E) as [-> | (-> & [[] | (m & ? & ? & ?)])];
    [now left|]. right. split; [reflexivity|]. right. exists m. auto.
Qed.

Lemma abActions_closed bFac n :
  NoDup (ids n) ->
  forall a b isMax s r s1,
    abActions bFac n a b isMax s = Some (r, s1) -> resultClosed n r.
Proof.
  apply (abActions_inv bFac (fun n => NoDup (ids n)) resultClosed loopClosed).
  - intros n0 c H Hc. apply (NoDup_ids_child n0 c H Hc).
  - (* a leaf *)
    intros n0 v _ El. unfold resultClosed. cbn [enterActions exitActions
      childActionsList concat app]. splits.
    + intros o w H. rewrite lastNew_app in H.
      destruct (lastNew (exitLeaf n0) o entered) as [w'|] eqn:Ex.
      * injection H as <-. left. apply (lastNew_exitLeaf n0 o w' Ex).
      * destruct (lastNew_enterLeaf n0 o w H) as [-> [-> | He]].
        -- right. split; [reflexivity|]. right. exists n0.
           split; [apply nodes_self | auto].
        -- exfalso. unfold exitLeaf, lastNew in Ex. cbn in Ex.
           assert (Et : targets o entered
                          (mkAction (edgeToParent n0) entered (JBool true)
                                    (JBool false)) = true)
             by now apply targets_spec.
           rewrite Et in Ex. discriminate.
    + intros o w H. apply (lastNew_enterLeaf n0 o w H).
    + intros o w H. apply (lastNew_exitLeaf n0 o w H).
  - (* before the first child *)
    intros n0 a b cur s _ El. exists []. splits; [reflexivity| |].
    + unfold pendingLog. cbn [l_childActionsList l_lastChildExitActions
                                concat app]. rewrite app_nil_r.
      intros o v H. destruct (lastNew_enterLeaf n0 o v H) as [-> Ho].
      right. auto.
    + intros o v [=].
  - (* after a searched child *)
    intros n0 isMax k c cs st res s1 Hnd Hc Hk Hp (used & Hch & Hcl & Hpend)
           (Rc & Re & Rx).
    exists (used ++ [c]). split; [now rewrite Hch, <- app_assoc|].
    destruct (afterChild_lists n0 isMax res s1 st)
      as (svE & svX & El & Ex & HsvE & HsvX & _).
    unfold pendingLog. rewrite El, Ex. split.
    + intros o v. rewrite concat_middle, !lastNew_app.
      rewrite (svOK_not_entered n0 svX o HsvX),
              (svOK_not_entered n0 svE o HsvE).
      intros H.
      destruct (lastNew (exitActions res) o entered) as [w|] eqn:E1.
      { injection H as <-.
        apply (closes_weaken n0 c (ownMarks n0) _
                 (fun m Hm => nodes_child n0 c m Hc Hm) Rc o w).
        now rewrite !lastNew_app, E1. }
      destruct (lastNew (concat (childActionsList res)) o entered)
        as [w|] eqn:E2.
      { injection H as <-.
        apply (closes_weaken n0 c (ownMarks n0) _
                 (fun m Hm => nodes_child n0 c m Hc Hm) Rc o w).
        now rewrite !lastNew_app, E1, E2. }
      destruct (lastNew (l_lastChildExitActions st) o entered)
        as [w|] eqn:E3,
        (lastNew (enterActions res) o entered) as [w'|] eqn:E4.
      * exfalso. apply (used_fresh n0 used c cs Hnd Hch).
        specialize (Hpend o w E3). specialize (Re o w' E4).
        replace (id c) with (objId o); [exact Hpend|].
        destruct Re as [-> | He]; [reflexivity|].
        destruct (edgeToParent_cases c) as [En | En]; rewrite En in He;
          [discriminate | now injection He as <-].
      * apply Hcl. unfold pendingLog. rewrite !lastNew_app, E3. exact H.
      * injection H as <-.
        apply (closes_weaken n0 c (ownMarks n0) _
                 (fun m Hm => nodes_child n0 c m Hc Hm) Rc o w').
        now rewrite !lastNew_app, E1, E2, E4.
      * apply Hcl. unfold pendingLog. rewrite !lastNew_app, E3. exact H.
    + intros o v. rewrite lastNew_app, (svOK_not_entered n0 svX o HsvX).
      intros H. specialize (Rx o v H). rewrite map_app. apply in_or_app.
      right. left. destruct Rx as [-> | He]; [reflexivity|].
      destruct (edgeToParent_cases c) as [En | En]; rewrite En in He;
        [discriminate | now injection He as <-].
  - (* after a pruned child *)
    intros n0 k c cs st Hnd Hc Hk Hp (used & Hch & Hcl & Hpend).
    exists (used ++ [c]). split; [now rewrite Hch, <- app_assoc|].
    destruct (pruneChild_lists bFac n0 (Some c) st) as (acts & El & Ex & Ha).
    assert (Hno : forall o, lastNew (acts ++ [nodePrunedAction n0]) o entered
                            = None).
    { intros o. apply lastNew_other_key. intros x Hx.
      apply in_app_or in Hx. destruct Hx as [Hx | [<- | []]];
        [|discriminate].
      rewrite Forall_forall in Ha. destruct (Ha x Hx) as (m & _ & _ & ->).
      discriminate. }
    unfold pendingLog. rewrite El, Ex. split.
    + intros o v.
      replace (enterLeaf n0
               ++ concat (l_childActionsList st)
               ++ l_lastChildExitActions st ++ acts ++ [nodePrunedAction n0])
        with ((enterLeaf n0 ++ pendingLog st)
              ++ acts ++ [nodePrunedAction n0])
        by (unfold pendingLog; now rewrite <- !app_assoc).
      rewrite lastNew_app, Hno. apply Hcl.
    + intros o v. rewrite lastNew_app, Hno. intros H.
      rewrite map_app. apply in_or_app. left. now apply (Hpend o v).
  - (* a missing child *)
    intros n0 k st Hnd Hk Hp (used & Hch & Hcl & Hpend).
    exists used. split; [exact Hch|].
    destruct (pruneChild_lists bFac n0 None st) as (acts & El & Ex & ->).
    assert (Hno : forall o, lastNew ([] ++ [nodePrunedAction n0]) o entered
                            = None).
    { intros o. apply lastNew_other_key. intros x [<- | []]. discriminate. }
    unfold pendingLog. rewrite El, Ex. split.
    + intros o v.
      replace (enterLeaf n0
               ++ concat (l_childActionsList st)
               ++ l_lastChildExitActions st ++ [] ++ [nodePrunedAction n0])
        with ((enterLeaf n0 ++ pendingLog st)
              ++ [] ++ [nodePrunedAction n0])
        by (unfold pendingLog; now rewrite <- !app_assoc).
      rewrite lastNew_app, Hno. apply Hcl.
    + intros o v. rewrite lastNew_app, Hno. now apply Hpend.
  - (* the result of a node that is not a leaf *)
    intros n0 k cs st oa a ob b Hnd El (used & Hch & Hcl & Hpend).
    unfold resultClosed.
    cbn [enterActions exitActions childActionsList]. splits.
    + intros o v. rewrite concat_app. cbn [concat]. rewrite app_nil_r.
      rewrite !lastNew_app, lastNew_enterInner. intros H.
      destruct (lastNew (exitInner n0) o entered) as [w|] eqn:E1.
      { injection H as <-. left. apply (exitInner_marks n0 o w E1). }
      assert (Hin : lastNew (enterLeaf n0 ++ pendingLog st) o entered
                    = Some v).
      { unfold pendingLog. now rewrite !lastNew_app. }
      destruct (Hcl o v Hin) as [-> | (-> & [Hown | Hleaf])]; [now left| |].
      * rewrite (exitInner_closes n0 o Hown) in E1. discriminate.
      * right. auto.
    + intros o v. rewrite lastNew_enterInner. intros H.
      apply (lastNew_enterLeaf n0 o v H).
    + intros o v H. apply (exitInner_marks n0 o v H).
Qed.

Lemma alphaBeta_tracks (tree : Tree.t) (root : TreeNode) (s0 : Store)
    (q : ActionListQueue.t) (s1 : Store) :
  Tree.rootNode tree = Some root ->
  uniform root -> NoDup (ids root) -> leavesFinite s0 root ->
  alphaBeta tree s0 = Some (q, s1) ->
  tracks (concat (ActionListQueue.actionListQueue q)) s0 s1.
Proof.
  intros Hr Hu Hnd Hlf Hab.
  destruct (alphaBeta_queue tree root s0 q s1 Hr Hab) as (r & Er & Hq & _).
  destruct (abActions_tracks (Tree.branchingFactor tree) s0 root Hu Hnd Hlf
              NegInf PosInf _ s0 r s1 (framed_refl s0) Er) as [_ Ht].
  rewrite Hq, !concat_app. cbn [concat]. now rewrite !app_nil_r.
Qed.

Lemma alphaBeta_closed (tree : Tree.t) (root : TreeNode) (s0 : Store)
    (q : ActionListQueue.t) (s1 : Store) :
  Tree.rootNode tree = Some root -> NoDup (ids root) ->
  alphaBeta tree s0 = Some (q, s1) ->
  closes root (fun _ => False) (concat (ActionListQueue.actionListQueue q)).
Proof.
  intros Hr Hnd Hab.
  destruct (alphaBeta_queue tree root s0 q s1 Hr Hab) as (r & Er & Hq & _).
  destruct (abActions_closed _ root Hnd _ _ _ _ _ _ Er) as [Hc _].
  rewrite Hq, !concat_app. cbn [concat]. now rewrite !app_nil_r.
Qed.

(* ------------------------------------------------------------------ *)
(** *** The leaves the search went into *)

Lemma lastNew_some acts o k a :
  In a acts -> targets o k a = true -> exists v, lastNew acts o k = Some v.
Proof.
  intros Ha Ht. apply in_split in Ha. destruct Ha as (l1 & l2 & ->).
  rewrite lastNew_app.
  destruct (lastNew (a :: l2) o k) as [v|] eqn:E; [eauto|].
  exfalso. change (a :: l2) with ([a] ++ l2) in E.
  rewrite lastNew_app in E.
  destruct (lastNew l2 o k); [discriminate|].
  rewrite lastNew_one, Ht in E. discriminate.
Qed.

Lemma covered_mono acts acts' x :
  (forall a, In a acts -> In a acts') -> covered acts x -> covered acts' x.
Proof.
  intros H [(a & Ha & ?) | (a & Ha & ?)]; [left | right]; exists a; auto.
Qed.

Lemma pruneInner_grows bFac n acc a :
  In a (fst acc) -> In a (fst (pruneInner bFac n acc)).
Proof.
  intros Ha. destruct (pruneInner_acts bFac n acc) as (new & -> & _).
  apply in_or_app. now left.
Qed.

(** Pruning a subtree records an action on the edge into each of its
    nodes. *)
Lemma pruneInner_covers bFac n :
  prunable bFac n ->
  forall acc x, In x (nodes n) -> cutOff (fst (pruneInner bFac n acc)) x.
Proof.
  induction n as [n IH] using TreeNode_ind'. intros Hp acc x Hx.
  rewrite pruneInner_eq. apply nodes_inv in Hx.
  destruct Hx as [-> | (c & Hc & Hx)].
  - apply (forChildren_rel
             (fun a b => cutOff (fst a) n -> cutOff (fst b) n)); auto.
    + rewrite Forall_forall. intros c _ s (a & Ha & H). exists a.
      split; [now apply pruneInner_grows | exact H].
    + destruct (Hp n (nodes_self n)) as [Hpar _].
      unfold edgeToParent. destruct (parentNode n); [|congruence].
      cbn [fst].
      exists (mkAction (Some (OEdge (id n))) pruned (JBool false)
                       (JBool true)).
      split; [apply in_or_app; right; now left | auto].
  - apply (forChildren_reaches
             (fun a => cutOff (fst a) x) (pruneInner bFac) bFac c).
    + intros s. rewrite Forall_forall in IH. apply (IH c Hc); [|exact Hx].
      intros y Hy. apply Hp. now apply (nodes_child n c y).
    + intros c' s (a & Ha & H). exists a.
      split; [now apply pruneInner_grows | exact H].
    + cbn. apply (Hp n (nodes_self n)).
    + exact Hc.
Qed.

Lemma pruneChild_grows bFac node child st a :
  In a (pendingLog st) -> In a (pendingLog (pruneChild bFac node child st)).
Proof.
  destruct (pruneChild_lists bFac node child st) as (acts & El & Ex & _).
  unfold pendingLog. rewrite El, Ex, !in_app_iff. tauto.
Qed.

Lemma pruneChild_covers bFac node c st x :
  prunable bFac c -> In x (nodes c) ->
  cutOff (pendingLog (pruneChild bFac node (Some c) st)) x.
Proof.
  intros Hp Hx.
  destruct (pruneInner_covers bFac c Hp ([], l_store st) x Hx)
    as (a & Ha & H).
  exists a. split; [|exact H].
  unfold pendingLog, pruneChild, generatePruneActionList.
  destruct (pruneInner bFac c ([], l_store st)) as [acts s1].
  cbn [fst l_lastChildExitActions l_childActionsList] in *.
  rewrite !in_app_iff. tauto.
Qed.

Lemma afterChild_grows node isMax res s1 st a :
  In a (pendingLog st)
  \/ In a (enterActions res ++ concat (childActionsList res)
           ++ exitActions res) ->
  In a (pendingLog (afterChild node isMax res s1 st)).
Proof.
  destruct (afterChild_lists node isMax res s1 st)
    as (svE & svX & El & Ex & _).
  unfold pendingLog. rewrite El, Ex, !concat_app. cbn [concat].
  rewrite !in_app_iff. tauto.
Qed.

Section Coverage.

Variable bFac : nat.

Lemma missingChildren_grows node n : forall st st',
  missingChildren bFac node n st = Some st' ->
  forall a, In a (pendingLog st) -> In a (pendingLog st').
Proof.
  induction n as [|n IH]; intros st st'; cbn [missingChildren].
  - intros [= <-]. auto.
  - destruct (l_pruneRest st); [|discriminate]. intros H a Ha.
    apply (IH _ _ H). now apply pruneChild_grows.
Qed.

(** When the loop over the children ends, its log has gone into or cut
    off every node below each child. *)
Lemma childLoop_covers node isMax cs :
  Forall (fun c =>
            prunable bFac c /\
            forall a b m s r s1,
              abActions bFac c a b m s = Some (r, s1) ->
              forall x, In x (nodes c) ->
                covered (enterActions r ++ concat (childActionsList r)
                         ++ exitActions r) x) cs ->
  forall k st st',
    k + List.length cs <= bFac ->
    childLoop (abActions bFac) bFac node isMax cs k st = Some st' ->
    (forall a, In a (pendingLog st) -> In a (pendingLog st')) /\
    forall c x, In c cs -> In x (nodes c) -> covered (pendingLog st') x.
Proof.
  intros HF. induction HF as [|c cs [Hp Hc] _ IH]; intros k st st' Hk;
    cbn [childLoop].
  - intros H. split; [exact (missingChildren_grows _ _ _ _ H)|].
    intros c x [].
  - cbn [List.length] in Hk.
    destruct (Nat.ltb_spec k bFac) as [Hlt|Hge]; [|lia].
    destruct (l_pruneRest st) eqn:Epr.
    + intros H. destruct (IH (S k) _ st' ltac:(lia) H) as [Hg Hcov].
      split.
      * intros a Ha. apply Hg. now apply pruneChild_grows.
      * intros c' x [<- | Hc'] Hx; [|now apply (Hcov c')].
        right.
        destruct (pruneChild_covers bFac node c st x Hp Hx)
          as (a & Ha & H').
        exists a. split; [apply Hg, Ha | exact H'].
    + destruct (abActions bFac c (l_a st) (l_b st) (negb isMax) (l_store st))
        as [[res s1]|] eqn:E; [|discriminate].
      intros H. destruct (IH (S k) _ st' ltac:(lia) H) as [Hg Hcov].
      split.
      * intros a Ha. apply Hg, afterChild_grows. now left.
      * intros c' x [<- | Hc'] Hx; [|now apply (Hcov c')].
        apply (covered_mono
                 (enterActions res ++ concat (childActionsList res)
                  ++ exitActions res)).
        -- intros a Ha. apply Hg, afterChild_grows. now right.
        -- exact (Hc _ _ _ _ _ _ E x Hx).
Qed.

(** The log of a search goes into or cuts off every node of the
    subtree. *)
Lemma abActions_covers n :
  tidy n -> List.length (children n) <= bFac ->
  (forall c, In c (children n) -> prunable bFac c) ->
  forall a b isMax s r s1,
    abActions bFac n a b isMax s = Some (r, s1) ->
    forall x, In x (nodes n) ->
      covered (enterActions r ++ concat (childActionsList r)
               ++ exitActions r) x.
Proof.
  induction n as [n IH] using TreeNode_ind'.
  intros Ht Hlen Hpr a b isMax s r s1. rewrite abActions_lists.
  destruct (isLeaf n) eqn:El.
  - intros [= <- _] x Hx. apply nodes_inv in Hx.
    destruct Hx as [-> | (c & Hc & _)].
    + left.
      exists (mkAction (Some (ONode (id n))) entered (JBool false)
                       (JBool true)).
      cbn. auto.
    + destruct (Ht n (nodes_self n)) as [Hnil _].
      rewrite (Hnil El) in Hc. destruct Hc.
  - destruct (childLoop _ _ _ _ _ _ _) as [st|] eqn:E; [|discriminate].
    intros [= <- _] x Hx.
    cbn [enterActions childActionsList exitActions].
    apply nodes_inv in Hx. destruct Hx as [-> | (c & Hc & Hx)].
    + left.
      exists (mkAction (Some (ONode (id n))) entered (JBool false)
                       (JBool true)).
      unfold enterInner, enterLeaf. cbn. auto.
    + destruct (childLoop_covers n isMax (children n)) with (3 := E)
        as [_ Hcov].
      * rewrite Forall_forall in *. intros c' Hc'.
        split; [now apply Hpr|].
        apply (IH c' Hc').
        -- now apply (tidy_child n c').
        -- apply (Hpr c' Hc' c' (nodes_self c')).
        -- intros c'' Hc''. apply (prunable_child bFac c' c'');
             [now apply Hpr | exact Hc''].
      * cbn. exact Hlen.
      * apply (covered_mono (pendingLog st)); [|exact (Hcov c x Hc Hx)].
        intros a0 Ha. apply in_or_app. right. apply in_or_app. left.
        rewrite concat_app. cbn [concat]. rewrite app_nil_r. exact Ha.
Qed.

End Coverage.

Lemma leavesStay_child n c a :
  In c (children n) -> leavesStay c a -> leavesStay n a.
Proof.
  intros Hc H Hk Hv i Ho. destruct (H Hk Hv i Ho) as (x & Hx & Hl & E).
  exists x. split; [now apply (nodes_child n c x) | auto].
Qed.

Lemma leavesStay_key n a : key a <> entered -> leavesStay n a.
Proof. intros H Hk. contradiction. Qed.

Lemma leavesStay_set n a : newVal a = JBool true -> leavesStay n a.
Proof. intros H _ Hv. congruence. Qed.

Lemma leavesStay_edge n old new :
  leavesStay n (mkAction (edgeToParent n) entered old new).
Proof.
  intros _ _ i Ho. cbn in Ho.
  destruct (edgeToParent_cases n) as [E | E]; rewrite E in Ho; discriminate.
Qed.

Lemma leavesStay_node n old new :
  isLeaf n = false ->
  leavesStay n (mkAction (Some (ONode (id n))) entered old new).
Proof.
  intros Hl _ _ i [= <-]. exists n. split; [apply nodes_self | auto].
Qed.

Lemma leavesStay_sv n a : svOK n a -> leavesStay n a.
Proof.
  intros [_ Hk]. apply leavesStay_key.
  destruct Hk as [-> | [-> | ->]]; discriminate.
Qed.

Lemma leavesStay_prunedEdge n c a : prunedEdgeOf c a -> leavesStay n a.
Proof. intros (m & _ & _ & ->). now apply leavesStay_key. Qed.

Lemma leavesStay_nodePruned n : leavesStay n (nodePrunedAction n).
Proof. now apply leavesStay_key. Qed.

(** The log of a search never clears the [entered] mark of a leaf. *)
Lemma abActions_stays bFac n a b isMax s r s1 :
  abActions bFac n a b isMax s = Some (r, s1) -> resultStays n r.
Proof.
  apply (abActions_inv bFac (fun _ => True) resultStays
           (fun n _ _ st =>
              isLeaf n = false /\
              Forall (Forall (leavesStay n)) (l_childActionsList st) /\
              Forall (leavesStay n) (l_lastChildExitActions st)));
    auto.
  - (* a leaf *)
    intros n0 v _ _. unfold resultStays, enterLeaf, exitLeaf. cbn. splits;
      repeat (apply Forall_cons || apply Forall_nil);
      auto using leavesStay_edge, leavesStay_set.
  - (* after a searched child *)
    intros n0 isMax0 k0 c cs st res s2 _ Hc _ _
           (Hl & Hacc & Hlce) (He & Hi & Hx).
    destruct (afterChild_lists n0 isMax0 res s2 st)
      as (svE & svX & -> & -> & HsvE & HsvX & _).
    assert (Hup : forall l, Forall (leavesStay c) l ->
                            Forall (leavesStay n0) l).
    { intros l. apply Forall_impl. intros a0. now apply leavesStay_child. }
    assert (Hsv : forall l, Forall (svOK n0) l -> Forall (leavesStay n0) l).
    { intros l. apply Forall_impl. intros a0. now apply leavesStay_sv. }
    splits; auto.
    + apply Forall_app. split; [exact Hacc|].
      apply Forall_app. split.
      * constructor; [|constructor].
        apply Forall_app. split; [|exact Hlce].
        apply Forall_app. auto.
      * eapply Forall_impl; [|exact Hi]. exact Hup.
    + apply Forall_app. auto.
  - (* after a pruned child *)
    intros n0 k0 c cs st _ Hc _ _ (Hl & Hacc & Hlce).
    destruct (pruneChild_lists bFac n0 (Some c) st) as (acts & -> & -> & H).
    splits; auto.
    apply Forall_app. split; [exact Hlce|].
    apply Forall_app. split.
    + eapply Forall_impl; [|exact H]. intros a0 Ha0.
      now apply (leavesStay_prunedEdge n0 c).
    + constructor; [|constructor]. apply leavesStay_nodePruned.
  - intros n0 k0 st _ _ _ (Hl & Hacc & Hlce).
    destruct (pruneChild_lists bFac n0 None st) as (acts & -> & -> & ->).
    splits; auto.
    apply Forall_app. split; [exact Hlce|].
    constructor; [|constructor]. apply leavesStay_nodePruned.
  - (* an interior node *)
    intros n0 k0 cs st oa a0 ob b0 _ Hl (_ & Hacc & Hlce).
    unfold resultStays, enterInner, enterLeaf, exitInner, exitLeaf. cbn.
    splits; [| apply Forall_app; split; [exact Hacc | constructor; auto] |];
      repeat (apply Forall_cons || apply Forall_nil);
      auto using leavesStay_edge, leavesStay_set, leavesStay_node;
      now apply leavesStay_key.
Qed.

Lemma alphaBeta_covers (tree : Tree.t) (root : TreeNode) (s0 : Store)
    (q : ActionListQueue.t) (s1 : Store) :
  Tree.rootNode tree = Some root -> tidy root ->
  List.length (children root) <= Tree.branchingFactor tree ->
  (forall c, In c (children root) ->
             prunable (Tree.branchingFactor tree) c) ->
  alphaBeta tree s0 = Some (q, s1) ->
  forall x, In x (nodes root) ->
    covered (concat (ActionListQueue.actionListQueue q)) x.
Proof.
  intros Hr Ht Hlen Hpr Hab x Hx.
  destruct (alphaBeta_queue tree root s0 q s1 Hr Hab) as (r & Er & Hq & _).
  pose proof (abActions_covers _ root Ht Hlen Hpr _ _ _ _ _ _ Er x Hx) as H.
  rewrite Hq, !concat_app. cbn [concat]. now rewrite !app_nil_r.
Qed.

Lemma alphaBeta_stays (tree : Tree.t) (root : TreeNode) (s0 : Store)
    (q : ActionListQueue.t) (s1 : Store) :
  Tree.rootNode tree = Some root ->
  alphaBeta tree s0 = Some (q, s1) ->
  Forall (leavesStay root) (concat (ActionListQueue.actionListQueue q)).
Proof.
  intros Hr Hab.
  destruct (alphaBeta_queue tree root s0 q s1 Hr Hab) as (r & Er & Hq & _).
  destruct (abActions_stays _ _ _ _ _ _ _ _ Er) as (He & Hi & Hx).
  rewrite Hq, !concat_app. cbn [concat]. rewrite !app_nil_r.
  apply Forall_app. split; [exact He|].
  apply Forall_app. split; [|exact Hx].
  now apply Forall_concat.
Qed.

(** The shadow fields after the log was played on the reset tree are
    those the search left. *)
Lemma played_shadow (root : TreeNode) (steps : list (list Action))
    (s1 h1 : Store) (o : Obj) (k' : Key) :
  Forall (Forall (zoneOK root)) steps ->
  sameShadow s1 h1 -> visible k' = false -> NoDup (ids root) ->
  playAll steps (resetSubTree root h1) o k' = s1 o k'.
Proof.
  intros Hz Hsh Hv Hnd. rewrite playAll_at, lastNew_silent.
  - destruct (resetTree_sameProblem root h1 Hnd) as [Hs _].
    cbn [resetTree] in Hs. now rewrite (Hs o k' Hv), (Hsh o k' Hv).
  - intros a Ha _ Ek. apply in_concat in Ha.
    destruct Ha as (step & Hs & Ha).
    rewrite Forall_forall in Hz. specialize (Hz step Hs).
    rewrite Forall_forall in Hz. destruct (Hz a Ha) as [Hvis _].
    congruence.
Qed.

(** A leaf that the log goes into or cuts off, and whose edge the search
    has not marked pruned, is left entered when the log has been
    played. *)
Lemma played_leaf (root : TreeNode) (steps : list (list Action))
    (s0 s1 h : Store) (m : TreeNode) :
  tracks (concat steps) s0 s1 ->
  closes root (fun _ => False) (concat steps) ->
  Forall (leavesStay root) (concat steps) ->
  covered (concat steps) m ->
  NoDup (ids root) -> In m (nodes root) -> isLeaf m = true ->
  s1 (OEdge (id m)) __pruned <> JBool true ->
  playAll steps h (ONode (id m)) entered = JBool true.
Proof.
  intros Htr Hclo Hst Hcov Hnd Hm Hl Hnp. rewrite playAll_at.
  destruct Hcov as [(a & Ha & Ho & Hk & Hv) | (a & Ha & Ho & Hk)].
  - destruct (lastNew_some _ (ONode (id m)) entered a Ha) as [v Ev];
      [now apply targets_spec|].
    rewrite Ev.
    destruct (Hclo _ v Ev) as [-> | [-> _]]; [|reflexivity].
    exfalso. destruct (lastNew_In _ _ _ _ Ev) as (a' & Ha' & Ht' & Hv').
    apply targets_spec in Ht'. destruct Ht' as [Ho' Hk'].
    rewrite Forall_forall in Hst.
    destruct (Hst a' Ha' Hk' Hv' (id m) Ho') as (x & Hx & Hlx & E).
    rewrite (nodes_id_inj root m x Hnd Hm Hx E) in Hl. congruence.
  - exfalso. apply Hnp.
    destruct (lastNew_some _ (OEdge (id m)) pruned a Ha) as [v Ev];
      [now apply targets_spec|].
    specialize (Htr (OEdge (id m)) pruned __pruned eq_refl).
    rewrite Ev in Htr. destruct Htr as [-> Hr]. exact Hr.
Qed.

(** A log that records the search, played from the beginning on a reset
    tree: every field that has a shadow ends as [setSolution] computes it
    from the shadow. *)
Lemma played_field (root : TreeNode) (steps : list (list Action))
    (s0 s1 h1 : Store) (o : Obj) (k k' : Key) :
  tracks (concat steps) s0 s1 ->
  Forall (Forall (zoneOK root)) steps ->
  sameShadow s1 h1 ->
  shadowOf k = Some k' ->
  s0 o k' = JUndefined ->
  resetSubTree root h1 o k
  = (if Key_eqb k pruned then JBool false else JNull) ->
  NoDup (ids root) ->
  let h2 := playAll steps (resetSubTree root h1) in
  h2 o k = if Key_eqb k pruned then js_or (h2 o k') (JBool false)
           else nullish_or (h2 o k') JNull.
Proof.
  intros Ht Hz Hsh Hk Hblank Hreset Hnd h2.
  pose proof (shadowOf_shadow k k' Hk) as Hv.
  assert (E2 : h2 o k' = s1 o k').
  { subst h2. rewrite playAll_at, lastNew_silent.
    - destruct (resetTree_sameProblem root h1 Hnd) as [Hs _].
      cbn [resetTree] in Hs. now rewrite (Hs o k' Hv), (Hsh o k' Hv).
    - intros a Ha _ Ek. apply in_concat in Ha.
      destruct Ha as (step & Hs & Ha).
      rewrite Forall_forall in Hz. specialize (Hz step Hs).
      rewrite Forall_forall in Hz. destruct (Hz a Ha) as [Hvis _].
      congruence. }
  rewrite E2. subst h2. rewrite playAll_at.
  specialize (Ht o k k' Hk).
  destruct (lastNew (concat steps) o k) as [v|].
  - destruct Ht as [-> Hr]. destruct k; try discriminate; cbn in *.
    + now destruct Hr as [n ->].
    + now destruct Hr as [n ->].
    + now destruct Hr as [n ->].
    + now rewrite Hr.
  - rewrite Ht, Hblank, Hreset. now destruct (Key_eqb k pruned).
Qed.

Lemma animation_end (app : App) :
  appInv app -> heapInv app ->
  (forall q, actionRef app = Some q -> ActionListQueue.inAction q = false) ->
  exists (app1 app2 : App) (root : TreeNode) (q : ActionListQueue.t),
    toggleABVisual app = Some app1 /\
    appGoToEnd app1 = Some app2 /\
    Tree.rootNode (treeRef app2) = Some root /\
    tidy root /\ NoDup (ids root) /\
    actionRef app2 = Some q /\
    ActionListQueue.inAction q = true /\
    ActionListQueue.lastAction q
    = (Z.of_nat (List.length (ActionListQueue.actionListQueue q)) - 1)%Z /\
    (forall m, In m (nodes root) ->
      (forall e, edgeToParent m = Some e ->
         heap (gen app2) e pruned
         = js_or (heap (gen app2) e __pruned) (JBool false)) /\
      (isLeaf m = false ->
       forall k k', (k = value \/ k = alpha \/ k = beta) ->
         shadowOf k = Some k' ->
         heap (gen app2) (ONode (id m)) k
         = nullish_or (heap (gen app2) (ONode (id m)) k') JNull)) /\
    closes root (fun _ => False)
           (concat (ActionListQueue.actionListQueue q)) /\
    (forall m, In m (nodes root) -> isLeaf m = true ->
       heap (gen app2) (OEdge (id m)) __pruned <> JBool true ->
       heap (gen app2) (ONode (id m)) entered = JBool true) /\
    exists h1 : Store,
      heap (gen app2)
      = playAll (ActionListQueue.actionListQueue q) (resetSubTree root h1).
Proof.
  intros Hinv Hh Hoff.
  destruct (ensureActionRef_inv app Hinv)
    as (aq & app1 & E1 & Hinv1 & Ea & Ht & _).
  pose proof (ensureActionRef_heapInv app aq app1 Hinv Hh E1) as [_ Hh1].
  pose proof Hinv1 as (Hd & Hb & Hk & root & lo & hi & Hr & HT & _).
  destruct (appInv_zone app1 aq root Hinv1 Ea Hr) as [Hnd Hz].
  destruct (Hh1 root Hr) as (_ & _ & Hcase). rewrite Ea in Hcase.
  destruct Hcase as (Hcur & s0 & q0 & s1 & Hbl & Hlf & Eab & Hq & Hsh).
  destruct (proj1 (GenTree_shape _ _) _ _ _ _ _ _ HT (le_n 1))
    as (_ & _ & Hty & Hshape).
  assert (Hnl : isLeaf root = false).
  { unfold isLeaf. rewrite Hty by lia. now destruct Hk as [-> | ->]. }
  pose proof (shape_tidy _ _ _ Hshape Hnl) as Htidy.
  pose proof (alphaBeta_tracks _ root s0 q0 s1 Hr
                (shape_uniform _ _ _ Hshape) Hnd Hlf Eab) as Htr.
  rewrite <- Hq in Htr.
  assert (Hin : ActionListQueue.inAction aq = false).
  { unfold ensureActionRef, ensureAction in E1.
    destruct (actionRef app) as [q|] eqn:Eq.
    - injection E1 as <- _. now apply Hoff.
    - destruct (alphaBeta (treeRef app) (heap (gen app)))
        as [[q1 h1]|] eqn:Eab1; [|discriminate].
      injection E1 as <- _. pose proof Hr as Hr0. rewrite Ht in Hr0.
      now destruct (alphaBeta_queue _ root _ _ _ Hr0 Eab1)
        as (_ & _ & _ & ? & _). }
  unfold toggleABVisual. rewrite E1, Hin.
  eexists _, _, root, _. split; [reflexivity|].
  unfold appGoToEnd, withLog. cbn [actionRef gen heap set_heap treeRef].
  rewrite goToEnd_play by (cbn; auto).
  split; [reflexivity|].
  cbn [actionRef gen heap set_heap treeRef set_mutable Tree.rootNode].
  rewrite Hr. cbn [resetTree].
  pose proof (alphaBeta_closed _ root s0 q0 s1 Hr Hnd Eab) as Hclo.
  rewrite <- Hq in Hclo.
  splits; auto; [| |now exists (heap (gen app1))].
  2: { intros m Hm Hl Hnp.
       rewrite (played_shadow root _ s1 _ _ __pruned Hz Hsh eq_refl Hnd)
         in Hnp.
       apply (played_leaf root _ s0 s1 _ m Htr Hclo); auto.
       - rewrite Hq. apply (alphaBeta_stays _ root s0 q0 s1 Hr Eab).
       - rewrite Hq.
         apply (alphaBeta_covers _ root s0 q0 s1 Hr Htidy); auto.
         + destruct (Hshape root (nodes_self root))
             as (Hdr & _ & Hleaf & Hinner).
           destruct (Nat.eq_dec (depth root) (Tree.depth (treeRef app1)))
             as [e|ne].
           * destruct (Hleaf e) as [_ ->]. cbn. lia.
           * destruct Hinner as [-> _]; lia.
         + apply (shape_prunable _ _ _ Hshape). }
  intros m Hm. destruct (Hbl m __pruned Hm eq_refl) as [_ Hbe].
  destruct (resetSubTree_resets root Htidy (heap (gen app1)) m Hm)
    as (_ & Hre & Hrn).
  split.
  - intros e He. destruct (Hre e He) as [_ Hrp].
    destruct (edgeToParent_cases m) as [En | En]; rewrite En in He;
      [discriminate|]. injection He as <-.
    exact (played_field root _ s0 s1 _ (OEdge (id m)) pruned __pruned
             Htr Hz Hsh eq_refl Hbe Hrp Hnd).
  - intros Hl k k' Hkk Hsk. destruct (Hrn Hl) as (Rv & Ra & Rb).
    destruct (Hbl m k' Hm (shadowOf_shadow k k' Hsk)) as [Hbn _].
    assert (Hreset : resetSubTree root (heap (gen app1)) (ONode (id m)) k
                     = if Key_eqb k pruned then JBool false else JNull).
    { destruct Hkk as [-> | [-> | ->]]; assumption. }
    pose proof (played_field root _ s0 s1 _ (ONode (id m)) k k'
                  Htr Hz Hsh Hsk Hbn Hreset Hnd) as H.
    destruct Hkk as [-> | [-> | ->]]; exact H.
Qed.

(** X24.  The animation ends in the solution.  From any state the
    handlers can reach in which playback is off, Start Animation followed
    by the jump to the end raises nothing and leaves the cursor on the
    last step; then Show Solution would change no value, no bound and no
    edge mark of the tree: every edge's [pruned] and every node's [value],
    [alpha] and [beta] already hold what [setSolution] assigns. *)
Theorem animation_ends_in_the_solution :
  forall (randomRound : nat -> Z -> Z) (evs : list Event) (app : App),
    handleAll randomRound (Regenerate :: evs) mountedApp = Some app ->
    (forall q, actionRef app = Some q ->
               ActionListQueue.inAction q = false) ->
    exists (app1 app2 : App) (root : TreeNode) (q : ActionListQueue.t),
      toggleABVisual app = Some app1 /\
      appGoToEnd app1 = Some app2 /\
      Tree.rootNode (treeRef app2) = Some root /\
      actionRef app2 = Some q /\
      ActionListQueue.lastAction q
      = (Z.of_nat (List.length (ActionListQueue.actionListQueue q)) - 1)%Z /\
      forall m, In m (nodes root) ->
        (forall e, edgeToParent m = Some e ->
           setSolution (Some root) (heap (gen app2)) e pruned
           = heap (gen app2) e pruned) /\
        (forall k, k = value \/ k = alpha \/ k = beta ->
           setSolution (Some root) (heap (gen app2)) (ONode (id m)) k
           = heap (gen app2) (ONode (id m)) k).
Proof.
  intros randomRound evs app E Hoff.
  destruct (session_heapInv randomRound evs app E) as [Hinv Hh].
  destruct (animation_end app Hinv Hh Hoff)
    as (app1 & app2 & root & q & E1 & E2 & Hr & Htidy & Hnd & Ea & _ & Hl
        & Hend & _).
  exists app1, app2, root, q. splits; auto.
  intros m Hm. destruct (Hend m Hm) as [He Hn].
  destruct (setSolutionForSubTree_solves root Htidy (heap (gen app2)) m Hm)
    as [Se Sn].
  cbn [setSolution]. split.
  - intros e Hee. now rewrite (Se e Hee), (He e Hee).
  - intros k Hk. destruct (isLeaf m) eqn:El.
    + apply (setSolutionForSubTree_modifies root (heap (gen app2))).
      intros (m' & Hm' & [[Hedge _] | (Eo & El' & _)]).
      * destruct (edgeToParent_cases m') as [En | En]; rewrite En in Hedge;
          discriminate.
      * injection Eo as Eo.
        rewrite (nodes_id_inj root m m' Hnd Hm Hm' Eo) in El. congruence.
    + destruct (Sn eq_refl) as (Sv & Sa & Sb & _).
      destruct Hk as [-> | [-> | ->]].
      * rewrite Sv. symmetry.
        exact (Hn eq_refl value __value (or_introl eq_refl) eq_refl).
      * rewrite Sa. symmetry.
        exact (Hn eq_refl alpha __alpha (or_intror (or_introl eq_refl))
                  eq_refl).
      * rewrite Sb. symmetry.
        exact (Hn eq_refl beta __beta (or_intror (or_intror eq_refl))
                  eq_refl).
Qed.

(** The instance of [animation_ends_in_the_solution] for the tree of
    depth 4 of [deepDraws], after Check Answer has compiled the log. *)
Lemma animation_ends_in_the_solution_witness :
  exists (app app1 app2 : App) (root : TreeNode),
    handleAll deepDraws [Regenerate; IncrDepth 1; CheckAnswer] mountedApp
    = Some app /\
    toggleABVisual app = Some app1 /\
    appGoToEnd app1 = Some app2 /\
    Tree.rootNode (treeRef app2) = Some root /\
    setSolution (Some root) (heap (gen app2)) (ONode (id root)) value
    = heap (gen app2) (ONode (id root)) value.
Proof.
  destruct (handleAll deepDraws [Regenerate; IncrDepth 1; CheckAnswer]
              mountedApp) as [app|] eqn:E; [|vm_compute in E; discriminate].
  assert (Hoff : forall q, actionRef app = Some q ->
                           ActionListQueue.inAction q = false).
  { vm_compute in E. injection E as <-. now intros q [= <-]. }
  destruct (animation_ends_in_the_solution deepDraws
              [IncrDepth 1; CheckAnswer] app E Hoff)
    as (app1 & app2 & root & q & E1 & E2 & Hr & _ & _ & H).
  exists app, app1, app2, root. splits; auto.
  apply (H root (nodes_self root)). now left.
Defined.

(** X25.  At the end of the animation only leaves are left highlighted:
    from any state the handlers can reach in which playback is off, after
    Start Animation and the jump to the end no edge of the tree and no
    node that is not a leaf is marked entered, while every leaf the search
    went into, that is, every leaf the edge into which the search has not
    marked pruned, is still marked entered: leaving a leaf un-enters only
    the edge into it. *)
Theorem animation_end_leaves_only_leaves_entered :
  forall (randomRound : nat -> Z -> Z) (evs : list Event) (app : App),
    handleAll randomRound (Regenerate :: evs) mountedApp = Some app ->
    (forall q, actionRef app = Some q ->
               ActionListQueue.inAction q = false) ->
    exists (app1 app2 : App) (root : TreeNode),
      toggleABVisual app = Some app1 /\
      appGoToEnd app1 = Some app2 /\
      Tree.rootNode (treeRef app2) = Some root /\
      forall m, In m (nodes root) ->
        (forall e, edgeToParent m = Some e ->
           heap (gen app2) e entered = JBool false) /\
        (isLeaf m = false ->
         heap (gen app2) (ONode (id m)) entered = JBool false) /\
        (isLeaf m = true ->
         heap (gen app2) (OEdge (id m)) __pruned <> JBool true ->
         heap (gen app2) (ONode (id m)) entered = JBool true).
Proof.
  intros randomRound evs app E Hoff.
  destruct (session_heapInv randomRound evs app E) as [Hinv Hh].
  destruct (animation_end app Hinv Hh Hoff)
    as (app1 & app2 & root & q & E1 & E2 & Hr & Htidy & Hnd & _ & _ & _
        & _ & Hclo & Hleaf & h1 & Eh).
  exists app1, app2, root. splits; auto.
  intros m Hm.
  destruct (resetSubTree_resets root Htidy h1 m Hm) as (Rn & Re & _).
  split; [|split; [|exact (Hleaf m Hm)]]; rewrite Eh.
  - intros e He. rewrite playAll_at.
    destruct (lastNew _ e entered) as [v|] eqn:El; [|apply (Re e He)].
    destruct (Hclo e v El) as [-> | (_ & [[] | (m' & _ & _ & ->)])];
      [reflexivity|].
    destruct (edgeToParent_cases m) as [En | En]; rewrite En in He;
      discriminate.
  - intros Hl. rewrite playAll_at.
    destruct (lastNew _ (ONode (id m)) entered) as [v|] eqn:El; [|exact Rn].
    destruct (Hclo _ v El) as [-> | (_ & [[] | (m' & Hm' & Hl' & Eo)])];
      [reflexivity|].
    injection Eo as Eo.
    rewrite (nodes_id_inj root m m' Hnd Hm Hm' Eo) in Hl. congruence.
Qed.

(** The instance of [animation_end_leaves_only_leaves_entered] for the
    scenario, right after the tree was generated: the root is not marked
    at the end, the first leaf is. *)
Lemma animation_end_leaves_only_leaves_entered_witness :
  exists (app app1 app2 : App) (root leaf : TreeNode),
    handleAll scenarioDraws [Regenerate] mountedApp = Some app /\
    toggleABVisual app = Some app1 /\
    appGoToEnd app1 = Some app2 /\
    Tree.rootNode (treeRef app2) = Some root /\
    In leaf (nodes root) /\ isLeaf leaf = true /\
    heap (gen app2) (ONode (id root)) entered = JBool false /\
    heap (gen app2) (ONode (id leaf)) entered = JBool true.
Proof.
  destruct (handleAll scenarioDraws [Regenerate] mountedApp)
    as [app|] eqn:E; [|vm_compute in E; discriminate].
  assert (Hoff : forall q, actionRef app = Some q ->
                           ActionListQueue.inAction q = false).
  { vm_compute in E. injection E as <-. intros q [=]. }
  destruct (animation_end_leaves_only_leaves_entered scenarioDraws []
              app E Hoff) as (app1 & app2 & root & E1 & E2 & Hr & H).
  exists app, app1, app2, root, (nth 2 (nodes root) root).
  split; [reflexivity|]. split; [exact E1|]. split; [exact E2|].
  split; [exact Hr|].
  destruct (H root (nodes_self root)) as (_ & Hroot & _).
  pose proof (H (nth 2 (nodes root) root)) as Hleaf.
  vm_compute in E. injection E as <-.
  vm_compute in E1. injection E1 as <-.
  vm_compute in E2. injection E2 as <-.
  vm_compute in Hr. injection Hr as <-.
  match type of Hleaf with ?P -> _ => assert (Hin : P) end;
    [|destruct (Hleaf Hin) as (_ & _ & Hent);
      split; [exact Hin|]; split; [reflexivity|];
      split; [now apply Hroot|];
      apply Hent; [reflexivity | vm_compute; discriminate]].
  cbn. auto.
Defined.
